(** * Network-flow solvers of graph-algorithms: a shallow embedding

    The Python sources [util.py], [maximum_flow.py], [feasible_flow.py],
    [minimum_flow.py], [shortest_path.py] (Bellman-Ford only) and
    [minimum_cost_flow.py] are transcribed function by function.

    - Nodes are Python [str]; edges are pairs of nodes.
    - Numbers are Python [int]s, or the float values that [float("inf")]
      produces when it is mixed with ints under [+], [-], [*] and unary
      [-]; an int that meets a float is converted to a float first, which
      raises [OverflowError] when the int is beyond the double range
      (see [Num]).
    - A Python [dict] keeps its keys in insertion order and the searches
      depend on that order, so a dict is an association list with
      in-place update (see [Dict]).
    - A [KeyError] and its relatives are values of [error]; a [while] loop
      takes a bound on its number of iterations and answers [OutOfFuel]
      when the bound is reached. *)

From Stdlib Require Import List ZArith String Bool Lia Arith.
Import ListNotations.

Local Open Scope Z_scope.

(** ** Errors *)

Inductive error : Type :=
| KeyError      (* subscript of a dict with an absent key *)
| IndexError    (* subscript of an empty list *)
| TypeError     (* subscript of [None] *)
| OverflowError (* an int too large to convert to a float *)
| OutOfFuel.    (* a [while] loop did not finish within its bound *)

Inductive result (A : Type) : Type :=
| Ok (a : A)
| Err (e : error).

Arguments Ok {A} a.
Arguments Err {A} e.

Definition bind {A B : Type} (c : result A) (k : A -> result B) : result B :=
  match c with
  | Ok a => k a
  | Err e => Err e
  end.

Notation "x <- c ;; k" := (bind c (fun x => k))
  (at level 61, c at next level, right associativity).
Notation "' pat <- c ;; k" := (bind c (fun x => match x with pat => k end))
  (at level 61, pat pattern, c at next level, right associativity).

(** ** Python numbers: [int] together with [inf], [-inf] and [nan] *)

Module Num.

(** Every number in the solvers starts as an [int] or as [float("inf")].
    Ints are closed under the operations used; as soon as a float takes
    part the result is one of [inf], [-inf], [nan], never a finite float. *)
Inductive num : Type :=
| Int (z : Z)
| PosInf
| NegInf
| NaN.

(** Under [+], [-] and [*] an int that meets a float is converted to a
    float: CPython rounds it to the nearest double, ties to even, and
    raises [OverflowError] when the result is beyond the largest double
    [2^1024 - 2^971], that is from the magnitude [2^1024 - 2^970] on. Two
    ints, or two floats, are never converted. *)
Definition float_limit : Z := 2 ^ 1024 - 2 ^ 970.

Definition huge (z : Z) : bool := float_limit <=? Z.abs z.

#[global] Arguments huge : simpl never.

Definition overflows (a b : num) : bool :=
  match a, b with
  | Int _, Int _ => false
  | Int x, _ => huge x
  | _, Int y => huge y
  | _, _ => false
  end.

(** The values of [a + b], [a - b] and [a * b] when no conversion fails. *)
Definition plus (a b : num) : num :=
  match a, b with
  | Int x, Int y => Int (x + y)
  | NaN, _ | _, NaN => NaN
  | PosInf, NegInf | NegInf, PosInf => NaN
  | PosInf, _ | _, PosInf => PosInf
  | NegInf, _ | _, NegInf => NegInf
  end.

Definition neg (a : num) : num :=
  match a with
  | Int x => Int (- x)
  | PosInf => NegInf
  | NegInf => PosInf
  | NaN => NaN
  end.

Definition minus (a b : num) : num :=
  match a, b with
  | Int x, Int y => Int (x - y)
  | NaN, _ | _, NaN => NaN
  | PosInf, PosInf | NegInf, NegInf => NaN
  | PosInf, _ | _, NegInf => PosInf
  | NegInf, _ | _, PosInf => NegInf
  end.

Definition times (a b : num) : num :=
  match a, b with
  | Int x, Int y => Int (x * y)
  | NaN, _ | _, NaN => NaN
  | Int x, PosInf | PosInf, Int x =>
      if x =? 0 then NaN else if x >? 0 then PosInf else NegInf
  | Int x, NegInf | NegInf, Int x =>
      if x =? 0 then NaN else if x >? 0 then NegInf else PosInf
  | PosInf, PosInf | NegInf, NegInf => PosInf
  | PosInf, NegInf | NegInf, PosInf => NegInf
  end.

(** [a + b], [a - b] and [a * b]. *)
Definition add (a b : num) : result num :=
  if overflows a b then Err OverflowError else Ok (plus a b).

Definition sub (a b : num) : result num :=
  if overflows a b then Err OverflowError else Ok (minus a b).

Definition mul (a b : num) : result num :=
  if overflows a b then Err OverflowError else Ok (times a b).

(** [a < b]; every comparison with [nan] is false. A comparison of an int
    with a float is exact and converts nothing. *)
Definition ltb (a b : num) : bool :=
  match a, b with
  | Int x, Int y => x <? y
  | NaN, _ | _, NaN => false
  | NegInf, NegInf => false
  | NegInf, _ => true
  | _, NegInf => false
  | PosInf, _ => false
  | Int _, PosInf => true
  end.

Definition gtb (a b : num) : bool := ltb b a.

(** [a == b] and [a != b]. *)
Definition eqb (a b : num) : bool :=
  match a, b with
  | Int x, Int y => x =? y
  | PosInf, PosInf | NegInf, NegInf => true
  | _, _ => false
  end.

Definition neb (a b : num) : bool := negb (eqb a b).

(** The builtin [sum] of a list, starting from the int [0]. *)
Fixpoint sum_from (acc : num) (l : list num) : result num :=
  match l with
  | [] => Ok acc
  | x :: rest => acc' <- add acc x ;; sum_from acc' rest
  end.

Definition sum (l : list num) : result num := sum_from (Int 0) l.

(** The builtin [min(a, b, c)]: a later argument replaces the current
    one only when it is strictly smaller. *)
Definition min3 (a b c : num) : num :=
  let m := if ltb b a then b else a in
  if ltb c m then c else m.

End Num.

Export Num.

(** ** Nodes and edges *)

Definition node : Type := string.
Definition edge : Type := (node * node)%type.

Definition node_eq_dec : forall a b : node, {a = b} + {a <> b} := string_dec.

Definition edge_eq_dec : forall a b : edge, {a = b} + {a <> b}.
Proof. decide equality; apply string_dec. Defined.

(** [x in l] for a list of nodes or of edges. *)
Definition mem_node (x : node) (l : list node) : bool :=
  if in_dec node_eq_dec x l then true else false.

Definition mem_edge (x : edge) (l : list edge) : bool :=
  if in_dec edge_eq_dec x l then true else false.

(** ** Python dicts *)

Module Dict.
Section WithKey.
Context {K V : Type} (eq_dec : forall a b : K, {a = b} + {a <> b}).

Definition dict : Type := list (K * V).

(** [d.get(k)] *)
Fixpoint get (d : dict) (k : K) : option V :=
  match d with
  | [] => None
  | (k', v) :: rest => if eq_dec k k' then Some v else get rest k
  end.

(** [d[k]], raising [KeyError] *)
Definition lookup (d : dict) (k : K) : result V :=
  match get d k with
  | Some v => Ok v
  | None => Err KeyError
  end.

(** [d[k] = v]: an existing key keeps its place, a new one goes last. *)
Fixpoint set (d : dict) (k : K) (v : V) : dict :=
  match d with
  | [] => [(k, v)]
  | (k', v') :: rest =>
      if eq_dec k k' then (k', v) :: rest else (k', v') :: set rest k v
  end.

(** [list(d.keys())] *)
Definition keys (d : dict) : list K := map fst d.

End WithKey.
End Dict.

Definition edict : Type := @Dict.dict edge num.
Definition eget (d : edict) (e : edge) : option num := Dict.get edge_eq_dec d e.
Definition elookup (d : edict) (e : edge) : result num := Dict.lookup edge_eq_dec d e.
Definition eset (d : edict) (e : edge) (v : num) : edict := Dict.set edge_eq_dec d e v.
Definition ekeys (d : edict) : list edge := Dict.keys d.

Definition ndict (V : Type) : Type := @Dict.dict node V.
Definition nget {V} (d : ndict V) (n : node) : option V := Dict.get node_eq_dec d n.
Definition nlookup {V} (d : ndict V) (n : node) : result V := Dict.lookup node_eq_dec d n.
Definition nset {V} (d : ndict V) (n : node) (v : V) : ndict V := Dict.set node_eq_dec d n v.

(** ** util.py *)

Module Util.

(** [get_path_edges]: the consecutive pairs of a node list. *)
Fixpoint get_path_edges (path_nodes : list node) : list edge :=
  match path_nodes with
  | u :: ((v :: _) as rest) => (u, v) :: get_path_edges rest
  | _ => []
  end.

(** The loop of [calculate_path_capacity], from the current minimum. *)
Fixpoint path_capacity_from (capacities : edict) (path_capacity : num)
    (path_edges : list edge) : result num :=
  match path_edges with
  | [] => Ok path_capacity
  | e :: rest =>
      c <- elookup capacities e ;;
      path_capacity_from capacities
        (if Num.ltb c path_capacity then c else path_capacity) rest
  end.

Definition calculate_path_capacity (capacities : edict) (path_edges : list edge)
    : result num :=
  path_capacity_from capacities PosInf path_edges.

(** [for e in es: acc = op(acc, flow[e])] *)
Fixpoint accumulate (op : num -> num -> result num) (flow : edict)
    (es : list edge) (acc : num) : result num :=
  match es with
  | [] => Ok acc
  | e :: rest =>
      f <- elookup flow e ;;
      acc' <- op acc f ;;
      accumulate op flow rest acc'
  end.

(** [calculate_flow_value]: the net outgoing flow of [node], over the keys
    of the flow dict. *)
Definition calculate_flow_value (flow : edict) (n : node) : result num :=
  let outgoing := filter (fun e => if node_eq_dec (fst e) n then true else false) (ekeys flow) in
  let incoming := filter (fun e => if node_eq_dec (snd e) n then true else false) (ekeys flow) in
  flow_value <- accumulate Num.add flow outgoing (Int 0) ;;
  accumulate Num.sub flow incoming flow_value.

End Util.

Export Util.

(** ** maximum_flow.py *)

Module MaximumFlow.

(** The loop of [construct_residual_graph] over the edge list. *)
Fixpoint residual_loop (edges : list edge) (capacities flow : edict)
    (residual_capacities : edict) : result edict :=
  match edges with
  | [] => Ok residual_capacities
  | (u, v) :: rest =>
      c <- elookup capacities (u, v) ;;
      f <- elookup flow (u, v) ;;
      r <- Num.sub c f ;;
      let rc1 := eset residual_capacities (u, v) r in
      let rc2 := eset rc1 (v, u) f in
      residual_loop rest capacities flow rc2
  end.

Definition construct_residual_graph (edges : list edge) (capacities flow : edict)
    : result (list edge * edict) :=
  rc <- residual_loop edges capacities flow [] ;;
  Ok (ekeys rc, rc).

(** The comprehension shared by the four searches:
    [[v for (u, v) in edges if (u == current_node and
                                residual_capacities[(u, v)] > 0 and
                                not excluded(v))]].
    The conjunction short-circuits, so a capacity is looked up only for the
    edges that leave [current_node]. *)
Fixpoint new_nodes (edges : list edge) (residual_capacities : edict)
    (current_node : node) (excluded : node -> bool) : result (list node) :=
  match edges with
  | [] => Ok []
  | (u, v) :: rest =>
      if node_eq_dec u current_node then
        c <- elookup residual_capacities (u, v) ;;
        tl <- new_nodes rest residual_capacities current_node excluded ;;
        Ok (if Num.gtb c (Int 0) && negb (excluded v) then v :: tl else tl)
      else new_nodes rest residual_capacities current_node excluded
  end.

(** [l[-1]] *)
Definition last_node (l : list node) : result node :=
  match l with
  | [] => Err IndexError
  | x :: rest => Ok (last rest x)
  end.

(** A search method, as [ford_fulkerson] receives it. *)
Definition search_method : Type :=
  list edge -> edict -> node -> node -> result (option (list node)).

(** The [while] loop of [find_augmenting_path_bfs]. *)
Fixpoint bfs_loop (fuel : nat) (edges : list edge) (residual_capacities : edict)
    (sink : node) (open_list_paths : list (list node))
    (closed_list_nodes : list node) : result (option (list node)) :=
  match open_list_paths with
  | [] => Ok None
  | current_path :: open_rest =>
      match fuel with
      | O => Err OutOfFuel
      | S fuel' =>
          current_node <- last_node current_path ;;
          if node_eq_dec current_node sink then Ok (Some current_path)
          else
            nn <- new_nodes edges residual_capacities current_node
                    (fun v => mem_node v closed_list_nodes) ;;
            bfs_loop fuel' edges residual_capacities sink
              (open_rest ++ map (fun new_node => current_path ++ [new_node]) nn)
              (closed_list_nodes ++ nn)
      end
  end.

Definition find_augmenting_path_bfs (fuel : nat) : search_method :=
  fun edges residual_capacities source sink =>
    bfs_loop fuel edges residual_capacities sink [[source]] [source].

(** The [while] loop of [find_augmenting_path_dfs]. *)
Fixpoint dfs_loop (fuel : nat) (edges : list edge) (residual_capacities : edict)
    (sink : node) (open_list_nodes closed_list_nodes : list node)
    : result (option (list node)) :=
  match open_list_nodes with
  | [] => Ok None
  | _ :: _ =>
      match fuel with
      | O => Err OutOfFuel
      | S fuel' =>
          current_node <- last_node open_list_nodes ;;
          if node_eq_dec current_node sink then Ok (Some open_list_nodes)
          else
            nn <- new_nodes edges residual_capacities current_node
                    (fun v => mem_node v open_list_nodes
                              || mem_node v closed_list_nodes) ;;
            match nn with
            | first :: _ =>
                dfs_loop fuel' edges residual_capacities sink
                  (open_list_nodes ++ [first]) closed_list_nodes
            | [] =>
                dfs_loop fuel' edges residual_capacities sink
                  (removelast open_list_nodes)
                  (closed_list_nodes ++ [current_node])
            end
      end
  end.

Definition find_augmenting_path_dfs (fuel : nat) : search_method :=
  fun edges residual_capacities source sink =>
    dfs_loop fuel edges residual_capacities sink [source] [].

(** The first [while] loop of [find_augmenting_path_max] and of
    [find_augmenting_path_min] (the same text in both): all simple paths
    from the source to the sink, in order of discovery. *)
Fixpoint all_paths_loop (fuel : nat) (edges : list edge)
    (residual_capacities : edict) (sink : node)
    (open_list_paths all_paths : list (list node))
    : result (list (list node)) :=
  match open_list_paths with
  | [] => Ok all_paths
  | current_path :: open_rest =>
      match fuel with
      | O => Err OutOfFuel
      | S fuel' =>
          current_node <- last_node current_path ;;
          if node_eq_dec current_node sink then
            all_paths_loop fuel' edges residual_capacities sink open_rest
              (all_paths ++ [current_path])
          else
            nn <- new_nodes edges residual_capacities current_node
                    (fun v => mem_node v current_path) ;;
            all_paths_loop fuel' edges residual_capacities sink
              (open_rest ++ map (fun new_node => current_path ++ [new_node]) nn)
              all_paths
      end
  end.

(** The selection loop: [better c best] is [c > best] for the maximum and
    [c < best] for the minimum. *)
Fixpoint select_path (better : num -> num -> bool) (residual_capacities : edict)
    (all_paths : list (list node)) (best_capacity : num)
    (best_path : option (list node)) : result (option (list node)) :=
  match all_paths with
  | [] => Ok best_path
  | path :: rest =>
      path_capacity <- calculate_path_capacity residual_capacities
                         (get_path_edges path) ;;
      if better path_capacity best_capacity
      then select_path better residual_capacities rest path_capacity (Some path)
      else select_path better residual_capacities rest best_capacity best_path
  end.

Definition find_augmenting_path_max (fuel : nat) : search_method :=
  fun edges residual_capacities source sink =>
    all_paths <- all_paths_loop fuel edges residual_capacities sink [[source]] [] ;;
    select_path Num.gtb residual_capacities all_paths (Int 0) None.

Definition find_augmenting_path_min (fuel : nat) : search_method :=
  fun edges residual_capacities source sink =>
    all_paths <- all_paths_loop fuel edges residual_capacities sink [[source]] [] ;;
    select_path Num.ltb residual_capacities all_paths PosInf None.

(** The four interchangeable strategies. *)
Inductive strategy : Type := BreadthFirst | DepthFirst | MaxBottleneck | MinBottleneck.

Definition search (s : strategy) (fuel : nat) : search_method :=
  match s with
  | BreadthFirst => find_augmenting_path_bfs fuel
  | DepthFirst => find_augmenting_path_dfs fuel
  | MaxBottleneck => find_augmenting_path_max fuel
  | MinBottleneck => find_augmenting_path_min fuel
  end.

(** [flow = {}; for edge in edges: flow[edge] = 0] *)
Definition zero_flow (edges : list edge) : edict :=
  fold_left (fun flow e => eset flow e (Int 0)) edges [].

(** [if not flow: ...]: [None] and the empty dict are both falsy. *)
Definition initial_flow (edges : list edge) (flow : option edict) : edict :=
  match flow with
  | None | Some [] => zero_flow edges
  | Some f => f
  end.

(** The augmentation: for each edge of the graph, add the path capacity if
    the edge is on the path and subtract it if its reverse is. *)
Fixpoint augment (edges path_edges : list edge) (path_capacity : num)
    (flow : edict) : result edict :=
  match edges with
  | [] => Ok flow
  | (u, v) :: rest =>
      flow1 <- (if mem_edge (u, v) path_edges
                then f <- elookup flow (u, v) ;;
                     f' <- Num.add f path_capacity ;;
                     Ok (eset flow (u, v) f')
                else Ok flow) ;;
      flow2 <- (if mem_edge (v, u) path_edges
                then f <- elookup flow1 (u, v) ;;
                     f' <- Num.sub f path_capacity ;;
                     Ok (eset flow1 (u, v) f')
                else Ok flow1) ;;
      augment rest path_edges path_capacity flow2
  end.

(** [while (augmenting_path_nodes)]: [None] and the empty list are falsy. *)
Definition path_found (p : option (list node)) : option (list node) :=
  match p with
  | Some (x :: rest) => Some (x :: rest)
  | _ => None
  end.

(** The body shared by [ford_fulkerson] and
    [minimum_flow.ford_fulkerson_min_flow], whose only difference is the
    construction of the residual graph ([build]). [fuel] bounds the number
    of augmentations. *)
Fixpoint augmenting_loop (fuel : nat) (build : edict -> result (list edge * edict))
    (edges : list edge) (source sink : node) (search_method : search_method)
    (flow residual_capacities : edict) (augmenting_path_nodes : option (list node))
    : result (edict * num) :=
  match path_found augmenting_path_nodes with
  | None =>
      flow_value <- calculate_flow_value flow source ;;
      Ok (flow, flow_value)
  | Some path_nodes =>
      match fuel with
      | O => Err OutOfFuel
      | S fuel' =>
          let augmenting_path_edges := get_path_edges path_nodes in
          augmenting_path_capacity <-
            calculate_path_capacity residual_capacities augmenting_path_edges ;;
          flow' <- augment edges augmenting_path_edges augmenting_path_capacity flow ;;
          ' (residual_edges, residual_capacities') <- build flow' ;;
          next <- search_method residual_edges residual_capacities' source sink ;;
          augmenting_loop fuel' build edges source sink search_method
            flow' residual_capacities' next
      end
  end.

Definition augmenting (fuel : nat) (build : edict -> result (list edge * edict))
    (edges : list edge) (source sink : node) (search_method : search_method)
    (flow : option edict) : result (edict * num) :=
  let flow0 := initial_flow edges flow in
  ' (residual_edges, residual_capacities) <- build flow0 ;;
  first <- search_method residual_edges residual_capacities source sink ;;
  augmenting_loop fuel build edges source sink search_method
    flow0 residual_capacities first.

Definition ford_fulkerson (fuel : nat) (edges : list edge) (capacities : edict)
    (source sink : node) (search_method : search_method) (flow : option edict)
    : result (edict * num) :=
  augmenting fuel (construct_residual_graph edges capacities)
    edges source sink search_method flow.

End MaximumFlow.

Export MaximumFlow.

(** [sum([d[e] for e in edges if keep(e)])]: the values are looked up in
    the order of the edge list. *)
Fixpoint values_where (keep : edge -> bool) (d : edict) (edges : list edge)
    : result (list num) :=
  match edges with
  | [] => Ok []
  | e :: rest =>
      if keep e then
        x <- elookup d e ;;
        tl <- values_where keep d rest ;;
        Ok (x :: tl)
      else values_where keep d rest
  end.

Definition leaves (n : node) (e : edge) : bool :=
  if node_eq_dec (fst e) n then true else false.

Definition enters (n : node) (e : edge) : bool :=
  if node_eq_dec (snd e) n then true else false.

Definition sum_out (d : edict) (edges : list edge) (n : node) : result num :=
  l <- values_where (leaves n) d edges ;; Num.sum l.

Definition sum_in (d : edict) (edges : list edge) (n : node) : result num :=
  l <- values_where (enters n) d edges ;; Num.sum l.

(** [sum(flow out of node) - sum(flow into node)], over the edge list. *)
Definition net_outgoing_flow (flow : edict) (edges : list edge) (n : node)
    : result num :=
  o <- sum_out flow edges n ;;
  i <- sum_in flow edges n ;;
  Num.sub o i.

(** [new = {}; for edge in edges: new[edge] = f(d[edge], edge)] *)
Fixpoint rebuild (f : num -> edge -> result num) (d : edict) (edges : list edge)
    (new : edict) : result edict :=
  match edges with
  | [] => Ok new
  | e :: rest =>
      x <- elookup d e ;;
      y <- f x e ;;
      rebuild f d rest (eset new e y)
  end.

(** ** feasible_flow.py *)

Module FeasibleFlow.

Definition s_prime : node := "s_prime"%string.
Definition t_prime : node := "t_prime"%string.

(** The construction of [G_prime]: an edge from [s_prime] to every supply
    node and from every demand node to [t_prime]. *)
Fixpoint add_supply_edges (nodes : list node) (supply : ndict num)
    (edges_prime : list edge) (capacities_prime : edict)
    : result (list edge * edict) :=
  match nodes with
  | [] => Ok (edges_prime, capacities_prime)
  | n :: rest =>
      s <- nlookup supply n ;;
      if Num.gtb s (Int 0) then
        add_supply_edges rest supply (edges_prime ++ [(s_prime, n)])
          (eset capacities_prime (s_prime, n) s)
      else if Num.ltb s (Int 0) then
        add_supply_edges rest supply (edges_prime ++ [(n, t_prime)])
          (eset capacities_prime (n, t_prime) (Num.neg s))
      else add_supply_edges rest supply edges_prime capacities_prime
  end.

(** The feasibility check: the first node whose net outgoing flow differs
    from its supply ends it. *)
Fixpoint check_supply (nodes : list node) (edges : list edge) (flow : edict)
    (supply : ndict num) : result bool :=
  match nodes with
  | [] => Ok true
  | n :: rest =>
      net <- net_outgoing_flow flow edges n ;;
      s <- nlookup supply n ;;
      if Num.neb net s then Ok false
      else check_supply rest edges flow supply
  end.

Definition feasible_flow (fuel : nat) (nodes : list node) (edges : list edge)
    (capacities : edict) (supply : ndict num) (search_method : search_method)
    (flow : option edict) : result (bool * edict * num) :=
  ' (edges_prime, capacities_prime) <- add_supply_edges nodes supply edges capacities ;;
  ' (flow_prime, flow_value) <-
      ford_fulkerson fuel edges_prime capacities_prime s_prime t_prime
        search_method flow ;;
  flow' <- rebuild (fun x _ => Ok x) flow_prime edges [] ;;
  feasible <- check_supply nodes edges flow' supply ;;
  Ok (feasible, flow', flow_value).

End FeasibleFlow.

Export FeasibleFlow.

(** ** minimum_flow.py *)

Module MinimumFlow.

Fixpoint residual_loop_min_flow (edges : list edge)
    (lower_bounds upper_bounds flow : edict) (residual_capacities : edict)
    : result edict :=
  match edges with
  | [] => Ok residual_capacities
  | (u, v) :: rest =>
      hi <- elookup upper_bounds (u, v) ;;
      f <- elookup flow (u, v) ;;
      x <- Num.sub hi f ;;
      let rc1 := eset residual_capacities (u, v) x in
      lo <- elookup lower_bounds (u, v) ;;
      y <- Num.sub f lo ;;
      let rc2 := eset rc1 (v, u) y in
      residual_loop_min_flow rest lower_bounds upper_bounds flow rc2
  end.

Definition construct_residual_graph_min_flow (edges : list edge)
    (lower_bounds upper_bounds flow : edict) : result (list edge * edict) :=
  rc <- residual_loop_min_flow edges lower_bounds upper_bounds flow [] ;;
  Ok (ekeys rc, rc).

Definition ford_fulkerson_min_flow (fuel : nat) (edges : list edge)
    (lower_bounds upper_bounds : edict) (source sink : node)
    (search_method : search_method) (flow : option edict)
    : result (edict * num) :=
  augmenting fuel (construct_residual_graph_min_flow edges lower_bounds upper_bounds)
    edges source sink search_method flow.

(** [for node in nodes: edges_prime.append(("s_prime", node));
                        edges_prime.append((node, "t_prime"))] *)
Definition add_prime_edges (nodes : list node) (edges_prime : list edge)
    : list edge :=
  fold_left (fun es n => es ++ [(s_prime, n); (n, t_prime)]) nodes edges_prime.

(** The capacities of the synthetic edges: the lower bounds entering a
    node, and those leaving it. *)
Fixpoint prime_capacities (nodes : list node) (edges : list edge)
    (lower_bounds : edict) (capacities : edict) : result edict :=
  match nodes with
  | [] => Ok capacities
  | n :: rest =>
      i <- sum_in lower_bounds edges n ;;
      let c1 := eset capacities (s_prime, n) i in
      o <- sum_out lower_bounds edges n ;;
      let c2 := eset c1 (n, t_prime) o in
      prime_capacities rest edges lower_bounds c2
  end.

(** [for edge in edges: capacities[edge] = upper_bounds[edge] - lower_bounds[edge]] *)
Fixpoint window_capacities (edges : list edge) (lower_bounds upper_bounds : edict)
    (capacities : edict) : result edict :=
  match edges with
  | [] => Ok capacities
  | e :: rest =>
      hi <- elookup upper_bounds e ;;
      lo <- elookup lower_bounds e ;;
      c <- Num.sub hi lo ;;
      window_capacities rest lower_bounds upper_bounds (eset capacities e c)
  end.

(** The branch [if not feasible_flow]: a feasible flow from a maximum flow
    of the graph with a new source, a new sink and an edge of infinite
    capacity from the sink back to the source. *)
Definition construct_feasible_flow (fuel : nat) (nodes : list node)
    (edges : list edge) (lower_bounds upper_bounds : edict)
    (source sink : node) (search_method : search_method) : result edict :=
  let edges_prime := add_prime_edges nodes edges ++ [(sink, source)] in
  c1 <- prime_capacities nodes edges lower_bounds [] ;;
  c2 <- window_capacities edges lower_bounds upper_bounds c1 ;;
  let capacities := eset c2 (sink, source) PosInf in
  ' (flow_prime, _) <-
      ford_fulkerson fuel edges_prime capacities s_prime t_prime search_method None ;;
  rebuild (fun x e => lo <- elookup lower_bounds e ;; Num.add x lo)
    flow_prime edges [].

Definition minimum_flow (fuel : nat) (nodes : list node) (edges : list edge)
    (lower_bounds upper_bounds : edict) (source sink : node)
    (search_method : search_method) (feasible_flow : option edict)
    : result (edict * num) :=
  feasible <-
    match feasible_flow with
    | None | Some [] =>
        construct_feasible_flow fuel nodes edges lower_bounds upper_bounds
          source sink search_method
    | Some f => Ok f
    end ;;
  ' (min_flow, min_flow_value) <-
      ford_fulkerson_min_flow fuel edges lower_bounds upper_bounds sink source
        search_method (Some feasible) ;;
  Ok (min_flow, Num.neg min_flow_value).

End MinimumFlow.

Export MinimumFlow.

(** ** shortest_path.py: Bellman-Ford *)

Module ShortestPath.

Definition parents_t : Type := ndict (option node).
Definition distances_t : Type := ndict num.

(** [initialise] *)
Definition initialise (nodes : list node) (s : node)
    (parents : parents_t) (distances : distances_t) : parents_t * distances_t :=
  fold_left
    (fun pd n => (nset (fst pd) n None, nset (snd pd) n PosInf))
    (filter (fun n => if node_eq_dec n s then false else true) nodes)
    (nset parents s None, nset distances s (Int 0)).

(** [relax] *)
Definition relax (e : edge) (weights : edict)
    (parents : parents_t) (distances : distances_t)
    : result (parents_t * distances_t) :=
  let '(u, v) := e in
  dv <- nlookup distances v ;;
  du <- nlookup distances u ;;
  w <- elookup weights (u, v) ;;
  d <- Num.add du w ;;
  if Num.gtb dv d
  then Ok (nset parents v (Some u), nset distances v d)
  else Ok (parents, distances).

Fixpoint relax_all (edges : list edge) (weights : edict)
    (parents : parents_t) (distances : distances_t)
    : result (parents_t * distances_t) :=
  match edges with
  | [] => Ok (parents, distances)
  | e :: rest =>
      ' (p, d) <- relax e weights parents distances ;;
      relax_all rest weights p d
  end.

Fixpoint relax_rounds (rounds : nat) (edges : list edge) (weights : edict)
    (parents : parents_t) (distances : distances_t)
    : result (parents_t * distances_t) :=
  match rounds with
  | O => Ok (parents, distances)
  | S r =>
      ' (p, d) <- relax_all edges weights parents distances ;;
      relax_rounds r edges weights p d
  end.

(** The last loop: [true] when some edge can still be relaxed. *)
Fixpoint has_negative_cycle (edges : list edge) (weights : edict)
    (distances : distances_t) : result bool :=
  match edges with
  | [] => Ok false
  | (u, v) :: rest =>
      dv <- nlookup distances v ;;
      du <- nlookup distances u ;;
      w <- elookup weights (u, v) ;;
      d <- Num.add du w ;;
      if Num.gtb dv d then Ok true
      else has_negative_cycle rest weights distances
  end.

Definition bellman_ford (nodes : list node) (edges : list edge) (weights : edict)
    (s : node) : result (list node * option parents_t * option distances_t) :=
  let '(parents, distances) := initialise nodes s [] [] in
  ' (parents, distances) <-
      relax_rounds (Nat.pred (List.length nodes)) edges weights parents distances ;;
  cyc <- has_negative_cycle edges weights distances ;;
  if cyc then Ok (nodes, None, None)
  else Ok (nodes, Some parents, Some distances).

End ShortestPath.

Export ShortestPath.

(** ** minimum_cost_flow.py *)

Module MinimumCostFlow.

Fixpoint residual_loop (edges : list edge) (capacities costs flow : edict)
    (residual_capacities residual_costs : edict) : result (edict * edict) :=
  match edges with
  | [] => Ok (residual_capacities, residual_costs)
  | (u, v) :: rest =>
      c <- elookup capacities (u, v) ;;
      f <- elookup flow (u, v) ;;
      r <- Num.sub c f ;;
      let rc := eset (eset residual_capacities (u, v) r) (v, u) f in
      k <- elookup costs (u, v) ;;
      let rk := eset (eset residual_costs (u, v) k) (v, u) (Num.neg k) in
      residual_loop rest capacities costs flow rc rk
  end.

(** [[edge for edge in keys if residual_capacities[edge] > 0]] *)
Fixpoint positive_edges (keys : list edge) (residual_capacities : edict)
    : result (list edge) :=
  match keys with
  | [] => Ok []
  | e :: rest =>
      c <- elookup residual_capacities e ;;
      tl <- positive_edges rest residual_capacities ;;
      Ok (if Num.gtb c (Int 0) then e :: tl else tl)
  end.

Fixpoint residual_supply_loop (nodes : list node) (edges : list edge)
    (supply : ndict num) (flow : edict) (residual_supply : ndict num)
    : result (ndict num) :=
  match nodes with
  | [] => Ok residual_supply
  | n :: rest =>
      s <- nlookup supply n ;;
      i <- sum_in flow edges n ;;
      x <- Num.add s i ;;
      o <- sum_out flow edges n ;;
      r <- Num.sub x o ;;
      residual_supply_loop rest edges supply flow (nset residual_supply n r)
  end.

Definition construct_residual_graph (nodes : list node) (edges : list edge)
    (capacities costs : edict) (supply : ndict num) (flow : edict)
    : result (list edge * edict * edict * ndict num) :=
  ' (residual_capacities, residual_costs) <-
      residual_loop edges capacities costs flow [] [] ;;
  residual_edges <- positive_edges (ekeys residual_capacities) residual_capacities ;;
  residual_supply <- residual_supply_loop nodes edges supply flow [] ;;
  Ok (residual_edges, residual_capacities, residual_costs, residual_supply).

(** Truth value of a parent entry: [None] and the empty string are falsy. *)
Definition parent_of (p : option node) : option node :=
  match p with
  | Some EmptyString => None
  | other => other
  end.

(** [[node for node in nodes if supply[node] > 0]] and its mirror image,
    which also asks for a parent in the tree. *)
Fixpoint supply_nodes (nodes : list node) (supply : ndict num)
    : result (list node) :=
  match nodes with
  | [] => Ok []
  | n :: rest =>
      s <- nlookup supply n ;;
      tl <- supply_nodes rest supply ;;
      Ok (if Num.gtb s (Int 0) then n :: tl else tl)
  end.

Fixpoint demand_nodes (nodes : list node) (residual_supply : ndict num)
    (parents : option parents_t) : result (list node) :=
  match nodes with
  | [] => Ok []
  | n :: rest =>
      s <- nlookup residual_supply n ;;
      keep <- (if Num.ltb s (Int 0) then
                 match parents with
                 | None => Err TypeError
                 | Some ps =>
                     p <- nlookup ps n ;;
                     Ok (match parent_of p with Some _ => true | None => false end)
                 end
               else Ok false) ;;
      tl <- demand_nodes rest residual_supply parents ;;
      Ok (if keep then n :: tl else tl)
  end.

(** The walk from the demand node up to the root of the tree; the edges
    are collected in walking order, to be reversed afterwards. *)
Fixpoint path_to_root (fuel : nat) (parents : parents_t) (current_node : node)
    (parent : option node) (augmenting_path_edges : list edge)
    : result (list edge) :=
  match parent_of parent with
  | None => Ok augmenting_path_edges
  | Some p =>
      match fuel with
      | O => Err OutOfFuel
      | S fuel' =>
          next <- nlookup parents p ;;
          path_to_root fuel' parents p next
            (augmenting_path_edges ++ [(p, current_node)])
      end
  end.

(** [l.remove(x)]: the first occurrence goes. *)
Fixpoint remove_first (x : node) (l : list node) : list node :=
  match l with
  | [] => []
  | y :: rest => if node_eq_dec x y then rest else y :: remove_first x rest
  end.

(** The main [while] loop; the walk up the tree inside it is bounded by
    the iterations that remain. *)
Fixpoint supply_loop (fuel : nat) (nodes : list node) (edges : list edge)
    (capacities costs : edict) (supply : ndict num)
    (flow : edict) (residual_edges : list edge)
    (residual_capacities residual_costs : edict) (residual_supply : ndict num)
    (residual_supply_nodes : list node) : result edict :=
  match residual_supply_nodes with
  | [] => Ok flow
  | supply_node :: _ =>
      match fuel with
      | O => Err OutOfFuel
      | S fuel' =>
          ' (nodes', parents, _) <-
              bellman_ford nodes residual_edges residual_costs supply_node ;;
          residual_demand_nodes <- demand_nodes nodes' residual_supply parents ;;
          match residual_demand_nodes with
          | demand_node :: _ =>
              match parents with
              | None => Err TypeError
              | Some ps =>
                  parent <- nlookup ps demand_node ;;
                  walked <- path_to_root fuel ps demand_node parent [] ;;
                  let augmenting_path_edges := rev walked in
                  rs <- nlookup residual_supply supply_node ;;
                  rd <- nlookup residual_supply demand_node ;;
                  pc <- calculate_path_capacity residual_capacities augmenting_path_edges ;;
                  let augmenting_path_capacity := Num.min3 rs (Num.neg rd) pc in
                  flow' <- augment edges augmenting_path_edges augmenting_path_capacity flow ;;
                  ' (re, rc, rk, rsup) <-
                      construct_residual_graph nodes' edges capacities costs supply flow' ;;
                  rs' <- nlookup rsup supply_node ;;
                  supply_loop fuel' nodes' edges capacities costs supply flow' re rc rk rsup
                    (if Num.eqb rs' (Int 0)
                     then remove_first supply_node residual_supply_nodes
                     else residual_supply_nodes)
              end
          | [] =>
              supply_loop fuel' nodes' edges capacities costs supply flow
                residual_edges residual_capacities residual_costs residual_supply
                (remove_first supply_node residual_supply_nodes)
          end
      end
  end.

(** The final check: every node is visited, a mismatch clears the flag. *)
Fixpoint all_supplied (nodes : list node) (edges : list edge) (flow : edict)
    (supply : ndict num) (feasible : bool) : result bool :=
  match nodes with
  | [] => Ok feasible
  | n :: rest =>
      net <- net_outgoing_flow flow edges n ;;
      s <- nlookup supply n ;;
      all_supplied rest edges flow supply (if Num.neb net s then false else feasible)
  end.

Fixpoint total_outflow (nodes : list node) (edges : list edge) (flow : edict)
    (flow_value : num) : result num :=
  match nodes with
  | [] => Ok flow_value
  | n :: rest =>
      net <- net_outgoing_flow flow edges n ;;
      flow_value' <- Num.add flow_value net ;;
      total_outflow rest edges flow flow_value'
  end.

Fixpoint total_cost (edges : list edge) (flow costs : edict) (flow_cost : num)
    : result num :=
  match edges with
  | [] => Ok flow_cost
  | e :: rest =>
      f <- elookup flow e ;;
      k <- elookup costs e ;;
      c <- Num.mul f k ;;
      flow_cost' <- Num.add flow_cost c ;;
      total_cost rest flow costs flow_cost'
  end.

Definition minimum_cost_flow (fuel : nat) (nodes : list node) (edges : list edge)
    (capacities costs : edict) (supply : ndict num)
    : result (bool * edict * num * num) :=
  let flow := zero_flow edges in
  ' (residual_edges, residual_capacities, residual_costs, residual_supply) <-
      construct_residual_graph nodes edges capacities costs supply flow ;;
  residual_supply_nodes <- supply_nodes nodes residual_supply ;;
  flow <- supply_loop fuel nodes edges capacities costs supply flow
            residual_edges residual_capacities residual_costs residual_supply
            residual_supply_nodes ;;
  feasible <- all_supplied nodes edges flow supply true ;;
  sources <- supply_nodes nodes supply ;;
  flow_value <- total_outflow sources edges flow (Int 0) ;;
  flow_cost <- total_cost edges flow costs (Int 0) ;;
  Ok (feasible, flow, flow_value, flow_cost).

End MinimumCostFlow.

Export MinimumCostFlow.

(** * Instances from the repository and vocabulary of the statements *)

Module Examples.

Local Open Scope string_scope.

(** An edge-keyed dict of ints, written as a list of triples. *)
Definition ints (l : list (node * node * Z)) : edict :=
  map (fun t => let '(u, v, c) := t in ((u, v), Int c)) l.

(** [minimum_cost_flow.py], [__main__], first instance
    ("Week 7 Slide 9. Feasible flow of value 12 and cost 60."). *)
Definition slide9_supply : ndict num :=
  [("a", Int 5); ("b", Int 7); ("c", Int 0); ("i", Int (-9)); ("p", Int (-3))].
Definition slide9_nodes : list node := Dict.keys slide9_supply.
Definition slide9_capacities : edict :=
  ints [("a", "c", 4); ("a", "i", 5); ("b", "c", 8); ("b", "p", 4);
        ("c", "i", 9); ("c", "p", 3)].
Definition slide9_costs : edict :=
  ints [("a", "c", 1); ("a", "i", 3); ("b", "c", 4); ("b", "p", 3);
        ("c", "i", 5); ("c", "p", 0)].
Definition slide9_edges : list edge := ekeys slide9_capacities.

(** Two edges between the same pair of nodes, one in each direction. *)
Definition two_way_capacities : edict := ints [("a", "b", 3); ("b", "a", 5)].
Definition two_way_edges : list edge := ekeys two_way_capacities.

(** A single edge. *)
Definition one_edge_capacities : edict := ints [("s", "t", 3)].
Definition one_edge : list edge := ekeys one_edge_capacities.
Definition one_edge_flow : edict := ints [("s", "t", 2)].
Definition one_edge_lower : edict := ints [("s", "t", 1)].

(** One edge of infinite capacity, and its residual graph for the
    all-zero flow. *)
Definition inf_edge_capacities : edict := [(("s", "t"), PosInf)].
Definition inf_edge : list edge := ekeys inf_edge_capacities.
Definition inf_edge_residual : edict := [(("s", "t"), PosInf); (("t", "s"), Int 0)].

(** A residual graph with two routes from s to t: the route over a, whose
    edges are listed first, and the edge (s,t). *)
Definition detour_residual : edict :=
  ints [("s", "a", 3); ("a", "t", 2); ("s", "t", 1)].

(** One edge from a supply node to a demand node, and a starting flow
    that also covers the two synthetic edges of the reduction. *)
Definition pair_nodes : list node := ["a"; "b"].
Definition pair_capacities : edict := ints [("a", "b", 1)].
Definition pair_edges : list edge := ekeys pair_capacities.
Definition pair_supply : ndict num := [("a", Int 1); ("b", Int (-1))].
Definition pair_big_supply : ndict num := [("a", Int 2); ("b", Int (-2))].

(** A relay [a -> b -> c] whose first edge has no upper bound: [a]
    supplies 2, [c] demands 2, and the second edge carries 1 only. *)
Definition relay_nodes : list node := ["a"; "b"; "c"].
Definition relay_capacities : edict := [(("a", "b"), PosInf); (("b", "c"), Int 1)].
Definition relay_edges : list edge := ekeys relay_capacities.
Definition relay_supply : ndict num := [("a", Int 2); ("b", Int 0); ("c", Int (-2))].
Definition pair_flow_prime : edict :=
  ints [("a", "b", 0); ("s_prime", "a", 0); ("b", "t_prime", 0)].
Definition pair_flow : edict := ints [("a", "b", 0)].

(** Five edges of infinite capacity: two routes from s to t and an edge
    from the first to the second. *)
Definition diamond_capacities : edict :=
  [(("s", "a"), PosInf); (("a", "b"), PosInf); (("b", "t"), PosInf);
   (("s", "b"), PosInf); (("a", "t"), PosInf)].
Definition diamond_edges : list edge := ekeys diamond_capacities.

(** A lower bound of 1 on the edge (a,t), next to an edge (t,a). *)
Definition loop_nodes : list node := ["s"; "a"; "t"].
Definition loop_upper : edict := ints [("s", "a", 5); ("a", "t", 5); ("t", "a", 5)].
Definition loop_lower : edict := ints [("s", "a", 0); ("a", "t", 1); ("t", "a", 0)].
Definition loop_edges : list edge := ekeys loop_upper.

(** A chain of two edges, the second of infinite capacity. *)
Definition wide_chain_capacities : edict :=
  [(("s", "a"), Int 3); (("a", "t"), PosInf)].
Definition wide_chain_edges : list edge := ekeys wide_chain_capacities.

(** A chain of two edges with bounds [1 <= flow <= 3]. *)
Definition chain_nodes : list node := ["s"; "a"; "t"].
Definition chain_upper : edict := ints [("s", "a", 3); ("a", "t", 3)].
Definition chain_lower : edict := ints [("s", "a", 1); ("a", "t", 1)].
Definition chain_edges : list edge := ekeys chain_upper.

(** Bounds on the chain that no conserved flow meets: at least 2 enter
    the inner node and at most 1 leaves it. *)
Definition tight_chain_lower : edict := ints [("s", "a", 2); ("a", "t", 0)].
Definition tight_chain_upper : edict := ints [("s", "a", 3); ("a", "t", 1)].

(** [minimum_flow.py], [__main__], second instance ("Week 5 SGT Question
    2. Min flow = 13."): no edge has an upper bound. *)
Definition sgt2_nodes : list node :=
  ["s"; "a"; "b"; "c"; "d"; "e"; "f"; "g"; "h"; "i"; "j"; "t"].
Definition sgt2_lower : edict :=
  ints [("s", "a", 0); ("s", "c", 0); ("s", "e", 0); ("s", "g", 0); ("s", "i", 0);
        ("a", "b", 5);
        ("b", "c", 0); ("b", "e", 0); ("b", "t", 0);
        ("c", "d", 6);
        ("d", "t", 0);
        ("e", "f", 5); ("e", "i", 0);
        ("f", "c", 0); ("f", "i", 0); ("f", "t", 0);
        ("g", "h", 4);
        ("h", "i", 0); ("h", "t", 0);
        ("i", "j", 7);
        ("j", "t", 0)].
Definition sgt2_upper : edict :=
  [(("s", "a"), PosInf); (("s", "c"), PosInf); (("s", "e"), PosInf);
   (("s", "g"), PosInf); (("s", "i"), PosInf);
   (("a", "b"), PosInf);
   (("b", "c"), PosInf); (("b", "e"), PosInf); (("b", "t"), PosInf);
   (("c", "d"), PosInf);
   (("d", "t"), PosInf);
   (("e", "f"), PosInf); (("e", "i"), PosInf);
   (("f", "c"), PosInf); (("f", "i"), PosInf); (("f", "t"), PosInf);
   (("g", "h"), PosInf);
   (("h", "i"), PosInf); (("h", "t"), PosInf);
   (("i", "j"), PosInf);
   (("j", "t"), PosInf)].
Definition sgt2_edges : list edge := ekeys sgt2_upper.

(** The flow of value 13 that the breadth-first search leads to. *)
Definition sgt2_min_flow : edict :=
  ints [("s", "a", 5); ("s", "c", 0); ("s", "e", 4); ("s", "g", 4); ("s", "i", 0);
        ("a", "b", 5);
        ("b", "c", 4); ("b", "e", 1); ("b", "t", 0);
        ("c", "d", 6);
        ("d", "t", 6);
        ("e", "f", 5); ("e", "i", 0);
        ("f", "c", 2); ("f", "i", 3); ("f", "t", 0);
        ("g", "h", 4);
        ("h", "i", 4); ("h", "t", 0);
        ("i", "j", 7);
        ("j", "t", 7)].

(** An int that no double holds. *)
Definition beyond_double : Z := 10 ^ 400.

End Examples.

(** ** Residual graphs, generically

    The two residual builders run the same loop and differ in the pair of
    capacities they write for an edge. [residual_with] is that loop with
    the pair as a parameter; [MaximumFlow.residual_loop] and
    [MinimumFlow.residual_loop_min_flow] are instances of it
    (lemmas [residual_loop_with] and [residual_loop_min_flow_with]). *)

Fixpoint residual_with (entries : edge -> result (num * num))
    (edges : list edge) (rc : edict) : result edict :=
  match edges with
  | [] => Ok rc
  | (u, v) :: rest =>
      ' (x, y) <- entries (u, v) ;;
      residual_with entries rest (eset (eset rc (u, v) x) (v, u) y)
  end.

Definition max_flow_entries (capacities flow : edict) (e : edge)
    : result (num * num) :=
  c <- elookup capacities e ;;
  f <- elookup flow e ;;
  x <- Num.sub c f ;;
  Ok (x, f).

Definition min_flow_entries (lower_bounds upper_bounds flow : edict) (e : edge)
    : result (num * num) :=
  hi <- elookup upper_bounds e ;;
  f <- elookup flow e ;;
  x <- Num.sub hi f ;;
  lo <- elookup lower_bounds e ;;
  y <- Num.sub f lo ;;
  Ok (x, y).

Definition swap (e : edge) : edge := (snd e, fst e).

(** ** Vocabulary *)

(** A capacity or an upper bound: an int or [+inf]. *)
Definition int_or_inf (c : num) : Prop := c = PosInf \/ exists z, c = Int z.

(** Every edge of the list is a key of the dict. *)
Definition defined_on (edges : list edge) (d : edict) : Prop :=
  forall e, In e edges -> exists x, eget d e = Some x.

(** No difference [a[e] - b[e]] over the edge list has to convert an int
    beyond the double range. *)
Definition convertible (edges : list edge) (a b : edict) : Prop :=
  forall e x y, In e edges -> eget a e = Some x -> eget b e = Some y ->
    Num.overflows x y = false.

(** Every value of the dict is an int within the double range. *)
Definition small_ints (d : edict) : Prop :=
  forall e x, eget d e = Some x -> exists z, x = Int z /\ Num.huge z = false.

(** The residual edge list holds the edge and its reverse, as two
    different entries, each once. *)
Definition two_entries (residual_edges : list edge) (e : edge) : Prop :=
  NoDup residual_edges /\ In e residual_edges /\ In (swap e) residual_edges
  /\ e <> swap e.

(** ** Paths in a residual graph *)

(** An edge of the residual graph with strictly positive capacity. *)
Definition positive_edge (edges : list edge) (rc : edict) (e : edge) : Prop :=
  In e edges /\ exists c, eget rc e = Some c /\ Num.gtb c (Int 0) = true.

(** A node sequence from [source] to [sink] whose consecutive pairs are
    edges of strictly positive capacity. *)
Definition positive_path (edges : list edge) (rc : edict) (source sink : node)
    (p : list node) : Prop :=
  hd_error p = Some source
  /\ last_node p = Ok sink
  /\ Forall (positive_edge edges rc) (get_path_edges p).

(** An augmenting path: a positive path without a repeated node. *)
Definition augmenting_path (edges : list edge) (rc : edict) (source sink : node)
    (p : list node) : Prop :=
  positive_path edges rc source sink p /\ NoDup p.

(** [reach n w]: [w] is [n] positive edges away from the source. *)
Inductive reach (edges : list edge) (rc : edict) (source : node)
    : nat -> node -> Prop :=
| reach_source : reach edges rc source O source
| reach_step n u v :
    reach edges rc source n u -> positive_edge edges rc (u, v) ->
    reach edges rc source (S n) v.

(** The state of the breadth-first search: the paths on the open list are
    positive paths from the source ending in closed nodes, in two layers of
    lengths [l] and [l + 1]; a closed node that ends no open path has all its
    successors closed; and a node [n] edges away from the source is closed,
    with no open path to it longer than [n] edges, unless some open path
    has fewer than [n] edges. *)
Definition layered (open : list (list node)) : Prop :=
  exists l q1 q2,
    open = q1 ++ q2
    /\ Forall (fun p => List.length p = l) q1
    /\ Forall (fun p => List.length p = S l) q2.

Definition ends_open (open : list (list node)) (x : node) : Prop :=
  exists p, In p open /\ last_node p = Ok x.

Record bfs_inv (edges : list edge) (rc : edict) (source : node)
    (open : list (list node)) (closed : list node) : Prop := {
  bfs_paths : forall p, In p open ->
      exists x, positive_path edges rc source x p /\ In x closed;
  bfs_source : In source closed;
  bfs_expanded : forall x, In x closed -> ~ ends_open open x ->
      forall v, positive_edge edges rc (x, v) -> In v closed;
  bfs_layers : layered open;
  bfs_near : forall n w, reach edges rc source n w ->
      (exists p, In p open /\ (List.length p < S n)%nat)
      \/ (In w closed
          /\ forall p, In p open -> last_node p = Ok w -> (List.length p <= S n)%nat)
}.

(** ** Flows within bounds *)

(** [f <= h] for an int [f] and an upper bound [h]. *)
Definition le_hi (f : Z) (h : num) : Prop :=
  match h with
  | Int c => f <= c
  | PosInf => True
  | _ => False
  end.

(** The flow of edge [e] is an int between [lo e] and [hi e]. *)
Definition within (lo : edge -> Z) (hi : edge -> num) (flow : edict) (e : edge)
    : Prop :=
  exists f, eget flow e = Some (Int f) /\ lo e <= f /\ le_hi f (hi e).

Definition bounded (edges : list edge) (lo : edge -> Z) (hi : edge -> num)
    (flow : edict) : Prop :=
  forall e, In e edges -> within lo hi flow e.

(** A residual capacity of a flow within its bounds: a non-negative int
    or [+inf]. *)
Definition good (x : num) : Prop := x = PosInf \/ exists z, x = Int z /\ 0 <= z.

(** [a <= b] as Python decides it on such numbers: not [b < a]. *)
Definition nle (a b : num) : Prop := Num.ltb b a = false.

(** The path has no edge, or one of its edges has no infinite residual
    capacity: the bottleneck of the path is then an int. *)
Definition finite_bottleneck (rc : edict) (p : list node) : Prop :=
  get_path_edges p = []
  \/ exists e, In e (get_path_edges p)
               /\ (eget rc e = None \/ exists z, eget rc e = Some (Int z)).

(** What the augmentation does to the flow [f] of the edge [e]. *)
Definition bump (path_edges : list edge) (delta : num) (e : edge) (f : num) : num :=
  let f1 := if mem_edge e path_edges then Num.plus f delta else f in
  if mem_edge (swap e) path_edges then Num.minus f1 delta else f1.

(** The value of a dict at a key, for use as a bound ([nan] when absent). *)
Definition value_of (d : edict) (e : edge) : num :=
  match eget d e with
  | Some x => x
  | None => NaN
  end.

Definition int_of (x : num) : Z :=
  match x with
  | Int z => z
  | _ => 0
  end.

(** The edge list has no repeated edge and no edge together with its
    reverse (in particular no edge from a node to itself). *)
Definition one_way (edges : list edge) : Prop :=
  NoDup edges /\ forall u v, In (u, v) edges -> ~ In (v, u) edges.

(** Every edge has a non-negative int capacity. *)
Definition int_capacities (edges : list edge) (capacities : edict) : Prop :=
  forall e, In e edges -> exists c, eget capacities e = Some (Int c) /\ 0 <= c.

(** Every edge has int bounds [0 <= lower <= upper]. *)
Definition int_bounds (edges : list edge) (lower_bounds upper_bounds : edict)
    : Prop :=
  forall e, In e edges ->
    exists lo up, eget lower_bounds e = Some (Int lo)
                  /\ eget upper_bounds e = Some (Int up) /\ 0 <= lo <= up.

(** Every edge has a capacity that is a non-negative int or [+inf]. *)
Definition capacities_or_inf (edges : list edge) (capacities : edict) : Prop :=
  forall e, In e edges -> exists c, eget capacities e = Some c /\ le_hi 0 c.

(** Every edge has an int lower bound [0 <= lower] and an upper bound
    [lower <= upper] that is an int or [+inf]. *)
Definition bounds_or_inf (edges : list edge) (lower_bounds upper_bounds : edict)
    : Prop :=
  forall e, In e edges ->
    exists lo hi, eget lower_bounds e = Some (Int lo)
                  /\ eget upper_bounds e = Some hi /\ 0 <= lo /\ le_hi lo hi.

(** A node sequence from [source] to [sink], of one edge at least, along
    edges of the graph whose capacity is infinite. *)
Definition infinite_path (edges : list edge) (capacities : edict)
    (source sink : node) (p : list node) : Prop :=
  hd_error p = Some source
  /\ last_node p = Ok sink
  /\ get_path_edges p <> []
  /\ Forall (fun e => In e edges /\ eget capacities e = Some PosInf)
       (get_path_edges p).

(** A feasible flow handed to [minimum_flow] is within the bounds; an
    absent or empty one is replaced by the constructed one. *)
Definition supplied_within (edges : list edge) (lower_bounds upper_bounds : edict)
    (supplied : option edict) : Prop :=
  match supplied with
  | None | Some [] => True
  | Some f =>
      bounded edges (fun e => int_of (value_of lower_bounds e))
        (value_of upper_bounds) f
  end.

(** An instance of the minimum-flow problem on which the reduction of
    [minimum_flow] builds a graph that is again [one_way]: the names
    [s_prime] and [t_prime] are not in use, no node is listed twice, and
    there is no edge between the source and the sink. *)
Record min_flow_instance (nodes : list node) (edges : list edge)
    (source sink : node) : Prop := {
  mfi_edges : one_way edges;
  mfi_nodes : NoDup nodes;
  mfi_fresh_edges : forall u v, In (u, v) edges ->
      u <> s_prime /\ u <> t_prime /\ v <> s_prime /\ v <> t_prime;
  mfi_fresh_nodes : ~ In s_prime nodes /\ ~ In t_prime nodes;
  mfi_fresh_ends : source <> s_prime /\ source <> t_prime
                   /\ sink <> s_prime /\ sink <> t_prime;
  mfi_ends : source <> sink;
  mfi_no_direct : ~ In (source, sink) edges /\ ~ In (sink, source) edges
}.

(** The two synthetic edges that [minimum_flow] adds for a node. *)
Definition prime_edges_of (n : node) : list edge := [(s_prime, n); (n, t_prime)].

Definition nonneg_int (x : num) : Prop := exists z, x = Int z /\ 0 <= z.

(** Two more facts about the state of the breadth-first search: an open
    path repeats no node and runs through closed nodes, and the sink, once
    closed, ends an open path. *)
Record bfs_simple (sink : node) (open : list (list node)) (closed : list node)
    : Prop := {
  bfs_nodup : forall p, In p open -> NoDup p /\ forall x, In x p -> In x closed;
  bfs_sink : In sink closed -> ends_open open sink
}.

(** The edges of the list whose head is not closed yet: each of them can
    put one more path on the open list. *)
Definition unclosed (edges : list edge) (closed : list node) : nat :=
  List.length (filter (fun e => negb (mem_node (snd e) closed)) edges).

(** * Further vocabulary *)

(** A non-empty node sequence from [source] without a repeated node whose
    consecutive pairs are edges of strictly positive capacity. *)
Definition simple_from (edges : list edge) (rc : edict) (source : node)
    (p : list node) : Prop :=
  hd_error p = Some source
  /\ NoDup p
  /\ Forall (positive_edge edges rc) (get_path_edges p).

(** The state of the depth-first search: the open list is empty or a simple
    positive path from the source; the successors of a closed node are open
    or closed; the source is open or closed; the sink is never closed. *)
Record dfs_inv (edges : list edge) (rc : edict) (source sink : node)
    (open closed : list node) : Prop := {
  dfs_path : open = [] \/ simple_from edges rc source open;
  dfs_closed : forall x v, In x closed -> positive_edge edges rc (x, v) ->
      In v open \/ In v closed;
  dfs_source : In source open \/ In source closed;
  dfs_sink : ~ In sink closed
}.

(** The state of the enumeration of [find_augmenting_path_max] and
    [find_augmenting_path_min]: open paths are simple positive paths from
    the source, the paths found are augmenting paths, and every augmenting
    path is found already or extends an open path. *)
Record all_paths_inv (edges : list edge) (rc : edict) (source sink : node)
    (open all : list (list node)) : Prop := {
  ap_open : forall p, In p open -> simple_from edges rc source p;
  ap_found : forall p, In p all -> augmenting_path edges rc source sink p;
  ap_complete : forall p, augmenting_path edges rc source sink p ->
      In p all \/ exists q r, In q open /\ p = q ++ r
}.

(** The bottleneck of a path is [c]. *)
Definition bottleneck (rc : edict) (p : list node) (c : num) : Prop :=
  calculate_path_capacity rc (get_path_edges p) = Ok c.

(** A strictly positive capacity: a positive int or [+inf]. *)
Definition positive (c : num) : Prop := c = PosInf \/ exists z, c = Int z /\ 0 < z.

(** The measure of the path enumeration: a path of [k] nodes weighs
    [(|edges| + 1) ^ (|edges| + 2 - k)], more than all of its one-node
    extensions together. *)
Definition path_weight (edges : list edge) (p : list node) : nat :=
  ((List.length edges + 1) ^ (List.length edges + 2 - List.length p))%nat.

Definition open_weight (edges : list edge) (open : list (list node)) : nat :=
  list_sum (map (path_weight edges) open).

(** ** Further instances *)

(** A residual graph with two routes from s to t: the edge (s,t) of
    capacity 1, found first, and the route over a of bottleneck 2. *)
Definition fork_capacities : edict :=
  Examples.ints [("s", "t", 1); ("s", "a", 3); ("a", "t", 2)]%string.
Definition fork_edges : list edge := ekeys fork_capacities.

(** ** Flows as functions on the edges *)

(** The int that a flow dict holds for an edge. *)
Definition flow_at (flow : edict) (e : edge) : Z := int_of (value_of flow e).

(** [+1] when the edge leaves the node, [-1] when it enters it. *)
Definition sgn (n : node) (e : edge) : Z :=
  (if node_eq_dec (fst e) n then 1 else 0) - (if node_eq_dec (snd e) n then 1 else 0).

Fixpoint wsum {A : Type} (h : A -> Z) (l : list A) : Z :=
  match l with
  | [] => 0
  | x :: rest => h x + wsum h rest
  end.

(** What leaves the node minus what enters it. *)
Definition net_out (g : edge -> Z) (edges : list edge) (n : node) : Z :=
  wsum (fun e => sgn n e * g e) edges.

(** Conservation at every node other than the source and the sink. *)
Definition conserving (g : edge -> Z) (edges : list edge) (source sink : node)
    : Prop :=
  forall n, n <> source -> n <> sink -> net_out g edges n = 0.

(** Every key holds an int. *)
Definition int_valued (flow : edict) : Prop :=
  forall e, In e (ekeys flow) -> exists z, eget flow e = Some (Int z).

(** A flow of the network: between 0 and the capacity on every edge, and
    conserved at the inner nodes. *)
Definition network_flow (edges : list edge) (capacities : edict)
    (source sink : node) (g : edge -> Z) : Prop :=
  (forall e, In e edges -> 0 <= g e <= int_of (value_of capacities e))
  /\ conserving g edges source sink.

(** The iterations that a search needs at most on a graph of [m] edges. *)
Definition search_fuel (s : strategy) (m : nat) : nat :=
  match s with
  | BreadthFirst => m + 2
  | DepthFirst => 2 * m + 2
  | MaxBottleneck | MinBottleneck => (m + 1) ^ (m + 1)
  end.

Definition total_capacity (capacities : edict) (edges : list edge) : Z :=
  wsum (fun e => int_of (value_of capacities e)) edges.

(** The bound on what can leave the source: the upper bounds of its
    outgoing edges, summed. *)
Definition capacity_out (hi : edge -> num) (edges : list edge) (source : node) : Z :=
  wsum (fun e => if node_eq_dec (fst e) source then int_of (hi e) else 0) edges.

(** The state of the augmenting loop: the flow has the edges as its keys,
    is within its bounds, and is conserved at the inner nodes. *)
Record flow_state (edges : list edge) (lo : edge -> Z) (hi : edge -> num)
    (source sink : node) (flow : edict) : Prop := {
  fs_keys : ekeys flow = edges;
  fs_bounded : bounded edges lo hi flow;
  fs_conserving : conserving (flow_at flow) edges source sink
}.

(** Whether a path of positive residual capacity leads from [source] to
    [w], decided by the breadth-first search. *)
Definition reaches (edges : list edge) (rc : edict) (source w : node) : bool :=
  match find_augmenting_path_bfs (List.length edges + 2) edges rc source w with
  | Ok (Some _) => true
  | _ => false
  end.

(** The nodes of a graph, each once. *)
Definition nodes_of (edges : list edge) (source : node) : list node :=
  nodup node_eq_dec (source :: map fst edges ++ map snd edges).

Definition indicator (b : bool) : Z := if b then 1 else 0.

(** ** Walks and shortest distances *)

(** The int weight of an edge. *)
Definition weight_of (weights : edict) (e : edge) : Z := int_of (value_of weights e).

(** A node sequence from [u] to [v] along edges of the list. *)
Definition walk (edges : list edge) (u v : node) (p : list node) : Prop :=
  hd_error p = Some u
  /\ last_node p = Ok v
  /\ Forall (fun e => In e edges) (get_path_edges p).

Definition walk_weight (weights : edict) (p : list node) : Z :=
  wsum (weight_of weights) (get_path_edges p).

(** [d] is the shortest distance from [s] to [v]: the least weight of a
    walk, or [inf] when there is no walk. *)
Definition shortest (edges : list edge) (weights : edict) (s v : node) (d : num)
    : Prop :=
  match d with
  | Int z =>
      (exists p, walk edges s v p /\ walk_weight weights p = z)
      /\ forall p, walk edges s v p -> z <= walk_weight weights p
  | PosInf => forall p, ~ walk edges s v p
  | _ => False
  end.

(** No cycle of negative weight can be reached from [s]. *)
Definition no_negative_cycle (edges : list edge) (weights : edict) (s : node)
    : Prop :=
  forall u p c, walk edges s u p -> walk edges u u c -> 0 <= walk_weight weights c.

(** The graphs of the shortest-path functions: no node is listed twice,
    the edges join listed nodes and have int weights. *)
Definition weighted_graph (nodes : list node) (edges : list edge) (weights : edict)
    : Prop :=
  NoDup nodes
  /\ (forall u v, In (u, v) edges -> In u nodes /\ In v nodes)
  /\ (forall e, In e edges -> exists w, eget weights e = Some (Int w)).

(** The weights of the edges are within the double range: each of them
    can be added to the distance [inf]. *)
Definition small_weights (edges : list edge) (weights : edict) : Prop :=
  forall e, In e edges -> Num.huge (weight_of weights e) = false.

(** A distance: an int or [inf]. *)
Definition distance (x : num) : Prop := x = PosInf \/ exists z, x = Int z.

(** The state of the Bellman-Ford relaxations: every listed node and the
    source have a distance and a parent entry; a finite distance is the
    weight of a walk from the source; the parent of a node is the tail of
    an edge into it over which the distance of the node was last lowered;
    a node without parent is the source or has the distance [inf]; the
    source has no parent unless its distance went below 0. *)
Record bf_inv (nodes : list node) (edges : list edge) (weights : edict) (s : node)
    (parents : ndict (option node)) (distances : ndict num) : Prop := {
  bf_keys : forall v, In v nodes \/ v = s ->
      (exists x, nget distances v = Some x) /\ (exists x, nget parents v = Some x);
  bf_walk : forall v x, nget distances v = Some x ->
      x = PosInf \/ exists p, walk edges s v p /\ x = Int (walk_weight weights p);
  bf_source : exists z, nget distances s = Some (Int z) /\ z <= 0;
  bf_parent : forall v u, nget parents v = Some (Some u) ->
      In (u, v) edges
      /\ exists zu zv, nget distances u = Some (Int zu)
           /\ nget distances v = Some (Int zv)
           /\ zu + weight_of weights (u, v) <= zv;
  bf_orphan : forall v, nget parents v = Some None ->
      v = s \/ nget distances v = Some PosInf;
  bf_root : nget parents s = Some None
            \/ exists z, nget distances s = Some (Int z) /\ z < 0
}.

(** The distance of [v] is at most the weight of every walk of at most
    [k] edges from the source to [v]. *)
Definition within_rounds (edges : list edge) (weights : edict) (s : node)
    (k : nat) (distances : ndict num) : Prop :=
  forall v p, walk edges s v p -> (List.length (get_path_edges p) <= k)%nat ->
    exists z, nget distances v = Some (Int z) /\ z <= walk_weight weights p.

(** No distance went up. *)
Definition lowered (d d' : ndict num) : Prop :=
  forall v x, nget d v = Some x -> exists x', nget d' v = Some x' /\ nle x' x.

(** No edge can be relaxed. *)
Definition settled (edges : list edge) (weights : edict) (distances : ndict num)
    : Prop :=
  forall u v, In (u, v) edges ->
    exists du dv, nget distances u = Some du /\ nget distances v = Some dv
      /\ Num.gtb dv (Num.plus du (Int (weight_of weights (u, v)))) = false.

(** The nodes of the fork. *)
Definition fork_nodes : list node := ["s"; "a"; "t"]%string.

(** ** Supplies and demands *)

(** The int supply of a node (negative for a demand). *)
Definition supply_at (supply : ndict num) (n : node) : Z :=
  match nget supply n with
  | Some x => int_of x
  | None => 0
  end.

(** The synthetic edge that [feasible_flow] adds for a node. *)
Definition supply_edge (supply : ndict num) (n : node) : list edge :=
  if 0 <? supply_at supply n then [(s_prime, n)]
  else if supply_at supply n <? 0 then [(n, t_prime)]
  else [].

Definition supply_edges (supply : ndict num) (nodes : list node) : list edge :=
  flat_map (supply_edge supply) nodes.

(** The capacity of a synthetic edge: the supply of its head, or the
    demand of its tail. *)
Definition supply_capacity (supply : ndict num) (e : edge) : Z :=
  if node_eq_dec (fst e) s_prime then supply_at supply (snd e)
  else - supply_at supply (fst e).

(** An instance of the feasible-flow problem: no node is listed twice, the
    names [s_prime] and [t_prime] are not in use, the edges join listed
    nodes, no edge is repeated or comes with its reverse, the capacities
    are non-negative ints and every node has an int supply. *)
Record supply_instance (nodes : list node) (edges : list edge)
    (capacities : edict) (supply : ndict num) : Prop := {
  si_nodes : NoDup nodes;
  si_fresh : ~ In s_prime nodes /\ ~ In t_prime nodes;
  si_ends : forall u v, In (u, v) edges -> In u nodes /\ In v nodes;
  si_edges : one_way edges;
  si_capacities : int_capacities edges capacities;
  si_supply : forall n, In n nodes -> exists z, nget supply n = Some (Int z)
}.

(** The same with capacities that are non-negative ints or [+inf]. *)
Record supply_network (nodes : list node) (edges : list edge)
    (capacities : edict) (supply : ndict num) : Prop := {
  sn_nodes : NoDup nodes;
  sn_fresh : ~ In s_prime nodes /\ ~ In t_prime nodes;
  sn_ends : forall u v, In (u, v) edges -> In u nodes /\ In v nodes;
  sn_edges : one_way edges;
  sn_capacities : capacities_or_inf edges capacities;
  sn_supply : forall n, In n nodes -> exists z, nget supply n = Some (Int z)
}.

(** The graph extended by the synthetic edges, and its capacities. *)
Definition extended_edges (supply : ndict num) (nodes : list node)
    (edges : list edge) : list edge :=
  edges ++ supply_edges supply nodes.

Definition extended_capacities (supply : ndict num) (nodes : list node)
    (capacities : edict) : edict :=
  fold_left (fun c k => eset c k (Int (supply_capacity supply k)))
    (supply_edges supply nodes) capacities.

(** The flow meets every supply and demand. *)
Definition supplies (edges : list edge) (supply : ndict num) (nodes : list node)
    (g : edge -> Z) : Prop :=
  forall n, In n nodes -> net_out g edges n = supply_at supply n.

(** All that the supply nodes offer. *)
Definition total_supply (supply : ndict num) (nodes : list node) : Z :=
  wsum (fun n => Z.max 0 (supply_at supply n)) nodes.

(** ** Lower bounds *)

(** The lower bounds of the edges into a node, and out of it. *)
Definition lower_in (lower : edict) (edges : list edge) (n : node) : Z :=
  wsum (fun e => if node_eq_dec (snd e) n then flow_at lower e else 0) edges.

Definition lower_out (lower : edict) (edges : list edge) (n : node) : Z :=
  wsum (fun e => if node_eq_dec (fst e) n then flow_at lower e else 0) edges.

(** The capacity that [minimum_flow] gives to a synthetic edge. *)
Definition prime_capacity (lower : edict) (edges : list edge) (e : edge) : Z :=
  if node_eq_dec (fst e) s_prime then lower_in lower edges (snd e)
  else lower_out lower edges (fst e).

(** A feasible flow: between the bounds on every edge and conserved at
    the inner nodes. *)
Definition feasible_for (edges : list edge) (lower upper : edict)
    (source sink : node) (g : edge -> Z) : Prop :=
  (forall e, In e edges -> flow_at lower e <= g e <= flow_at upper e)
  /\ conserving g edges source sink.

(** The graph and the capacities that [minimum_flow] hands to
    [ford_fulkerson] when it constructs a feasible flow. *)
Definition prime_graph (nodes : list node) (edges : list edge) (source sink : node)
    : list edge :=
  add_prime_edges nodes edges ++ [(sink, source)].

Definition prime_caps (nodes : list node) (edges : list edge) (lower upper : edict)
    (source sink : node) : edict :=
  eset
    (fold_left (fun c k => eset c k (Int (flow_at upper k - flow_at lower k))) edges
       (fold_left (fun c k => eset c k (Int (prime_capacity lower edges k)))
          (flat_map prime_edges_of nodes) []))
    (sink, source) PosInf.

(** The sum of all lower bounds. *)
Definition total_lower (lower : edict) (edges : list edge) : Z :=
  wsum (flow_at lower) edges.

(** ** Parent links *)

(** [ancestor parents a b]: the parents lead from [b] up to [a] in one or
    more steps. *)
Inductive ancestor (parents : ndict (option node)) : node -> node -> Prop :=
| ancestor_parent a b : nget parents b = Some (Some a) -> ancestor parents a b
| ancestor_step a b c :
    ancestor parents a b -> nget parents c = Some (Some b) -> ancestor parents a c.

(** No node is its own ancestor. *)
Definition acyclic (parents : ndict (option node)) : Prop :=
  forall a, ~ ancestor parents a a.

(** Every pair of consecutive nodes of the path is a parent link. *)
Definition parent_chain (parents : ndict (option node)) (p : list node) : Prop :=
  Forall (fun e => nget parents (snd e) = Some (Some (fst e))) (get_path_edges p).

(** ** Minimum-cost flows *)

(** The two residual costs of an edge: its cost, and the opposite for
    the reverse edge. *)
Definition cost_entries (costs : edict) (e : edge) : result (num * num) :=
  k <- elookup costs e ;; Ok (k, Num.neg k).

(** An instance of the minimum-cost problem: no node is listed twice or
    has the empty name, the edges join listed nodes, no edge is repeated
    or comes with its reverse, the capacities are non-negative ints, the
    costs are ints within the double range (a cost is added to the
    distance [inf]) and every node has an int supply. *)
Record cost_instance (nodes : list node) (edges : list edge)
    (capacities costs : edict) (supply : ndict num) : Prop := {
  ci_nodes : NoDup nodes;
  ci_named : ~ In EmptyString nodes;
  ci_ends : forall u v, In (u, v) edges -> In u nodes /\ In v nodes;
  ci_edges : one_way edges;
  ci_capacities : int_capacities edges capacities;
  ci_costs : forall e, In e edges -> exists k, eget costs e = Some (Int k);
  ci_small : small_weights edges costs;
  ci_supply : forall n, In n nodes -> exists z, nget supply n = Some (Int z)
}.

(** An int between 0 and the capacity on every edge. *)
Definition within_capacities (edges : list edge) (capacities : edict) (g : edge -> Z)
    : Prop :=
  forall e, In e edges -> 0 <= g e <= flow_at capacities e.

(** The cost of a flow. *)
Definition flow_cost (costs : edict) (edges : list edge) (g : edge -> Z) : Z :=
  wsum (fun e => g e * flow_at costs e) edges.

(** What a node still has to send (or, when negative, to receive). *)
Definition residual_supply_at (supply : ndict num) (edges : list edge)
    (g : edge -> Z) (n : node) : Z :=
  supply_at supply n - net_out g edges n.

(** Node prices under which no residual edge has a negative reduced
    cost: an edge with room costs at least the price difference, an edge
    with flow at most. *)
Definition optimal_prices (edges : list edge) (capacities costs : edict)
    (g : edge -> Z) (pi : node -> Z) : Prop :=
  forall u v, In (u, v) edges ->
    (g (u, v) < flow_at capacities (u, v) -> pi v <= pi u + flow_at costs (u, v))
    /\ (0 < g (u, v) -> pi u + flow_at costs (u, v) <= pi v).

(** The residual edges of a flow: the edges with room and the reverses
    of the edges with flow. *)
Definition residual_edge (edges : list edge) (capacities : edict) (g : edge -> Z)
    (k : edge) : Prop :=
  (In k edges /\ g k < flow_at capacities k) \/ (In (swap k) edges /\ 0 < g (swap k)).

(** The cost of a residual edge. *)
Definition residual_cost (edges : list edge) (costs : edict) (k : edge) : Z :=
  if in_dec edge_eq_dec k edges then flow_at costs k else - flow_at costs (swap k).

(** The supply that has not been sent yet. *)
Definition open_supply (supply : ndict num) (edges : list edge) (g : edge -> Z)
    (nodes : list node) : Z :=
  wsum (fun n => Z.max 0 (residual_supply_at supply edges g n)) nodes.

(** Node prices for the empty flow: no edge with capacity costs less
    than the price difference.  Costs that are all non-negative have the
    prices 0. *)
Definition priced (edges : list edge) (capacities costs : edict) : Prop :=
  exists pi : node -> Z,
    forall u v, In (u, v) edges -> 0 < flow_at capacities (u, v) ->
      pi v <= pi u + flow_at costs (u, v).

(** No flow within the capacities meets all supplies and demands. *)
Definition infeasible (nodes : list node) (edges : list edge) (capacities : edict)
    (supply : ndict num) : Prop :=
  forall g, within_capacities edges capacities g -> ~ supplies edges supply nodes g.

(** The state of the main loop of [minimum_cost_flow]: the flow has the
    edges as keys and is within the capacities; it has optimal prices;
    the supply nodes still listed are different nodes with supply left;
    and a node with supply left is still listed, unless the instance is
    known to be infeasible. *)
Record cost_state (nodes : list node) (edges : list edge)
    (capacities costs : edict) (supply : ndict num)
    (flow : edict) (residual_supply_nodes : list node) : Prop := {
  cs_keys : ekeys flow = edges;
  cs_bounded : bounded edges (fun _ => 0) (value_of capacities) flow;
  cs_prices : exists pi, optimal_prices edges capacities costs (flow_at flow) pi;
  cs_listed : NoDup residual_supply_nodes
              /\ forall n, In n residual_supply_nodes ->
                   In n nodes /\ 0 < residual_supply_at supply edges (flow_at flow) n;
  cs_left : infeasible nodes edges capacities supply
            \/ forall n, In n nodes ->
                 0 < residual_supply_at supply edges (flow_at flow) n ->
                 In n residual_supply_nodes
}.

(** Three nodes on a cycle of cost [1 - 3 + 1]; the first has a supply
    and the last a demand. *)
Definition cycle_nodes : list node := ["a"; "b"; "c"]%string.
Definition cycle_supply : ndict num :=
  [("a", Int 1); ("b", Int 0); ("c", Int (-1))]%string.
Definition cycle_capacities : edict :=
  Examples.ints [("a", "b", 1); ("b", "c", 1); ("c", "a", 1)]%string.
Definition cycle_costs : edict :=
  Examples.ints [("a", "b", 1); ("b", "c", -3); ("c", "a", 1)]%string.
Definition cycle_edges : list edge := ekeys cycle_capacities.

(** * Properties *)

(** ** The minimum-cost instance of the repository *)

(** C8. On the instance with supplies a=5, b=7, c=0, i=-9, p=-3 and the six
    edges (a,c) 4/1, (a,i) 5/3, (b,c) 8/4, (b,p) 4/3, (c,i) 9/5, (c,p) 3/0
    (capacity/cost), [minimum_cost_flow] reports a feasible flow of value
    12 and cost 60; twenty iterations of the main loop are enough. *)
Theorem minimum_cost_flow_slide9 :
  minimum_cost_flow 20 Examples.slide9_nodes Examples.slide9_edges
    Examples.slide9_capacities Examples.slide9_costs Examples.slide9_supply
  = Ok (true,
        Examples.ints [("a", "c", 0); ("a", "i", 5); ("b", "c", 4); ("b", "p", 3);
                       ("c", "i", 4); ("c", "p", 0)]%string,
        Int 12, Int 60).
Proof. vm_compute. reflexivity. Qed.

(** ** Facts about dicts *)

Section DictFacts.
Context {K V : Type} (eq_dec : forall a b : K, {a = b} + {a <> b}).


Lemma get_set_same (d : @Dict.dict K V) k v : Dict.get eq_dec (Dict.set eq_dec d k v) k = Some v.
Proof.
  induction d as [|[k' v'] d IH]; simpl.
  - destruct (eq_dec k k); congruence.
  - destruct (eq_dec k k') as [E|E]; simpl.
    + destruct (eq_dec k k'); congruence.
    + destruct (eq_dec k k'); congruence.
Qed.

Lemma get_set_other (d : @Dict.dict K V) k k' v :
  k <> k' -> Dict.get eq_dec (Dict.set eq_dec d k v) k' = Dict.get eq_dec d k'.
Proof.
  intros N. induction d as [|[k0 v0] d IH]; simpl.
  - destruct (eq_dec k' k); congruence.
  - destruct (eq_dec k k0) as [E|E]; simpl.
    + subst. destruct (eq_dec k' k0); congruence.
    + destruct (eq_dec k' k0); congruence.
Qed.

Lemma get_In_keys (d : @Dict.dict K V) k : In k (Dict.keys d) <-> exists v, Dict.get eq_dec d k = Some v.
Proof.
  induction d as [|[k0 v0] d IH]; simpl.
  - split; [tauto | intros [v H]; discriminate].
  - destruct (eq_dec k k0) as [E|E].
    + subst. split; eauto.
    + rewrite <- IH. split; [intros [H|H]; congruence | auto].
Qed.

Lemma get_None_keys (d : @Dict.dict K V) k : ~ In k (Dict.keys d) <-> Dict.get eq_dec d k = None.
Proof.
  rewrite get_In_keys. destruct (Dict.get eq_dec d k); split; intros H; try congruence.
  - exfalso; eauto.
  - intros [v' E]; discriminate.
Qed.

Lemma keys_set_in (d : @Dict.dict K V) k v : In k (Dict.keys d) -> Dict.keys (Dict.set eq_dec d k v) = Dict.keys d.
Proof.
  induction d as [|[k0 v0] d IH]; simpl; [tauto|].
  intros H. destruct (eq_dec k k0) as [E|E]; simpl; [reflexivity|].
  f_equal. apply IH. destruct H; congruence.
Qed.

Lemma keys_set_notin (d : @Dict.dict K V) k v :
  ~ In k (Dict.keys d) -> Dict.keys (Dict.set eq_dec d k v) = Dict.keys d ++ [k].
Proof.
  induction d as [|[k0 v0] d IH]; simpl; [reflexivity|].
  intros H. destruct (eq_dec k k0) as [E|E]; simpl.
  - exfalso; apply H; auto.
  - f_equal. apply IH. tauto.
Qed.

Lemma in_keys_set (d : @Dict.dict K V) k v k' :
  In k' (Dict.keys (Dict.set eq_dec d k v)) <-> k' = k \/ In k' (Dict.keys d).
Proof.
  destruct (in_dec eq_dec k (Dict.keys d)) as [I|I].
  - rewrite keys_set_in by assumption. split; [auto | intros [->|]; auto].
  - rewrite keys_set_notin by assumption. rewrite in_app_iff. simpl.
    split; [intros [|[->|[]]]; auto | intros [->|]; auto].
Qed.

Lemma NoDup_keys_set (d : @Dict.dict K V) k v : NoDup (Dict.keys d) -> NoDup (Dict.keys (Dict.set eq_dec d k v)).
Proof.
  intros H. destruct (in_dec eq_dec k (Dict.keys d)) as [I|I].
  - rewrite keys_set_in; assumption.
  - rewrite keys_set_notin by assumption.
    apply NoDup_app; [assumption | repeat constructor; simpl; tauto |].
    intros x Hx [<-|[]]. contradiction.
Qed.

End DictFacts.


(** ** Edge-keyed dicts *)

Lemma eget_eset_same d e v : eget (eset d e v) e = Some v.
Proof. apply get_set_same. Qed.

Lemma eget_eset_other d e e' v : e <> e' -> eget (eset d e v) e' = eget d e'.
Proof. apply get_set_other. Qed.

Lemma in_ekeys_eset d e v e' : In e' (ekeys (eset d e v)) <-> e' = e \/ In e' (ekeys d).
Proof. apply in_keys_set. Qed.

Lemma NoDup_ekeys_eset d e v : NoDup (ekeys d) -> NoDup (ekeys (eset d e v)).
Proof. apply NoDup_keys_set. Qed.

Lemma in_ekeys_eget d e : In e (ekeys d) <-> exists v, eget d e = Some v.
Proof. apply get_In_keys. Qed.

Lemma elookup_Ok d e v : elookup d e = Ok v <-> eget d e = Some v.
Proof.
  unfold elookup, Dict.lookup, eget.
  destruct (Dict.get edge_eq_dec d e); split; intros H; congruence.
Qed.

Lemma elookup_eget d e v : eget d e = Some v -> elookup d e = Ok v.
Proof. apply elookup_Ok. Qed.

Lemma elookup_Err d e x : elookup d e = Err x -> x = KeyError /\ eget d e = None.
Proof.
  unfold elookup, Dict.lookup, eget.
  destruct (Dict.get edge_eq_dec d e); intros H; inversion H; auto.
Qed.

(** Inversion of a [bind] that succeeded. *)
Lemma bind_Ok {A B} (c : result A) (k : A -> result B) b :
  bind c k = Ok b -> exists a, c = Ok a /\ k a = Ok b.
Proof. destruct c; simpl; intros H; [eauto | discriminate]. Qed.

Tactic Notation "inv_bind" hyp(H) :=
  let a := fresh "a" in
  let Ha := fresh "Ha" in
  apply bind_Ok in H; destruct H as [a [Ha H]].

Tactic Notation "inv_bind" hyp(H) "as" simple_intropattern(x) ident(Hx) :=
  apply bind_Ok in H; destruct H as [x [Hx H]].

(** ** Arithmetic

    The checked operations return the value of the operation, or
    [OverflowError]; on two ints they always return. *)

Lemma add_Ok a b c : Num.add a b = Ok c -> c = Num.plus a b.
Proof. unfold Num.add. destruct (Num.overflows a b); congruence. Qed.

Lemma sub_Ok a b c : Num.sub a b = Ok c -> c = Num.minus a b.
Proof. unfold Num.sub. destruct (Num.overflows a b); congruence. Qed.

Lemma mul_Ok a b c : Num.mul a b = Ok c -> c = Num.times a b.
Proof. unfold Num.mul. destruct (Num.overflows a b); congruence. Qed.

Lemma add_Err a b e : Num.add a b = Err e -> e = OverflowError.
Proof. unfold Num.add. destruct (Num.overflows a b); congruence. Qed.

Lemma sub_Err a b e : Num.sub a b = Err e -> e = OverflowError.
Proof. unfold Num.sub. destruct (Num.overflows a b); congruence. Qed.

Lemma add_fits a b : Num.overflows a b = false -> Num.add a b = Ok (Num.plus a b).
Proof. unfold Num.add. intros ->. reflexivity. Qed.

Lemma sub_fits a b : Num.overflows a b = false -> Num.sub a b = Ok (Num.minus a b).
Proof. unfold Num.sub. intros ->. reflexivity. Qed.

Lemma add_int x y : Num.add (Int x) (Int y) = Ok (Int (x + y)).
Proof. reflexivity. Qed.

Lemma sub_int x y : Num.sub (Int x) (Int y) = Ok (Int (x - y)).
Proof. reflexivity. Qed.

Lemma mul_int x y : Num.mul (Int x) (Int y) = Ok (Int (x * y)).
Proof. reflexivity. Qed.

Lemma huge_false z : Num.huge z = false <-> Z.abs z < Num.float_limit.
Proof. unfold Num.huge. apply Z.leb_gt. Qed.

Lemma huge_opp z : Num.huge (- z) = Num.huge z.
Proof. unfold Num.huge. rewrite Z.abs_opp. reflexivity. Qed.

Lemma huge_zero : Num.huge 0 = false.
Proof. reflexivity. Qed.

Lemma float_limit_pos : 0 < Num.float_limit.
Proof. reflexivity. Qed.

(** An int between two ints that can be converted can be converted. *)
Lemma huge_between a b z :
  Num.huge a = false -> Num.huge b = false -> a <= z <= b -> Num.huge z = false.
Proof. rewrite !huge_false. lia. Qed.

Lemma overflows_sym a b : Num.overflows a b = Num.overflows b a.
Proof. destruct a, b; reflexivity. Qed.

(** ** The residual loop *)

Lemma swap_swap e : swap (swap e) = e.
Proof. destruct e; reflexivity. Qed.

Lemma residual_loop_with edges capacities flow rc :
  MaximumFlow.residual_loop edges capacities flow rc
  = residual_with (max_flow_entries capacities flow) edges rc.
Proof.
  revert rc. induction edges as [|[u v] rest IH]; intros rc; simpl; [reflexivity|].
  unfold max_flow_entries.
  destruct (elookup capacities (u, v)) as [c|]; simpl; [|reflexivity].
  destruct (elookup flow (u, v)) as [f|]; simpl; [|reflexivity].
  destruct (Num.sub c f); simpl; [|reflexivity].
  apply IH.
Qed.

Lemma residual_loop_min_flow_with edges lower upper flow rc :
  residual_loop_min_flow edges lower upper flow rc
  = residual_with (min_flow_entries lower upper flow) edges rc.
Proof.
  revert rc. induction edges as [|[u v] rest IH]; intros rc; simpl; [reflexivity|].
  unfold min_flow_entries.
  destruct (elookup upper (u, v)) as [hi|]; simpl; [|reflexivity].
  destruct (elookup flow (u, v)) as [f|]; simpl; [|reflexivity].
  destruct (Num.sub hi f); simpl; [|reflexivity].
  destruct (elookup lower (u, v)) as [lo|]; simpl; [|reflexivity].
  destruct (Num.sub f lo); simpl; [|reflexivity].
  apply IH.
Qed.

Section ResidualWith.
Variable entries : edge -> result (num * num).

Lemma residual_with_total edges :
  (forall e, In e edges -> exists xy, entries e = Ok xy) ->
  forall rc0, exists rc, residual_with entries edges rc0 = Ok rc.
Proof.
  induction edges as [|[u v] rest IH]; intros H rc0; simpl; [eauto|].
  destruct (H (u, v)) as [[x y] E]; [simpl; auto|]. rewrite E. simpl.
  apply IH. intros e He. apply H. simpl; auto.
Qed.

Lemma residual_with_defined edges rc0 rc :
  residual_with entries edges rc0 = Ok rc ->
  forall e, In e edges -> exists xy, entries e = Ok xy.
Proof.
  revert rc0. induction edges as [|[u v] rest IH]; intros rc0 H e He; simpl in *; [tauto|].
  inv_bind H. destruct a as [x y].
  destruct He as [<-|He]; [eauto|]. eapply IH; eauto.
Qed.

Lemma residual_with_keys edges rc0 rc :
  residual_with entries edges rc0 = Ok rc ->
  forall k, In k (ekeys rc) <-> In k (ekeys rc0) \/ In k edges \/ In (swap k) edges.
Proof.
  revert rc0. induction edges as [|[u v] rest IH]; intros rc0 H k; simpl in *.
  - inversion H; subst. tauto.
  - inv_bind H. destruct a as [x y].
    rewrite (IH _ H k), !in_ekeys_eset.
    assert (E : (v, u) = swap k <-> k = (u, v)).
    { destruct k as [a b]; unfold swap; simpl; split; intros E; inversion E; reflexivity. }
    assert (E' : (u, v) = swap k <-> k = (v, u)).
    { destruct k as [a b]; unfold swap; simpl; split; intros E0; inversion E0; reflexivity. }
    rewrite E'. intuition (subst; auto).
Qed.

Lemma residual_with_NoDup edges rc0 rc :
  residual_with entries edges rc0 = Ok rc -> NoDup (ekeys rc0) -> NoDup (ekeys rc).
Proof.
  revert rc0. induction edges as [|[u v] rest IH]; intros rc0 H N; simpl in *.
  - inversion H; subst; assumption.
  - inv_bind H. destruct a as [x y].
    eapply IH; eauto using NoDup_ekeys_eset.
Qed.

(** The entries of an edge whose reverse is not an edge of the graph are
    the pair computed for it. *)
Lemma residual_with_entries u v x y edges :
  entries (u, v) = Ok (x, y) ->
  ~ In (v, u) edges ->
  forall rc0 rc,
    residual_with entries edges rc0 = Ok rc ->
    In (u, v) edges \/ (eget rc0 (u, v) = Some x /\ eget rc0 (v, u) = Some y) ->
    eget rc (u, v) = Some x /\ eget rc (v, u) = Some y.
Proof.
  intros E. induction edges as [|[a b] rest IH]; intros NI rc0 rc H P; simpl in *.
  - inversion H; subst. destruct P as [[]|P]; exact P.
  - inv_bind H. destruct a0 as [x' y'].
    assert (NI' : ~ In (v, u) rest) by tauto.
    assert (Nab : (a, b) <> (v, u)) by tauto.
    apply (IH NI' _ _ H).
    destruct (edge_eq_dec (a, b) (u, v)) as [Q|Q].
    + right. inversion Q; subst a b. rewrite E in Ha. inversion Ha; subst x' y'.
      rewrite eget_eset_same. split; [|reflexivity].
      rewrite eget_eset_other by congruence. apply eget_eset_same.
    + destruct P as [[P|P]|[P1 P2]]; [congruence | auto |].
      right. rewrite !eget_eset_other by congruence. auto.
Qed.

End ResidualWith.


(** ** The residual graph builders *)

Lemma construct_with entries edges :
  (forall e, In e edges -> exists xy, entries e = Ok xy) ->
  exists rc,
    residual_with entries edges [] = Ok rc
    /\ NoDup (ekeys rc)
    /\ (forall k, In k (ekeys rc) <-> In k edges \/ In (swap k) edges)
    /\ (forall u v x y, In (u, v) edges -> ~ In (v, u) edges ->
          entries (u, v) = Ok (x, y) ->
          eget rc (u, v) = Some x /\ eget rc (v, u) = Some y).
Proof.
  intros D. destruct (residual_with_total entries edges D []) as [rc H].
  exists rc. split; [exact H|]. split; [|split].
  - eapply residual_with_NoDup; eauto. constructor.
  - intros k. rewrite (residual_with_keys _ _ _ _ H k). simpl. tauto.
  - intros u v x y I NI E. eapply residual_with_entries; eauto.
Qed.

(** ** The all-zero flow *)

Lemma zero_flow_from_keys edges : forall acc e,
  In e (ekeys (fold_left (fun flow e => eset flow e (Int 0)) edges acc))
  <-> In e (ekeys acc) \/ In e edges.
Proof.
  induction edges as [|a rest IH]; intros acc e; simpl; [tauto|].
  rewrite IH, in_ekeys_eset. intuition (subst; auto).
Qed.

Lemma zero_flow_from_get edges : forall acc e,
  eget acc e = Some (Int 0) \/ In e edges ->
  eget (fold_left (fun flow e => eset flow e (Int 0)) edges acc) e = Some (Int 0).
Proof.
  induction edges as [|a rest IH]; intros acc e H; simpl.
  - destruct H as [H|[]]; assumption.
  - apply IH. destruct (edge_eq_dec a e) as [->|N].
    + left. apply eget_eset_same.
    + destruct H as [H|[H|H]]; [|congruence|auto].
      left. rewrite eget_eset_other by assumption. assumption.
Qed.

Lemma zero_flow_keys edges e : In e (ekeys (zero_flow edges)) <-> In e edges.
Proof. unfold zero_flow. rewrite zero_flow_from_keys. simpl. tauto. Qed.

Lemma zero_flow_get edges e : In e edges -> eget (zero_flow edges) e = Some (Int 0).
Proof. intros H. apply zero_flow_from_get. auto. Qed.

Lemma zero_flow_defined edges : defined_on edges (zero_flow edges).
Proof. intros e H. exists (Int 0). apply zero_flow_get. assumption. Qed.

Lemma sub_add_int c f : int_or_inf c -> Num.plus (Num.minus c (Int f)) (Int f) = c.
Proof. intros [->|[z ->]]; simpl; [reflexivity | f_equal; lia]. Qed.

Lemma sub_zero c : Num.minus c (Int 0) = c.
Proof. destruct c; simpl; [f_equal; lia | reflexivity ..]. Qed.

Lemma sub_zero_fits c : Num.sub c (Int 0) = Ok c.
Proof. rewrite sub_fits, sub_zero; [reflexivity|]. destruct c; reflexivity. Qed.

Lemma window_add_int hi f lo :
  int_or_inf hi ->
  Num.plus (Num.minus hi (Int f)) (Int (f - lo)) = Num.minus hi (Int lo).
Proof. intros [->|[z ->]]; simpl; [reflexivity | f_equal; lia]. Qed.

Lemma max_flow_entries_fits capacities flow e c g :
  eget capacities e = Some c -> eget flow e = Some g ->
  Num.overflows c g = false ->
  max_flow_entries capacities flow e = Ok (Num.minus c g, g).
Proof.
  intros C G O. unfold max_flow_entries.
  rewrite (elookup_eget _ _ _ C), (elookup_eget _ _ _ G). simpl.
  rewrite (sub_fits _ _ O). reflexivity.
Qed.

Lemma min_flow_entries_fits lower upper flow e lo hi g :
  eget lower e = Some lo -> eget upper e = Some hi -> eget flow e = Some g ->
  Num.overflows hi g = false -> Num.overflows g lo = false ->
  min_flow_entries lower upper flow e = Ok (Num.minus hi g, Num.minus g lo).
Proof.
  intros L U G O1 O2. unfold min_flow_entries.
  rewrite (elookup_eget _ _ _ U), (elookup_eget _ _ _ G). simpl.
  rewrite (sub_fits _ _ O1). simpl.
  rewrite (elookup_eget _ _ _ L). simpl.
  rewrite (sub_fits _ _ O2). reflexivity.
Qed.

(** C2, as the code has it. For an edge (u,v) of the graph whose reverse
    (v,u) is not an edge of the graph, and a flow and capacities with an
    entry for every edge, none of the differences [capacity - flow] having
    to convert an int beyond the double range, the flow of (u,v) being an
    int [f]: [construct_residual_graph] returns a residual graph in which
    (u,v) and (v,u) are two different entries, of capacities [c - f] and
    [f], whose sum is the capacity [c] of (u,v). From the all-zero flow the
    two entries are [c] and [0], whatever the capacities.
    [construct_residual_graph_min_flow] gives [hi - f] and [f - lo], whose
    sum is [hi - lo], whenever Python can compute that sum and that
    difference. *)
Theorem residual_entries_sum :
  forall edges u v,
    In (u, v) edges -> ~ In (v, u) edges ->
    (forall capacities flow c f,
        defined_on edges capacities -> defined_on edges flow ->
        convertible edges capacities flow ->
        eget capacities (u, v) = Some c -> int_or_inf c ->
        eget flow (u, v) = Some (Int f) ->
        exists residual_edges rc,
          MaximumFlow.construct_residual_graph edges capacities flow
          = Ok (residual_edges, rc)
          /\ two_entries residual_edges (u, v)
          /\ eget rc (u, v) = Some (Num.minus c (Int f))
          /\ eget rc (v, u) = Some (Int f)
          /\ Num.add (Num.minus c (Int f)) (Int f) = Ok c)
    /\
    (forall capacities c,
        defined_on edges capacities ->
        eget capacities (u, v) = Some c ->
        exists residual_edges rc,
          MaximumFlow.construct_residual_graph edges capacities (zero_flow edges)
          = Ok (residual_edges, rc)
          /\ two_entries residual_edges (u, v)
          /\ eget rc (u, v) = Some c
          /\ eget rc (v, u) = Some (Int 0))
    /\
    (forall lower_bounds upper_bounds flow lo hi f,
        defined_on edges lower_bounds -> defined_on edges upper_bounds ->
        defined_on edges flow ->
        convertible edges upper_bounds flow ->
        convertible edges flow lower_bounds ->
        eget lower_bounds (u, v) = Some (Int lo) ->
        eget upper_bounds (u, v) = Some hi -> int_or_inf hi ->
        eget flow (u, v) = Some (Int f) ->
        Num.overflows hi (Int (f - lo)) = false ->
        Num.overflows hi (Int lo) = false ->
        exists residual_edges rc,
          construct_residual_graph_min_flow edges lower_bounds upper_bounds flow
          = Ok (residual_edges, rc)
          /\ two_entries residual_edges (u, v)
          /\ eget rc (u, v) = Some (Num.minus hi (Int f))
          /\ eget rc (v, u) = Some (Int (f - lo))
          /\ Num.add (Num.minus hi (Int f)) (Int (f - lo)) = Num.sub hi (Int lo)).
Proof.
  intros edges u v I NI.
  assert (Nuv : (u, v) <> swap (u, v)).
  { unfold swap; simpl. intros Q. inversion Q; subst. contradiction. }
  assert (T : forall rc : edict,
             NoDup (ekeys rc) ->
             (forall k, In k (ekeys rc) <-> In k edges \/ In (swap k) edges) ->
             two_entries (ekeys rc) (u, v)).
  { intros rc N K. split; [exact N|]. split; [apply K; auto|]. split; [|exact Nuv].
    apply K. right. rewrite swap_swap. exact I. }
  split; [|split].
  - intros capacities flow c f DC DF CV C IC F.
    destruct (construct_with (max_flow_entries capacities flow) edges)
      as (rc & H & N & K & P).
    { intros e He. destruct (DC e He) as [c' Hc]. destruct (DF e He) as [g Hg].
      rewrite (max_flow_entries_fits _ _ _ _ _ Hc Hg (CV e c' g He Hc Hg)). eauto. }
    exists (ekeys rc), rc.
    unfold MaximumFlow.construct_residual_graph. rewrite residual_loop_with, H. simpl.
    destruct (P u v (Num.minus c (Int f)) (Int f) I NI) as [P1 P2].
    { apply max_flow_entries_fits; auto. apply (CV (u, v)); auto. }
    split; [reflexivity|]. split; [apply T; assumption|].
    split; [exact P1|]. split; [exact P2|].
    pose proof (CV (u, v) c (Int f) I C F) as O.
    rewrite add_fits, sub_add_int; [reflexivity | exact IC |].
    destruct IC as [->|[z ->]]; [exact O | reflexivity].
  - intros capacities c DC C.
    assert (Z0 : forall x, Num.overflows x (Int 0) = false) by (intros []; reflexivity).
    destruct (construct_with (max_flow_entries capacities (zero_flow edges)) edges)
      as (rc & H & N & K & P).
    { intros e He. destruct (DC e He) as [c' Hc].
      rewrite (max_flow_entries_fits _ _ _ _ _ Hc (zero_flow_get _ _ He) (Z0 c')).
      eauto. }
    exists (ekeys rc), rc.
    unfold MaximumFlow.construct_residual_graph. rewrite residual_loop_with, H. simpl.
    destruct (P u v c (Int 0) I NI) as [P1 P2].
    { rewrite (max_flow_entries_fits _ _ _ _ _ C (zero_flow_get _ _ I) (Z0 c)).
      rewrite sub_zero. reflexivity. }
    split; [reflexivity|]. split; [apply T; assumption|]. split; assumption.
  - intros lower upper flow lo hi f DL DU DF CU CL L U IU F O1 O2.
    destruct (construct_with (min_flow_entries lower upper flow) edges)
      as (rc & H & N & K & P).
    { intros e He.
      destruct (DL e He) as [l' Hl]. destruct (DU e He) as [u' Hu].
      destruct (DF e He) as [g Hg].
      rewrite (min_flow_entries_fits _ _ _ _ _ _ _ Hl Hu Hg
                 (CU e u' g He Hu Hg) (CL e g l' He Hg Hl)).
      eauto. }
    exists (ekeys rc), rc.
    unfold construct_residual_graph_min_flow. rewrite residual_loop_min_flow_with, H. simpl.
    destruct (P u v (Num.minus hi (Int f)) (Int (f - lo)) I NI) as [P1 P2].
    { rewrite (min_flow_entries_fits _ _ _ _ _ _ _ L U F); [reflexivity | |reflexivity].
      apply (CU (u, v)); auto. }
    split; [reflexivity|]. split; [apply T; assumption|].
    split; [exact P1|]. split; [exact P2|].
    rewrite (sub_fits _ _ O2), add_fits, window_add_int; [reflexivity | exact IU |].
    destruct IU as [->|[z ->]]; [exact O1 | reflexivity].
Qed.

Lemma residual_entries_sum_witness :
  (exists residual_edges rc,
      MaximumFlow.construct_residual_graph Examples.one_edge
        Examples.one_edge_capacities Examples.one_edge_flow
      = Ok (residual_edges, rc)
      /\ two_entries residual_edges ("s", "t")%string
      /\ eget rc ("s", "t")%string = Some (Num.minus (Int 3) (Int 2))
      /\ eget rc ("t", "s")%string = Some (Int 2)
      /\ Num.add (Num.minus (Int 3) (Int 2)) (Int 2) = Ok (Int 3))
  /\
  (exists residual_edges rc,
      MaximumFlow.construct_residual_graph Examples.inf_edge
        Examples.inf_edge_capacities (zero_flow Examples.inf_edge)
      = Ok (residual_edges, rc)
      /\ two_entries residual_edges ("s", "t")%string
      /\ eget rc ("s", "t")%string = Some PosInf
      /\ eget rc ("t", "s")%string = Some (Int 0))
  /\
  (exists residual_edges rc,
      construct_residual_graph_min_flow Examples.one_edge
        Examples.one_edge_lower Examples.one_edge_capacities Examples.one_edge_flow
      = Ok (residual_edges, rc)
      /\ two_entries residual_edges ("s", "t")%string
      /\ eget rc ("s", "t")%string = Some (Num.minus (Int 3) (Int 2))
      /\ eget rc ("t", "s")%string = Some (Int (2 - 1))
      /\ Num.add (Num.minus (Int 3) (Int 2)) (Int (2 - 1)) = Num.sub (Int 3) (Int 1)).
Proof.
  assert (D : forall d : edict, (exists x, d = [(("s", "t")%string, x)]) ->
                defined_on Examples.one_edge d).
  { intros d [x ->] e [<-|[]]. exists x. reflexivity. }
  assert (C : forall a b, convertible Examples.one_edge
                [(("s", "t")%string, Int a)] [(("s", "t")%string, Int b)]).
  { intros a b e x y [<-|[]] X Y. inversion X; inversion Y; reflexivity. }
  assert (I : In ("s", "t")%string Examples.one_edge) by (simpl; auto).
  assert (NI : ~ In ("t", "s")%string Examples.one_edge).
  { simpl. intros [Q|[]]. discriminate. }
  destruct (residual_entries_sum Examples.one_edge "s"%string "t"%string I NI)
    as [A [Z B]].
  split; [|split].
  - apply (A Examples.one_edge_capacities Examples.one_edge_flow (Int 3) 2).
    + apply D. eexists; reflexivity.
    + apply D. eexists; reflexivity.
    + apply C.
    + reflexivity.
    + right. eexists; reflexivity.
    + reflexivity.
  - apply (Z Examples.inf_edge_capacities PosInf).
    + apply D. eexists; reflexivity.
    + reflexivity.
  - apply (B Examples.one_edge_lower Examples.one_edge_capacities
             Examples.one_edge_flow 1 (Int 3) 2).
    + apply D. eexists; reflexivity.
    + apply D. eexists; reflexivity.
    + apply D. eexists; reflexivity.
    + apply C.
    + apply C.
    + reflexivity.
    + reflexivity.
    + right. eexists; reflexivity.
    + reflexivity.
    + reflexivity.
    + reflexivity.
Defined.

(** C2 as stated fails when the graph has an edge in each direction
    between two nodes: from the all-zero flow, with capacities 3 on (a,b)
    and 5 on (b,a), the residual capacity of (a,b) is 0 and not 3, and the
    entries (a,b) and (b,a) sum to 5. *)
Lemma residual_entries_sum_counterexample :
  MaximumFlow.construct_residual_graph Examples.two_way_edges
    Examples.two_way_capacities (zero_flow Examples.two_way_edges)
  = Ok ([("a", "b"); ("b", "a")]%string,
        [(("a", "b")%string, Int 0); (("b", "a")%string, Int 5)])
  /\ eget Examples.two_way_capacities ("a", "b")%string = Some (Int 3)
  /\ Int 0 <> Int 3
  /\ Num.add (Int 0) (Int 5) <> Ok (Int 3).
Proof. repeat split; try reflexivity; discriminate. Qed.


(** ** The augmenting loop *)

Lemma ekeys_eset_present d e v x :
  eget d e = Some x -> ekeys (eset d e v) = ekeys d.
Proof. intros H. apply keys_set_in. apply (in_ekeys_eget d e). eauto. Qed.

Lemma augment_keys edges path_edges delta flow flow' :
  augment edges path_edges delta flow = Ok flow' -> ekeys flow' = ekeys flow.
Proof.
  revert flow. induction edges as [|[u v] rest IH]; intros flow H; simpl in H.
  - inversion H; reflexivity.
  - inv_bind H as flow1 Ha. inv_bind H as flow2 Ha0.
    rewrite (IH _ H). clear IH H.
    assert (K1 : ekeys flow1 = ekeys flow).
    { destruct (mem_edge (u, v) path_edges).
      - inv_bind Ha as f Hf. inv_bind Ha as f' Hf'. inversion Ha; subst.
        apply elookup_Ok in Hf. eapply ekeys_eset_present; eauto.
      - inversion Ha; reflexivity. }
    rewrite <- K1.
    destruct (mem_edge (v, u) path_edges).
    + inv_bind Ha0 as f Hf. inv_bind Ha0 as f' Hf'. inversion Ha0; subst.
      apply elookup_Ok in Hf. eapply ekeys_eset_present; eauto.
    + inversion Ha0; reflexivity.
Qed.

Section Loop.
Variable build : edict -> result (list edge * edict).
Variable edges : list edge.
Variables source sink : node.
Variable sm : search_method.

(** What the loop returns is a flow whose residual graph the search
    method finds no path in, together with its value at the source. *)
Lemma augmenting_loop_final fuel :
  forall flow re rc p flow' v,
    build flow = Ok (re, rc) ->
    sm re rc source sink = Ok p ->
    augmenting_loop fuel build edges source sink sm flow rc p = Ok (flow', v) ->
    ekeys flow' = ekeys flow
    /\ calculate_flow_value flow' source = Ok v
    /\ exists re' rc' p',
        build flow' = Ok (re', rc')
        /\ sm re' rc' source sink = Ok p'
        /\ path_found p' = None.
Proof.
  induction fuel as [|fuel IH]; intros flow re rc p flow' v B S H;
    simpl in H; destruct (path_found p) as [path|] eqn:PF; try discriminate.
  - inv_bind H. inversion H; subst. split; [reflexivity|]. split; [assumption|].
    exists re, rc, p. auto.
  - inv_bind H as delta Hd. inv_bind H as flow1 Hf.
    inv_bind H as [re1 rc1] Hb. inv_bind H as p1 Hs.
    destruct (IH _ _ _ _ _ _ Hb Hs H) as (K & V & F).
    split; [|auto]. rewrite K. eapply augment_keys; eauto.
  - inv_bind H. inversion H; subst. split; [reflexivity|]. split; [assumption|].
    exists re, rc, p. auto.
Qed.

Lemma augmenting_final fuel flow0 flow v :
  augmenting fuel build edges source sink sm flow0 = Ok (flow, v) ->
  ekeys flow = ekeys (initial_flow edges flow0)
  /\ calculate_flow_value flow source = Ok v
  /\ exists re rc p,
      build flow = Ok (re, rc)
      /\ sm re rc source sink = Ok p
      /\ path_found p = None.
Proof.
  unfold augmenting. intros H. inv_bind H as [re rc] Hb.
  inv_bind H as p Hs. eapply augmenting_loop_final; eauto.
Qed.

Lemma initial_flow_again flow0 flow :
  ekeys flow = ekeys (initial_flow edges flow0) ->
  initial_flow edges (Some flow) = flow.
Proof.
  intros K. destruct flow as [|kv flow]; [|reflexivity]. simpl.
  destruct flow0 as [[|kv f]|]; simpl in K;
    destruct (zero_flow edges); (reflexivity || discriminate).
Qed.

(** Starting again from a flow that the loop returned. *)
Lemma augmenting_idempotent fuel fuel' flow0 flow v :
  augmenting fuel build edges source sink sm flow0 = Ok (flow, v) ->
  augmenting fuel' build edges source sink sm (Some flow) = Ok (flow, v).
Proof.
  intros H. destruct (augmenting_final _ _ _ _ H) as (K & V & re & rc & p & B & S & PF).
  unfold augmenting. rewrite (initial_flow_again _ _ K), B. simpl. rewrite S. simpl.
  destruct fuel'; simpl; rewrite PF, V; reflexivity.
Qed.

End Loop.

(** C4. Whatever the graph, capacities, source, sink and search method:
    when [ford_fulkerson] has returned a flow and a value, the search finds
    no path in the residual graph of that flow, and [ford_fulkerson]
    started from that flow returns the same flow and the same value. *)
Theorem ford_fulkerson_idempotent :
  forall (sm : search_method) fuel fuel' edges capacities source sink flow0 flow v,
    ford_fulkerson fuel edges capacities source sink sm flow0 = Ok (flow, v) ->
    (exists residual_edges residual_capacities p,
        MaximumFlow.construct_residual_graph edges capacities flow
        = Ok (residual_edges, residual_capacities)
        /\ sm residual_edges residual_capacities source sink = Ok p
        /\ path_found p = None)
    /\ ford_fulkerson fuel' edges capacities source sink sm (Some flow) = Ok (flow, v).
Proof.
  unfold ford_fulkerson. intros sm fuel fuel' edges capacities source sink flow0 flow v H.
  split.
  - apply augmenting_final in H. tauto.
  - eapply augmenting_idempotent; eauto.
Qed.

(** C7. The value that [minimum_flow] reports is the negation of the net
    outgoing flow, at the sink of the graph, of the flow that
    [ford_fulkerson_min_flow] returns when run from the sink to the source
    from the feasible flow (the one supplied, or the one constructed when
    none is supplied). *)
Theorem minimum_flow_value :
  forall (sm : search_method) fuel nodes edges lower_bounds upper_bounds
         source sink supplied min_flow value,
    minimum_flow fuel nodes edges lower_bounds upper_bounds source sink sm supplied
    = Ok (min_flow, value) ->
    exists feasible pushed,
      match supplied with
      | None | Some [] =>
          construct_feasible_flow fuel nodes edges lower_bounds upper_bounds
            source sink sm = Ok feasible
      | Some f => feasible = f
      end
      /\ ford_fulkerson_min_flow fuel edges lower_bounds upper_bounds sink source
           sm (Some feasible) = Ok (min_flow, pushed)
      /\ calculate_flow_value min_flow sink = Ok pushed
      /\ value = Num.neg pushed.
Proof.
  intros sm fuel nodes edges lower upper source sink supplied min_flow value H.
  unfold minimum_flow in H. inv_bind H as feasible Ha.
  inv_bind H as [mf pushed] Ha0. inversion H; subst.
  exists feasible, pushed. split; [|split; [exact Ha0|split; [|reflexivity]]].
  - destruct supplied as [[|kv f]|]; try exact Ha. inversion Ha; reflexivity.
  - unfold ford_fulkerson_min_flow in Ha0. apply augmenting_final in Ha0. tauto.
Qed.


#[local] Arguments Num.gtb : simpl never.
#[local] Arguments Num.ltb : simpl never.

(** ** Node lists *)

Lemma mem_node_true x l : mem_node x l = true <-> In x l.
Proof. unfold mem_node. destruct (in_dec node_eq_dec x l); split; auto; discriminate. Qed.

Lemma mem_node_false x l : mem_node x l = false <-> ~ In x l.
Proof. unfold mem_node. destruct (in_dec node_eq_dec x l); split; auto; try discriminate; tauto. Qed.

Lemma mem_edge_true x l : mem_edge x l = true <-> In x l.
Proof. unfold mem_edge. destruct (in_dec edge_eq_dec x l); split; auto; discriminate. Qed.

Lemma mem_edge_false x l : mem_edge x l = false <-> ~ In x l.
Proof. unfold mem_edge. destruct (in_dec edge_eq_dec x l); split; auto; try discriminate; tauto. Qed.

Lemma last_node_snoc p v : last_node (p ++ [v]) = Ok v.
Proof.
  destruct p as [|x p]; [reflexivity|].
  change (last_node ((x :: p) ++ [v])) with (Ok (last (p ++ [v]) x)).
  rewrite last_last. reflexivity.
Qed.

Lemma last_node_cons x y p : last_node (x :: y :: p) = last_node (y :: p).
Proof.
  unfold last_node. f_equal. revert x y.
  induction p as [|z p IH]; intros x y; [reflexivity|].
  change (last (y :: z :: p) x) with (last (z :: p) x).
  change (last (z :: p) y) with (match p with [] => z | _ :: _ => last p y end).
  rewrite (IH x z). destruct p; [reflexivity|]. symmetry. apply (IH y z).
Qed.

Lemma last_node_nonempty p u : last_node p = Ok u -> p <> [].
Proof. destruct p; simpl; [discriminate | congruence]. Qed.

Lemma last_node_In p u : last_node p = Ok u -> In u p.
Proof.
  induction p as [|x p IH]; [discriminate|].
  destruct p as [|y p]; [simpl; intros H; inversion H; auto|].
  rewrite last_node_cons. intros H. right. auto.
Qed.

Lemma get_path_edges_snoc p u v :
  last_node p = Ok u -> get_path_edges (p ++ [v]) = get_path_edges p ++ [(u, v)].
Proof.
  induction p as [|x p IH]; [discriminate|].
  destruct p as [|y p]; [simpl; intros H; inversion H; reflexivity|].
  rewrite last_node_cons. intros H.
  change (get_path_edges ((x :: y :: p) ++ [v]))
    with ((x, y) :: get_path_edges ((y :: p) ++ [v])).
  rewrite (IH H). reflexivity.
Qed.

Lemma hd_error_snoc (p : list node) v : p <> [] -> hd_error (p ++ [v]) = hd_error p.
Proof. destruct p; [congruence | reflexivity]. Qed.

Lemma length_path_edges p : List.length p = S (List.length (get_path_edges p)) \/ p = [].
Proof.
  induction p as [|x p IH]; [auto|]. left.
  destruct p as [|y p]; [reflexivity|].
  destruct IH as [IH|IH]; [|discriminate].
  change (get_path_edges (x :: y :: p)) with ((x, y) :: get_path_edges (y :: p)).
  simpl in *. lia.
Qed.

(** ** The comprehension of the searches *)

Lemma new_nodes_spec edges rc cur excluded nn :
  new_nodes edges rc cur excluded = Ok nn ->
  forall v, In v nn <-> positive_edge edges rc (cur, v) /\ excluded v = false.
Proof.
  revert nn. induction edges as [|[a b] rest IH]; intros nn H v; simpl in H.
  - inversion H; subst. unfold positive_edge. simpl. tauto.
  - assert (T : forall nn', new_nodes rest rc cur excluded = Ok nn' ->
                (In v nn' <-> positive_edge rest rc (cur, v) /\ excluded v = false))
      by (intros; apply IH; assumption).
    unfold positive_edge in *. cbn [In].
    destruct (node_eq_dec a cur) as [->|N].
    + inv_bind H as c Hc. inv_bind H as tl Htl. inversion H; subst nn. clear H.
      apply elookup_Ok in Hc. specialize (T tl Htl).
      destruct (Num.gtb c (Int 0) && negb (excluded b)) eqn:G.
      * apply andb_true_iff in G. destruct G as [G1 G2].
        apply negb_true_iff in G2. cbn [In]. rewrite T. split.
        -- intros [<-|[[I P] X]]; [|tauto]. split; [|assumption]. split; [auto|eauto].
        -- intros [[[Q|I] P] X]; [inversion Q; auto | tauto].
      * rewrite T. split; [tauto|]. intros [[[Q|I] P] X]; [|tauto].
        inversion Q; subst b. destruct P as [c' [P1 P2]].
        rewrite Hc in P1. inversion P1; subst c'. rewrite P2, X in G. discriminate.
    + rewrite (T nn H). split; [tauto|]. intros [[[Q|I] P] X]; [|tauto].
      inversion Q; congruence.
Qed.

(** ** Breadth-first search *)

Lemma layered_head p rest x :
  layered (p :: rest) -> In x (p :: rest) ->
  (List.length p <= List.length x <= S (List.length p))%nat.
Proof.
  intros (l & q1 & q2 & E & F1 & F2) I.
  rewrite Forall_forall in F1, F2.
  destruct q1 as [|p1 q1]; simpl in E.
  - subst q2. rewrite (F2 p), (F2 x) by (simpl; auto). lia.
  - inversion E; subst p1 rest. rewrite (F1 p) by (simpl; auto).
    change (In x ((p :: q1) ++ q2)) in I. apply in_app_iff in I.
    destruct I as [I|I]; [rewrite (F1 x I) | rewrite (F2 x I)]; lia.
Qed.

Lemma layered_step p rest news :
  layered (p :: rest) ->
  Forall (fun q => List.length q = S (List.length p)) news ->
  layered (rest ++ news).
Proof.
  intros (l & q1 & q2 & E & F1 & F2) N.
  destruct q1 as [|p1 q1]; simpl in E.
  - subst q2. inversion F2; subst. exists (S l), rest, news.
    split; [reflexivity|]. split; [assumption|].
    eapply Forall_impl; [|exact N]. simpl. intros a Ha. congruence.
  - inversion E; subst p1 rest. inversion F1; subst.
    exists (List.length p), q1, (q2 ++ news).
    split; [symmetry; apply app_assoc|]. split; [assumption|].
    apply Forall_app. split; assumption.
Qed.

Lemma ends_open_dec open x : {ends_open open x} + {~ ends_open open x}.
Proof.
  induction open as [|p open IH].
  - right. intros (q & [] & _).
  - destruct (last_node p) as [y|e] eqn:L.
    + destruct (node_eq_dec y x) as [->|N].
      * left. exists p. simpl; auto.
      * destruct IH as [IH|IH].
        -- left. destruct IH as (q & I & Lq). exists q. simpl; auto.
        -- right. intros (q & [<-|I] & Lq); [congruence|]. apply IH. exists q; auto.
    + destruct IH as [IH|IH].
      * left. destruct IH as (q & I & Lq). exists q. simpl; auto.
      * right. intros (q & [<-|I] & Lq); [congruence|]. apply IH. exists q; auto.
Qed.

Section BFS.
Variables (edges : list edge) (rc : edict) (source sink : node).

Lemma reach_extend q :
  forall n a w,
    reach edges rc source n a ->
    hd_error q = Some a -> last_node q = Ok w ->
    Forall (positive_edge edges rc) (get_path_edges q) ->
    reach edges rc source (n + List.length (get_path_edges q)) w.
Proof.
  induction q as [|x q IH]; intros n a w R H L F; [discriminate|].
  simpl in H. inversion H; subst x. clear H.
  destruct q as [|b q].
  - simpl in *. inversion L; subst. rewrite Nat.add_0_r. assumption.
  - rewrite last_node_cons in L.
    change (get_path_edges (a :: b :: q)) with ((a, b) :: get_path_edges (b :: q)) in *.
    inversion F; subst. simpl List.length. rewrite Nat.add_succ_r.
    apply (IH (S n) b w); auto. econstructor; eauto.
Qed.

Lemma reach_of_path w q :
  positive_path edges rc source w q ->
  reach edges rc source (List.length (get_path_edges q)) w.
Proof.
  intros (H & L & F). apply (reach_extend q O source w); auto. constructor.
Qed.

Lemma bfs_inv_init : bfs_inv edges rc source [[source]] [source].
Proof.
  constructor.
  - intros p [<-|[]]. exists source. split; [|simpl; auto].
    repeat split; constructor.
  - simpl; auto.
  - intros x [<-|[]] N. exfalso. apply N. exists [source]. simpl; auto.
  - exists 1%nat, [[source]], []. repeat split; repeat constructor.
  - intros n w R. destruct R as [|n u v R P].
    + right. split; [simpl; auto|]. intros p [<-|[]] _. simpl. lia.
    + left. exists [source]. simpl. split; [auto | lia].
Qed.

Lemma bfs_inv_step p rest closed u nn :
  bfs_inv edges rc source (p :: rest) closed ->
  last_node p = Ok u ->
  new_nodes edges rc u (fun v => mem_node v closed) = Ok nn ->
  bfs_inv edges rc source
    (rest ++ map (fun new_node => p ++ [new_node]) nn) (closed ++ nn).
Proof.
  intros [Paths Src Exp Lay Near] Lu NN.
  assert (F1 : forall v, In v nn <-> positive_edge edges rc (u, v) /\ ~ In v closed).
  { intros v. rewrite (new_nodes_spec _ _ _ _ _ NN v), mem_node_false. tauto. }
  assert (F2 : forall q, In q (rest ++ map (fun v => p ++ [v]) nn) <->
                 In q rest \/ exists v, In v nn /\ q = p ++ [v]).
  { intros q. rewrite in_app_iff, in_map_iff. split.
    - intros [I|(v & <- & I)]; eauto.
    - intros [I|(v & I & ->)]; eauto. }
  assert (Len : forall q, In q (rest ++ map (fun v => p ++ [v]) nn) ->
                  (List.length p <= List.length q <= S (List.length p))%nat).
  { intros q Hq. apply F2 in Hq. destruct Hq as [I|(v & I & ->)].
    - apply (layered_head p rest q Lay). simpl; auto.
    - rewrite length_app. simpl. lia. }
  assert (Pu : p <> []) by (eapply last_node_nonempty; eauto).
  constructor.
  - (* the open paths *)
    intros q Hq. apply F2 in Hq. destruct Hq as [I|(v & I & ->)].
    + destruct (Paths q) as (x & PP & Ix); [simpl; auto|].
      exists x. split; [assumption|]. apply in_app_iff; auto.
    + exists v. split; [|apply in_app_iff; auto].
      destruct (Paths p) as (x & (Hd & Lx & Fx) & Ix); [simpl; auto|].
      repeat split.
      * rewrite hd_error_snoc; assumption.
      * apply last_node_snoc.
      * rewrite (get_path_edges_snoc p u v Lu). apply Forall_app. split; [assumption|].
        constructor; [|constructor]. apply F1. assumption.
  - apply in_app_iff; auto.
  - (* expanded nodes *)
    intros x Ix Nx v Pv. apply in_app_iff in Ix. destruct Ix as [Ix|Ix].
    + destruct (node_eq_dec x u) as [->|Nu].
      * apply in_app_iff. destruct (in_dec node_eq_dec v closed); [auto|].
        right. apply F1. auto.
      * apply in_app_iff. left. apply (Exp x Ix); [|assumption].
        intros (q & [<-|Iq] & Lq); [congruence|].
        apply Nx. exists q. split; [|assumption]. apply F2. auto.
    + exfalso. apply Nx. exists (p ++ [x]). split; [|apply last_node_snoc].
      apply F2. eauto.
  - (* layers *)
    apply (layered_step p rest); [assumption|].
    apply Forall_forall. intros q Hq. apply in_map_iff in Hq.
    destruct Hq as (v & <- & _). rewrite length_app. simpl. lia.
  - (* nodes near the source *)
    assert (New : forall q w, In q (rest ++ map (fun v => p ++ [v]) nn) ->
                    last_node q = Ok w -> In w closed -> In q rest).
    { intros q w Hq Lq Iw. apply F2 in Hq. destruct Hq as [I|(v & I & ->)]; [assumption|].
      rewrite last_node_snoc in Lq. inversion Lq; subst v. apply F1 in I. tauto. }
    intros n w R. induction R as [|n x w R IH Pw].
    + right. split; [apply in_app_iff; auto|].
      intros q Hq Lq. destruct (Near O source (reach_source _ _ _)) as [(y & Iy & Ly)|[_ B]].
      * destruct (Paths y Iy) as (z & (_ & Lz & _) & _).
        apply last_node_nonempty in Lz. destruct y; [congruence | simpl in Ly; lia].
      * apply B; [|assumption]. right. apply (New q source); assumption.
    + destruct IH as [(y & Iy & Ly)|[Ix B]].
      { left. exists y. split; [assumption | lia]. }
      destruct (ends_open_dec (rest ++ map (fun v => p ++ [v]) nn) x) as [(y & Iy & Ly)|Nx].
      { left. exists y. split; [assumption|]. specialize (B y Iy Ly). lia. }
      assert (Iw : In w (closed ++ nn)).
      { apply in_app_iff in Ix. destruct Ix as [Ix|Ix].
        - destruct (node_eq_dec x u) as [->|Nu].
          + apply in_app_iff. destruct (in_dec node_eq_dec w closed); [auto|].
            right. apply F1. auto.
          + apply in_app_iff. left. apply (Exp x Ix); [|assumption].
            intros (q & [<-|Iq] & Lq); [congruence|].
            apply Nx. exists q. split; [|assumption]. apply F2. auto.
        - exfalso. apply Nx. exists (p ++ [x]). split; [|apply last_node_snoc].
          apply F2. eauto. }
      destruct (le_lt_dec (S (List.length p)) (S (S n))) as [Short|Long].
      * right. split; [assumption|]. intros q Hq _. specialize (Len q Hq). lia.
      * destruct (Near (S n) w (reach_step _ _ _ n x w R Pw)) as [(y & Iy & Ly)|[Iw' B']].
        -- pose proof (layered_head p rest y Lay Iy). lia.
        -- right. split; [assumption|]. intros q Hq Lq. apply B'; [|assumption].
           right. apply (New q w); assumption.
Qed.

Lemma bfs_loop_shortest fuel :
  forall open closed p,
    bfs_inv edges rc source open closed ->
    bfs_loop fuel edges rc sink open closed = Ok (Some p) ->
    positive_path edges rc source sink p
    /\ forall n, reach edges rc source n sink -> (List.length p <= S n)%nat.
Proof.
  induction fuel as [|fuel IH]; intros open closed p Inv H;
    destruct open as [|q rest]; simpl in H; try discriminate.
  inv_bind H as u Lu.
  destruct (node_eq_dec u sink) as [->|N].
  - inversion H; subst q. clear H. split.
    + destruct (bfs_paths _ _ _ _ _ Inv p) as (x & (Hd & Lx & Fx) & _); [simpl; auto|].
      repeat split; assumption.
    + intros n R. destruct (bfs_near _ _ _ _ _ Inv n sink R) as [(y & Iy & Ly)|[_ B]].
      * pose proof (layered_head p rest y (bfs_layers _ _ _ _ _ Inv) Iy). lia.
      * apply B; [simpl; auto | assumption].
  - inv_bind H as nn NN. apply (IH _ _ _ (bfs_inv_step _ _ _ _ _ Inv Lu NN) H).
Qed.

End BFS.

(** C5. When [find_augmenting_path_bfs] returns a path, it is a path of
    strictly positive residual capacity from the source to the sink, and no
    such path has fewer edges. *)
Theorem bfs_fewest_edges :
  forall fuel edges rc source sink p,
    find_augmenting_path_bfs fuel edges rc source sink = Ok (Some p) ->
    positive_path edges rc source sink p
    /\ forall q,
        positive_path edges rc source sink q ->
        (List.length (get_path_edges p) <= List.length (get_path_edges q))%nat.
Proof.
  intros fuel edges rc source sink p H.
  destruct (bfs_loop_shortest edges rc source sink fuel _ _ p
              (bfs_inv_init edges rc source) H) as [PP Min].
  split; [assumption|]. intros q Q.
  specialize (Min _ (reach_of_path _ _ _ _ _ Q)).
  destruct (length_path_edges p) as [E|E].
  - lia.
  - subst p. destruct PP as (Hd & _). discriminate.
Qed.


Lemma bfs_fewest_edges_witness :
  positive_path (ekeys Examples.detour_residual) Examples.detour_residual
    "s"%string "t"%string ["s"; "t"]%string
  /\ forall q,
      positive_path (ekeys Examples.detour_residual) Examples.detour_residual
        "s"%string "t"%string q ->
      (List.length (get_path_edges ["s"; "t"]%string)
       <= List.length (get_path_edges q))%nat.
Proof.
  apply (bfs_fewest_edges 5 (ekeys Examples.detour_residual)
           Examples.detour_residual "s"%string "t"%string).
  reflexivity.
Defined.

(** The route over a is a longer path of positive capacity in that graph,
    and the one that the depth-first search returns. *)
Example detour_two_routes :
  positive_path (ekeys Examples.detour_residual) Examples.detour_residual
    "s"%string "t"%string ["s"; "a"; "t"]%string
  /\ find_augmenting_path_dfs 5 (ekeys Examples.detour_residual)
       Examples.detour_residual "s"%string "t"%string
     = Ok (Some ["s"; "a"; "t"]%string).
Proof.
  split; [|reflexivity].
  split; [reflexivity|]. split; [reflexivity|].
  repeat constructor; simpl; auto; eexists; (split; [reflexivity|reflexivity]).
Qed.

Lemma ford_fulkerson_idempotent_witness :
  (exists residual_edges residual_capacities p,
      MaximumFlow.construct_residual_graph Examples.one_edge
        Examples.one_edge_capacities [(("s", "t")%string, Int 3)]
      = Ok (residual_edges, residual_capacities)
      /\ search BreadthFirst 5 residual_edges residual_capacities
           "s"%string "t"%string = Ok p
      /\ path_found p = None)
  /\ ford_fulkerson 0 Examples.one_edge Examples.one_edge_capacities
       "s"%string "t"%string (search BreadthFirst 5)
       (Some [(("s", "t")%string, Int 3)])
     = Ok ([(("s", "t")%string, Int 3)], Int 3).
Proof.
  apply (ford_fulkerson_idempotent (search BreadthFirst 5) 5 0 Examples.one_edge
           Examples.one_edge_capacities "s"%string "t"%string None).
  reflexivity.
Defined.

Lemma minimum_flow_value_witness :
  exists feasible pushed,
    construct_feasible_flow 5 Examples.chain_nodes Examples.chain_edges
      Examples.chain_lower Examples.chain_upper "s"%string "t"%string
      (search BreadthFirst 9) = Ok feasible
    /\ ford_fulkerson_min_flow 5 Examples.chain_edges Examples.chain_lower
         Examples.chain_upper "t"%string "s"%string (search BreadthFirst 9)
         (Some feasible)
       = Ok ([(("s", "a")%string, Int 1); (("a", "t")%string, Int 1)], pushed)
    /\ calculate_flow_value [(("s", "a")%string, Int 1); (("a", "t")%string, Int 1)]
         "t"%string = Ok pushed
    /\ Int 1 = Num.neg pushed.
Proof.
  apply (minimum_flow_value (search BreadthFirst 9) 5 Examples.chain_nodes
           Examples.chain_edges Examples.chain_lower Examples.chain_upper
           "s"%string "t"%string None).
  vm_compute. reflexivity.
Defined.

(** ** Breadth-first search: simple paths, completeness, termination *)

Lemma NoDup_snoc (l : list node) v : NoDup l -> ~ In v l -> NoDup (l ++ [v]).
Proof.
  intros N I. apply NoDup_app; [assumption | repeat constructor; simpl; tauto |].
  intros x Hx [<-|[]]. contradiction.
Qed.

Lemma bfs_simple_init source sink : bfs_simple sink [[source]] [source].
Proof.
  constructor.
  - intros p [<-|[]]. split; [repeat constructor; simpl; tauto | auto].
  - intros [<-|[]]. exists [source]. simpl; auto.
Qed.

Lemma bfs_simple_step edges rc sink p rest closed u nn :
  bfs_simple sink (p :: rest) closed ->
  last_node p = Ok u -> u <> sink ->
  new_nodes edges rc u (fun v => mem_node v closed) = Ok nn ->
  bfs_simple sink (rest ++ map (fun new_node => p ++ [new_node]) nn) (closed ++ nn).
Proof.
  intros [ND SK] Lu Nu NN.
  assert (F1 : forall v, In v nn -> ~ In v closed).
  { intros v I. apply (new_nodes_spec _ _ _ _ _ NN v) in I.
    apply mem_node_false. tauto. }
  constructor.
  - intros q Hq. apply in_app_iff in Hq. destruct Hq as [Hq|Hq].
    + destruct (ND q) as [N I]; [simpl; auto|]. split; [assumption|].
      intros x Hx. apply in_app_iff. auto.
    + apply in_map_iff in Hq. destruct Hq as (v & <- & Iv).
      destruct (ND p) as [N I]; [simpl; auto|]. split.
      * apply NoDup_snoc; [assumption|]. intros J. apply (F1 v Iv). auto.
      * intros x Hx. apply in_app_iff in Hx. apply in_app_iff.
        destruct Hx as [Hx|[<-|[]]]; auto.
  - intros I. apply in_app_iff in I. destruct I as [I|I].
    + destruct (SK I) as (q & [<-|Iq] & Lq); [congruence|].
      exists q. split; [apply in_app_iff; auto | assumption].
    + exists (p ++ [sink]). split; [|apply last_node_snoc].
      apply in_app_iff. right. apply in_map_iff. eauto.
Qed.

(** What the loop returns: a simple positive path of fewest edges, or
    [None] when the sink cannot be reached. *)
Lemma bfs_loop_result edges rc source sink fuel : forall open closed,
  bfs_inv edges rc source open closed -> bfs_simple sink open closed ->
  match bfs_loop fuel edges rc sink open closed with
  | Ok (Some p) => augmenting_path edges rc source sink p
  | Ok None => forall q, ~ positive_path edges rc source sink q
  | Err _ => True
  end.
Proof.
  induction fuel as [|fuel IH]; intros open closed Inv Simple;
    destruct open as [|q rest]; simpl; try exact I.
  - intros p P. apply reach_of_path in P.
    destruct (bfs_near _ _ _ _ _ Inv _ _ P) as [(y & [] & _)|[Is _]].
    destruct (bfs_sink _ _ _ Simple Is) as (y & [] & _).
  - intros p P. apply reach_of_path in P.
    destruct (bfs_near _ _ _ _ _ Inv _ _ P) as [(y & [] & _)|[Is _]].
    destruct (bfs_sink _ _ _ Simple Is) as (y & [] & _).
  - destruct (last_node q) as [u|e] eqn:Lu; simpl; [|exact I].
    destruct (node_eq_dec u sink) as [->|N].
    + split.
      * destruct (bfs_paths _ _ _ _ _ Inv q) as (x & (Hd & Lx & Fx) & _); [simpl; auto|].
        repeat split; assumption.
      * apply (bfs_nodup _ _ _ Simple q). simpl; auto.
    + destruct (new_nodes edges rc u (fun v => mem_node v closed)) as [nn|e] eqn:NN;
        simpl; [|exact I].
      apply IH.
      * eapply bfs_inv_step; eauto.
      * eapply bfs_simple_step; eauto.
Qed.

Lemma new_nodes_Err edges rc cur excluded x :
  new_nodes edges rc cur excluded = Err x -> x = KeyError.
Proof.
  induction edges as [|[a b] rest IH]; simpl; [discriminate|].
  destruct (node_eq_dec a cur); [|exact IH].
  destruct (elookup rc (a, b)) eqn:L; simpl.
  - destruct (new_nodes rest rc cur excluded); simpl; [discriminate|].
    intros H. inversion H; subst. apply IH. reflexivity.
  - intros H. inversion H; subst. apply elookup_Err in L. tauto.
Qed.

Lemma new_nodes_unclosed rc u closed extra : forall edges nn,
  new_nodes edges rc u (fun v => mem_node v closed) = Ok nn ->
  (forall v, In v nn -> In v extra) ->
  (List.length nn + unclosed edges (closed ++ extra) <= unclosed edges closed)%nat.
Proof.
  unfold unclosed.
  induction edges as [|[a b] rest IH]; intros nn H E; simpl in H.
  - inversion H; subst. simpl. lia.
  - assert (Mono : mem_node b closed = true -> mem_node b (closed ++ extra) = true).
    { rewrite !mem_node_true, in_app_iff. auto. }
    cbn [filter snd].
    destruct (node_eq_dec a u) as [->|N].
    + inv_bind H as c Hc. inv_bind H as tl Htl. inversion H; subst nn. clear H.
      destruct (Num.gtb c (Int 0) && negb (mem_node b closed)) eqn:G.
      * apply andb_true_iff in G. destruct G as [_ G]. rewrite G.
        assert (Ib : mem_node b (closed ++ extra) = true).
        { apply mem_node_true, in_app_iff. right. apply E. simpl; auto. }
        rewrite Ib. simpl.
        specialize (IH tl Htl (fun v I => E v (or_intror I))). lia.
      * specialize (IH tl Htl E).
        destruct (mem_node b closed) eqn:M.
        -- rewrite (Mono eq_refl). simpl. lia.
        -- destruct (mem_node b (closed ++ extra)); simpl; lia.
    + specialize (IH nn H E).
      destruct (mem_node b closed) eqn:M.
      * rewrite (Mono eq_refl). simpl. lia.
      * destruct (mem_node b (closed ++ extra)); simpl; lia.
Qed.

Lemma bfs_loop_fuel edges rc sink fuel : forall open closed,
  (List.length open + unclosed edges closed < fuel)%nat ->
  bfs_loop fuel edges rc sink open closed <> Err OutOfFuel.
Proof.
  induction fuel as [|fuel IH]; intros open closed L; [lia|].
  destruct open as [|q rest]; simpl; [discriminate|].
  destruct (last_node q) as [u|e] eqn:Lu; simpl.
  - destruct (node_eq_dec u sink); [discriminate|].
    destruct (new_nodes edges rc u (fun v => mem_node v closed)) as [nn|e] eqn:NN; simpl.
    + apply IH. rewrite length_app, length_map.
      pose proof (new_nodes_unclosed rc u closed nn edges nn NN (fun v I => I)).
      simpl in L. lia.
    + apply new_nodes_Err in NN. subst. discriminate.
  - destruct q; simpl in Lu; [inversion Lu; discriminate | discriminate].
Qed.

(** The breadth-first search as a whole. With more fuel than the graph has
    edges plus one, it does not run out; when it returns a path, the path is
    an augmenting path; when it returns [None], there is none. *)
Lemma find_augmenting_path_bfs_correct fuel edges rc source sink :
  (S (List.length edges) < fuel)%nat ->
  find_augmenting_path_bfs fuel edges rc source sink <> Err OutOfFuel
  /\ match find_augmenting_path_bfs fuel edges rc source sink with
     | Ok (Some p) => augmenting_path edges rc source sink p
     | Ok None => forall q, ~ positive_path edges rc source sink q
     | Err _ => True
     end.
Proof.
  intros L. split.
  - apply bfs_loop_fuel. unfold unclosed.
    pose proof (filter_length_le (fun e => negb (mem_node (snd e) [source])) edges).
    cbn [List.length]. eapply Nat.le_lt_trans; [|exact L]. apply le_n_S. exact H.
  - apply bfs_loop_result; [apply bfs_inv_init | apply bfs_simple_init].
Qed.

(** ** The minimum-bottleneck search and paths of infinite capacity *)

(** C3 at the residual graph of one edge (s,t) of infinite capacity under
    the all-zero flow: [s, t] is an augmenting path, the breadth-first,
    depth-first and maximum-bottleneck searches return it, and
    [find_augmenting_path_min] returns [None]. Its sentinel for "no path
    yet" is the capacity [inf], and a path replaces the current one only
    when its capacity is strictly smaller. With this search
    [ford_fulkerson] returns the all-zero flow on that graph. *)
Theorem find_augmenting_path_min_infinite_path :
  forall fuel,
    augmenting_path (ekeys Examples.inf_edge_residual) Examples.inf_edge_residual
      "s"%string "t"%string ["s"; "t"]%string
    /\ MaximumFlow.construct_residual_graph Examples.inf_edge
         Examples.inf_edge_capacities (zero_flow Examples.inf_edge)
       = Ok (ekeys Examples.inf_edge_residual, Examples.inf_edge_residual)
    /\ find_augmenting_path_bfs (S (S fuel)) (ekeys Examples.inf_edge_residual)
         Examples.inf_edge_residual "s"%string "t"%string
       = Ok (Some ["s"; "t"]%string)
    /\ find_augmenting_path_dfs (S (S fuel)) (ekeys Examples.inf_edge_residual)
         Examples.inf_edge_residual "s"%string "t"%string
       = Ok (Some ["s"; "t"]%string)
    /\ find_augmenting_path_max (S (S fuel)) (ekeys Examples.inf_edge_residual)
         Examples.inf_edge_residual "s"%string "t"%string
       = Ok (Some ["s"; "t"]%string)
    /\ find_augmenting_path_min (S (S fuel)) (ekeys Examples.inf_edge_residual)
         Examples.inf_edge_residual "s"%string "t"%string
       = Ok None
    /\ ford_fulkerson 0 Examples.inf_edge Examples.inf_edge_capacities
         "s"%string "t"%string (find_augmenting_path_min (S (S fuel))) None
       = Ok ([(("s", "t")%string, Int 0)], Int 0).
Proof.
  intros fuel. split.
  { split.
    - repeat split; try reflexivity.
      constructor; [|constructor]. split; [simpl; auto|].
      exists PosInf. split; reflexivity.
    - repeat constructor; simpl; intuition discriminate. }
  destruct fuel; repeat split; reflexivity.
Qed.


(** ** A source outside the graph *)

Lemma new_nodes_none edges rc cur excluded :
  (forall e, In e edges -> fst e <> cur) ->
  new_nodes edges rc cur excluded = Ok [].
Proof.
  induction edges as [|[a b] rest IH]; intros H; simpl; [reflexivity|].
  destruct (node_eq_dec a cur) as [E|N].
  - exfalso. apply (H (a, b)); simpl; auto.
  - apply IH. intros e He. apply H. simpl; auto.
Qed.

Lemma search_none strat fuel edges rc source sink :
  source <> sink ->
  (forall e, In e edges -> fst e <> source) ->
  search strat (S fuel) edges rc source sink = Ok None.
Proof.
  intros N H. pose proof (new_nodes_none edges rc source) as NN.
  destruct strat; simpl.
  - unfold find_augmenting_path_bfs. simpl.
    destruct (node_eq_dec source sink); [contradiction|].
    rewrite NN by assumption. simpl. destruct fuel; reflexivity.
  - unfold find_augmenting_path_dfs. simpl.
    destruct (node_eq_dec source sink); [contradiction|].
    rewrite NN by assumption. simpl. destruct fuel; reflexivity.
  - unfold find_augmenting_path_max. simpl.
    destruct (node_eq_dec source sink); [contradiction|].
    rewrite NN by assumption. simpl. destruct fuel; reflexivity.
  - unfold find_augmenting_path_min. simpl.
    destruct (node_eq_dec source sink); [contradiction|].
    rewrite NN by assumption. simpl. destruct fuel; reflexivity.
Qed.

Lemma filter_none {A} (f : A -> bool) l :
  (forall x, In x l -> f x = false) -> filter f l = [].
Proof.
  induction l as [|a l IH]; intros H; simpl; [reflexivity|].
  rewrite (H a) by (simpl; auto). apply IH. intros x Hx. apply H. simpl; auto.
Qed.

Lemma calculate_flow_value_outside flow n :
  (forall e, In e (ekeys flow) -> fst e <> n /\ snd e <> n) ->
  calculate_flow_value flow n = Ok (Int 0).
Proof.
  intros H. unfold calculate_flow_value.
  rewrite !filter_none; [reflexivity| |].
  - intros e He. destruct (H e He) as [_ N]. destruct (node_eq_dec (snd e) n); congruence.
  - intros e He. destruct (H e He) as [N _]. destruct (node_eq_dec (fst e) n); congruence.
Qed.

Lemma max_flow_entries_defined edges capacities flow :
  defined_on edges capacities -> defined_on edges flow ->
  convertible edges capacities flow ->
  forall e, In e edges -> exists xy, max_flow_entries capacities flow e = Ok xy.
Proof.
  intros DC DF CV e He.
  destruct (DC e He) as [c Hc]. destruct (DF e He) as [g Hg].
  rewrite (max_flow_entries_fits _ _ _ _ _ Hc Hg (CV e c g He Hc Hg)). eauto.
Qed.

Lemma overflows_zero x : Num.overflows x (Int 0) = false.
Proof. destruct x; reflexivity. Qed.

(** Nothing is converted beyond the double range from the all-zero flow. *)
Lemma convertible_zero_flow edges capacities :
  convertible edges capacities (zero_flow edges).
Proof.
  intros e x y He X Y. rewrite (zero_flow_get _ _ He) in Y. inversion Y.
  apply overflows_zero.
Qed.

(** C9, as the code has it. No solver checks its nodes against a node
    set, and there is no NodeNotFound condition. A call of [ford_fulkerson]
    whose source is an endpoint of no edge (and is not the sink) returns
    normally, with each of the four strategies: the all-zero flow, of
    value 0. *)
Theorem ford_fulkerson_unknown_source :
  forall strat sfuel fuel edges capacities source sink,
    source <> sink ->
    (forall e, In e edges -> fst e <> source /\ snd e <> source) ->
    defined_on edges capacities ->
    ford_fulkerson fuel edges capacities source sink (search strat (S sfuel)) None
    = Ok (zero_flow edges, Int 0).
Proof.
  intros strat sfuel fuel edges capacities source sink N H DC.
  unfold ford_fulkerson, augmenting, MaximumFlow.construct_residual_graph. simpl.
  rewrite residual_loop_with.
  destruct (construct_with (max_flow_entries capacities (zero_flow edges)) edges)
    as (rc & Hrc & _ & K & _).
  { apply max_flow_entries_defined;
      [assumption | apply zero_flow_defined | apply convertible_zero_flow]. }
  rewrite Hrc. simpl. rewrite search_none; [|assumption|].
  - assert (V : calculate_flow_value (zero_flow edges) source = Ok (Int 0)).
    { apply calculate_flow_value_outside. intros e He.
      apply H. apply zero_flow_keys. assumption. }
    destruct fuel; simpl; rewrite V; reflexivity.
  - intros e He. apply K in He. destruct He as [He|He].
    + apply H; assumption.
    + apply H in He. destruct e; simpl in *. tauto.
Qed.

Lemma ford_fulkerson_unknown_source_witness :
  ford_fulkerson 0 Examples.one_edge Examples.one_edge_capacities
    "x"%string "y"%string (search BreadthFirst 1) None
  = Ok (zero_flow Examples.one_edge, Int 0).
Proof.
  apply (ford_fulkerson_unknown_source BreadthFirst 0 0 Examples.one_edge
           Examples.one_edge_capacities "x"%string "y"%string).
  - discriminate.
  - intros e [<-|[]]. simpl. split; discriminate.
  - intros e [<-|[]]. eexists. reflexivity.
Defined.

(** C9 as stated fails: with the source x and the sink y outside the graph
    of the single edge (s,t), [ford_fulkerson] returns a flow and a value;
    its result is not an error. *)
Lemma ford_fulkerson_unknown_source_counterexample :
  ford_fulkerson 5 Examples.one_edge Examples.one_edge_capacities
    "x"%string "y"%string (search BreadthFirst 5) None
  = Ok ([(("s", "t")%string, Int 0)], Int 0)
  /\ forall e : error,
      ford_fulkerson 5 Examples.one_edge Examples.one_edge_capacities
        "x"%string "y"%string (search BreadthFirst 5) None
      <> Err e.
Proof. split; [reflexivity | intros e; discriminate]. Qed.


(** ** The feasible-flow reduction *)

Lemma nlookup_Ok {V} (d : ndict V) n v : nlookup d n = Ok v <-> nget d n = Some v.
Proof.
  unfold nlookup, Dict.lookup, nget.
  destruct (Dict.get node_eq_dec d n); split; intros H; congruence.
Qed.

Lemma nlookup_Err {V} (d : ndict V) n x : nlookup d n = Err x -> x = KeyError.
Proof.
  unfold nlookup, Dict.lookup. destruct (Dict.get node_eq_dec d n); intros H; congruence.
Qed.

Lemma ltb_not_gtb s : Num.ltb s (Int 0) = true -> Num.gtb s (Int 0) = false.
Proof.
  unfold Num.gtb, Num.ltb. destruct s; simpl; try congruence.
  intros H. apply Z.ltb_lt in H. apply Z.ltb_ge. lia.
Qed.

Lemma add_supply_edges_spec nodes supply :
  forall acc_e acc_c ep cp,
    add_supply_edges nodes supply acc_e acc_c = Ok (ep, cp) ->
    (exists extra, ep = acc_e ++ extra)
    /\ forall n, In n nodes ->
         exists s, nget supply n = Some s
                   /\ (Num.gtb s (Int 0) = true -> In (s_prime, n) ep)
                   /\ (Num.ltb s (Int 0) = true -> In (n, t_prime) ep).
Proof.
  induction nodes as [|m rest IH]; intros acc_e acc_c ep cp H; simpl in H.
  - inversion H; subst. split; [exists []; symmetry; apply app_nil_r | intros n []].
  - inv_bind H as s Hs. apply nlookup_Ok in Hs.
    assert (Step : forall acc_e' acc_c',
               add_supply_edges rest supply acc_e' acc_c' = Ok (ep, cp) ->
               (exists extra', acc_e' = acc_e ++ extra') ->
               (Num.gtb s (Int 0) = true -> In (s_prime, m) acc_e') ->
               (Num.ltb s (Int 0) = true -> In (m, t_prime) acc_e') ->
               (exists extra, ep = acc_e ++ extra)
               /\ forall n, In n (m :: rest) ->
                    exists s, nget supply n = Some s
                              /\ (Num.gtb s (Int 0) = true -> In (s_prime, n) ep)
                              /\ (Num.ltb s (Int 0) = true -> In (n, t_prime) ep)).
    { intros acc_e' acc_c' H' [extra' E'] G L.
      destruct (IH _ _ _ _ H') as [[extra E] Rest]. split.
      - exists (extra' ++ extra). rewrite E, E'. symmetry. apply app_assoc.
      - intros n [<-|I]; [|auto]. exists s. split; [assumption|].
        subst ep. split; intros T; apply in_app_iff; auto. }
    destruct (Num.gtb s (Int 0)) eqn:G.
    + apply (Step _ _ H); [eauto | intros _; apply in_app_iff; simpl; auto |].
      intros L. apply ltb_not_gtb in L. congruence.
    + destruct (Num.ltb s (Int 0)) eqn:L.
      * apply (Step _ _ H); [eauto | discriminate | intros _; apply in_app_iff; simpl; auto].
      * apply (Step _ _ H); [exists []; symmetry; apply app_nil_r | discriminate..].
Qed.

Lemma add_supply_edges_Err nodes supply :
  forall acc_e acc_c x,
    add_supply_edges nodes supply acc_e acc_c = Err x -> x = KeyError.
Proof.
  induction nodes as [|m rest IH]; intros acc_e acc_c x H; simpl in H; [discriminate|].
  destruct (nlookup supply m) as [s|e] eqn:Hs; simpl in H.
  - destruct (Num.gtb s (Int 0)); [eapply IH; eauto|].
    destruct (Num.ltb s (Int 0)); eapply IH; eauto.
  - inversion H; subst. eapply nlookup_Err; eauto.
Qed.

Lemma residual_with_Err entries edges :
  forall rc x, residual_with entries edges rc = Err x ->
    exists e, In e edges /\ entries e = Err x.
Proof.
  induction edges as [|[u v] rest IH]; intros rc x H; simpl in H; [discriminate|].
  destruct (entries (u, v)) as [[a b]|e] eqn:E; simpl in H.
  - destruct (IH _ _ H) as (e & I & F). exists e. simpl; auto.
  - inversion H; subst. exists (u, v). simpl; auto.
Qed.

Lemma max_flow_entries_Err capacities flow e x :
  max_flow_entries capacities flow e = Err x ->
  x = KeyError
  \/ x = OverflowError
     /\ exists c f, eget capacities e = Some c /\ eget flow e = Some f
                    /\ Num.overflows c f = true.
Proof.
  unfold max_flow_entries. intros H.
  destruct (elookup capacities e) as [c|] eqn:C; simpl in H.
  - destruct (elookup flow e) as [f|] eqn:F; simpl in H.
    + right. apply elookup_Ok in C, F. unfold Num.sub in H.
      destruct (Num.overflows c f) eqn:O; simpl in H; [|discriminate].
      inversion H. eauto 6.
    + left. inversion H; subst. apply elookup_Err in F. tauto.
  - left. inversion H; subst. apply elookup_Err in C. tauto.
Qed.

Lemma max_flow_entries_Ok capacities flow e xy :
  max_flow_entries capacities flow e = Ok xy ->
  exists c f, eget capacities e = Some c /\ eget flow e = Some f
              /\ xy = (Num.minus c f, f).
Proof.
  unfold max_flow_entries. intros H. inv_bind H as c Hc. inv_bind H as f Hf.
  inv_bind H as x Hx. apply sub_Ok in Hx.
  inversion H; subst. apply elookup_Ok in Hc, Hf. eauto.
Qed.

(** An int within the double range meets every number. *)
Lemma overflows_small c z : Num.huge z = false -> Num.overflows c (Int z) = false.
Proof. intros H. destruct c; simpl; auto. Qed.

Lemma small_ints_convertible edges capacities flow :
  small_ints flow -> convertible edges capacities flow.
Proof.
  intros S e x y _ _ Y. destruct (S e y Y) as (z & -> & H).
  apply overflows_small. exact H.
Qed.

(** The residual graph is not built when the capacities or the flow lack
    an edge of the graph: the builder raises [KeyError], unless an int
    beyond the double range has met a float before. *)
Lemma residual_graph_missing edges capacities flow e :
  In e edges -> eget capacities e = None \/ eget flow e = None ->
  (exists x, MaximumFlow.construct_residual_graph edges capacities flow = Err x
             /\ (x = KeyError \/ x = OverflowError))
  /\ (convertible edges capacities flow ->
      MaximumFlow.construct_residual_graph edges capacities flow = Err KeyError).
Proof.
  intros Ie Ne. unfold MaximumFlow.construct_residual_graph.
  rewrite residual_loop_with.
  destruct (residual_with (max_flow_entries capacities flow) edges []) as [rc|x] eqn:R;
    simpl.
  - exfalso. destruct (residual_with_defined _ _ _ _ R e Ie) as [xy E].
    apply max_flow_entries_Ok in E. destruct E as (c & f & C & F & _).
    destruct Ne; congruence.
  - destruct (residual_with_Err _ _ _ _ R) as (e' & I' & E').
    apply max_flow_entries_Err in E'. split.
    + exists x. split; [reflexivity|]. tauto.
    + intros CV. destruct E' as [->|[_ (c & f & C & F & O)]]; [reflexivity|].
      rewrite (CV e' c f I' C F) in O. discriminate.
Qed.

(** C10, as the code has it. When [feasible_flow] is given a non-empty
    starting flow that has no entry for the synthetic edge of some node of
    the node list (the edge from [s_prime] to a node of positive supply, or
    from a node of negative supply to [t_prime]), the call returns no
    triple: it raises [KeyError] or [OverflowError], and [KeyError] when
    the values of the starting flow are ints within the double range. *)
Theorem feasible_flow_initial_flow_key_error :
  forall (sm : search_method) fuel nodes edges capacities supply flow n s,
    flow <> [] ->
    In n nodes ->
    nget supply n = Some s ->
    (Num.gtb s (Int 0) = true /\ eget flow (s_prime, n) = None)
    \/ (Num.ltb s (Int 0) = true /\ eget flow (n, t_prime) = None) ->
    (exists x,
        feasible_flow fuel nodes edges capacities supply sm (Some flow) = Err x
        /\ (x = KeyError \/ x = OverflowError))
    /\ (small_ints flow ->
        feasible_flow fuel nodes edges capacities supply sm (Some flow)
        = Err KeyError).
Proof.
  intros sm fuel nodes edges capacities supply flow n s NE I S Miss.
  unfold feasible_flow.
  destruct (add_supply_edges nodes supply edges capacities) as [[ep cp]|x] eqn:A; simpl.
  2:{ apply add_supply_edges_Err in A. subst. split; [eauto|reflexivity]. }
  assert (M : exists e, In e ep /\ eget flow e = None).
  { destruct (add_supply_edges_spec _ _ _ _ _ _ A) as [_ D].
    destruct (D n I) as (s' & S' & G & L). rewrite S in S'. inversion S'; subst s'.
    destruct Miss as [[T N]|[T N]]; eauto. }
  destruct M as (e & Ie & Ne).
  unfold ford_fulkerson, augmenting.
  replace (initial_flow ep (Some flow)) with flow by (destruct flow; [congruence|reflexivity]).
  destruct (residual_graph_missing ep cp flow e Ie (or_intror Ne)) as [(x & R & X) K].
  split.
  - exists x. rewrite R. split; [reflexivity | exact X].
  - intros Sm. rewrite K; [reflexivity|]. apply small_ints_convertible. exact Sm.
Qed.

Lemma feasible_flow_initial_flow_key_error_witness :
  feasible_flow 5 Examples.pair_nodes Examples.pair_edges Examples.pair_capacities
    Examples.pair_supply (search BreadthFirst 9) (Some Examples.pair_flow)
  = Err KeyError.
Proof.
  apply (feasible_flow_initial_flow_key_error (search BreadthFirst 9) 5
           Examples.pair_nodes Examples.pair_edges Examples.pair_capacities
           Examples.pair_supply Examples.pair_flow "a"%string (Int 1)).
  - discriminate.
  - simpl; auto.
  - reflexivity.
  - left. split; reflexivity.
  - intros e x H. exists 0.
    unfold Examples.pair_flow, Examples.ints, eget in H. cbn [map Dict.get] in H.
    match type of H with
    | context [edge_eq_dec ?a ?b] => destruct (edge_eq_dec a b); [|discriminate]
    end.
    inversion H. split; reflexivity.
Defined.

(** C10 as stated fails: a non-empty starting flow with entries for the
    synthetic edges is accepted. With supplies a=1, b=-1, the edge (a,b) of
    capacity 1 and the all-zero flow on (a,b), (s_prime,a) and (b,t_prime),
    [feasible_flow] returns a triple. *)
Lemma feasible_flow_initial_flow_counterexample :
  Examples.pair_flow_prime <> []
  /\ nget Examples.pair_supply "a"%string = Some (Int 1)
  /\ feasible_flow 5 Examples.pair_nodes Examples.pair_edges Examples.pair_capacities
       Examples.pair_supply (search BreadthFirst 9) (Some Examples.pair_flow_prime)
     = Ok (true, [(("a", "b")%string, Int 1)], Int 1).
Proof. split; [discriminate | split; reflexivity]. Qed.


(** ** Sums over the edge list and rebuilt dicts *)

Lemma values_where_total keep d edges :
  defined_on edges d -> exists l, values_where keep d edges = Ok l.
Proof.
  induction edges as [|e rest IH]; intros D; simpl; [eauto|].
  destruct IH as [l IH]; [intros x Hx; apply D; simpl; auto|].
  destruct (keep e); [|eauto].
  destruct (D e) as [x Hx]; [simpl; auto|].
  rewrite (elookup_eget _ _ _ Hx), IH. simpl. eauto.
Qed.

Section Rebuild.
Variable f : num -> edge -> result num.
Variable d : edict.

Lemma rebuild_keys edges : forall acc new,
  rebuild f d edges acc = Ok new ->
  forall e, In e (ekeys new) <-> In e (ekeys acc) \/ In e edges.
Proof.
  induction edges as [|a rest IH]; intros acc new H e; simpl in H.
  - inversion H; subst. simpl. tauto.
  - inv_bind H as x Hx. inv_bind H as y Hy.
    rewrite (IH _ _ H e), in_ekeys_eset. simpl. intuition (subst; auto).
Qed.

Lemma rebuild_get edges : forall acc new,
  rebuild f d edges acc = Ok new ->
  forall e,
    In e edges \/ (exists x y, eget d e = Some x /\ f x e = Ok y /\ eget acc e = Some y) ->
    exists x y, eget d e = Some x /\ f x e = Ok y /\ eget new e = Some y.
Proof.
  induction edges as [|a rest IH]; intros acc new H e P; simpl in H.
  - inversion H; subst. destruct P as [[]|P]; exact P.
  - inv_bind H as x Hx. inv_bind H as y Hy. apply elookup_Ok in Hx.
    apply (IH _ _ H e). destruct (edge_eq_dec a e) as [->|N].
    + right. exists x, y. rewrite eget_eset_same. auto.
    + destruct P as [[P|P]|(x' & y' & P1 & P2 & P3)]; [congruence | auto |].
      right. exists x', y'. rewrite eget_eset_other by assumption. auto.
Qed.

Lemma rebuild_total edges :
  (forall e, In e edges -> exists x y, eget d e = Some x /\ f x e = Ok y) ->
  forall acc, exists new, rebuild f d edges acc = Ok new.
Proof.
  induction edges as [|a rest IH]; intros D acc; simpl; [eauto|].
  destruct (D a) as (x & y & Hx & Hy); [simpl; auto|].
  rewrite (elookup_eget _ _ _ Hx). simpl. rewrite Hy. simpl.
  apply IH. intros e He. apply D. simpl; auto.
Qed.

End Rebuild.

Lemma check_supply_spec nodes edges flow supply : forall b,
  check_supply nodes edges flow supply = Ok b ->
  (b = true <->
   forall n, In n nodes ->
     exists net s, net_outgoing_flow flow edges n = Ok net
                   /\ nget supply n = Some s /\ Num.eqb net s = true).
Proof.
  induction nodes as [|m rest IH]; intros b H; simpl in H.
  - inversion H; subst. split; [intros _ n [] | reflexivity].
  - inv_bind H as net Hnet. inv_bind H as s Hs. apply nlookup_Ok in Hs.
    unfold Num.neb in H. destruct (Num.eqb net s) eqn:Q; simpl in H.
    + rewrite (IH b H). split.
      * intros A n [<-|I]; [exists net, s; auto | auto].
      * intros A n I. apply A. simpl; auto.
    + inversion H; subst b. split; [discriminate|].
      intros A. destruct (A m) as (net' & s' & N' & S' & Q'); [simpl; auto|].
      congruence.
Qed.

(** An instance that is not feasible: supplies a=2, b=-2 over one edge of
    capacity 1. The maximum flow found is returned with [feasible] false. *)
Example feasible_flow_infeasible :
  feasible_flow 5 Examples.pair_nodes Examples.pair_edges Examples.pair_capacities
    Examples.pair_big_supply (search BreadthFirst 9) None
  = Ok (false, [(("a", "b")%string, Int 1)], Int 1).
Proof. reflexivity. Qed.


(** ** Bottlenecks *)

Lemma nle_refl a : good a -> nle a a.
Proof.
  unfold nle, Num.ltb. intros [->|(z & -> & _)]; [reflexivity|]. apply Z.ltb_irrefl.
Qed.

Lemma nle_trans a b c : good a -> good b -> good c -> nle a b -> nle b c -> nle a c.
Proof.
  unfold nle, Num.ltb.
  intros [->|(x & -> & _)] [->|(y & -> & _)] [->|(z & -> & _)]; simpl;
    try congruence.
  rewrite !Z.ltb_ge. lia.
Qed.

Lemma nle_total a b : good a -> good b -> Num.ltb a b = true -> nle a b.
Proof.
  unfold nle, Num.ltb.
  intros [->|(x & -> & _)] [->|(y & -> & _)]; simpl; try congruence.
  rewrite Z.ltb_lt, Z.ltb_ge. lia.
Qed.

Lemma nle_int d c : nle (Int d) (Int c) <-> d <= c.
Proof. unfold nle, Num.ltb. rewrite Z.ltb_ge. tauto. Qed.

Lemma nle_finite a z : good a -> nle a (Int z) -> exists d, a = Int d /\ 0 <= d <= z.
Proof.
  unfold nle, Num.ltb. intros [->|(x & -> & Hx)]; [discriminate|].
  rewrite Z.ltb_ge. eauto.
Qed.

Lemma path_capacity_from_spec rc pe : forall acc delta,
  path_capacity_from rc acc pe = Ok delta ->
  good acc ->
  (forall e c, In e pe -> eget rc e = Some c -> good c) ->
  good delta /\ nle delta acc
  /\ forall e, In e pe -> exists c, eget rc e = Some c /\ nle delta c.
Proof.
  induction pe as [|a rest IH]; intros acc delta H G V; simpl in H.
  - inversion H; subst. split; [assumption|]. split; [apply nle_refl; assumption|].
    intros e [].
  - inv_bind H as c Hc. apply elookup_Ok in Hc.
    assert (Gc : good c) by (apply (V a c); simpl; auto).
    assert (V' : forall e c, In e rest -> eget rc e = Some c -> good c)
      by (intros e c' I; apply V; simpl; auto).
    destruct (Num.ltb c acc) eqn:L.
    + destruct (IH _ _ H Gc V') as (Gd & Le & All).
      split; [assumption|]. split.
      * apply (nle_trans delta c acc); auto. apply nle_total; assumption.
      * intros e [<-|I]; [eauto | auto].
    + destruct (IH _ _ H G V') as (Gd & Le & All).
      split; [assumption|]. split; [assumption|].
      intros e [<-|I]; [|auto]. exists c. split; [assumption|].
      apply (nle_trans delta acc c); auto.
Qed.

Lemma calculate_path_capacity_spec rc pe delta :
  calculate_path_capacity rc pe = Ok delta ->
  (forall e c, In e pe -> eget rc e = Some c -> good c) ->
  good delta /\ forall e, In e pe -> exists c, eget rc e = Some c /\ nle delta c.
Proof.
  intros H V. destruct (path_capacity_from_spec rc pe PosInf delta H) as (G & _ & A);
    [left; reflexivity | assumption | auto].
Qed.

(** ** The augmentation *)

Lemma mem_edge_swap u v pe : mem_edge (swap (u, v)) pe = mem_edge (v, u) pe.
Proof. reflexivity. Qed.

Lemma augment_spec pe delta edges : forall flow flow',
  NoDup edges ->
  augment edges pe delta flow = Ok flow' ->
  (forall e, ~ In e edges -> eget flow' e = eget flow e)
  /\ (forall e f, In e edges -> eget flow e = Some f ->
        eget flow' e = Some (bump pe delta e f)).
Proof.
  induction edges as [|[u v] rest IH]; intros flow flow' ND H; simpl in H.
  - inversion H; subst. split; [reflexivity | intros e f []].
  - inv_bind H as flow1 H1. inv_bind H as flow2 H2.
    inversion ND as [|? ? NI ND']; subst.
    destruct (IH _ _ ND' H) as [Out Inn]. clear IH H.
    assert (S1 : (forall e, e <> (u, v) -> eget flow1 e = eget flow e)
                 /\ forall f, eget flow (u, v) = Some f ->
                      eget flow1 (u, v)
                      = Some (if mem_edge (u, v) pe then Num.plus f delta else f)).
    { destruct (mem_edge (u, v) pe).
      - inv_bind H1 as f Hf. inv_bind H1 as g Hg. apply add_Ok in Hg.
        inversion H1; subst flow1. apply elookup_Ok in Hf. split.
        + intros e N. apply eget_eset_other. congruence.
        + intros f' Hf'. rewrite eget_eset_same. congruence.
      - inversion H1; subst. split; [reflexivity | auto]. }
    assert (S2 : (forall e, e <> (u, v) -> eget flow2 e = eget flow e)
                 /\ forall f, eget flow (u, v) = Some f ->
                      eget flow2 (u, v) = Some (bump pe delta (u, v) f)).
    { destruct S1 as [S1a S1b]. unfold bump. rewrite mem_edge_swap.
      destruct (mem_edge (v, u) pe).
      - inv_bind H2 as f Hf. inv_bind H2 as g Hg. apply sub_Ok in Hg.
        inversion H2; subst flow2. apply elookup_Ok in Hf. split.
        + intros e N. rewrite eget_eset_other by congruence. auto.
        + intros f' Hf'. rewrite eget_eset_same. rewrite (S1b f' Hf') in Hf. congruence.
      - inversion H2; subst. split; assumption. }
    destruct S2 as [S2a S2b]. split.
    + intros e N. rewrite Out by (simpl in N; tauto). apply S2a.
      intros ->. apply N. simpl; auto.
    + intros e f [<-|I] Hf.
      * rewrite Out by assumption. auto.
      * apply Inn; [assumption|]. rewrite S2a; [assumption|].
        intros ->. contradiction.
Qed.


(** ** Flows stay within their bounds *)

Lemma path_found_Some p path : path_found p = Some path -> p = Some path.
Proof. destruct p as [[|x l]|]; simpl; intros H; congruence. Qed.

Section Bounds.
Variable edges : list edge.
Variable lo : edge -> Z.
Variable hi : edge -> num.
Variable entries : edict -> edge -> result (num * num).
Variable build : edict -> result (list edge * edict).
Variables source sink : node.
Variable sm : search_method.

Hypothesis edges_one_way : one_way edges.
Hypothesis build_eq : forall flow,
  build flow = (rc <- residual_with (entries flow) edges [] ;; Ok (ekeys rc, rc)).
Hypothesis entries_value : forall flow e f xy,
  In e edges -> eget flow e = Some (Int f) ->
  entries flow e = Ok xy ->
  xy = (Num.minus (hi e) (Int f), Int (f - lo e)).
Hypothesis sm_finite : forall flow re rc p,
  bounded edges lo hi flow -> build flow = Ok (re, rc) ->
  sm re rc source sink = Ok (Some p) -> finite_bottleneck rc p.

Lemma bounded_residual flow re rc :
  bounded edges lo hi flow -> build flow = Ok (re, rc) ->
  (forall e f, In e edges -> eget flow e = Some (Int f) ->
     eget rc e = Some (Num.minus (hi e) (Int f))
     /\ eget rc (swap e) = Some (Int (f - lo e)))
  /\ (forall k c, eget rc k = Some c -> good c)
  /\ (forall k, In k (ekeys rc) <-> In k edges \/ In (swap k) edges).
Proof.
  intros B H. rewrite build_eq in H. inv_bind H as rc' R. inversion H; subst re rc'.
  clear H. destruct edges_one_way as [ND OW].
  assert (P : forall e f, In e edges -> eget flow e = Some (Int f) ->
                eget rc e = Some (Num.minus (hi e) (Int f))
                /\ eget rc (swap e) = Some (Int (f - lo e))).
  { intros [u v] f I F.
    destruct (residual_with_defined _ _ _ _ R (u, v) I) as [xy E].
    rewrite (entries_value flow (u, v) f xy I F E) in E.
    apply (residual_with_entries (entries flow) u v _ _ edges E
             (OW u v I) [] rc R). auto. }
  assert (K : forall k, In k (ekeys rc) <-> In k edges \/ In (swap k) edges).
  { intros k. rewrite (residual_with_keys _ _ _ _ R k). simpl. tauto. }
  split; [exact P|]. split; [|exact K].
  intros k c Hc.
  assert (Ik : In k (ekeys rc)) by (apply in_ekeys_eget; eauto).
  apply K in Ik. destruct Ik as [Ik|Ik].
  - destruct (B k Ik) as (f & F & L & U). destruct (P k f Ik F) as [P1 _].
    rewrite P1 in Hc. inversion Hc; subst c.
    destruct (hi k) as [h| | |]; simpl in *; try tauto.
    + right. exists (h - f). split; [reflexivity | lia].
    + left. reflexivity.
  - destruct (B _ Ik) as (f & F & L & U). destruct (P _ f Ik F) as [_ P2].
    rewrite swap_swap in P2. rewrite P2 in Hc. inversion Hc; subst c.
    right. exists (f - lo (swap k)). split; [reflexivity | lia].
Qed.

(** When every upper bound is an int, every residual capacity is an int,
    whatever path the search method returns. *)
Lemma finite_when_int flow re rc (p : list node) :
  (forall e, In e edges -> exists h, hi e = Int h) ->
  bounded edges lo hi flow -> build flow = Ok (re, rc) ->
  finite_bottleneck rc p.
Proof.
  intros HI B H. destruct (bounded_residual flow re rc B H) as (P & G & K).
  destruct (get_path_edges p) as [|e pe] eqn:E; [left; assumption|].
  right. exists e. rewrite E. split; [simpl; auto|].
  destruct (eget rc e) as [c|] eqn:Hc; [right | left; reflexivity].
  assert (Ik : In e (ekeys rc)) by (apply in_ekeys_eget; eauto).
  apply K in Ik. destruct Ik as [Ik|Ik].
  - destruct (B e Ik) as (f & F & _). destruct (P e f Ik F) as [P1 _].
    destruct (HI e Ik) as (h & Hh). rewrite Hh in P1.
    rewrite P1 in Hc. inversion Hc. eauto.
  - destruct (B _ Ik) as (f & F & _). destruct (P _ f Ik F) as [_ P2].
    rewrite swap_swap in P2. rewrite P2 in Hc. inversion Hc. eauto.
Qed.

(** A path has a finite bottleneck unless each of its edges is an edge of
    the graph without an upper bound. *)
Lemma finite_or_unbounded flow re rc (p : list node) :
  bounded edges lo hi flow -> build flow = Ok (re, rc) ->
  finite_bottleneck rc p
  \/ (get_path_edges p <> []
      /\ Forall (fun e => In e edges /\ hi e = PosInf) (get_path_edges p)).
Proof.
  intros B H. destruct (bounded_residual flow re rc B H) as (P & G & K).
  assert (A : forall l,
             Forall (fun e => In e edges /\ hi e = PosInf) l
             \/ exists e, In e l
                          /\ (eget rc e = None \/ exists z, eget rc e = Some (Int z))).
  { induction l as [|e l IH]; [left; constructor|].
    destruct IH as [IH|(e' & I' & V')]; [|right; exists e'; simpl; auto].
    destruct (eget rc e) as [c|] eqn:Hc; [|right; exists e; simpl; auto].
    destruct (G e c Hc) as [->|(z & -> & _)]; [|right; exists e; simpl; eauto].
    assert (Ik : In e (ekeys rc)) by (apply in_ekeys_eget; eauto).
    apply K in Ik. destruct Ik as [Ik|Ik].
    - left. constructor; [|assumption]. split; [assumption|].
      destruct (B e Ik) as (f & F & _ & U). destruct (P e f Ik F) as [P1 _].
      rewrite P1 in Hc. inversion Hc as [Q].
      destruct (hi e); simpl in *; try discriminate; tauto.
    - destruct (B _ Ik) as (f & F & _). destruct (P _ f Ik F) as [_ P2].
      rewrite swap_swap in P2. rewrite P2 in Hc. discriminate. }
  destruct (get_path_edges p) as [|e l] eqn:E; [left; left; assumption|].
  destruct (A (e :: l)) as [F|X].
  - right. split; [discriminate | assumption].
  - left. right. rewrite E. exact X.
Qed.

Lemma bounded_step flow re rc p delta flow1 :
  bounded edges lo hi flow -> build flow = Ok (re, rc) ->
  finite_bottleneck rc p ->
  calculate_path_capacity rc (get_path_edges p) = Ok delta ->
  augment edges (get_path_edges p) delta flow = Ok flow1 ->
  bounded edges lo hi flow1.
Proof.
  intros B H FB C A.
  destruct (bounded_residual flow re rc B H) as (P & G & K).
  destruct (calculate_path_capacity_spec rc _ delta C) as [Gd Le];
    [intros e c _; apply G|].
  destruct (augment_spec _ _ _ _ _ (proj1 edges_one_way) A) as [_ Upd].
  intros e Ie. destruct (B e Ie) as (f & F & L & U).
  unfold within. rewrite (Upd e (Int f) Ie F).
  destruct FB as [E|(e0 & I0 & V0)].
  - (* a path without edges changes nothing *)
    unfold bump. rewrite E. unfold mem_edge. simpl. eauto.
  - destruct (Le e0 I0) as (c0 & Hc0 & Le0).
    destruct V0 as [V0|[z V0]]; [congruence|].
    rewrite V0 in Hc0. inversion Hc0; subst c0.
    destruct (nle_finite delta z Gd Le0) as (d & -> & Hd).
    destruct (P e f Ie F) as [P1 P2].
    assert (Fwd : mem_edge e (get_path_edges p) = true -> le_hi (f + d) (hi e)).
    { intros M. apply mem_edge_true in M. destruct (Le e M) as (c & Hc & Lc).
      rewrite P1 in Hc. inversion Hc; subst c.
      destruct (hi e) as [h| | |]; simpl in *; try tauto.
      apply nle_int in Lc. lia. }
    assert (Bwd : mem_edge (swap e) (get_path_edges p) = true -> lo e <= f - d).
    { intros M. apply mem_edge_true in M. destruct (Le _ M) as (c & Hc & Lc).
      rewrite P2 in Hc. inversion Hc; subst c. apply nle_int in Lc. lia. }
    unfold bump.
    destruct (mem_edge e (get_path_edges p)), (mem_edge (swap e) (get_path_edges p));
      simpl.
    + exists (f + d - d). split; [reflexivity|]. replace (f + d - d) with f by lia. auto.
    + exists (f + d). split; [reflexivity|]. split; [lia | auto].
    + exists (f - d). split; [reflexivity|]. split; [auto|].
      destruct (hi e) as [h| | |]; simpl in *; try tauto. lia.
    + exists f. auto.
Qed.

Lemma bounded_loop fuel : forall flow re rc p flow' v,
  bounded edges lo hi flow -> build flow = Ok (re, rc) ->
  sm re rc source sink = Ok p ->
  augmenting_loop fuel build edges source sink sm flow rc p = Ok (flow', v) ->
  bounded edges lo hi flow'.
Proof.
  induction fuel as [|fuel IH]; intros flow re rc p flow' v B H S L;
    simpl in L; destruct (path_found p) as [path|] eqn:PF; try discriminate.
  - inv_bind L as x Hx. inversion L; subst. assumption.
  - apply path_found_Some in PF. subst p.
    inv_bind L as delta Hd. inv_bind L as flow1 Hf.
    inv_bind L as [re1 rc1] Hb. inv_bind L as p1 Hs.
    apply (IH flow1 re1 rc1 p1 flow' v); auto.
    apply (bounded_step flow re rc path delta flow1); auto.
    apply (sm_finite flow re rc path); assumption.
  - inv_bind L as x Hx. inversion L; subst. assumption.
Qed.

Lemma bounded_augmenting fuel flow0 flow v :
  bounded edges lo hi (initial_flow edges flow0) ->
  augmenting fuel build edges source sink sm flow0 = Ok (flow, v) ->
  bounded edges lo hi flow.
Proof.
  intros B H. unfold augmenting in H. inv_bind H as [re rc] Hb. inv_bind H as p Hs.
  eapply bounded_loop; eauto.
Qed.

End Bounds.


(** ** The paths that the four searches return *)

Lemma dfs_loop_ends fuel edges rc source sink : forall open closed p,
  open = [] \/ hd_error open = Some source ->
  dfs_loop fuel edges rc sink open closed = Ok (Some p) ->
  hd_error p = Some source /\ last_node p = Ok sink.
Proof.
  induction fuel as [|fuel IH]; intros open closed p Hd H;
    destruct open as [|a open]; simpl in H; try discriminate.
  destruct Hd as [Hd|Hd]; [discriminate|].
  destruct (node_eq_dec (last open a) sink) as [E|N].
  - inversion H; subst p. split; [assumption|]. simpl. congruence.
  - inv_bind H as nn NN. destruct nn as [|first nn]; apply IH in H; auto.
    destruct open; auto.
Qed.

Lemma all_paths_loop_ends fuel edges rc source sink : forall open all result,
  Forall (fun p => hd_error p = Some source) open ->
  Forall (fun p => hd_error p = Some source /\ last_node p = Ok sink) all ->
  all_paths_loop fuel edges rc sink open all = Ok result ->
  Forall (fun p => hd_error p = Some source /\ last_node p = Ok sink) result.
Proof.
  induction fuel as [|fuel IH]; intros open all result Ho Ha H;
    destruct open as [|q open]; simpl in H; try discriminate;
    try (inversion H; subst; assumption).
  inversion Ho as [|? ? Hq Ho']; subst.
  inv_bind H as u Lu. destruct (node_eq_dec u sink) as [->|N].
  - apply IH in H; auto. apply Forall_app. split; [assumption|].
    constructor; [auto | constructor].
  - inv_bind H as nn NN. apply IH in H; auto.
    apply Forall_app. split; [assumption|].
    apply Forall_forall. intros x Hx. apply in_map_iff in Hx.
    destruct Hx as (v & <- & _). rewrite hd_error_snoc; [assumption|].
    destruct q; discriminate.
Qed.

Lemma select_path_In better rc : forall all best_cap best p,
  select_path better rc all best_cap best = Ok (Some p) ->
  In p all \/ best = Some p.
Proof.
  induction all as [|q all IH]; intros best_cap best p H; simpl in H.
  - inversion H; auto.
  - inv_bind H as c Hc. destruct (better c best_cap); apply IH in H.
    + destruct H as [H|H]; [simpl; auto | inversion H; simpl; auto].
    + destruct H as [H|H]; simpl; auto.
Qed.

Lemma search_ends strat fuel edges rc source sink p :
  search strat fuel edges rc source sink = Ok (Some p) ->
  hd_error p = Some source /\ last_node p = Ok sink.
Proof.
  destruct strat; simpl; intros H.
  - destruct (bfs_loop_shortest edges rc source sink fuel _ _ p
                (bfs_inv_init edges rc source) H) as [(Hd & L & _) _]. auto.
  - apply (dfs_loop_ends fuel edges rc source sink [source] [] p); auto.
  - unfold find_augmenting_path_max in H. inv_bind H as all Ha.
    apply all_paths_loop_ends with (source := source) in Ha;
      [|repeat constructor | constructor].
    apply select_path_In in H. destruct H as [H|H]; [|discriminate].
    rewrite Forall_forall in Ha. apply Ha. assumption.
  - unfold find_augmenting_path_min in H. inv_bind H as all Ha.
    apply all_paths_loop_ends with (source := source) in Ha;
      [|repeat constructor | constructor].
    apply select_path_In in H. destruct H as [H|H]; [|discriminate].
    rewrite Forall_forall in Ha. apply Ha. assumption.
Qed.

(** ** The capacity bound of the maximum flow *)

Lemma int_capacities_defined edges capacities :
  int_capacities edges capacities -> defined_on edges capacities.
Proof. intros IC e I. destruct (IC e I) as (c & Hc & _). eauto. Qed.

(** The entries of an edge, when they are computed... *)
Lemma max_flow_entries_value capacities flow e f xy :
  eget flow e = Some (Int f) ->
  max_flow_entries capacities flow e = Ok xy ->
  xy = (Num.minus (value_of capacities e) (Int f), Int (f - 0)).
Proof.
  intros F H. apply max_flow_entries_Ok in H. destruct H as (c & g & C & G & ->).
  unfold value_of. rewrite C. rewrite F in G. inversion G. rewrite Z.sub_0_r.
  reflexivity.
Qed.

(** ... and they are computed when the capacity is an int. *)
Lemma max_flow_entries_within edges capacities flow e f :
  int_capacities edges capacities ->
  In e edges -> eget flow e = Some (Int f) ->
  max_flow_entries capacities flow e
  = Ok (Num.minus (value_of capacities e) (Int f), Int (f - 0)).
Proof.
  intros IC I F. destruct (IC e I) as (c & Hc & _).
  rewrite (max_flow_entries_fits _ _ _ _ _ Hc F eq_refl).
  unfold value_of. rewrite Hc, Z.sub_0_r. reflexivity.
Qed.

Lemma max_flow_entries_total edges capacities lo hi flow e :
  int_capacities edges capacities -> bounded edges lo hi flow -> In e edges ->
  exists xy, max_flow_entries capacities flow e = Ok xy.
Proof.
  intros IC B I. destruct (B e I) as (f & F & _).
  rewrite (max_flow_entries_within edges capacities flow e f IC I F). eauto.
Qed.

Lemma construct_residual_graph_with edges capacities flow :
  MaximumFlow.construct_residual_graph edges capacities flow
  = (rc <- residual_with (max_flow_entries capacities flow) edges [] ;;
     Ok (ekeys rc, rc)).
Proof. unfold MaximumFlow.construct_residual_graph. rewrite residual_loop_with. reflexivity. Qed.

Lemma zero_flow_bounded edges hi :
  (forall e, In e edges -> le_hi 0 (hi e)) ->
  bounded edges (fun _ => 0) hi (zero_flow edges).
Proof.
  intros H e I. exists 0. split; [apply zero_flow_get; assumption|].
  split; [lia | auto].
Qed.

Lemma int_capacities_finite edges capacities flow re rc (p : list node) :
  one_way edges -> int_capacities edges capacities ->
  bounded edges (fun _ => 0) (value_of capacities) flow ->
  MaximumFlow.construct_residual_graph edges capacities flow = Ok (re, rc) ->
  finite_bottleneck rc p.
Proof.
  intros OW IC B H.
  apply (finite_when_int edges (fun _ => 0) (value_of capacities)
           (max_flow_entries capacities)
           (MaximumFlow.construct_residual_graph edges capacities)
           OW (construct_residual_graph_with edges capacities)
           (fun flow e f xy _ => max_flow_entries_value capacities flow e f xy)
           flow re rc p); try assumption.
  intros e I. destruct (IC e I) as (c & Hc & _). unfold value_of. rewrite Hc. eauto.
Qed.

Lemma value_of_inf d e : value_of d e = PosInf -> eget d e = Some PosInf.
Proof. unfold value_of. destruct (eget d e); intros H; [congruence | discriminate]. Qed.

(** The path that a search returns has a finite bottleneck when no path
    from the source to the sink runs along edges of infinite capacity. *)
Lemma search_finite strat sfuel edges lo hi entries build source sink :
  one_way edges ->
  (forall flow,
     build flow = (rc <- residual_with (entries flow) edges [] ;; Ok (ekeys rc, rc))) ->
  (forall flow e f xy,
     In e edges -> eget flow e = Some (Int f) -> entries flow e = Ok xy ->
     xy = (Num.minus (value_of hi e) (Int f), Int (f - lo e))) ->
  (forall q, ~ infinite_path edges hi source sink q) ->
  forall flow re rc p,
    bounded edges lo (value_of hi) flow -> build flow = Ok (re, rc) ->
    search strat sfuel re rc source sink = Ok (Some p) ->
    finite_bottleneck rc p.
Proof.
  intros OW BE EV NP flow re rc p B H S.
  destruct (finite_or_unbounded edges lo (value_of hi) entries build OW BE EV
              flow re rc p B H) as [F|[NE A]]; [exact F|].
  exfalso. apply (NP p). destruct (search_ends _ _ _ _ _ _ _ S) as [Hd L].
  split; [exact Hd|]. split; [exact L|]. split; [exact NE|].
  apply Forall_forall. intros e I. rewrite Forall_forall in A.
  destruct (A e I) as [Ie Q]. split; [exact Ie | apply value_of_inf; exact Q].
Qed.

Lemma ford_fulkerson_within strat sfuel fuel edges capacities source sink flow v :
  one_way edges -> capacities_or_inf edges capacities ->
  (forall p, ~ infinite_path edges capacities source sink p) ->
  ford_fulkerson fuel edges capacities source sink (search strat sfuel) None
  = Ok (flow, v) ->
  forall e, In e edges ->
    exists c f, eget capacities e = Some c /\ eget flow e = Some (Int f)
                /\ 0 <= f /\ le_hi f c.
Proof.
  intros OW IC NP H e I. unfold ford_fulkerson in H.
  assert (B : bounded edges (fun _ => 0) (value_of capacities) flow).
  { apply (bounded_augmenting edges (fun _ => 0) (value_of capacities)
             (max_flow_entries capacities)
             (MaximumFlow.construct_residual_graph edges capacities)
             source sink (search strat sfuel) OW
             (construct_residual_graph_with edges capacities)
             (fun flow e f xy _ => max_flow_entries_value capacities flow e f xy)
             (search_finite strat sfuel edges (fun _ => 0) capacities
                (max_flow_entries capacities)
                (MaximumFlow.construct_residual_graph edges capacities)
                source sink OW (construct_residual_graph_with edges capacities)
                (fun flow e f xy _ => max_flow_entries_value capacities flow e f xy)
                NP)
             fuel None flow v); [|assumption].
    simpl. apply zero_flow_bounded. intros e' I'.
    destruct (IC e' I') as (c & Hc & Pc). unfold value_of. rewrite Hc. exact Pc. }
  destruct (B e I) as (f & F & L & U). destruct (IC e I) as (c & Hc & _).
  unfold value_of in U. rewrite Hc in U. exists c, f. auto.
Qed.


(** ** The graph that [minimum_flow] builds *)

Lemma add_prime_edges_eq nodes : forall acc,
  add_prime_edges nodes acc = acc ++ flat_map prime_edges_of nodes.
Proof.
  unfold add_prime_edges.
  induction nodes as [|n rest IH]; intros acc; simpl.
  - symmetry. apply app_nil_r.
  - rewrite IH, <- app_assoc. reflexivity.
Qed.

Lemma in_prime_edges nodes e :
  In e (flat_map prime_edges_of nodes)
  <-> exists n, In n nodes /\ (e = (s_prime, n) \/ e = (n, t_prime)).
Proof.
  rewrite in_flat_map. unfold prime_edges_of. simpl. split.
  - intros (n & I & [E|[E|[]]]); eauto.
  - intros (n & I & [E|E]); eauto.
Qed.

Lemma s_prime_t_prime : s_prime <> t_prime.
Proof. discriminate. Qed.

Lemma NoDup_prime_edges nodes :
  NoDup nodes -> ~ In s_prime nodes -> ~ In t_prime nodes ->
  NoDup (flat_map prime_edges_of nodes).
Proof.
  induction nodes as [|n rest IH]; intros ND NS NT; simpl; [constructor|].
  inversion ND as [|? ? NI ND']; subst. simpl in NS, NT.
  constructor; [|constructor].
  - simpl. intros [E|I].
    + inversion E; subst. tauto.
    + apply in_prime_edges in I. destruct I as (m & Im & [E|E]); inversion E; subst; tauto.
  - intros I. apply in_prime_edges in I.
    destruct I as (m & Im & [E|E]); inversion E; subst; tauto.
  - apply IH; tauto.
Qed.

Lemma in_edges_prime nodes edges source sink e :
  In e (add_prime_edges nodes edges ++ [(sink, source)])
  <-> In e edges
      \/ (exists n, In n nodes /\ (e = (s_prime, n) \/ e = (n, t_prime)))
      \/ e = (sink, source).
Proof.
  rewrite add_prime_edges_eq, !in_app_iff, in_prime_edges. simpl.
  intuition (subst; auto).
Qed.

Lemma one_way_prime nodes edges source sink :
  min_flow_instance nodes edges source sink ->
  one_way (add_prime_edges nodes edges ++ [(sink, source)]).
Proof.
  intros [[ND OW] NN FE [NS NT] (F1 & F2 & F3 & F4) Ends [D1 D2]]. split.
  - rewrite add_prime_edges_eq, <- app_assoc.
    apply NoDup_app; [assumption | |].
    + apply NoDup_app;
        [apply NoDup_prime_edges; assumption | repeat constructor; simpl; tauto |].
      intros e I [<-|[]]. apply in_prime_edges in I.
      destruct I as (m & Im & [E|E]); inversion E; subst; tauto.
    + intros [u v] I J. apply in_app_iff in J. destruct (FE u v I) as (A & B & C & D).
      destruct J as [J|[J|[]]].
      * apply in_prime_edges in J.
        destruct J as (m & Im & [E|E]); inversion E; subst; tauto.
      * inversion J; subst. tauto.
  - intros u v I J. apply in_edges_prime in I. apply in_edges_prime in J.
    assert (ST := s_prime_t_prime).
    assert (FE' : forall a b, In (a, b) edges ->
                    a <> s_prime /\ a <> t_prime /\ b <> s_prime /\ b <> t_prime)
      by exact FE.
    destruct I as [I|[(n & In' & [E|E])|E]]; try (inversion E; subst; clear E);
      destruct J as [J|[(m & Im & [E|E])|E]]; try (inversion E; subst; clear E);
      try (apply (OW u v); assumption);
      try match goal with
          | H : In (_, _) edges |- _ => destruct (FE' _ _ H) as (? & ? & ? & ?)
          end;
      try tauto; try congruence.
Qed.

(** ** The capacities that [minimum_flow] builds *)

Lemma eget_eset_cases d k v e x :
  eget (eset d k v) e = Some x -> (e = k /\ x = v) \/ eget d e = Some x.
Proof.
  destruct (edge_eq_dec k e) as [->|N].
  - rewrite eget_eset_same. intros H. inversion H. auto.
  - rewrite eget_eset_other by assumption. auto.
Qed.

Lemma sum_nonneg l x : Forall nonneg_int l -> Num.sum l = Ok x -> nonneg_int x.
Proof.
  unfold Num.sum.
  assert (G : forall acc, nonneg_int acc -> Forall nonneg_int l ->
                Num.sum_from acc l = Ok x -> nonneg_int x).
  { induction l as [|a l IH]; intros acc A F H; simpl in H.
    - inversion H; subst. assumption.
    - inversion F as [|? ? Ha F']; subst.
      destruct A as (y & -> & Hy), Ha as (z & -> & Hz). simpl in H.
      apply (IH (Int (y + z))); [|assumption..].
      exists (y + z). split; [reflexivity | lia]. }
  apply G. exists 0. split; [reflexivity | lia].
Qed.

Lemma values_where_nonneg keep d edges : forall l,
  (forall e x, In e edges -> eget d e = Some x -> nonneg_int x) ->
  values_where keep d edges = Ok l -> Forall nonneg_int l.
Proof.
  induction edges as [|e rest IH]; intros l V H; simpl in H.
  - inversion H; constructor.
  - assert (V' : forall e x, In e rest -> eget d e = Some x -> nonneg_int x)
      by (intros e' x I; apply V; simpl; auto).
    destruct (keep e); [|apply IH; assumption].
    inv_bind H as x Hx. inv_bind H as tl Htl. inversion H; subst l.
    apply elookup_Ok in Hx. constructor; [|apply IH; assumption].
    apply (V e x); simpl; auto.
Qed.

Lemma prime_capacities_spec nodes edges lower : forall acc c1,
  (forall e x, In e edges -> eget lower e = Some x -> nonneg_int x) ->
  prime_capacities nodes edges lower acc = Ok c1 ->
  (forall e x, eget acc e = Some x -> nonneg_int x) ->
  (forall e x, eget c1 e = Some x -> nonneg_int x)
  /\ (forall e, In e (ekeys acc) \/ In e (flat_map prime_edges_of nodes) ->
        In e (ekeys c1)).
Proof.
  induction nodes as [|n rest IH]; intros acc c1 L H A; simpl in H.
  - inversion H; subst. split; [assumption|]. intros e [I|[]]. assumption.
  - inv_bind H as i Hi. inv_bind H as o Ho.
    unfold sum_in in Hi. inv_bind Hi as li Hli.
    unfold sum_out in Ho. inv_bind Ho as lo Hlo.
    apply values_where_nonneg in Hli, Hlo; try assumption.
    apply (sum_nonneg _ _ Hli) in Hi. apply (sum_nonneg _ _ Hlo) in Ho.
    destruct (IH _ _ L H) as [V K].
    { intros e x Hx. apply eget_eset_cases in Hx. destruct Hx as [[_ ->]|Hx]; [assumption|].
      apply eget_eset_cases in Hx. destruct Hx as [[_ ->]|Hx]; [assumption|].
      eapply A; eauto. }
    split; [assumption|]. intros e I. apply K. rewrite !in_ekeys_eset.
    simpl in I. intuition (subst; auto).
Qed.

Lemma window_capacities_spec edges lower upper : forall acc c2,
  window_capacities edges lower upper acc = Ok c2 ->
  (forall e, ~ In e edges -> eget c2 e = eget acc e)
  /\ (forall e,
        In e edges
        \/ (exists hi lo, eget upper e = Some hi /\ eget lower e = Some lo
                          /\ eget acc e = Some (Num.minus hi lo)) ->
        exists hi lo, eget upper e = Some hi /\ eget lower e = Some lo
                      /\ eget c2 e = Some (Num.minus hi lo)).
Proof.
  induction edges as [|a rest IH]; intros acc c2 H; simpl in H.
  - inversion H; subst. split; [reflexivity|]. intros e [[]|P]. exact P.
  - inv_bind H as hi Hhi. inv_bind H as lo Hlo. apply elookup_Ok in Hhi, Hlo.
    inv_bind H as c Hc. apply sub_Ok in Hc. subst c.
    destruct (IH _ _ H) as [Out Inn]. split.
    + intros e N. rewrite Out by (simpl in N; tauto).
      apply eget_eset_other. intros ->. apply N. simpl; auto.
    + intros e P. apply Inn. destruct (edge_eq_dec a e) as [->|N].
      * right. exists hi, lo. rewrite eget_eset_same. auto.
      * destruct P as [[P|P]|(hi' & lo' & P1 & P2 & P3)]; [congruence | auto |].
        right. exists hi', lo'. rewrite eget_eset_other by assumption. auto.
Qed.


(** ** The bounds of the minimum flow *)

Section PrimeGraph.
Variables (nodes : list node) (edges : list edge).
Variables (lower upper : edict) (source sink : node).
Hypothesis instance : min_flow_instance nodes edges source sink.
Hypothesis bounds : bounds_or_inf edges lower upper.

Variables c1 c2 : edict.
Hypothesis c1_eq : prime_capacities nodes edges lower [] = Ok c1.
Hypothesis c2_eq : window_capacities edges lower upper c1 = Ok c2.

Let ep := add_prime_edges nodes edges ++ [(sink, source)].
Let caps := eset c2 (sink, source) PosInf.

Lemma caps_edges e :
  In e edges ->
  exists lo up, eget lower e = Some (Int lo) /\ eget upper e = Some up
                /\ 0 <= lo /\ le_hi lo up
                /\ eget caps e = Some (Num.minus up (Int lo)).
Proof.
  intros I. destruct (bounds e I) as (lo & up & L & U & R & R').
  exists lo, up. repeat split; try assumption.
  destruct (window_capacities_spec _ _ _ _ _ c2_eq) as [_ Inn].
  destruct (Inn e (or_introl I)) as (hi' & lo' & U' & L' & C).
  rewrite U in U'. rewrite L in L'. inversion U'; inversion L'; subst.
  unfold caps. rewrite eget_eset_other; [exact C|].
  intros <-. destruct instance. tauto.
Qed.

Lemma caps_prime n e :
  In n nodes -> e = (s_prime, n) \/ e = (n, t_prime) ->
  exists c, eget caps e = Some (Int c) /\ 0 <= c.
Proof.
  intros I E.
  assert (NE : ~ In e edges).
  { intros J. destruct instance as [_ _ FE _ _ _ _].
    destruct E as [->| ->]; destruct (FE _ _ J); tauto. }
  assert (NB : (sink, source) <> e).
  { destruct instance as [_ _ _ _ (F1 & F2 & F3 & F4) _ _].
    destruct E as [->| ->]; congruence. }
  destruct (prime_capacities_spec nodes edges lower [] c1) as [V K];
    [| exact c1_eq | intros ? ? H; discriminate |].
  { intros e' x I' H'. destruct (bounds e' I') as (lo & up & L & _ & R & _).
    rewrite L in H'. inversion H'; subst. exists lo. split; [reflexivity | lia]. }
  assert (Ik : In e (ekeys c1)).
  { apply K. right. apply in_prime_edges. eauto. }
  apply in_ekeys_eget in Ik. destruct Ik as [x Hx].
  destruct (V e x Hx) as (c & -> & Hc). exists c. split; [|assumption].
  unfold caps. rewrite eget_eset_other by assumption.
  destruct (window_capacities_spec _ _ _ _ _ c2_eq) as [Out _].
  rewrite Out; assumption.
Qed.

Lemma caps_back : eget caps (sink, source) = Some PosInf.
Proof. apply eget_eset_same. Qed.

Lemma caps_defined : defined_on ep caps.
Proof.
  intros e I. apply in_edges_prime in I. destruct I as [I|[(n & I & E)| ->]].
  - destruct (caps_edges e I) as (lo & up & _ & _ & _ & _ & C). eauto.
  - destruct (caps_prime n e I E) as (c & C & _). eauto.
  - exists PosInf. apply caps_back.
Qed.

Lemma caps_zero_flow : bounded ep (fun _ => 0) (value_of caps) (zero_flow ep).
Proof.
  apply zero_flow_bounded. intros e I. unfold value_of.
  apply in_edges_prime in I. destruct I as [I|[(n & I & E)| ->]].
  - destruct (caps_edges e I) as (lo & up & _ & _ & R & R' & ->).
    destruct up; simpl in *; try tauto. lia.
  - destruct (caps_prime n e I E) as (c & -> & Hc). exact Hc.
  - rewrite caps_back. exact Logic.I.
Qed.

(** A path from [s_prime] to [t_prime] starts with an edge of int
    capacity: its bottleneck is finite although the edge from the sink
    back to the source has infinite capacity. *)
Lemma prime_path_finite flow re rc p :
  bounded ep (fun _ => 0) (value_of caps) flow ->
  MaximumFlow.construct_residual_graph ep caps flow = Ok (re, rc) ->
  hd_error p = Some s_prime -> last_node p = Ok t_prime ->
  finite_bottleneck rc p.
Proof.
  intros B H Hd L.
  destruct (bounded_residual ep (fun _ => 0) (value_of caps) (max_flow_entries caps)
              (MaximumFlow.construct_residual_graph ep caps)
              (one_way_prime _ _ _ _ instance)
              (construct_residual_graph_with ep caps)
              (fun flow e f xy _ => max_flow_entries_value caps flow e f xy)
              flow re rc B H) as (P & G & K).
  destruct p as [|a p]; [discriminate|]. simpl in Hd. inversion Hd; subst a.
  destruct p as [|x p]; [simpl in L; inversion L|].
  right. exists (s_prime, x). split; [simpl; auto|].
  destruct (eget rc (s_prime, x)) as [c|] eqn:Hc; [right | left; reflexivity].
  assert (Ik : In (s_prime, x) (ekeys rc)) by (apply in_ekeys_eget; eauto).
  destruct instance as [_ _ FE [NS NT] (F1 & F2 & F3 & F4) _ _].
  apply K in Ik. destruct Ik as [Ik|Ik]; apply in_edges_prime in Ik.
  - destruct Ik as [I|[(n & I & [E|E])|E]].
    + destruct (FE _ _ I). tauto.
    + inversion E; subst n.
      destruct (caps_prime x (s_prime, x) I (or_introl eq_refl)) as (c' & C & _).
      destruct (B (s_prime, x)) as (f & F & _);
        [apply in_edges_prime; right; left; eauto|].
      destruct (P (s_prime, x) f) as [P1 _];
        [apply in_edges_prime; right; left; eauto | assumption |].
      unfold value_of in P1. rewrite C in P1. rewrite P1 in Hc. inversion Hc. eauto.
    + inversion E; subst. tauto.
    + inversion E; subst. congruence.
  - unfold swap in Ik. simpl in Ik. destruct Ik as [I|[(n & I & [E|E])|E]].
    + destruct (FE _ _ I). tauto.
    + inversion E; subst. tauto.
    + inversion E.
    + inversion E; subst. congruence.
Qed.

Lemma feasible_from_prime (sm : search_method) fuel flow_prime v feasible :
  (forall re rc p, sm re rc s_prime t_prime = Ok (Some p) ->
     hd_error p = Some s_prime /\ last_node p = Ok t_prime) ->
  ford_fulkerson fuel ep caps s_prime t_prime sm None = Ok (flow_prime, v) ->
  rebuild (fun x e => lo <- elookup lower e ;; Num.add x lo) flow_prime edges []
  = Ok feasible ->
  bounded edges (fun e => int_of (value_of lower e)) (value_of upper) feasible
  /\ forall e, In e (ekeys feasible) <-> In e edges.
Proof.
  intros Ends F R.
  assert (B : bounded ep (fun _ => 0) (value_of caps) flow_prime).
  { unfold ford_fulkerson in F.
    apply (bounded_augmenting ep (fun _ => 0) (value_of caps) (max_flow_entries caps)
             (MaximumFlow.construct_residual_graph ep caps) s_prime t_prime sm
             (one_way_prime _ _ _ _ instance)
             (construct_residual_graph_with ep caps)
             (fun flow e f xy _ => max_flow_entries_value caps flow e f xy)
             (fun flow re rc p B H S =>
                prime_path_finite flow re rc p B H
                  (proj1 (Ends re rc p S)) (proj2 (Ends re rc p S)))
             fuel None flow_prime v); [|assumption].
    exact caps_zero_flow. }
  split.
  - intros e I. destruct (caps_edges e I) as (lo & up & L & U & Rg & Rg' & C).
    destruct (B e) as (f & Ff & Lf & Uf); [apply in_edges_prime; auto|].
    unfold value_of in Uf. rewrite C in Uf.
    destruct (rebuild_get _ _ _ _ _ R e (or_introl I)) as (x & y & Hx & Hy & Hf).
    rewrite Ff in Hx. inversion Hx; subst x.
    rewrite (elookup_eget _ _ _ L) in Hy. simpl in Hy. inversion Hy; subst y.
    exists (f + lo). unfold value_of. rewrite L, U. simpl.
    split; [assumption|]. split; [lia|].
    destruct up; simpl in *; try tauto. lia.
  - intros e. rewrite (rebuild_keys _ _ _ _ _ R e). simpl. tauto.
Qed.

End PrimeGraph.

Lemma construct_feasible_flow_within strat sfuel fuel nodes edges lower upper
    source sink feasible :
  min_flow_instance nodes edges source sink ->
  bounds_or_inf edges lower upper ->
  construct_feasible_flow fuel nodes edges lower upper source sink
    (search strat sfuel) = Ok feasible ->
  bounded edges (fun e => int_of (value_of lower e)) (value_of upper) feasible
  /\ forall e, In e (ekeys feasible) <-> In e edges.
Proof.
  intros MI IB H. unfold construct_feasible_flow in H.
  inv_bind H as c1 H1. inv_bind H as c2 H2. inv_bind H as [fp v] F.
  apply (feasible_from_prime nodes edges lower upper source sink MI IB c1 c2 H1 H2
           (search strat sfuel) fuel fp v feasible); try assumption.
  intros re rc p S. apply (search_ends _ _ _ _ _ _ _ S).
Qed.

Lemma int_bounds_or_inf edges lower upper :
  int_bounds edges lower upper -> bounds_or_inf edges lower upper.
Proof.
  intros IB e I. destruct (IB e I) as (lo & up & L & U & R).
  exists lo, (Int up). simpl. repeat split; try assumption; lia.
Qed.

Lemma int_capacities_or_inf edges capacities :
  int_capacities edges capacities -> capacities_or_inf edges capacities.
Proof. intros IC e I. destruct (IC e I) as (c & Hc & R). exists (Int c). auto. Qed.

(** The entries of an edge with an int lower bound, when they are
    computed... *)
Lemma min_flow_entries_value lower upper flow e f xy :
  (exists lo, eget lower e = Some (Int lo)) ->
  eget flow e = Some (Int f) ->
  min_flow_entries lower upper flow e = Ok xy ->
  xy = (Num.minus (value_of upper e) (Int f), Int (f - int_of (value_of lower e))).
Proof.
  intros [lo L] F H. unfold min_flow_entries in H.
  inv_bind H as hi Hhi. inv_bind H as g Hg. inv_bind H as x Hx.
  inv_bind H as l Hl. inv_bind H as y Hy. inversion H; subst xy.
  apply elookup_Ok in Hhi, Hg, Hl. apply sub_Ok in Hx, Hy.
  rewrite F in Hg. rewrite L in Hl. inversion Hg; inversion Hl; subst.
  unfold value_of. rewrite Hhi, L. reflexivity.
Qed.

(** ... and they are computed when both bounds are ints. *)
Lemma min_flow_entries_within edges lower upper flow e f :
  int_bounds edges lower upper ->
  In e edges -> eget flow e = Some (Int f) ->
  min_flow_entries lower upper flow e
  = Ok (Num.minus (value_of upper e) (Int f), Int (f - int_of (value_of lower e))).
Proof.
  intros IB I F. destruct (IB e I) as (lo & up & L & U & _).
  rewrite (min_flow_entries_fits _ _ _ _ _ _ _ L U F eq_refl eq_refl).
  unfold value_of. rewrite L, U. reflexivity.
Qed.

Lemma min_flow_entries_value_int edges lower upper flow e f xy :
  int_bounds edges lower upper ->
  In e edges -> eget flow e = Some (Int f) ->
  min_flow_entries lower upper flow e = Ok xy ->
  xy = (Num.minus (value_of upper e) (Int f), Int (f - int_of (value_of lower e))).
Proof.
  intros IB I. apply min_flow_entries_value.
  destruct (IB e I) as (lo & up & L & _). eauto.
Qed.

Lemma min_flow_entries_total edges lower upper lo hi flow e :
  int_bounds edges lower upper -> bounded edges lo hi flow -> In e edges ->
  exists xy, min_flow_entries lower upper flow e = Ok xy.
Proof.
  intros IB B I. destruct (B e I) as (f & F & _).
  rewrite (min_flow_entries_within edges lower upper flow e f IB I F). eauto.
Qed.

Lemma construct_residual_graph_min_flow_with edges lower upper flow :
  construct_residual_graph_min_flow edges lower upper flow
  = (rc <- residual_with (min_flow_entries lower upper flow) edges [] ;;
     Ok (ekeys rc, rc)).
Proof.
  unfold construct_residual_graph_min_flow. rewrite residual_loop_min_flow_with.
  reflexivity.
Qed.

Lemma int_bounds_upper_int edges lower upper :
  int_bounds edges lower upper ->
  forall e, In e edges -> exists h, value_of upper e = Int h.
Proof.
  intros IB e I. destruct (IB e I) as (lo & up & _ & U & _).
  exists up. unfold value_of. rewrite U. reflexivity.
Qed.

Lemma bounded_initial edges lo hi flow :
  bounded edges lo hi flow -> bounded edges lo hi (initial_flow edges (Some flow)).
Proof.
  intros B. destruct flow as [|kv flow]; [|exact B].
  intros e I. destruct (B e I) as (f & F & _). discriminate.
Qed.

Lemma bounds_or_inf_lower edges lower upper :
  bounds_or_inf edges lower upper ->
  forall e, In e edges -> exists lo, eget lower e = Some (Int lo).
Proof. intros IB e I. destruct (IB e I) as (lo & hi & L & _). eauto. Qed.

Lemma ford_fulkerson_min_flow_within strat sfuel fuel edges lower upper
    source sink feasible flow v :
  one_way edges -> bounds_or_inf edges lower upper ->
  (forall p, ~ infinite_path edges upper source sink p) ->
  bounded edges (fun e => int_of (value_of lower e)) (value_of upper) feasible ->
  ford_fulkerson_min_flow fuel edges lower upper source sink (search strat sfuel)
    (Some feasible)
  = Ok (flow, v) ->
  bounded edges (fun e => int_of (value_of lower e)) (value_of upper) flow.
Proof.
  intros OW IB NP B H. unfold ford_fulkerson_min_flow in H.
  assert (EV : forall flow e f xy,
             In e edges -> eget flow e = Some (Int f) ->
             min_flow_entries lower upper flow e = Ok xy ->
             xy = (Num.minus (value_of upper e) (Int f),
                   Int (f - int_of (value_of lower e)))).
  { intros fl e f xy I. apply min_flow_entries_value.
    apply (bounds_or_inf_lower edges lower upper IB e I). }
  apply (bounded_augmenting edges (fun e => int_of (value_of lower e)) (value_of upper)
           (min_flow_entries lower upper)
           (construct_residual_graph_min_flow edges lower upper)
           source sink (search strat sfuel) OW
           (construct_residual_graph_min_flow_with edges lower upper) EV
           (search_finite strat sfuel edges (fun e => int_of (value_of lower e)) upper
              (min_flow_entries lower upper)
              (construct_residual_graph_min_flow edges lower upper)
              source sink OW (construct_residual_graph_min_flow_with edges lower upper)
              EV NP)
           fuel (Some feasible) flow v); [|assumption].
  apply bounded_initial. assumption.
Qed.

Lemma minimum_flow_within strat sfuel fuel nodes edges lower upper source sink
    supplied min_flow value :
  min_flow_instance nodes edges source sink ->
  bounds_or_inf edges lower upper ->
  (forall p, ~ infinite_path edges upper sink source p) ->
  supplied_within edges lower upper supplied ->
  minimum_flow fuel nodes edges lower upper source sink (search strat sfuel) supplied
  = Ok (min_flow, value) ->
  forall e, In e edges ->
    exists lo up f, eget lower e = Some (Int lo) /\ eget upper e = Some up
                    /\ eget min_flow e = Some (Int f) /\ lo <= f /\ le_hi f up.
Proof.
  intros MI IB NP SW H e I. unfold minimum_flow in H.
  inv_bind H as feasible Hf. inv_bind H as [mf pushed] Hp. inversion H; subst mf.
  assert (B : bounded edges (fun e => int_of (value_of lower e)) (value_of upper)
                feasible).
  { destruct supplied as [[|kv f]|].
    - apply (construct_feasible_flow_within _ _ _ _ _ _ _ _ _ _ MI IB Hf).
    - inversion Hf; subst. exact SW.
    - apply (construct_feasible_flow_within _ _ _ _ _ _ _ _ _ _ MI IB Hf). }
  pose proof (ford_fulkerson_min_flow_within _ _ _ _ _ _ _ _ _ _ _
                (mfi_edges _ _ _ _ MI) IB NP B Hp) as B'.
  destruct (B' e I) as (f & F & L & U). destruct (IB e I) as (lo & up & Hl & Hu & _).
  unfold value_of in L, U. rewrite Hl in L. rewrite Hu in U. simpl in L.
  exists lo, up, f. auto.
Qed.


(** ** The capacity bound *)

(** C1, as the code has it. Let the edge list have no repeated edge and
    no edge together with its reverse, let every capacity be a
    non-negative int or [+inf], and let no path lead from the source to
    the sink along edges of infinite capacity. Then with each of the four
    strategies the flow that [ford_fulkerson] returns from the all-zero
    flow has, on every edge, an int value between 0 and the capacity. Let
    moreover every lower bound be an int [0 <= lower] and every upper
    bound an int or [+inf] with [lower <= upper], the node list have no
    repeated node, the names [s_prime] and [t_prime] be unused, the source
    differ from the sink and no edge join them, and let no path lead from
    the sink to the source along edges without an upper bound; then the
    flow that [minimum_flow] returns (from no feasible flow, or from a
    supplied one that is within the bounds) has, on every edge, an int
    value between the lower and the upper bound. *)
Theorem capacity_bound :
  (forall strat sfuel fuel edges capacities source sink flow value,
      one_way edges -> capacities_or_inf edges capacities ->
      (forall p, ~ infinite_path edges capacities source sink p) ->
      ford_fulkerson fuel edges capacities source sink (search strat sfuel) None
      = Ok (flow, value) ->
      forall e, In e edges ->
        exists c f, eget capacities e = Some c
                    /\ eget flow e = Some (Int f) /\ 0 <= f /\ le_hi f c)
  /\
  (forall strat sfuel fuel nodes edges lower_bounds upper_bounds source sink
          supplied min_flow value,
      min_flow_instance nodes edges source sink ->
      bounds_or_inf edges lower_bounds upper_bounds ->
      (forall p, ~ infinite_path edges upper_bounds sink source p) ->
      supplied_within edges lower_bounds upper_bounds supplied ->
      minimum_flow fuel nodes edges lower_bounds upper_bounds source sink
        (search strat sfuel) supplied = Ok (min_flow, value) ->
      forall e, In e edges ->
        exists lo up f, eget lower_bounds e = Some (Int lo)
                        /\ eget upper_bounds e = Some up
                        /\ eget min_flow e = Some (Int f)
                        /\ lo <= f /\ le_hi f up).
Proof.
  split.
  - intros strat sfuel fuel edges capacities source sink flow value OW IC NP H.
    exact (ford_fulkerson_within strat sfuel fuel edges capacities
             source sink flow value OW IC NP H).
  - intros strat sfuel fuel nodes edges lower upper source sink supplied
      min_flow value MI IB NP SW H.
    exact (minimum_flow_within strat sfuel fuel nodes edges lower upper source sink
             supplied min_flow value MI IB NP SW H).
Qed.

(** [one_way], decided by computation on a given edge list. *)
Lemma one_way_by_computation edges :
  nodup edge_eq_dec edges = edges ->
  forallb (fun e => negb (mem_edge (swap e) edges)) edges = true ->
  one_way edges.
Proof.
  intros E F. split.
  - rewrite <- E. apply NoDup_nodup.
  - intros u v I J. rewrite forallb_forall in F. specialize (F _ I).
    apply negb_true_iff, mem_edge_false in F. apply F. exact J.
Qed.

Lemma sgt2_instance :
  min_flow_instance Examples.sgt2_nodes Examples.sgt2_edges "s"%string "t"%string.
Proof.
  assert (Fresh : forall u v, In (u, v) Examples.sgt2_edges ->
            u <> s_prime /\ u <> t_prime /\ v <> s_prime /\ v <> t_prime).
  { assert (F : forallb (fun e : edge =>
                   negb (mem_node (fst e) [s_prime; t_prime])
                   && negb (mem_node (snd e) [s_prime; t_prime]))
                  Examples.sgt2_edges = true) by (vm_compute; reflexivity).
    rewrite forallb_forall in F. intros u v I. specialize (F _ I).
    apply andb_true_iff in F. destruct F as [F1 F2].
    apply negb_true_iff, mem_node_false in F1.
    apply negb_true_iff, mem_node_false in F2. simpl in F1, F2.
    repeat split; intros ->; tauto. }
  constructor.
  - apply one_way_by_computation; vm_compute; reflexivity.
  - assert (E : nodup node_eq_dec Examples.sgt2_nodes = Examples.sgt2_nodes)
      by (vm_compute; reflexivity).
    rewrite <- E. apply NoDup_nodup.
  - exact Fresh.
  - split; apply mem_node_false; vm_compute; reflexivity.
  - repeat split; discriminate.
  - discriminate.
  - split; apply mem_edge_false; vm_compute; reflexivity.
Qed.

Lemma capacity_bound_witness :
  (forall e, In e Examples.wide_chain_edges ->
     exists c f, eget Examples.wide_chain_capacities e = Some c
                 /\ eget [(("s", "a")%string, Int 3); (("a", "t")%string, Int 3)] e
                    = Some (Int f)
                 /\ 0 <= f /\ le_hi f c)
  /\
  (forall e, In e Examples.sgt2_edges ->
     exists lo up f, eget Examples.sgt2_lower e = Some (Int lo)
                     /\ eget Examples.sgt2_upper e = Some up
                     /\ eget Examples.sgt2_min_flow e = Some (Int f)
                     /\ lo <= f /\ le_hi f up).
Proof.
  split.
  - apply (proj1 capacity_bound BreadthFirst 9%nat 5%nat Examples.wide_chain_edges
             Examples.wide_chain_capacities "s"%string "t"%string
             [(("s", "a")%string, Int 3); (("a", "t")%string, Int 3)] (Int 3)).
    + apply one_way_by_computation; vm_compute; reflexivity.
    + intros e [<-|[<-|[]]]; eexists; (split; [reflexivity | simpl; auto; lia]).
    + intros p (Hd & _ & NE & A).
      destruct p as [|x [|y p]]; try (apply NE; reflexivity).
      inversion Hd; subst x. inversion A as [|? ? [I C] _]; subst.
      destruct I as [E|[E|[]]]; inversion E; subst; discriminate.
    + vm_compute. reflexivity.
  - apply (proj2 capacity_bound BreadthFirst 200%nat 40%nat Examples.sgt2_nodes
             Examples.sgt2_edges Examples.sgt2_lower Examples.sgt2_upper
             "s"%string "t"%string None Examples.sgt2_min_flow (Int 13)).
    + exact sgt2_instance.
    + intros e I. simpl in I.
      repeat (destruct I as [<-|I];
              [do 2 eexists;
               (split; [reflexivity|]; split; [reflexivity|]; split; [lia|];
                exact Logic.I)|]).
      destruct I.
    + intros p (Hd & _ & NE & A).
      destruct p as [|x [|y p]]; try (apply NE; reflexivity).
      inversion Hd; subst x. inversion A as [|? ? [I C] _]; subst.
      simpl in I. repeat (destruct I as [E|I]; [inversion E|]). exact I.
    + exact Logic.I.
    + vm_compute. reflexivity.
Defined.

(** C1 as stated fails. With capacities 3 on (a,b) and 5 on (b,a), source
    b and sink a, [ford_fulkerson] returns the flow -5 on (a,b): the two
    edges share their residual entries. On the single edge (s,t) with
    bounds [1, 3], [minimum_flow] from s to t returns the flow 0, below the
    lower bound: the edge that the reduction adds from the sink back to the
    source is the reverse of (s,t). *)
Lemma capacity_bound_counterexample :
  (ford_fulkerson 5 Examples.two_way_edges Examples.two_way_capacities
     "b"%string "a"%string (search BreadthFirst 5) None
   = Ok ([(("a", "b")%string, Int (-5)); (("b", "a")%string, Int 5)], Int 10)
   /\ int_capacities Examples.two_way_edges Examples.two_way_capacities
   /\ ~ (0 <= -5))
  /\
  (minimum_flow 5 ["s"; "t"]%string Examples.one_edge Examples.one_edge_lower
     Examples.one_edge_capacities "s"%string "t"%string (search BreadthFirst 20) None
   = Ok ([(("s", "t")%string, Int 0)], Int 0)
   /\ int_bounds Examples.one_edge Examples.one_edge_lower Examples.one_edge_capacities
   /\ eget Examples.one_edge_lower ("s", "t")%string = Some (Int 1)
   /\ ~ (1 <= 0)).
Proof.
  split; split; try (vm_compute; reflexivity); split.
  - intros e [<-|[<-|[]]]; eexists; (split; [reflexivity | lia]).
  - lia.
  - intros e [<-|[]]; do 2 eexists; (repeat split; try reflexivity; lia).
  - split; [reflexivity | lia].
Qed.

(** The same happens in [minimum_flow] when the graph itself has an edge
    in each direction between two nodes: with bounds [1, 5] on (a,t) and
    [0, 5] on (s,a) and (t,a), the flow returned on (a,t) is 0. *)
Example minimum_flow_two_way :
  minimum_flow 5 Examples.loop_nodes Examples.loop_edges Examples.loop_lower
    Examples.loop_upper "s"%string "t"%string (search BreadthFirst 20) None
  = Ok ([(("s", "a")%string, Int 0); (("a", "t")%string, Int 0);
         (("t", "a")%string, Int 1)], Int (-1)).
Proof. vm_compute. reflexivity. Qed.

(** An edge listed twice is augmented twice: with capacity 3 on (s,t) the
    flow returned is 6. *)
Example ford_fulkerson_repeated_edge :
  ford_fulkerson 5 [("s", "t"); ("s", "t")]%string Examples.one_edge_capacities
    "s"%string "t"%string (search BreadthFirst 5) None
  = Ok ([(("s", "t")%string, Int 6)], Int 6).
Proof. reflexivity. Qed.

(** With infinite capacities a flow can become [nan]: on five edges of
    infinite capacity the depth-first strategy first sends [inf] along
    s, a, b, t and then [inf] along s, b, a, t, which subtracts [inf] from
    the flow [inf] of (a,b). No comparison with [nan] holds. *)
Example ford_fulkerson_infinite_capacities :
  ford_fulkerson 5 Examples.diamond_edges Examples.diamond_capacities
    "s"%string "t"%string (search DepthFirst 20) None
  = Ok ([(("s", "a")%string, PosInf); (("a", "b")%string, NaN);
         (("b", "t")%string, PosInf); (("s", "b")%string, PosInf);
         (("a", "t")%string, PosInf)], PosInf)
  /\ Num.ltb NaN (Int 0) = false /\ Num.gtb NaN (Int 0) = false
  /\ Num.eqb NaN (Int 0) = false.
Proof. repeat split; vm_compute; reflexivity. Qed.


(** * Further properties of the code *)

(** ** Simple paths *)

Lemma get_path_edges_app_l (P : edge -> Prop) (a b : list node) :
  Forall P (get_path_edges (a ++ b)) -> Forall P (get_path_edges a).
Proof.
  induction a as [|x a IH]; intros H; [constructor|].
  destruct a as [|y a]; [constructor|].
  change (get_path_edges ((x :: y :: a) ++ b))
    with ((x, y) :: get_path_edges ((y :: a) ++ b)) in H.
  change (get_path_edges (x :: y :: a)) with ((x, y) :: get_path_edges (y :: a)).
  inversion H; subst. constructor; [assumption|]. apply IH. assumption.
Qed.

Lemma get_path_edges_mid a u v b :
  last_node a = Ok u -> In (u, v) (get_path_edges (a ++ v :: b)).
Proof.
  induction a as [|x a IH]; [discriminate|].
  destruct a as [|y a].
  - simpl. intros H. inversion H; subst. auto.
  - rewrite last_node_cons. intros H.
    change (get_path_edges ((x :: y :: a) ++ v :: b))
      with ((x, y) :: get_path_edges ((y :: a) ++ v :: b)).
    right. apply IH. assumption.
Qed.

Lemma simple_from_snoc edges rc source p u v :
  simple_from edges rc source p -> last_node p = Ok u ->
  positive_edge edges rc (u, v) -> ~ In v p ->
  simple_from edges rc source (p ++ [v]).
Proof.
  intros (Hd & ND & F) L P N. repeat split.
  - rewrite hd_error_snoc; [assumption | eapply last_node_nonempty; eauto].
  - apply NoDup_snoc; assumption.
  - rewrite (get_path_edges_snoc p u v L). apply Forall_app.
    split; [assumption | constructor; [assumption | constructor]].
Qed.

Lemma simple_from_prefix edges rc source a b :
  a <> [] -> simple_from edges rc source (a ++ b) -> simple_from edges rc source a.
Proof.
  intros N (Hd & ND & F). repeat split.
  - destruct a; [congruence | exact Hd].
  - apply NoDup_app_remove_r in ND. assumption.
  - eapply get_path_edges_app_l; eauto.
Qed.

Lemma simple_from_source edges rc source : simple_from edges rc source [source].
Proof. repeat split; [repeat constructor; simpl; tauto | constructor]. Qed.

(** Whatever a walk reaches, a simple path reaches. *)
Lemma reach_simple edges rc source n w :
  reach edges rc source n w ->
  exists p, simple_from edges rc source p /\ last_node p = Ok w.
Proof.
  induction 1 as [|n u v R (p & S & L) P].
  - exists [source]. split; [apply simple_from_source | reflexivity].
  - destruct (in_dec node_eq_dec v p) as [I|N].
    + apply in_split in I. destruct I as (p1 & p2 & ->).
      exists (p1 ++ [v]). split; [|apply last_node_snoc].
      apply (simple_from_prefix edges rc source (p1 ++ [v]) p2);
        [destruct p1; discriminate|].
      rewrite <- app_assoc. exact S.
    + exists (p ++ [v]). split; [|apply last_node_snoc].
      eapply simple_from_snoc; eauto.
Qed.

Lemma positive_path_simple edges rc source sink q :
  positive_path edges rc source sink q ->
  exists p, augmenting_path edges rc source sink p.
Proof.
  intros Q. apply reach_of_path in Q. apply reach_simple in Q.
  destruct Q as (p & (Hd & ND & F) & L). exists p. repeat split; assumption.
Qed.

Lemma augmenting_simple_from edges rc source sink p :
  augmenting_path edges rc source sink p <->
  simple_from edges rc source p /\ last_node p = Ok sink.
Proof. unfold augmenting_path, positive_path, simple_from. tauto. Qed.

(** ** Errors of the searches *)

(** The successor list of a node fails only on an edge of the list that has
    no residual capacity. *)
Lemma new_nodes_undefined edges rc cur excluded x :
  new_nodes edges rc cur excluded = Err x ->
  x = KeyError /\ ~ defined_on edges rc.
Proof.
  induction edges as [|[a b] rest IH]; simpl; [discriminate|].
  assert (T : new_nodes rest rc cur excluded = Err x ->
              x = KeyError /\ ~ defined_on ((a, b) :: rest) rc).
  { intros H. destruct (IH H) as [-> U]. split; [reflexivity|].
    intros D. apply U. intros e I. apply D. simpl; auto. }
  destruct (node_eq_dec a cur); [|exact T].
  destruct (elookup rc (a, b)) eqn:L; simpl.
  - destruct (new_nodes rest rc cur excluded) eqn:R; simpl; [discriminate|].
    intros H. apply T. exact H.
  - intros H. injection H as <-. apply elookup_Err in L. destruct L as [-> L].
    split; [reflexivity|]. intros D. destruct (D (a, b)) as [c Hc]; [simpl; auto|].
    congruence.
Qed.

Lemma bfs_loop_error edges rc sink fuel : forall open closed x,
  (forall q, In q open -> q <> []) ->
  bfs_loop fuel edges rc sink open closed = Err x ->
  x = OutOfFuel \/ (x = KeyError /\ ~ defined_on edges rc).
Proof.
  induction fuel as [|fuel IH]; intros open closed x NE; destruct open as [|q rest];
    simpl; try discriminate.
  - intros H. inversion H. auto.
  - destruct (last_node q) as [u|e] eqn:Lu; simpl.
    + destruct (node_eq_dec u sink); [discriminate|].
      destruct (new_nodes edges rc u (fun v => mem_node v closed)) as [nn|e] eqn:NN; simpl.
      * apply IH. intros p I. apply in_app_iff in I. destruct I as [I|I].
        -- apply NE. simpl; auto.
        -- apply in_map_iff in I. destruct I as (v & <- & _). destruct q; discriminate.
      * intros H. inversion H; subst. right. eapply new_nodes_undefined; eauto.
    + exfalso. apply (NE q); [simpl; auto|]. destruct q; [reflexivity | discriminate].
Qed.

(** ** Depth-first search *)

#[local] Arguments last_node : simpl never.
#[local] Arguments removelast : simpl never.

Lemma removelast_last_node (l : list node) u :
  last_node l = Ok u -> l = removelast l ++ [u].
Proof.
  induction l as [|x l IH]; [discriminate|].
  destruct l as [|y l]; [simpl; intros H; inversion H; reflexivity|].
  rewrite last_node_cons. intros H.
  change (removelast (x :: y :: l)) with (x :: removelast (y :: l)).
  simpl. f_equal. apply IH. assumption.
Qed.

Lemma unclosed_mono edges (a b : list node) :
  (forall x, In x a -> In x b) -> (unclosed edges b <= unclosed edges a)%nat.
Proof.
  intros H. unfold unclosed. induction edges as [|[u v] rest IH]; simpl; [lia|].
  destruct (mem_node v a) eqn:A.
  - apply mem_node_true in A. apply H in A. apply mem_node_true in A.
    rewrite A. simpl. exact IH.
  - destruct (mem_node v b); simpl; lia.
Qed.

Lemma unclosed_new edges (a b : list node) u v :
  In (u, v) edges -> ~ In v a -> In v b -> (forall x, In x a -> In x b) ->
  (unclosed edges b < unclosed edges a)%nat.
Proof.
  intros I Na Ib H. pose proof (unclosed_mono) as M. unfold unclosed in *.
  induction edges as [|[u' v'] rest IH]; simpl; [destruct I|].
  destruct I as [E|I].
  - inversion E; subst u' v'.
    apply mem_node_false in Na. apply mem_node_true in Ib. rewrite Na, Ib. simpl.
    specialize (M rest a b H). lia.
  - specialize (IH I). destruct (mem_node v' a) eqn:A.
    + apply mem_node_true in A. apply H in A. apply mem_node_true in A.
      rewrite A. simpl. exact IH.
    + destruct (mem_node v' b); simpl; lia.
Qed.

Section DFS.
Variables (edges : list edge) (rc : edict) (source sink : node).

Lemma dfs_inv_init : dfs_inv edges rc source sink [source] [].
Proof.
  constructor.
  - right. apply simple_from_source.
  - intros x v [].
  - left. simpl; auto.
  - intros [].
Qed.

Lemma dfs_inv_push open closed u first nn :
  dfs_inv edges rc source sink open closed ->
  last_node open = Ok u ->
  new_nodes edges rc u (fun v => mem_node v open || mem_node v closed)
  = Ok (first :: nn) ->
  dfs_inv edges rc source sink (open ++ [first]) closed.
Proof.
  intros [Path Cl Src Snk] L NN.
  assert (F : positive_edge edges rc (u, first)
              /\ ~ In first open /\ ~ In first closed).
  { destruct (proj1 (new_nodes_spec _ _ _ _ _ NN first)) as [P X]; [simpl; auto|].
    apply orb_false_iff in X. rewrite !mem_node_false in X. tauto. }
  destruct F as (P & No & Nc). constructor.
  - right. destruct Path as [->|S]; [discriminate|].
    eapply simple_from_snoc; eauto.
  - intros x v Ix Pv. destruct (Cl x v Ix Pv); [left; apply in_app_iff|]; auto.
  - destruct Src; [left; apply in_app_iff|]; auto.
  - assumption.
Qed.

Lemma dfs_inv_pop open closed u :
  dfs_inv edges rc source sink open closed ->
  last_node open = Ok u -> u <> sink ->
  new_nodes edges rc u (fun v => mem_node v open || mem_node v closed) = Ok [] ->
  dfs_inv edges rc source sink (removelast open) (closed ++ [u]).
Proof.
  intros [Path Cl Src Snk] L N NN.
  pose proof (removelast_last_node open u L) as E.
  assert (Split : forall x, In x open -> In x (removelast open) \/ In x (closed ++ [u])).
  { intros x I. rewrite E in I. apply in_app_iff in I.
    destruct I as [I|[<-|[]]]; [auto|]. right. apply in_app_iff. simpl; auto. }
  assert (Dead : forall v, positive_edge edges rc (u, v) -> In v open \/ In v closed).
  { intros v P. destruct (mem_node v open || mem_node v closed) eqn:X.
    - apply orb_true_iff in X. rewrite !mem_node_true in X. exact X.
    - exfalso. apply (proj2 (new_nodes_spec _ _ _ _ _ NN v)). auto. }
  constructor.
  - destruct Path as [->|S]; [discriminate|].
    destruct (removelast open) as [|a r] eqn:R; [auto|]. right.
    apply (simple_from_prefix edges rc source (a :: r) [u]); [discriminate|].
    rewrite <- E. exact S.
  - intros x v Ix Pv. apply in_app_iff in Ix.
    assert (O : In v open \/ In v closed).
    { destruct Ix as [Ix|[<-|[]]]; [eapply Cl; eauto | apply Dead; assumption]. }
    destruct O as [O|O]; [apply Split; assumption|].
    right. apply in_app_iff. auto.
  - destruct Src as [S|S]; [apply Split; assumption|].
    right. apply in_app_iff. auto.
  - intros I. apply in_app_iff in I. destruct I as [I|[I|[]]]; [tauto | congruence].
Qed.

Lemma dfs_closed_reach closed n w :
  dfs_inv edges rc source sink [] closed ->
  reach edges rc source n w -> In w closed.
Proof.
  intros [Path Cl Src Snk]. induction 1 as [|n u v R IH P].
  - destruct Src as [[]|S]. assumption.
  - destruct (Cl u v IH P) as [[]|I]. assumption.
Qed.

Lemma dfs_loop_result fuel : forall open closed,
  dfs_inv edges rc source sink open closed ->
  match dfs_loop fuel edges rc sink open closed with
  | Ok (Some p) => augmenting_path edges rc source sink p
  | Ok None => forall q, ~ positive_path edges rc source sink q
  | Err _ => True
  end.
Proof.
  assert (Done : forall closed, dfs_inv edges rc source sink [] closed ->
                   forall q, ~ positive_path edges rc source sink q).
  { intros closed Inv q Q. apply reach_of_path in Q.
    apply (dfs_sink _ _ _ _ _ _ Inv). eapply dfs_closed_reach; eauto. }
  induction fuel as [|fuel IH]; intros open closed Inv;
    destruct open as [|a open]; simpl; try exact I;
    try (eapply Done; eassumption).
  assert (L : last_node (a :: open) = Ok (last open a)) by reflexivity.
  set (u := last open a) in *.
  destruct (node_eq_dec u sink) as [E|N].
  - rewrite E in L. apply augmenting_simple_from. split; [|assumption].
    destruct (dfs_path _ _ _ _ _ _ Inv) as [E'|S]; [discriminate | assumption].
  - destruct (new_nodes edges rc u
                (fun v => mem_node v (a :: open) || mem_node v closed))
      as [[|first nn]|e] eqn:NN; simpl; [| |exact I].
    + apply IH. eapply dfs_inv_pop; eauto.
    + apply IH. apply (dfs_inv_push (a :: open) closed u first nn); assumption.
Qed.

Lemma dfs_loop_fuel fuel : forall open closed,
  (2 * unclosed edges (open ++ closed) + List.length open < fuel)%nat ->
  match dfs_loop fuel edges rc sink open closed with
  | Ok _ => True
  | Err e => e = KeyError /\ ~ defined_on edges rc
  end.
Proof.
  induction fuel as [|fuel IH]; intros open closed Lt; [lia|].
  destruct open as [|a open]; simpl; [exact I|].
  assert (L : last_node (a :: open) = Ok (last open a)) by reflexivity.
  set (u := last open a) in *.
  destruct (node_eq_dec u sink); [exact I|].
  destruct (new_nodes edges rc u
              (fun v => mem_node v (a :: open) || mem_node v closed))
    as [[|first nn]|e] eqn:NN; simpl.
  - apply IH.
    pose proof (removelast_last_node _ _ L) as E.
    assert (Len : List.length (a :: open) = S (List.length (removelast (a :: open)))).
    { rewrite E at 1. rewrite length_app. simpl. lia. }
    assert (M : (unclosed edges (removelast (a :: open) ++ closed ++ [u])
                 <= unclosed edges ((a :: open) ++ closed))%nat).
    { apply unclosed_mono. intros x I'. rewrite E in I'.
      rewrite !in_app_iff in *. simpl in *. tauto. }
    lia.
  - apply (IH ((a :: open) ++ [first])).
    destruct (proj1 (new_nodes_spec _ _ _ _ _ NN first)) as [[I' _] X]; [simpl; auto|].
    apply orb_false_iff in X. rewrite !mem_node_false in X.
    assert (M : (unclosed edges (((a :: open) ++ [first]) ++ closed)
                 < unclosed edges ((a :: open) ++ closed))%nat).
    { apply (unclosed_new edges _ _ u first I').
      - rewrite in_app_iff. tauto.
      - rewrite !in_app_iff. simpl. tauto.
      - intros x. rewrite !in_app_iff. tauto. }
    rewrite length_app. simpl List.length in *. lia.
  - eapply new_nodes_undefined; eauto.
Qed.

End DFS.

(** X2. The depth-first search. With more fuel than twice the number of
    edges plus one it does not run out: it returns a path, [None], or raises
    a [KeyError]. When it returns a path, the path is an augmenting path
    (simple, from the source to the sink, along edges of strictly positive
    residual capacity); when it returns [None], no path of positive residual
    capacity leads from the source to the sink; it raises only when an edge
    of the list has no residual capacity. *)
Theorem find_augmenting_path_dfs_correct :
  forall fuel edges rc source sink,
    (2 * List.length edges + 1 < fuel)%nat ->
    match find_augmenting_path_dfs fuel edges rc source sink with
    | Ok (Some p) => augmenting_path edges rc source sink p
    | Ok None => forall q, ~ positive_path edges rc source sink q
    | Err e => e = KeyError /\ ~ defined_on edges rc
    end.
Proof.
  intros fuel edges rc source sink L.
  assert (F := dfs_loop_fuel edges rc sink fuel [source] []).
  assert (R := dfs_loop_result edges rc source sink fuel [source] []
                 (dfs_inv_init edges rc source sink)).
  unfold find_augmenting_path_dfs.
  destruct (dfs_loop fuel edges rc sink [source] []) as [[p|]|e]; try exact R.
  apply F.
  assert (U : (unclosed edges ([source] ++ []) <= List.length edges)%nat)
    by apply filter_length_le.
  simpl List.length. lia.
Qed.

(** ** The enumeration of all simple paths *)

Lemma NoDup_app_disjoint (a b : list node) x :
  NoDup (a ++ b) -> In x a -> In x b -> False.
Proof.
  induction a as [|y a IH]; intros ND Ia Ib; [destruct Ia|].
  simpl in ND. inversion ND; subst. destruct Ia as [->|Ia]; [|auto].
  apply H1. apply in_app_iff. auto.
Qed.

Lemma last_node_app a v r : last_node (a ++ v :: r) = last_node (v :: r).
Proof.
  induction a as [|x a IH]; [reflexivity|].
  destruct a as [|y a].
  - apply (last_node_cons x v r).
  - change ((x :: y :: a) ++ v :: r) with (x :: y :: (a ++ v :: r)).
    rewrite last_node_cons. exact IH.
Qed.

Lemma path_edges_targets x rest : map snd (get_path_edges (x :: rest)) = rest.
Proof.
  revert x. induction rest as [|y rest IH]; intros x; [reflexivity|].
  change (get_path_edges (x :: y :: rest)) with ((x, y) :: get_path_edges (y :: rest)).
  simpl. f_equal. apply IH.
Qed.

Lemma simple_from_length edges rc source p :
  simple_from edges rc source p -> (List.length p <= List.length edges + 1)%nat.
Proof.
  intros (Hd & ND & F). destruct p as [|x rest]; [simpl; lia|].
  assert (I : incl rest (map snd edges)).
  { intros v Hv. rewrite <- (path_edges_targets x rest) in Hv.
    apply in_map_iff in Hv. destruct Hv as (e & <- & He).
    rewrite Forall_forall in F. apply in_map. apply (F e He). }
  inversion ND; subst.
  apply NoDup_incl_length in I; [|assumption].
  rewrite length_map in I. rewrite Nat.add_1_r. apply le_n_S. exact I.
Qed.

Lemma new_nodes_length rc cur excluded : forall edges nn,
  new_nodes edges rc cur excluded = Ok nn ->
  (List.length nn <= List.length edges)%nat.
Proof.
  induction edges as [|[a b] rest IH]; intros nn H; simpl in H.
  - inversion H; subst. simpl. lia.
  - destruct (node_eq_dec a cur).
    + inv_bind H as c Hc. inv_bind H as tl Ht. inversion H; subst.
      specialize (IH _ Ht).
      destruct (Num.gtb c (Int 0) && negb (excluded b))%bool; simpl; lia.
    + specialize (IH _ H). simpl. lia.
Qed.

Lemma open_weight_app edges a b :
  open_weight edges (a ++ b) = (open_weight edges a + open_weight edges b)%nat.
Proof. unfold open_weight. rewrite map_app, list_sum_app. reflexivity. Qed.

Lemma path_weight_pos edges p : (1 <= path_weight edges p)%nat.
Proof.
  unfold path_weight.
  assert (H := Nat.pow_nonzero (List.length edges + 1)
                 (List.length edges + 2 - List.length p)). lia.
Qed.

Lemma children_weight edges rc source q nn :
  simple_from edges rc source q ->
  (List.length nn <= List.length edges)%nat ->
  (open_weight edges (map (fun v => q ++ [v]) nn) + 1 <= path_weight edges q)%nat.
Proof.
  intros Sq Ln. apply simple_from_length in Sq.
  unfold open_weight. rewrite map_map.
  set (E := List.length edges) in *.
  set (k := (E + 2 - List.length q - 1)%nat).
  assert (W : forall v, path_weight edges (q ++ [v]) = ((E + 1) ^ k)%nat).
  { intros v. unfold path_weight. rewrite length_app. simpl. f_equal. subst k E. lia. }
  assert (Sum : list_sum (map (fun v => path_weight edges (q ++ [v])) nn)
                = (List.length nn * (E + 1) ^ k)%nat).
  { clear Ln. induction nn as [|v nn IH]; [reflexivity|].
    simpl map. simpl list_sum. rewrite IH, W. simpl. lia. }
  rewrite Sum. unfold path_weight. fold E.
  replace (E + 2 - List.length q)%nat with (S k) by (subst k; lia).
  rewrite Nat.pow_succ_r'.
  assert (P : (1 <= (E + 1) ^ k)%nat)
    by (assert (H := Nat.pow_nonzero (E + 1) k); lia).
  nia.
Qed.

Section AllPaths.
Variables (edges : list edge) (rc : edict) (source sink : node).

Lemma all_paths_inv_init : all_paths_inv edges rc source sink [[source]] [].
Proof.
  constructor.
  - intros p [<-|[]]. apply simple_from_source.
  - intros p [].
  - intros p ((Hd & L & F) & ND). right.
    destruct p as [|a p]; [discriminate|]. simpl in Hd. inversion Hd; subst a.
    exists [source], p. simpl; auto.
Qed.

Lemma all_paths_inv_found q open all :
  all_paths_inv edges rc source sink (q :: open) all ->
  last_node q = Ok sink ->
  all_paths_inv edges rc source sink open (all ++ [q]).
Proof.
  intros [Op Fo Co] L. constructor.
  - intros p I. apply Op. simpl; auto.
  - intros p I. apply in_app_iff in I. destruct I as [I|[<-|[]]]; [auto|].
    apply augmenting_simple_from. split; [apply Op; simpl; auto | assumption].
  - intros p A. destruct (Co p A) as [I|(q' & r & [<-|I] & E)].
    + left. apply in_app_iff. auto.
    + left. apply in_app_iff. right. simpl. left.
      destruct r as [|v r]; [rewrite app_nil_r in E; auto|]. exfalso.
      destruct A as [(_ & Lp & _) ND]. subst p.
      rewrite last_node_app in Lp.
      apply last_node_In in L. apply last_node_In in Lp.
      apply (NoDup_app_disjoint _ _ sink ND); assumption.
    + right. exists q', r. auto.
Qed.

Lemma all_paths_inv_expand q open all u nn :
  all_paths_inv edges rc source sink (q :: open) all ->
  last_node q = Ok u -> u <> sink ->
  new_nodes edges rc u (fun v => mem_node v q) = Ok nn ->
  all_paths_inv edges rc source sink (open ++ map (fun v => q ++ [v]) nn) all.
Proof.
  intros [Op Fo Co] L N H. assert (Sp := new_nodes_spec _ _ _ _ _ H).
  constructor.
  - intros p I. apply in_app_iff in I. destruct I as [I|I]; [apply Op; simpl; auto|].
    apply in_map_iff in I. destruct I as (v & <- & Iv).
    apply Sp in Iv. destruct Iv as (P & M).
    apply (simple_from_snoc edges rc source q u v); auto.
    + apply Op. simpl; auto.
    + apply mem_node_false. assumption.
  - exact Fo.
  - intros p A. destruct (Co p A) as [I|(q' & r & [<-|I] & E)]; [auto| |].
    + right. destruct A as [(_ & Lp & F) ND]. subst p.
      destruct r as [|v r].
      * rewrite app_nil_r in Lp. congruence.
      * exists (q ++ [v]), r. split; [|rewrite <- app_assoc; reflexivity].
        apply in_app_iff. right. apply in_map_iff. exists v.
        split; [reflexivity|]. apply Sp. split.
        -- rewrite Forall_forall in F. apply F. apply get_path_edges_mid. assumption.
        -- apply mem_node_false. intros I.
           apply (NoDup_app_disjoint _ _ v ND); simpl; auto.
    + right. exists q', r. split; [apply in_app_iff; auto | assumption].
Qed.

(** Enumeration: what it returns is exactly the augmenting paths. *)
Lemma all_paths_loop_result fuel : forall open all res,
  all_paths_inv edges rc source sink open all ->
  all_paths_loop fuel edges rc sink open all = Ok res ->
  forall p, In p res <-> augmenting_path edges rc source sink p.
Proof.
  induction fuel as [|fuel IH]; intros open all res I H; destruct open as [|q open];
    simpl in H; try discriminate.
  - inversion H; subst. destruct I as [_ Fo Co]. intros p. split; [auto|].
    intros A. destruct (Co p A) as [?|(q & r & [] & _)]. assumption.
  - inversion H; subst. destruct I as [_ Fo Co]. intros p. split; [auto|].
    intros A. destruct (Co p A) as [?|(q & r & [] & _)]. assumption.
  - inv_bind H as u Hu. destruct (node_eq_dec u sink) as [->|N].
    + apply (IH _ _ _ (all_paths_inv_found _ _ _ I Hu) H).
    + inv_bind H as nn Hn.
      apply (IH _ _ _ (all_paths_inv_expand _ _ _ _ _ I Hu N Hn) H).
Qed.

(** Enumeration: the weight of the open list bounds the number of rounds. *)
Lemma all_paths_loop_fuel fuel : forall open all,
  all_paths_inv edges rc source sink open all ->
  (open_weight edges open <= fuel)%nat ->
  match all_paths_loop fuel edges rc sink open all with
  | Ok _ => True
  | Err e => e = KeyError /\ ~ defined_on edges rc
  end.
Proof.
  induction fuel as [|fuel IH]; intros open all Inv W; destruct open as [|q open];
    simpl; try exact I.
  - exfalso. unfold open_weight in W. simpl in W.
    assert (P := path_weight_pos edges q). lia.
  - assert (Sq : simple_from edges rc source q)
      by (apply (ap_open _ _ _ _ _ _ Inv); simpl; auto).
    change (open_weight edges (q :: open))
      with (path_weight edges q + open_weight edges open)%nat in W.
    destruct (last_node q) as [u|x] eqn:Hu.
    2:{ exfalso. destruct q; [destruct Sq as (Hd & _); discriminate | discriminate]. }
    simpl. destruct (node_eq_dec u sink) as [->|N].
    + apply IH; [apply all_paths_inv_found; assumption|].
      assert (P := path_weight_pos edges q). lia.
    + destruct (new_nodes edges rc u (fun v => mem_node v q)) as [nn|x] eqn:Hn.
      2:{ simpl. eapply new_nodes_undefined; eauto. }
      simpl. apply IH; [eapply all_paths_inv_expand; eauto|].
      rewrite open_weight_app.
      assert (C := children_weight edges rc source q nn Sq (new_nodes_length _ _ _ _ _ Hn)).
      lia.
Qed.

End AllPaths.

(** ** The choice among the paths found *)

Lemma positive_gtb c : Num.gtb c (Int 0) = true <-> positive c.
Proof.
  unfold positive, Num.gtb, Num.ltb. destruct c as [z| | |]; split; intros H;
    try discriminate; try (destruct H as [H|(z' & H & _)]; discriminate); auto.
  - right. exists z. split; [reflexivity|]. apply Z.ltb_lt. assumption.
  - destruct H as [H|(z' & H & P)]; [discriminate|]. inversion H; subst.
    apply Z.ltb_lt. assumption.
Qed.

Lemma positive_good c : positive c -> good c.
Proof. intros [->|(z & -> & P)]; [left; reflexivity | right; exists z; split; [reflexivity | lia]]. Qed.

Lemma path_capacity_positive rc pe : forall acc,
  positive acc ->
  (forall e, In e pe -> exists c, eget rc e = Some c /\ positive c) ->
  exists d, path_capacity_from rc acc pe = Ok d /\ positive d.
Proof.
  induction pe as [|e rest IH]; intros acc P V; simpl; [eauto|].
  destruct (V e) as (c & Hc & Pc); [simpl; auto|].
  rewrite (elookup_eget _ _ _ Hc). simpl. apply IH.
  - destruct (Num.ltb c acc); assumption.
  - intros e' I. apply V. simpl; auto.
Qed.

(** An augmenting path has a bottleneck, which is strictly positive. *)
Lemma augmenting_bottleneck edges rc source sink p :
  augmenting_path edges rc source sink p ->
  exists c, bottleneck rc p c /\ positive c.
Proof.
  intros [(_ & _ & F) _]. apply path_capacity_positive; [left; reflexivity|].
  intros e I. rewrite Forall_forall in F. destruct (F e I) as (_ & c & Hc & G).
  exists c. split; [assumption | apply positive_gtb; assumption].
Qed.

Lemma bottleneck_unique rc p c c' : bottleneck rc p c -> bottleneck rc p c' -> c = c'.
Proof. unfold bottleneck. congruence. Qed.

Ltac num_order :=
  unfold nle, Num.gtb, Num.ltb in *;
  repeat match goal with
  | H : good ?x |- _ => destruct H as [->|(? & -> & ?)]
  | H : positive ?x |- _ => destruct H as [->|(? & -> & ?)]
  end;
  repeat match goal with
  | H : (_ <? _) = true |- _ => apply Z.ltb_lt in H
  | H : (_ <? _) = false |- _ => apply Z.ltb_ge in H
  end;
  try discriminate; try reflexivity;
  try (apply Z.ltb_lt; lia); try (apply Z.ltb_ge; lia).

Lemma nle_gtb_trans a b c :
  good a -> good b -> good c -> nle a b -> Num.gtb c b = true -> nle a c.
Proof. intros; num_order. Qed.

Lemma gtb_nle a b : good a -> good b -> Num.gtb a b = true -> nle b a.
Proof. intros; num_order. Qed.

Lemma not_gtb_nle a b : good a -> good b -> Num.gtb a b = false -> nle a b.
Proof. intros; num_order. Qed.

Lemma gtb_trans a b c :
  good a -> good b -> good c ->
  Num.gtb a b = true -> Num.gtb b c = true -> Num.gtb a c = true.
Proof. intros; num_order. Qed.

Lemma nle_ltb_trans a b c :
  good a -> good b -> good c -> nle b a -> Num.ltb c b = true -> nle c a.
Proof. intros; num_order. Qed.

Lemma ltb_nle a b : good a -> good b -> Num.ltb a b = true -> nle a b.
Proof. intros; num_order. Qed.

Lemma ltb_trans a b c :
  good a -> good b -> good c ->
  Num.ltb a b = true -> Num.ltb b c = true -> Num.ltb a c = true.
Proof. intros; num_order. Qed.

Section Select.
Variable rc : edict.

(** The loop of [find_augmenting_path_max]: the choice stays, and no path
    of the list has a larger bottleneck than the current best; or the
    choice is the path of the list with the largest bottleneck. *)
Lemma select_max_spec : forall all bc bp,
  (forall q, In q all -> exists c, bottleneck rc q c /\ positive c) ->
  good bc ->
  exists r, select_path Num.gtb rc all bc bp = Ok r
    /\ ((r = bp /\ forall q c, In q all -> bottleneck rc q c -> nle c bc)
        \/ exists p c, r = Some p /\ In p all /\ bottleneck rc p c
             /\ Num.gtb c bc = true
             /\ forall q cq, In q all -> bottleneck rc q cq -> nle cq c).
Proof.
  induction all as [|q rest IH]; intros bc bp V G; simpl.
  - exists bp. split; [reflexivity|]. left. split; [reflexivity|]. intros q c [].
  - destruct (V q) as (c & Bq & Pc); [simpl; auto|].
    assert (V' : forall q, In q rest -> exists c, bottleneck rc q c /\ positive c)
      by (intros q' I; apply V; simpl; auto).
    assert (Gc := positive_good c Pc).
    unfold bottleneck in Bq. rewrite Bq. simpl. fold (bottleneck rc q c) in Bq.
    destruct (Num.gtb c bc) eqn:Gt.
    + destruct (IH c (Some q) V' Gc) as (r & Hr & [[Er Le]|(p & c' & Er & I & Bp & Gt' & Le)]);
        exists r; (split; [assumption|]); right.
      * exists q, c. repeat split; simpl; auto.
        intros q' cq [<-|I] B; [|eauto].
        rewrite (bottleneck_unique _ _ _ _ B Bq). apply nle_refl; assumption.
      * destruct (V' p I) as (c'' & Bp' & Pc').
        rewrite (bottleneck_unique _ _ _ _ Bp Bp') in *.
        apply positive_good in Pc'.
        exists p, c''. repeat split; simpl; auto.
        -- apply (gtb_trans c'' c bc); assumption.
        -- intros q' cq [<-|I'] B; [|eauto].
           rewrite (bottleneck_unique _ _ _ _ B Bq). apply gtb_nle; assumption.
    + destruct (IH bc bp V' G) as (r & Hr & [[Er Le]|(p & c' & Er & I & Bp & Gt' & Le)]);
        exists r; (split; [assumption|]).
      * left. split; [assumption|]. intros q' cq [<-|I] B; [|eauto].
        rewrite (bottleneck_unique _ _ _ _ B Bq). apply not_gtb_nle; assumption.
      * right. destruct (V' p I) as (c'' & Bp' & Pc').
        rewrite (bottleneck_unique _ _ _ _ Bp Bp') in *.
        apply positive_good in Pc'.
        exists p, c''. repeat split; simpl; auto.
        intros q' cq [<-|I'] B; [|eauto].
        rewrite (bottleneck_unique _ _ _ _ B Bq).
        apply (nle_gtb_trans c bc c''); auto using not_gtb_nle.
Qed.

(** The loop of [find_augmenting_path_min], likewise with the smallest
    bottleneck. *)
Lemma select_min_spec : forall all bc bp,
  (forall q, In q all -> exists c, bottleneck rc q c /\ positive c) ->
  good bc ->
  exists r, select_path Num.ltb rc all bc bp = Ok r
    /\ ((r = bp /\ forall q c, In q all -> bottleneck rc q c -> nle bc c)
        \/ exists p c, r = Some p /\ In p all /\ bottleneck rc p c
             /\ Num.ltb c bc = true
             /\ forall q cq, In q all -> bottleneck rc q cq -> nle c cq).
Proof.
  induction all as [|q rest IH]; intros bc bp V G; simpl.
  - exists bp. split; [reflexivity|]. left. split; [reflexivity|]. intros q c [].
  - destruct (V q) as (c & Bq & Pc); [simpl; auto|].
    assert (V' : forall q, In q rest -> exists c, bottleneck rc q c /\ positive c)
      by (intros q' I; apply V; simpl; auto).
    assert (Gc := positive_good c Pc).
    unfold bottleneck in Bq. rewrite Bq. simpl. fold (bottleneck rc q c) in Bq.
    destruct (Num.ltb c bc) eqn:Lt.
    + destruct (IH c (Some q) V' Gc) as (r & Hr & [[Er Le]|(p & c' & Er & I & Bp & Lt' & Le)]);
        exists r; (split; [assumption|]); right.
      * exists q, c. repeat split; simpl; auto.
        intros q' cq [<-|I] B; [|eauto].
        rewrite (bottleneck_unique _ _ _ _ B Bq). apply nle_refl; assumption.
      * destruct (V' p I) as (c'' & Bp' & Pc').
        rewrite (bottleneck_unique _ _ _ _ Bp Bp') in *.
        apply positive_good in Pc'.
        exists p, c''. repeat split; simpl; auto.
        -- apply (ltb_trans c'' c bc); assumption.
        -- intros q' cq [<-|I'] B; [|eauto].
           rewrite (bottleneck_unique _ _ _ _ B Bq). apply ltb_nle; assumption.
    + destruct (IH bc bp V' G) as (r & Hr & [[Er Le]|(p & c' & Er & I & Bp & Lt' & Le)]);
        exists r; (split; [assumption|]).
      * left. split; [assumption|]. intros q' cq [<-|I] B; [|eauto].
        rewrite (bottleneck_unique _ _ _ _ B Bq). exact Lt.
      * right. destruct (V' p I) as (c'' & Bp' & Pc').
        rewrite (bottleneck_unique _ _ _ _ Bp Bp') in *.
        apply positive_good in Pc'.
        exists p, c''. repeat split; simpl; auto.
        intros q' cq [<-|I'] B; [|eauto].
        rewrite (bottleneck_unique _ _ _ _ B Bq).
        apply (nle_ltb_trans c bc c''); auto.
Qed.

End Select.

(** ** The four searches *)

(** X1. The breadth-first search. With more fuel than the number of edges
    plus one it does not run out: it returns a path, [None], or raises a
    [KeyError]. A returned path is an augmenting path (simple, from the
    source to the sink, along edges of strictly positive residual
    capacity); [None] is returned only when no path of positive residual
    capacity leads from the source to the sink; the [KeyError] is raised
    only when an edge of the list has no residual capacity. *)
Theorem find_augmenting_path_bfs_total :
  forall fuel edges rc source sink,
    (S (List.length edges) < fuel)%nat ->
    match find_augmenting_path_bfs fuel edges rc source sink with
    | Ok (Some p) => augmenting_path edges rc source sink p
    | Ok None => forall q, ~ positive_path edges rc source sink q
    | Err e => e = KeyError /\ ~ defined_on edges rc
    end.
Proof.
  intros fuel edges rc source sink L.
  assert (F : bfs_loop fuel edges rc sink [[source]] [source] <> Err OutOfFuel).
  { apply bfs_loop_fuel. unfold unclosed.
    pose proof (filter_length_le (fun e => negb (mem_node (snd e) [source])) edges).
    cbn [List.length]. eapply Nat.le_lt_trans; [|exact L]. apply le_n_S. exact H. }
  assert (R := bfs_loop_result edges rc source sink fuel [[source]] [source]
                 (bfs_inv_init edges rc source) (bfs_simple_init source sink)).
  unfold find_augmenting_path_bfs.
  destruct (bfs_loop fuel edges rc sink [[source]] [source]) as [[p|]|e] eqn:E;
    try exact R.
  apply bfs_loop_error in E.
  - destruct E as [->|E]; [congruence | exact E].
  - intros q [<-|[]]. discriminate.
Qed.

Lemma find_augmenting_path_bfs_total_witness :
  augmenting_path fork_edges fork_capacities "s"%string "t"%string ["s"; "t"]%string.
Proof.
  exact (find_augmenting_path_bfs_total 5 fork_edges fork_capacities
           "s"%string "t"%string (le_n 5)).
Defined.

Lemma find_augmenting_path_dfs_correct_witness :
  augmenting_path fork_edges fork_capacities "s"%string "t"%string ["s"; "t"]%string.
Proof.
  exact (find_augmenting_path_dfs_correct 8 fork_edges fork_capacities
           "s"%string "t"%string (le_n 8)).
Defined.

Lemma enumeration_fuel edges source fuel :
  ((List.length edges + 1) ^ (List.length edges + 1) <= fuel)%nat ->
  (open_weight edges [[source]] <= fuel)%nat.
Proof.
  intros L. unfold open_weight, path_weight. simpl map. simpl list_sum.
  rewrite Nat.add_0_r.
  replace (List.length edges + 2 - 1)%nat with (List.length edges + 1)%nat
    by (generalize (List.length edges); intros; lia).
  exact L.
Qed.

(** X3. The maximum-bottleneck search. With fuel
    [(|edges| + 1) ^ (|edges| + 1)] it does not run out. A returned path is
    an augmenting path and no augmenting path has a larger bottleneck;
    [None] is returned only when no path of positive residual capacity
    leads from the source to the sink; a [KeyError] is raised only when an
    edge of the list has no residual capacity. *)
Theorem find_augmenting_path_max_correct :
  forall fuel edges rc source sink,
    ((List.length edges + 1) ^ (List.length edges + 1) <= fuel)%nat ->
    match find_augmenting_path_max fuel edges rc source sink with
    | Ok (Some p) =>
        augmenting_path edges rc source sink p
        /\ exists c, bottleneck rc p c
             /\ forall q cq, augmenting_path edges rc source sink q ->
                  bottleneck rc q cq -> nle cq c
    | Ok None => forall q, ~ positive_path edges rc source sink q
    | Err e => e = KeyError /\ ~ defined_on edges rc
    end.
Proof.
  intros fuel edges rc source sink L. apply (enumeration_fuel edges source) in L.
  assert (Inv := all_paths_inv_init edges rc source sink).
  assert (F := all_paths_loop_fuel edges rc source sink fuel _ _ Inv L).
  assert (R := all_paths_loop_result edges rc source sink fuel [[source]] []).
  unfold find_augmenting_path_max.
  destruct (all_paths_loop fuel edges rc sink [[source]] []) as [all|e]; simpl;
    [|exact F].
  specialize (R all Inv eq_refl).
  destruct (select_max_spec rc all (Int 0) None) as (r & Hr & Sp).
  { intros q I. apply R in I. eapply augmenting_bottleneck; eauto. }
  { right. exists 0. split; [reflexivity | lia]. }
  rewrite Hr. destruct Sp as [[-> Le]|(p & c & -> & I & B & _ & Le)].
  - intros q Q. apply positive_path_simple in Q. destruct Q as (p & A).
    destruct (augmenting_bottleneck _ _ _ _ _ A) as (c & B & P).
    apply R in A. specialize (Le p c A B). clear - Le P. num_order. lia.
  - split; [apply R; assumption|]. exists c. split; [assumption|].
    intros q cq A. apply Le. apply R. assumption.
Qed.

Lemma find_augmenting_path_max_correct_witness :
  augmenting_path fork_edges fork_capacities "s"%string "t"%string
    ["s"; "a"; "t"]%string
  /\ exists c, bottleneck fork_capacities ["s"; "a"; "t"]%string c
       /\ forall q cq,
            augmenting_path fork_edges fork_capacities "s"%string "t"%string q ->
            bottleneck fork_capacities q cq -> nle cq c.
Proof.
  exact (find_augmenting_path_max_correct 256 fork_edges fork_capacities
           "s"%string "t"%string (le_n 256)).
Defined.

(** X4. The minimum-bottleneck search. With fuel
    [(|edges| + 1) ^ (|edges| + 1)] it does not run out. A returned path is
    an augmenting path whose bottleneck is an int, and no augmenting path
    has a smaller bottleneck; [None] is returned exactly when every
    augmenting path (if any) has the bottleneck [inf]; a [KeyError] is
    raised only when an edge of the list has no residual capacity. *)
Theorem find_augmenting_path_min_correct :
  forall fuel edges rc source sink,
    ((List.length edges + 1) ^ (List.length edges + 1) <= fuel)%nat ->
    match find_augmenting_path_min fuel edges rc source sink with
    | Ok (Some p) =>
        augmenting_path edges rc source sink p
        /\ exists z, bottleneck rc p (Int z)
             /\ forall q cq, augmenting_path edges rc source sink q ->
                  bottleneck rc q cq -> nle (Int z) cq
    | Ok None =>
        forall q, augmenting_path edges rc source sink q -> bottleneck rc q PosInf
    | Err e => e = KeyError /\ ~ defined_on edges rc
    end.
Proof.
  intros fuel edges rc source sink L. apply (enumeration_fuel edges source) in L.
  assert (Inv := all_paths_inv_init edges rc source sink).
  assert (F := all_paths_loop_fuel edges rc source sink fuel _ _ Inv L).
  assert (R := all_paths_loop_result edges rc source sink fuel [[source]] []).
  unfold find_augmenting_path_min.
  destruct (all_paths_loop fuel edges rc sink [[source]] []) as [all|e]; simpl;
    [|exact F].
  specialize (R all Inv eq_refl).
  destruct (select_min_spec rc all PosInf None) as (r & Hr & Sp).
  { intros q I. apply R in I. eapply augmenting_bottleneck; eauto. }
  { left. reflexivity. }
  rewrite Hr. destruct Sp as [[-> Le]|(p & c & -> & I & B & Lt & Le)].
  - intros q A. destruct (augmenting_bottleneck _ _ _ _ _ A) as (c & B & P).
    apply R in A. specialize (Le q c A B).
    assert (c = PosInf) as -> by (clear - Le P; num_order). assumption.
  - split; [apply R; assumption|].
    destruct (augmenting_bottleneck _ _ _ _ _ (proj1 (R p) I)) as (c' & B' & P).
    rewrite <- (bottleneck_unique _ _ _ _ B B') in P.
    assert (exists z, c = Int z) as (z & ->) by (clear - Lt P; destruct P as [->|(z & -> & _)]; [discriminate | eauto]).
    exists z. split; [assumption|].
    intros q cq A. apply Le. apply R. assumption.
Qed.

Lemma find_augmenting_path_min_correct_witness :
  augmenting_path fork_edges fork_capacities "s"%string "t"%string ["s"; "t"]%string
  /\ exists z, bottleneck fork_capacities ["s"; "t"]%string (Int z)
       /\ forall q cq,
            augmenting_path fork_edges fork_capacities "s"%string "t"%string q ->
            bottleneck fork_capacities q cq -> nle (Int z) cq.
Proof.
  exact (find_augmenting_path_min_correct 256 fork_edges fork_capacities
           "s"%string "t"%string (le_n 256)).
Defined.

(** ** Sums over edge lists *)

Lemma wsum_app {A} (h : A -> Z) a b : wsum h (a ++ b) = wsum h a + wsum h b.
Proof. induction a as [|x a IH]; simpl; [reflexivity | rewrite IH; lia]. Qed.

Lemma wsum_ext {A} (h k : A -> Z) l :
  (forall x, In x l -> h x = k x) -> wsum h l = wsum k l.
Proof.
  induction l as [|x l IH]; intros E; simpl; [reflexivity|].
  rewrite (E x), IH; [reflexivity | intros; apply E; simpl; auto | simpl; auto].
Qed.

Lemma wsum_plus {A} (h k : A -> Z) l :
  wsum (fun x => h x + k x) l = wsum h l + wsum k l.
Proof. induction l as [|x l IH]; simpl; [reflexivity | rewrite IH; lia]. Qed.

Lemma wsum_scale {A} (h : A -> Z) c l : wsum (fun x => c * h x) l = c * wsum h l.
Proof. induction l as [|x l IH]; simpl; [lia | rewrite IH; lia]. Qed.

Lemma wsum_le {A} (h k : A -> Z) l :
  (forall x, In x l -> h x <= k x) -> wsum h l <= wsum k l.
Proof.
  induction l as [|x l IH]; intros E; simpl; [lia|].
  assert (h x <= k x) by (apply E; simpl; auto).
  assert (wsum h l <= wsum k l) by (apply IH; intros; apply E; simpl; auto). lia.
Qed.

Lemma wsum_zero {A} (h : A -> Z) l : (forall x, In x l -> h x = 0) -> wsum h l = 0.
Proof.
  induction l as [|x l IH]; intros E; simpl; [reflexivity|].
  rewrite (E x), IH; [reflexivity | intros; apply E; simpl; auto | simpl; auto].
Qed.

Lemma wsum_swap {A B} (h : A -> B -> Z) la lb :
  wsum (fun a => wsum (fun b => h a b) lb) la
  = wsum (fun b => wsum (fun a => h a b) la) lb.
Proof.
  induction la as [|a la IH]; simpl.
  - symmetry. apply wsum_zero. reflexivity.
  - rewrite IH. symmetry. apply (wsum_plus (fun b => h a b)).
Qed.

(** In a list without repetition, the sum of [h] over the entries equal
    to [k] is [h k] or nothing. *)
Lemma wsum_pick {A} (dec : forall a b : A, {a = b} + {a <> b}) (h : A -> Z) k l :
  NoDup l ->
  wsum (fun x => if dec x k then h x else 0) l = if in_dec dec k l then h k else 0.
Proof.
  induction l as [|x l IH]; intros ND; [reflexivity|].
  inversion ND as [|? ? NI ND']; subst. cbn [wsum]. rewrite (IH ND').
  destruct (dec x k) as [->|N].
  - destruct (in_dec dec k l) as [I|_]; [contradiction|].
    destruct (in_dec dec k (k :: l)) as [_|N']; [lia | exfalso; apply N'; simpl; auto].
  - destruct (in_dec dec k l) as [I|NI'];
      destruct (in_dec dec k (x :: l)) as [I'|N']; try lia.
    + exfalso. apply N'. simpl; auto.
    + exfalso. destruct I' as [E|I']; [congruence | contradiction].
Qed.

(** ** Flow values *)

Lemma int_valued_at flow e : int_valued flow -> In e (ekeys flow) ->
  eget flow e = Some (Int (flow_at flow e)).
Proof.
  intros IV I. destruct (IV e I) as (z & Hz). unfold flow_at, value_of. rewrite Hz.
  reflexivity.
Qed.

Lemma accumulate_add flow es : forall a,
  int_valued flow -> incl es (ekeys flow) ->
  accumulate Num.add flow es (Int a) = Ok (Int (a + wsum (flow_at flow) es)).
Proof.
  induction es as [|e es IH]; intros a IV Inc; simpl.
  - f_equal. f_equal. lia.
  - rewrite (elookup_eget _ _ _ (int_valued_at flow e IV (Inc e (or_introl eq_refl)))).
    simpl. rewrite IH; [|assumption | intros x I; apply Inc; simpl; auto].
    f_equal. f_equal. lia.
Qed.

Lemma accumulate_sub flow es : forall a,
  int_valued flow -> incl es (ekeys flow) ->
  accumulate Num.sub flow es (Int a) = Ok (Int (a - wsum (flow_at flow) es)).
Proof.
  induction es as [|e es IH]; intros a IV Inc; simpl.
  - f_equal. f_equal. lia.
  - rewrite (elookup_eget _ _ _ (int_valued_at flow e IV (Inc e (or_introl eq_refl)))).
    simpl. rewrite IH; [|assumption | intros x I; apply Inc; simpl; auto].
    f_equal. f_equal. lia.
Qed.

Lemma net_out_filter g edges n :
  net_out g edges n
  = wsum g (filter (fun e => if node_eq_dec (fst e) n then true else false) edges)
    - wsum g (filter (fun e => if node_eq_dec (snd e) n then true else false) edges).
Proof.
  unfold net_out, sgn. induction edges as [|e edges IH]; [reflexivity|].
  cbn [wsum filter]. rewrite IH.
  destruct (node_eq_dec (fst e) n), (node_eq_dec (snd e) n); cbn [wsum]; lia.
Qed.

(** [calculate_flow_value] on a flow of ints: the net outgoing flow of
    the node over the keys of the flow. *)
Lemma calculate_flow_value_int flow n :
  int_valued flow ->
  calculate_flow_value flow n = Ok (Int (net_out (flow_at flow) (ekeys flow) n)).
Proof.
  intros IV. unfold calculate_flow_value.
  rewrite accumulate_add; [|assumption | intros x I; apply filter_In in I; tauto].
  simpl. rewrite accumulate_sub; [|assumption | intros x I; apply filter_In in I; tauto].
  rewrite net_out_filter. reflexivity.
Qed.

(** ** What an augmentation does to the net flows *)

Lemma sgn_swap n e : sgn n (swap e) = - sgn n e.
Proof. unfold sgn, swap. simpl. lia. Qed.

Lemma last_cons_default (rest : list node) : forall x y,
  last (y :: rest) x = last rest y.
Proof.
  induction rest as [|z rest IH]; intros x y; [reflexivity|].
  change (last (y :: z :: rest) x) with (last (z :: rest) x).
  rewrite (IH x z), (IH y z). reflexivity.
Qed.

(** Along a node sequence the signs telescope. *)
Lemma path_sgn n : forall rest x,
  wsum (sgn n) (get_path_edges (x :: rest))
  = (if node_eq_dec x n then 1 else 0) - (if node_eq_dec (last rest x) n then 1 else 0).
Proof.
  induction rest as [|y rest IH]; intros x.
  - simpl. lia.
  - change (get_path_edges (x :: y :: rest)) with ((x, y) :: get_path_edges (y :: rest)).
    cbn [wsum]. rewrite IH. unfold sgn. cbn [fst snd].
    rewrite last_cons_default. lia.
Qed.

Lemma path_edges_first a b : forall p, In (a, b) (get_path_edges p) -> In a p.
Proof.
  induction p as [|x p IH]; [intros []|]. destruct p as [|y p]; [intros []|].
  change (get_path_edges (x :: y :: p)) with ((x, y) :: get_path_edges (y :: p)).
  intros [E|I]; [inversion E; simpl; auto | right; auto].
Qed.

Lemma path_edges_second a b : forall p, In (a, b) (get_path_edges p) -> In b p.
Proof.
  induction p as [|x p IH]; [intros []|]. destruct p as [|y p]; [intros []|].
  change (get_path_edges (x :: y :: p)) with ((x, y) :: get_path_edges (y :: p)).
  intros [E|I]; [inversion E; simpl; auto | right; auto].
Qed.

Lemma path_edges_NoDup : forall p, NoDup p -> NoDup (get_path_edges p).
Proof.
  induction p as [|x p IH]; intros ND; [constructor|]. destruct p as [|y p]; [constructor|].
  change (get_path_edges (x :: y :: p)) with ((x, y) :: get_path_edges (y :: p)).
  inversion ND; subst. constructor; [|auto].
  intros I. apply path_edges_first in I. contradiction.
Qed.

Lemma mem_edge_cons e k rest :
  ~ In k rest ->
  (if mem_edge e (k :: rest) then 1 else 0)
  = (if edge_eq_dec e k then 1 else 0) + (if mem_edge e rest then 1 else 0).
Proof.
  intros NI. unfold mem_edge.
  destruct (in_dec edge_eq_dec e (k :: rest)) as [I|N];
    destruct (edge_eq_dec e k) as [E|Nk];
    destruct (in_dec edge_eq_dec e rest) as [I'|N']; try lia; exfalso.
  - subst. contradiction.
  - destruct I as [E|I]; [congruence | contradiction].
  - apply N. simpl; auto.
  - apply N. simpl; auto.
  - apply N. simpl; auto.
Qed.

Section PathSum.
Variable edges : list edge.
Hypothesis edges_NoDup : NoDup edges.
Variable n : node.

(** Summed over the edges of the graph, the edges of a path count with
    the sign they have along the path, whether the path uses an edge of
    the graph forwards or backwards. *)
Lemma path_sum : forall pe,
  NoDup pe ->
  (forall k, In k pe -> (In k edges /\ ~ In (swap k) edges)
                        \/ (~ In k edges /\ In (swap k) edges)) ->
  wsum (fun e => sgn n e * ((if mem_edge e pe then 1 else 0)
                            - (if mem_edge (swap e) pe then 1 else 0))) edges
  = wsum (sgn n) pe.
Proof.
  induction pe as [|k rest IH]; intros ND X.
  - apply wsum_zero. intros e _. unfold mem_edge. simpl. lia.
  - inversion ND as [|? ? NI ND']; subst. cbn [wsum].
    rewrite <- (IH ND') by (intros; apply X; simpl; auto).
    rewrite (wsum_ext _
      (fun e => ((if edge_eq_dec e k then sgn n e else 0)
                 + (if edge_eq_dec e (swap k) then - sgn n e else 0))
                + sgn n e * ((if mem_edge e rest then 1 else 0)
                             - (if mem_edge (swap e) rest then 1 else 0)))).
    2:{ intros e _. rewrite !(mem_edge_cons _ k rest NI).
        assert (Q : swap e = k <-> e = swap k).
        { split; intros E; [rewrite <- E | rewrite E]; rewrite swap_swap; reflexivity. }
        destruct (edge_eq_dec e k), (edge_eq_dec (swap e) k), (edge_eq_dec e (swap k));
          try lia; tauto. }
    rewrite wsum_plus, wsum_plus.
    rewrite (wsum_pick edge_eq_dec (sgn n) k edges edges_NoDup).
    rewrite (wsum_pick edge_eq_dec (fun e => - sgn n e) (swap k) edges edges_NoDup).
    rewrite sgn_swap.
    destruct (X k) as [[I N]|[N I]]; [simpl; auto | |];
      destruct (in_dec edge_eq_dec k edges); destruct (in_dec edge_eq_dec (swap k) edges);
      try contradiction; lia.
Qed.

End PathSum.

(** ** The searches, whatever the strategy *)

Lemma search_fuel_mono strat m m' :
  (m <= m')%nat -> (search_fuel strat m <= search_fuel strat m')%nat.
Proof.
  intros L. destruct strat; simpl; try lia;
    (apply Nat.pow_le_mono; lia).
Qed.

Lemma search_spec strat fuel edges rc source sink :
  (search_fuel strat (List.length edges) <= fuel)%nat ->
  match search strat fuel edges rc source sink with
  | Ok (Some p) => augmenting_path edges rc source sink p
  | Ok None =>
      strat <> MinBottleneck -> forall q, ~ positive_path edges rc source sink q
  | Err e => e = KeyError /\ ~ defined_on edges rc
  end.
Proof.
  intros L. destruct strat; simpl in *.
  - assert (F : bfs_loop fuel edges rc sink [[source]] [source] <> Err OutOfFuel).
    { apply bfs_loop_fuel. unfold unclosed.
      pose proof (filter_length_le (fun e => negb (mem_node (snd e) [source])) edges).
      cbn [List.length]. eapply Nat.le_lt_trans; [apply le_n_S; exact H|].
      unfold edge in *. lia. }
    assert (R := bfs_loop_result edges rc source sink fuel [[source]] [source]
                   (bfs_inv_init edges rc source) (bfs_simple_init source sink)).
    unfold find_augmenting_path_bfs.
    destruct (bfs_loop fuel edges rc sink [[source]] [source]) as [[p|]|e] eqn:E;
      [exact R | intros _; exact R |].
    apply bfs_loop_error in E.
    + destruct E as [->|E]; [congruence | exact E].
    + intros q [<-|[]]. discriminate.
  - assert (F := dfs_loop_fuel edges rc sink fuel [source] []).
    assert (R := dfs_loop_result edges rc source sink fuel [source] []
                   (dfs_inv_init edges rc source sink)).
    unfold find_augmenting_path_dfs.
    destruct (dfs_loop fuel edges rc sink [source] []) as [[p|]|e];
      [exact R | intros _; exact R |].
    apply F.
    assert (U : (unclosed edges ([source] ++ []) <= List.length edges)%nat)
      by apply filter_length_le.
    simpl List.length. lia.
  - apply (enumeration_fuel edges source) in L.
    assert (Inv := all_paths_inv_init edges rc source sink).
    assert (F := all_paths_loop_fuel edges rc source sink fuel _ _ Inv L).
    assert (R := all_paths_loop_result edges rc source sink fuel [[source]] []).
    unfold find_augmenting_path_max.
    destruct (all_paths_loop fuel edges rc sink [[source]] []) as [all|e]; simpl;
      [|exact F].
    specialize (R all Inv eq_refl).
    destruct (select_max_spec rc all (Int 0) None) as (r & Hr & Sp).
    { intros q I. apply R in I. eapply augmenting_bottleneck; eauto. }
    { right. exists 0. split; [reflexivity | lia]. }
    rewrite Hr. destruct Sp as [[-> Le]|(p & c & -> & I & B & _ & Le)].
    + intros _ q Q. apply positive_path_simple in Q. destruct Q as (p & A).
      destruct (augmenting_bottleneck _ _ _ _ _ A) as (c & B & P).
      apply R in A. specialize (Le p c A B). clear - Le P. num_order. lia.
    + apply R; assumption.
  - apply (enumeration_fuel edges source) in L.
    assert (Inv := all_paths_inv_init edges rc source sink).
    assert (F := all_paths_loop_fuel edges rc source sink fuel _ _ Inv L).
    assert (R := all_paths_loop_result edges rc source sink fuel [[source]] []).
    unfold find_augmenting_path_min.
    destruct (all_paths_loop fuel edges rc sink [[source]] []) as [all|e]; simpl;
      [|exact F].
    specialize (R all Inv eq_refl).
    destruct (select_min_spec rc all PosInf None) as (r & Hr & Sp).
    { intros q I. apply R in I. eapply augmenting_bottleneck; eauto. }
    { left. reflexivity. }
    rewrite Hr. destruct Sp as [[-> Le]|(p & c & -> & I & B & _ & Le)].
    + congruence.
    + apply R; assumption.
Qed.

(** ** Ints in, ints out *)

Lemma ekeys_eset_length d e v :
  (List.length (ekeys (eset d e v)) <= S (List.length (ekeys d)))%nat.
Proof.
  unfold ekeys, eset, Dict.keys. induction d as [|[k x] d IH]; simpl; [lia|].
  destruct (edge_eq_dec e k); simpl; lia.
Qed.

Lemma residual_with_length entries : forall edges rc0 rc,
  residual_with entries edges rc0 = Ok rc ->
  (List.length (ekeys rc) <= List.length (ekeys rc0) + 2 * List.length edges)%nat.
Proof.
  induction edges as [|[u v] rest IH]; intros rc0 rc H; simpl in H.
  - inversion H; subst. lia.
  - inv_bind H as [x y] Hxy. apply IH in H.
    pose proof (ekeys_eset_length (eset rc0 (u, v) x) (v, u) y).
    pose proof (ekeys_eset_length rc0 (u, v) x).
    simpl List.length. lia.
Qed.

Lemma augment_total pe d : forall edges flow,
  (forall e, In e edges -> exists f, eget flow e = Some (Int f)) ->
  exists flow', augment edges pe (Int d) flow = Ok flow'.
Proof.
  induction edges as [|[u v] rest IH]; intros flow D; simpl; [eauto|].
  destruct (D (u, v)) as [f Hf]; [simpl; auto|].
  assert (K : forall d' x,
            (forall e, In e ((u, v) :: rest) -> exists f, eget d' e = Some (Int f)) ->
            forall e, In e ((u, v) :: rest) ->
              exists f, eget (eset d' (u, v) (Int x)) e = Some (Int f)).
  { intros d' x D' e I. destruct (edge_eq_dec (u, v) e) as [<-|N].
    - rewrite eget_eset_same. eauto.
    - rewrite eget_eset_other by assumption. auto. }
  destruct (mem_edge (u, v) pe).
  - rewrite (elookup_eget _ _ _ Hf). simpl.
    rewrite (elookup_eget _ _ _ (eget_eset_same flow (u, v) _)).
    destruct (mem_edge (v, u) pe); simpl; apply IH; intros e I.
    + apply K; [apply K; assumption | simpl; auto].
    + apply K; [assumption | simpl; auto].
  - simpl. rewrite (elookup_eget _ _ _ Hf).
    destruct (mem_edge (v, u) pe); simpl; apply IH; intros e I.
    + apply K; [assumption | simpl; auto].
    + apply D. simpl; auto.
Qed.

Lemma zero_flow_from_ekeys : forall edges acc,
  NoDup (ekeys acc ++ edges) ->
  ekeys (fold_left (fun flow e => eset flow e (Int 0)) edges acc) = ekeys acc ++ edges.
Proof.
  induction edges as [|e rest IH]; intros acc ND; simpl.
  - rewrite app_nil_r. reflexivity.
  - assert (NI : ~ In e (ekeys acc)).
    { intros I. apply NoDup_remove_2 in ND. apply ND. apply in_app_iff. auto. }
    assert (E : ekeys (eset acc e (Int 0)) = ekeys acc ++ [e])
      by (apply keys_set_notin; assumption).
    rewrite IH; rewrite E, <- app_assoc; [reflexivity | exact ND].
Qed.

Lemma zero_flow_ekeys edges : NoDup edges -> ekeys (zero_flow edges) = edges.
Proof. intros ND. apply (zero_flow_from_ekeys edges []). exact ND. Qed.

(** ** Progress of the augmenting loop *)

Lemma bump_int pe d e f :
  bump pe (Int d) e (Int f)
  = Int (f + d * ((if mem_edge e pe then 1 else 0)
                  - (if mem_edge (swap e) pe then 1 else 0))).
Proof.
  unfold bump. destruct (mem_edge e pe), (mem_edge (swap e) pe); simpl; f_equal; lia.
Qed.

Lemma path_found_augmenting edges rc source sink p :
  augmenting_path edges rc source sink p -> path_found (Some p) = Some p.
Proof. intros [(Hd & _) _]. destruct p; [discriminate | reflexivity]. Qed.

Section Progress.
Variable edges : list edge.
Variable lo : edge -> Z.
Variable hi : edge -> num.
Variable entries : edict -> edge -> result (num * num).
Variable build : edict -> result (list edge * edict).
Variables source sink : node.
Variable strat : strategy.
Variable sfuel : nat.

Hypothesis edges_one_way : one_way edges.
Hypothesis build_eq : forall flow,
  build flow = (rc <- residual_with (entries flow) edges [] ;; Ok (ekeys rc, rc)).
Hypothesis entries_value : forall flow e f xy,
  In e edges -> eget flow e = Some (Int f) ->
  entries flow e = Ok xy ->
  xy = (Num.minus (hi e) (Int f), Int (f - lo e)).
Hypothesis entries_total : forall flow e,
  flow_state edges lo hi source sink flow -> In e edges ->
  exists xy, entries flow e = Ok xy.
Hypothesis lo_nonneg : forall e, In e edges -> 0 <= lo e.
Hypothesis source_int : forall e, In e edges -> fst e = source -> exists h, hi e = Int h.
Hypothesis path_finite : forall flow re rc p,
  bounded edges lo hi flow -> build flow = Ok (re, rc) ->
  hd_error p = Some source -> last_node p = Ok sink -> finite_bottleneck rc p.
Hypothesis ends_differ : source <> sink.
Hypothesis enough : (search_fuel strat (2 * List.length edges) <= sfuel)%nat.

Lemma bounded_at flow e :
  bounded edges lo hi flow -> In e edges ->
  eget flow e = Some (Int (flow_at flow e))
  /\ lo e <= flow_at flow e /\ le_hi (flow_at flow e) (hi e).
Proof.
  intros B I. destruct (B e I) as (f & F & L & U).
  unfold flow_at, value_of. rewrite F. simpl. auto.
Qed.

Lemma build_total flow :
  flow_state edges lo hi source sink flow -> exists re rc, build flow = Ok (re, rc).
Proof.
  intros St.
  destruct (residual_with_total (entries flow) edges) with (rc0 := @nil (edge * num))
    as [rc H].
  - intros e I. apply entries_total; assumption.
  - exists (ekeys rc), rc. rewrite build_eq. change edict with (list (edge * num)).
    rewrite H. reflexivity.
Qed.

Lemma residual_graph flow re rc :
  bounded edges lo hi flow -> build flow = Ok (re, rc) ->
  re = ekeys rc
  /\ (List.length re <= 2 * List.length edges)%nat
  /\ defined_on re rc
  /\ (forall e, In e edges ->
        eget rc e = Some (Num.minus (hi e) (Int (flow_at flow e)))
        /\ eget rc (swap e) = Some (Int (flow_at flow e - lo e)))
  /\ (forall k, In k re -> (In k edges /\ ~ In (swap k) edges)
                           \/ (~ In k edges /\ In (swap k) edges)).
Proof.
  intros B H.
  destruct (bounded_residual edges lo hi entries build edges_one_way build_eq entries_value
              flow re rc B H) as (P & G & K).
  rewrite build_eq in H. inv_bind H as rc' R. inversion H; subst re rc'. clear H.
  split; [reflexivity|]. split; [|split; [|split]].
  - apply residual_with_length in R. simpl in R. exact R.
  - intros e I. apply in_ekeys_eget. assumption.
  - intros e I. destruct (bounded_at flow e B I) as (F & _). apply (P e _ I F).
  - intros [u v] I. apply K in I. destruct edges_one_way as [_ OW]. unfold swap in *.
    simpl in *. destruct I as [I|I]; [left | right].
    + split; [assumption|]. intros J. apply (OW _ _ I). assumption.
    + split; [|assumption]. intros J. apply (OW _ _ I). assumption.
Qed.

Lemma value_le flow :
  bounded edges lo hi flow ->
  net_out (flow_at flow) edges source <= capacity_out hi edges source.
Proof.
  intros B. unfold net_out, capacity_out. apply wsum_le. intros e I.
  destruct (bounded_at flow e B I) as (_ & L & U). pose proof (lo_nonneg e I) as Ln.
  unfold sgn. destruct (node_eq_dec (fst e) source) as [E|N].
  - destruct (source_int e I E) as (h & Hh). rewrite Hh in *. simpl in U. simpl int_of.
    destruct (node_eq_dec (snd e) source); lia.
  - destruct (node_eq_dec (snd e) source); lia.
Qed.

Lemma search_result re rc flow :
  bounded edges lo hi flow -> build flow = Ok (re, rc) ->
  exists p, search strat sfuel re rc source sink = Ok p
    /\ match p with
       | Some p => augmenting_path re rc source sink p
       | None => strat <> MinBottleneck ->
                 forall q, ~ positive_path re rc source sink q
       end.
Proof.
  intros B H. destruct (residual_graph flow re rc B H) as (_ & Len & D & _).
  assert (S := search_spec strat sfuel re rc source sink).
  destruct (search strat sfuel re rc source sink) as [p|e].
  - exists p. split; [reflexivity|]. apply S.
    eapply Nat.le_trans; [|exact enough]. apply search_fuel_mono. exact Len.
  - exfalso. apply S; [|exact D].
    eapply Nat.le_trans; [|exact enough]. apply search_fuel_mono. exact Len.
Qed.

(** One augmentation: the bottleneck is a positive int [d]; the new flow
    is again within its bounds and conserved at the inner nodes; [d] more
    leaves the source and [d] more enters the sink. *)
Lemma progress_step flow re rc p :
  flow_state edges lo hi source sink flow -> build flow = Ok (re, rc) ->
  augmenting_path re rc source sink p ->
  exists d flow1,
    0 < d
    /\ calculate_path_capacity rc (get_path_edges p) = Ok (Int d)
    /\ augment edges (get_path_edges p) (Int d) flow = Ok flow1
    /\ flow_state edges lo hi source sink flow1
    /\ net_out (flow_at flow1) edges source = net_out (flow_at flow) edges source + d
    /\ net_out (flow_at flow1) edges sink = net_out (flow_at flow) edges sink - d.
Proof.
  clear entries_total lo_nonneg source_int enough.
  intros [Keys B Cons] H A.
  destruct (residual_graph flow re rc B H) as (Ere & Len & D & P & X).
  destruct (bounded_residual edges lo hi entries build edges_one_way build_eq entries_value
              flow re rc B H) as (_ & G & _).
  destruct (augmenting_bottleneck _ _ _ _ _ A) as (delta & Bn & Pos).
  destruct A as [(Hd & L & F) ND].
  assert (FB := path_finite flow re rc p B H Hd L).
  destruct (calculate_path_capacity_spec rc _ delta Bn) as [Gd Le];
    [intros e c _; apply G|].
  assert (exists d, delta = Int d /\ 0 < d) as (d & -> & Hd0).
  { destruct FB as [E|(e0 & I0 & V0)].
    - exfalso. destruct p as [|x [|y p]]; try discriminate.
      simpl in Hd. unfold last_node in L. simpl in L. congruence.
    - destruct (Le e0 I0) as (c0 & Hc0 & Le0).
      destruct V0 as [V0|[z V0]]; [congruence|].
      rewrite V0 in Hc0. inversion Hc0; subst c0.
      destruct (nle_finite delta z Gd Le0) as (d & -> & _).
      exists d. split; [reflexivity|].
      destruct Pos as [?|(z' & E & ?)]; [discriminate | inversion E; subst; assumption]. }
  destruct (augment_total (get_path_edges p) d edges flow) as [flow1 Au].
  { intros e I. destruct (bounded_at flow e B I) as (Fe & _). eauto. }
  assert (B1 : bounded edges lo hi flow1)
    by (apply (bounded_step edges lo hi entries build edges_one_way build_eq entries_value
                 flow re rc p (Int d) flow1); assumption).
  destruct (augment_spec _ _ _ _ _ (proj1 edges_one_way) Au) as [_ Upd].
  assert (At : forall e, In e edges ->
            flow_at flow1 e
            = flow_at flow e
              + d * ((if mem_edge e (get_path_edges p) then 1 else 0)
                     - (if mem_edge (swap e) (get_path_edges p) then 1 else 0))).
  { intros e I. destruct (bounded_at flow e B I) as (Fe & _).
    unfold flow_at at 1. unfold value_of. rewrite (Upd e _ I Fe), bump_int. reflexivity. }
  assert (Net : forall n, net_out (flow_at flow1) edges n
                = net_out (flow_at flow) edges n
                  + d * ((if node_eq_dec source n then 1 else 0)
                         - (if node_eq_dec sink n then 1 else 0))).
  { intros n. unfold net_out.
    rewrite (wsum_ext _ (fun e => sgn n e * flow_at flow e
               + d * (sgn n e * ((if mem_edge e (get_path_edges p) then 1 else 0)
                       - (if mem_edge (swap e) (get_path_edges p) then 1 else 0)))))
      by (intros e I; rewrite (At e I); lia).
    rewrite wsum_plus, wsum_scale. f_equal. f_equal.
    rewrite (path_sum edges (proj1 edges_one_way) n (get_path_edges p)).
    - destruct p as [|x rest]; [discriminate|]. rewrite path_sgn.
      simpl in Hd. inversion Hd; subst x.
      unfold last_node in L. inversion L as [L']. rewrite L'. reflexivity.
    - apply path_edges_NoDup. assumption.
    - intros k I. apply X. rewrite Forall_forall in F. apply (F k I). }
  exists d, flow1. repeat split; try assumption.
  - rewrite (augment_keys _ _ _ _ _ Au). assumption.
  - intros n N1 N2. rewrite Net, (Cons n N1 N2).
    destruct (node_eq_dec source n), (node_eq_dec sink n); congruence || lia.
  - rewrite Net. destruct (node_eq_dec source source), (node_eq_dec sink source);
      congruence || lia.
  - rewrite Net. destruct (node_eq_dec source sink), (node_eq_dec sink sink);
      congruence || lia.
Qed.

Lemma flow_state_value flow :
  flow_state edges lo hi source sink flow ->
  calculate_flow_value flow source = Ok (Int (net_out (flow_at flow) edges source)).
Proof.
  intros [Keys B _]. rewrite calculate_flow_value_int; [rewrite Keys; reflexivity|].
  intros e I. rewrite Keys in I. destruct (bounded_at flow e B I) as (F & _). eauto.
Qed.

(** The loop: every augmentation sends at least one more unit out of the
    source, and no more can leave it than its outgoing edges carry. *)
Lemma progress_loop fuel : forall flow re rc p,
  flow_state edges lo hi source sink flow -> build flow = Ok (re, rc) ->
  search strat sfuel re rc source sink = Ok p ->
  (Z.to_nat (capacity_out hi edges source - net_out (flow_at flow) edges source)
   <= fuel)%nat ->
  exists flow' re' rc',
    augmenting_loop fuel build edges source sink (search strat sfuel) flow rc p
    = Ok (flow', Int (net_out (flow_at flow') edges source))
    /\ flow_state edges lo hi source sink flow'
    /\ build flow' = Ok (re', rc')
    /\ (strat <> MinBottleneck -> forall q, ~ positive_path re' rc' source sink q)
    /\ net_out (flow_at flow) edges source <= net_out (flow_at flow') edges source
    /\ net_out (flow_at flow') edges source + net_out (flow_at flow') edges sink
       = net_out (flow_at flow) edges source + net_out (flow_at flow) edges sink.
Proof.
  induction fuel as [|fuel IH]; intros flow re rc p St H S Fu.
  - destruct (search_result re rc flow (fs_bounded _ _ _ _ _ _ St) H) as (p' & S' & R).
    rewrite S in S'. inversion S'; subst p'. destruct p as [p|].
    + exfalso. destruct (progress_step flow re rc p St H R) as (d & flow1 & Hd & _ & _ & St1 & V & _).
      pose proof (value_le flow1 (fs_bounded _ _ _ _ _ _ St1)). lia.
    + simpl. rewrite (flow_state_value flow St). simpl.
      exists flow, re, rc. repeat split; auto; try apply St; lia.
  - destruct (search_result re rc flow (fs_bounded _ _ _ _ _ _ St) H) as (p' & S' & R).
    rewrite S in S'. inversion S'; subst p'. destruct p as [p|].
    + destruct (progress_step flow re rc p St H R) as (d & flow1 & Hd & C & Au & St1 & V & W).
      cbn [augmenting_loop]. rewrite (path_found_augmenting _ _ _ _ _ R).
      rewrite C. simpl. rewrite Au. simpl.
      destruct (build_total flow1 St1) as (re1 & rc1 & H1).
      rewrite H1. simpl.
      destruct (search_result re1 rc1 flow1 (fs_bounded _ _ _ _ _ _ St1) H1) as (p1 & S1 & _).
      rewrite S1. simpl.
      destruct (IH flow1 re1 rc1 p1 St1 H1 S1)
        as (flow' & re' & rc' & L & St' & H' & Fin & Le & Sum).
      { pose proof (value_le flow1 (fs_bounded _ _ _ _ _ _ St1)). lia. }
      exists flow', re', rc'. repeat split; auto; try apply St'; lia.
    + simpl. rewrite (flow_state_value flow St). simpl.
      exists flow, re, rc. repeat split; auto; try apply St; lia.
Qed.

Lemma progress_augmenting fuel flow0 :
  flow_state edges lo hi source sink (initial_flow edges flow0) ->
  (Z.to_nat (capacity_out hi edges source
             - net_out (flow_at (initial_flow edges flow0)) edges source)
   <= fuel)%nat ->
  exists flow re rc,
    augmenting fuel build edges source sink (search strat sfuel) flow0
    = Ok (flow, Int (net_out (flow_at flow) edges source))
    /\ flow_state edges lo hi source sink flow
    /\ build flow = Ok (re, rc)
    /\ (strat <> MinBottleneck -> forall q, ~ positive_path re rc source sink q)
    /\ net_out (flow_at (initial_flow edges flow0)) edges source
       <= net_out (flow_at flow) edges source
    /\ net_out (flow_at flow) edges source + net_out (flow_at flow) edges sink
       = net_out (flow_at (initial_flow edges flow0)) edges source
         + net_out (flow_at (initial_flow edges flow0)) edges sink.
Proof.
  intros St Fu. unfold augmenting.
  destruct (build_total _ St) as (re & rc & H).
  rewrite H. simpl.
  destruct (search_result re rc _ (fs_bounded _ _ _ _ _ _ St) H) as (p & S & _).
  rewrite S. simpl. apply (progress_loop fuel _ re rc p); assumption.
Qed.

(** What the loop returns, however many iterations it was given: a flow
    within its bounds and conserved at the inner nodes, with its value,
    in whose residual graph the search found no path. *)
Lemma state_loop fuel : forall flow re rc p flow' v,
  flow_state edges lo hi source sink flow -> build flow = Ok (re, rc) ->
  search strat sfuel re rc source sink = Ok p ->
  augmenting_loop fuel build edges source sink (search strat sfuel) flow rc p
  = Ok (flow', v) ->
  flow_state edges lo hi source sink flow'
  /\ v = Int (net_out (flow_at flow') edges source)
  /\ exists re' rc',
       build flow' = Ok (re', rc')
       /\ (strat <> MinBottleneck -> forall q, ~ positive_path re' rc' source sink q).
Proof.
  clear entries_total lo_nonneg source_int.
  assert (Stop : forall flow re rc p flow' v,
            flow_state edges lo hi source sink flow -> build flow = Ok (re, rc) ->
            search strat sfuel re rc source sink = Ok p -> path_found p = None ->
            (v' <- calculate_flow_value flow source ;; Ok (flow, v')) = Ok (flow', v) ->
            flow_state edges lo hi source sink flow'
            /\ v = Int (net_out (flow_at flow') edges source)
            /\ exists re' rc',
                 build flow' = Ok (re', rc')
                 /\ (strat <> MinBottleneck ->
                     forall q, ~ positive_path re' rc' source sink q)).
  { intros flow re rc p flow' v St H S PF L.
    rewrite (flow_state_value flow St) in L. cbn [bind] in L.
    inversion L; subst flow' v. split; [exact St|]. split; [reflexivity|].
    exists re, rc. split; [exact H|].
    destruct (search_result re rc flow (fs_bounded _ _ _ _ _ _ St) H) as (p' & S' & R).
    rewrite S in S'. inversion S'; subst p'. destruct p as [p|]; [|exact R].
    rewrite (path_found_augmenting _ _ _ _ _ R) in PF. discriminate. }
  induction fuel as [|fuel IH]; intros flow re rc p flow' v St H S L;
    simpl in L; destruct (path_found p) as [path|] eqn:PF; try discriminate.
  - apply (Stop flow re rc p flow' v St H S PF L).
  - apply path_found_Some in PF. subst p.
    destruct (search_result re rc flow (fs_bounded _ _ _ _ _ _ St) H) as (p' & S' & R).
    rewrite S in S'. inversion S'; subst p'.
    destruct (progress_step flow re rc path St H R)
      as (d & flow1 & _ & C & Au & St1 & _).
    rewrite C in L. cbn [bind] in L. rewrite Au in L. cbn [bind] in L.
    inv_bind L as [re1 rc1] Hb. inv_bind L as p1 Hs.
    apply (IH flow1 re1 rc1 p1 flow' v St1 Hb Hs L).
  - apply (Stop flow re rc p flow' v St H S PF L).
Qed.

Lemma state_augmenting fuel flow0 flow v :
  flow_state edges lo hi source sink (initial_flow edges flow0) ->
  augmenting fuel build edges source sink (search strat sfuel) flow0 = Ok (flow, v) ->
  flow_state edges lo hi source sink flow
  /\ v = Int (net_out (flow_at flow) edges source)
  /\ exists re rc,
       build flow = Ok (re, rc)
       /\ (strat <> MinBottleneck -> forall q, ~ positive_path re rc source sink q).
Proof.
  clear entries_total lo_nonneg source_int.
  intros St H. unfold augmenting in H. inv_bind H as [re rc] Hb. inv_bind H as p Hs.
  apply (state_loop fuel _ re rc p flow v St Hb Hs H).
Qed.

End Progress.

(** ** Cuts *)

Lemma reaches_spec edges rc source w :
  defined_on edges rc ->
  reaches edges rc source w = true <-> exists q, positive_path edges rc source w q.
Proof.
  intros D. unfold reaches.
  assert (S := search_spec BreadthFirst (List.length edges + 2) edges rc source w
                 (Nat.le_refl _)).
  simpl in S.
  destruct (find_augmenting_path_bfs (List.length edges + 2) edges rc source w)
    as [[p|]|e].
  - split; [intros _ | reflexivity]. exists p. apply S.
  - split; [discriminate|]. intros (q & Q). exfalso. apply (S ltac:(discriminate) q Q).
  - exfalso. apply S. exact D.
Qed.

Lemma positive_path_snoc edges rc source u v q :
  positive_path edges rc source u q -> positive_edge edges rc (u, v) ->
  positive_path edges rc source v (q ++ [v]).
Proof.
  intros (Hd & L & F) P. repeat split.
  - rewrite hd_error_snoc; [assumption | eapply last_node_nonempty; eauto].
  - apply last_node_snoc.
  - rewrite (get_path_edges_snoc q u v L). apply Forall_app.
    split; [assumption | constructor; [assumption | constructor]].
Qed.

Lemma in_nodes_of edges source n :
  In n (nodes_of edges source) <-> n = source \/ exists e, In e edges /\ (fst e = n \/ snd e = n).
Proof.
  unfold nodes_of. rewrite nodup_In. simpl. rewrite in_app_iff, !in_map_iff.
  split.
  - intros [E|[(e & E & I)|(e & E & I)]]; eauto.
  - intros [E|(e & I & [E|E])]; eauto.
Qed.

Section Cut.
Variable edges : list edge.
Variables source sink : node.
Variable inS : node -> bool.
Hypothesis source_in : inS source = true.
Hypothesis sink_out : inS sink = false.

(** What leaves the source crosses the cut: forwards minus backwards. *)
Lemma cut_value g :
  conserving g edges source sink ->
  net_out g edges source
  = wsum (fun e => g e * (indicator (inS (fst e)) - indicator (inS (snd e)))) edges.
Proof.
  intros C. set (N := nodes_of edges source).
  assert (ND : NoDup N) by apply NoDup_nodup.
  transitivity (wsum (fun n => indicator (inS n) * net_out g edges n) N).
  - rewrite (wsum_ext _ (fun n => if node_eq_dec n source then net_out g edges n else 0)).
    + rewrite (wsum_pick node_eq_dec (net_out g edges) source N ND).
      destruct (in_dec node_eq_dec source N) as [_|NI]; [reflexivity|].
      exfalso. apply NI. apply in_nodes_of. auto.
    + intros n _. destruct (node_eq_dec n source) as [->|N1].
      * rewrite source_in. unfold indicator. lia.
      * destruct (node_eq_dec n sink) as [->|N2].
        -- rewrite sink_out. unfold indicator. lia.
        -- rewrite (C n N1 N2). lia.
  - unfold net_out.
    rewrite (wsum_ext _ (fun n => wsum (fun e => indicator (inS n) * (sgn n e * g e)) edges))
      by (intros n _; symmetry; apply wsum_scale).
    rewrite wsum_swap. apply wsum_ext. intros e I.
    rewrite (wsum_ext _ (fun n => g e * ((if node_eq_dec n (fst e) then indicator (inS n) else 0)
                                          + (if node_eq_dec n (snd e)
                                             then - indicator (inS n) else 0)))).
    + rewrite wsum_scale, wsum_plus.
      rewrite (wsum_pick node_eq_dec (fun n => indicator (inS n)) (fst e) N ND).
      rewrite (wsum_pick node_eq_dec (fun n => - indicator (inS n)) (snd e) N ND).
      destruct (in_dec node_eq_dec (fst e) N) as [_|NI];
        [|exfalso; apply NI; apply in_nodes_of; eauto].
      destruct (in_dec node_eq_dec (snd e) N) as [_|NI];
        [|exfalso; apply NI; apply in_nodes_of; eauto].
      lia.
    + intros n _. unfold sgn.
      destruct (node_eq_dec (fst e) n), (node_eq_dec n (fst e)); try congruence;
        destruct (node_eq_dec (snd e) n), (node_eq_dec n (snd e)); try congruence; lia.
Qed.

(** A flow that carries at least as much as [g] on every edge forwards
    across the cut, and at most as much on every edge backwards across it,
    sends at least as much out of the source. *)
Lemma cut_bound (f g : edge -> Z) :
  conserving f edges source sink -> conserving g edges source sink ->
  (forall e, In e edges -> inS (fst e) = true -> inS (snd e) = false -> g e <= f e) ->
  (forall e, In e edges -> inS (fst e) = false -> inS (snd e) = true -> f e <= g e) ->
  net_out g edges source <= net_out f edges source.
Proof.
  intros Cf Cg Fw Bw. rewrite (cut_value f Cf), (cut_value g Cg).
  apply wsum_le. intros e I. specialize (Fw e I). specialize (Bw e I).
  unfold indicator. destruct (inS (fst e)), (inS (snd e)).
  - lia.
  - specialize (Fw eq_refl eq_refl). lia.
  - specialize (Bw eq_refl eq_refl). lia.
  - lia.
Qed.

End Cut.

(** When the search finds no path in the residual graph, the nodes it can
    reach from the source form a cut that every edge crosses full
    (forwards) or at its lower bound (backwards). *)
Section Maximum.
Variable edges : list edge.
Variable lo : edge -> Z.
Variable hi : edge -> num.
Variable entries : edict -> edge -> result (num * num).
Variable build : edict -> result (list edge * edict).
Variables source sink : node.

Hypothesis edges_one_way : one_way edges.
Hypothesis build_eq : forall flow,
  build flow = (rc <- residual_with (entries flow) edges [] ;; Ok (ekeys rc, rc)).
Hypothesis entries_value : forall flow e f xy,
  In e edges -> eget flow e = Some (Int f) ->
  entries flow e = Ok xy ->
  xy = (Num.minus (hi e) (Int f), Int (f - lo e)).

Lemma residual_cut flow re rc g :
  flow_state edges lo hi source sink flow -> build flow = Ok (re, rc) ->
  (forall q, ~ positive_path re rc source sink q) ->
  (forall e, In e edges -> lo e <= g e /\ le_hi (g e) (hi e)) ->
  conserving g edges source sink ->
  net_out g edges source <= net_out (flow_at flow) edges source.
Proof.
  intros St B Fin Bg Cg.
  destruct (residual_graph edges lo hi entries build edges_one_way build_eq entries_value
              flow re rc (fs_bounded _ _ _ _ _ _ St) B) as (Ere & _ & D & P & _).
  assert (K : forall k, In k re <-> In k edges \/ In (swap k) edges).
  { destruct (bounded_residual edges lo hi entries build edges_one_way build_eq
                entries_value flow re rc (fs_bounded _ _ _ _ _ _ St) B) as (_ & _ & K).
    rewrite Ere. exact K. }
  assert (Step : forall u v, reaches re rc source u = true ->
                   reaches re rc source v = false -> ~ positive_edge re rc (u, v)).
  { intros u v Ru Rv Pe. apply (reaches_spec re rc source u D) in Ru.
    destruct Ru as (q & Q).
    assert (Rv' : reaches re rc source v = true).
    { apply (reaches_spec re rc source v D). exists (q ++ [v]).
      eapply positive_path_snoc; eauto. }
    congruence. }
  apply (cut_bound edges source sink (reaches re rc source)).
  - apply (reaches_spec re rc source source D). exists [source].
    repeat split. constructor.
  - destruct (reaches re rc source sink) eqn:E; [|reflexivity].
    apply (reaches_spec re rc source sink D) in E. destruct E as (q & Q).
    exfalso. apply (Fin q Q).
  - apply St.
  - assumption.
  - intros [u v] I Ru Rv. simpl in Ru, Rv.
    destruct (P (u, v) I) as [P1 _]. destruct (Bg (u, v) I) as [_ Ug].
    destruct (bounded_at edges lo hi flow (u, v) (fs_bounded _ _ _ _ _ _ St) I)
      as (_ & _ & Uf).
    destruct (Z_le_gt_dec (g (u, v)) (flow_at flow (u, v))) as [Le|Gt]; [assumption|].
    exfalso. apply (Step u v Ru Rv). split; [apply K; auto|].
    eexists. split; [exact P1|]. apply positive_gtb.
    destruct (hi (u, v)) as [h| | |]; simpl in *; try contradiction.
    + right. eexists. split; [reflexivity | lia].
    + left. reflexivity.
  - intros [u v] I Ru Rv. simpl in Ru, Rv.
    destruct (P (u, v) I) as [_ P2]. unfold swap in P2. simpl in P2.
    destruct (Bg (u, v) I) as [Lg _].
    destruct (Z_le_gt_dec (flow_at flow (u, v)) (g (u, v))) as [Le|Gt]; [assumption|].
    exfalso. apply (Step v u Rv Ru). split; [apply K; right; exact I|].
    eexists. split; [exact P2|]. apply positive_gtb.
    right. eexists. split; [reflexivity | lia].
Qed.

End Maximum.

(** ** [ford_fulkerson] returns a maximum flow *)

Lemma flow_at_zero edges e : In e edges -> flow_at (zero_flow edges) e = 0.
Proof. intros I. unfold flow_at, value_of. rewrite (zero_flow_get edges e I). reflexivity. Qed.

Lemma net_out_zero edges n : net_out (flow_at (zero_flow edges)) edges n = 0.
Proof.
  unfold net_out. apply wsum_zero. intros e I. rewrite (flow_at_zero edges e I). lia.
Qed.

Lemma zero_flow_state edges hi source sink :
  NoDup edges -> (forall e, In e edges -> le_hi 0 (hi e)) ->
  flow_state edges (fun _ => 0) hi source sink (zero_flow edges).
Proof.
  intros ND H. constructor.
  - apply zero_flow_ekeys. assumption.
  - apply zero_flow_bounded. assumption.
  - intros n _ _. apply net_out_zero.
Qed.

Lemma ford_fulkerson_progress strat sfuel fuel edges capacities source sink :
  one_way edges -> int_capacities edges capacities -> source <> sink ->
  (search_fuel strat (2 * List.length edges) <= sfuel)%nat ->
  (Z.to_nat (capacity_out (value_of capacities) edges source) <= fuel)%nat ->
  exists flow re rc,
    ford_fulkerson fuel edges capacities source sink (search strat sfuel) None
    = Ok (flow, Int (net_out (flow_at flow) edges source))
    /\ flow_state edges (fun _ => 0) (value_of capacities) source sink flow
    /\ MaximumFlow.construct_residual_graph edges capacities flow = Ok (re, rc)
    /\ (strat <> MinBottleneck -> forall q, ~ positive_path re rc source sink q)
    /\ net_out (flow_at flow) edges source + net_out (flow_at flow) edges sink = 0.
Proof.
  intros OW IC NE SF Fu.
  destruct (progress_augmenting edges (fun _ => 0) (value_of capacities)
              (max_flow_entries capacities)
              (MaximumFlow.construct_residual_graph edges capacities)
              source sink strat sfuel OW
              (construct_residual_graph_with edges capacities)
              (fun flow e f xy _ => max_flow_entries_value capacities flow e f xy)
              (fun flow e St =>
                 max_flow_entries_total edges capacities _ _ flow e IC
                   (fs_bounded _ _ _ _ _ _ St))
              (fun _ _ => Z.le_refl 0)) with (fuel := fuel) (flow0 := @None edict)
    as (flow & re & rc & R & St & B & Fin & _ & Sum).
  - intros e I _. destruct (IC e I) as (c & Hc & _). unfold value_of. rewrite Hc. eauto.
  - intros flow re rc p B H _ _.
    apply (int_capacities_finite edges capacities flow re rc p OW IC B H).
  - exact NE.
  - exact SF.
  - simpl. apply zero_flow_state; [apply OW|]. intros e I.
    destruct (IC e I) as (c & Hc & Pc). unfold value_of. rewrite Hc. exact Pc.
  - simpl initial_flow. rewrite net_out_zero, Z.sub_0_r. assumption.
  - exists flow, re, rc. simpl initial_flow in Sum. rewrite !net_out_zero in Sum.
    auto.
Qed.

Lemma flow_state_network edges capacities source sink flow :
  int_capacities edges capacities ->
  flow_state edges (fun _ => 0) (value_of capacities) source sink flow ->
  network_flow edges capacities source sink (flow_at flow).
Proof.
  intros IC [_ B C]. split; [|assumption]. intros e I.
  destruct (B e I) as (f & F & L & U). destruct (IC e I) as (c & Hc & _).
  unfold flow_at, value_of in *. rewrite F. rewrite Hc in *. simpl in *. lia.
Qed.

(** X5. [ford_fulkerson] from the all-zero flow, on a graph without
    repeated or antiparallel edges, with non-negative int capacities and a
    sink other than the source. With each of the four strategies, given
    [search_fuel] iterations for a search and as many augmentations as the
    edges out of the source have capacity, it returns. The flow has the
    edges as its keys, is between 0 and the capacity on every edge and is
    conserved at every node other than the source and the sink; the value
    returned is the net flow out of the source, and as much enters the
    sink. *)
Theorem ford_fulkerson_returns_flow :
  forall strat sfuel fuel edges capacities source sink,
    one_way edges -> int_capacities edges capacities -> source <> sink ->
    (search_fuel strat (2 * List.length edges) <= sfuel)%nat ->
    (Z.to_nat (capacity_out (value_of capacities) edges source) <= fuel)%nat ->
    exists flow,
      ford_fulkerson fuel edges capacities source sink (search strat sfuel) None
      = Ok (flow, Int (net_out (flow_at flow) edges source))
      /\ ekeys flow = edges
      /\ int_valued flow
      /\ network_flow edges capacities source sink (flow_at flow)
      /\ net_out (flow_at flow) edges sink = - net_out (flow_at flow) edges source.
Proof.
  intros strat sfuel fuel edges capacities source sink OW IC NE SF Fu.
  destruct (ford_fulkerson_progress strat sfuel fuel edges capacities source sink
              OW IC NE SF Fu) as (flow & re & rc & R & St & _ & _ & Sum).
  exists flow. split; [assumption|]. split; [apply St|]. split; [|split].
  - intros e I. rewrite (fs_keys _ _ _ _ _ _ St) in I.
    destruct (fs_bounded _ _ _ _ _ _ St e I) as (f & F & _). eauto.
  - apply flow_state_network; assumption.
  - lia.
Qed.

(** X6. Under the same conditions and with the breadth-first, the
    depth-first or the maximum-bottleneck search, the flow returned is a
    maximum flow: its residual graph has no path of positive capacity from
    the source to the sink, and no flow of the network (between 0 and the
    capacity on every edge, conserved at the inner nodes) sends more out
    of the source than the value returned. *)
Theorem ford_fulkerson_maximum :
  forall strat sfuel fuel edges capacities source sink,
    one_way edges -> int_capacities edges capacities -> source <> sink ->
    strat <> MinBottleneck ->
    (search_fuel strat (2 * List.length edges) <= sfuel)%nat ->
    (Z.to_nat (capacity_out (value_of capacities) edges source) <= fuel)%nat ->
    exists flow value re rc,
      ford_fulkerson fuel edges capacities source sink (search strat sfuel) None
      = Ok (flow, Int value)
      /\ MaximumFlow.construct_residual_graph edges capacities flow = Ok (re, rc)
      /\ (forall q, ~ positive_path re rc source sink q)
      /\ forall g, network_flow edges capacities source sink g ->
           net_out g edges source <= value.
Proof.
  intros strat sfuel fuel edges capacities source sink OW IC NE NM SF Fu.
  destruct (ford_fulkerson_progress strat sfuel fuel edges capacities source sink
              OW IC NE SF Fu) as (flow & re & rc & R & St & B & Fin & _).
  specialize (Fin NM).
  exists flow, (net_out (flow_at flow) edges source), re, rc.
  split; [assumption|]. split; [assumption|]. split; [assumption|].
  intros g [Bg Cg].
  apply (residual_cut edges (fun _ => 0) (value_of capacities)
           (max_flow_entries capacities)
           (MaximumFlow.construct_residual_graph edges capacities) source sink OW
           (construct_residual_graph_with edges capacities)
           (fun flow e f xy _ => max_flow_entries_value capacities flow e f xy)
           flow re rc g St B Fin); [|assumption].
  intros e I. destruct (Bg e I) as [L U]. destruct (IC e I) as (c & Hc & _).
  unfold value_of in *. rewrite Hc in *. simpl in *. lia.
Qed.

Lemma fork_one_way : one_way fork_edges.
Proof.
  split.
  - repeat constructor; simpl; intuition discriminate.
  - intros u v I J. simpl in I, J.
    repeat match goal with
    | H : _ \/ _ |- _ => destruct H
    | H : (_, _) = (_, _) |- _ => inversion H; clear H; subst
    | H : False |- _ => destruct H
    end; discriminate.
Qed.

Lemma fork_int_capacities : int_capacities fork_edges fork_capacities.
Proof.
  intros e I. simpl in I.
  repeat match goal with
  | H : _ \/ _ |- _ => destruct H
  | H : False |- _ => destruct H
  end; subst; eexists; (split; [reflexivity | lia]).
Qed.

Lemma ford_fulkerson_returns_flow_witness :
  exists flow,
    ford_fulkerson 4 fork_edges fork_capacities "s"%string "t"%string
      (search BreadthFirst 8) None
    = Ok (flow, Int (net_out (flow_at flow) fork_edges "s"%string))
    /\ ekeys flow = fork_edges
    /\ int_valued flow
    /\ network_flow fork_edges fork_capacities "s"%string "t"%string (flow_at flow)
    /\ net_out (flow_at flow) fork_edges "t"%string
       = - net_out (flow_at flow) fork_edges "s"%string.
Proof.
  apply (ford_fulkerson_returns_flow BreadthFirst 8 4 fork_edges fork_capacities
           "s"%string "t"%string).
  - exact fork_one_way.
  - exact fork_int_capacities.
  - discriminate.
  - vm_compute. lia.
  - vm_compute. lia.
Defined.

Lemma ford_fulkerson_maximum_witness :
  exists flow value re rc,
    ford_fulkerson 4 fork_edges fork_capacities "s"%string "t"%string
      (search DepthFirst 14) None
    = Ok (flow, Int value)
    /\ MaximumFlow.construct_residual_graph fork_edges fork_capacities flow
       = Ok (re, rc)
    /\ (forall q, ~ positive_path re rc "s"%string "t"%string q)
    /\ forall g, network_flow fork_edges fork_capacities "s"%string "t"%string g ->
         net_out g fork_edges "s"%string <= value.
Proof.
  apply (ford_fulkerson_maximum DepthFirst 14 4 fork_edges fork_capacities
           "s"%string "t"%string).
  - exact fork_one_way.
  - exact fork_int_capacities.
  - discriminate.
  - discriminate.
  - vm_compute. lia.
  - vm_compute. lia.
Defined.

(** ** The helpers of [util.py] *)

Lemma nle_number_trans a b c :
  a <> NaN -> b <> NaN -> c <> NaN -> nle a b -> nle b c -> nle a c.
Proof.
  unfold nle, Num.ltb. destruct a, b, c; intros; try congruence;
    repeat match goal with
    | H : (_ <? _) = false |- _ => apply Z.ltb_ge in H
    end; try (apply Z.ltb_ge; lia).
Qed.

Lemma nle_number_refl a : a <> NaN -> nle a a.
Proof.
  unfold nle, Num.ltb. destruct a; intros; try congruence. apply Z.ltb_irrefl.
Qed.

Lemma ltb_number_nle a b : a <> NaN -> b <> NaN -> Num.ltb a b = true -> nle a b.
Proof.
  unfold nle, Num.ltb. destruct a, b; intros; try congruence.
  apply Z.ltb_lt in H1. apply Z.ltb_ge. lia.
Qed.

Lemma path_capacity_from_min rc : forall pe acc,
  acc <> NaN ->
  (forall e, In e pe -> exists c, eget rc e = Some c /\ c <> NaN) ->
  exists d, path_capacity_from rc acc pe = Ok d
    /\ d <> NaN /\ nle d acc
    /\ (forall e, In e pe -> exists c, eget rc e = Some c /\ nle d c)
    /\ (d = acc \/ exists e, In e pe /\ eget rc e = Some d).
Proof.
  induction pe as [|e rest IH]; intros acc Na V; simpl.
  - exists acc. split; [reflexivity|]. split; [assumption|].
    split; [apply nle_number_refl; assumption|]. split; [intros e []|auto].
  - destruct (V e) as (c & Hc & Nc); [simpl; auto|].
    rewrite (elookup_eget _ _ _ Hc). simpl.
    assert (V' : forall e, In e rest -> exists c, eget rc e = Some c /\ c <> NaN)
      by (intros e' I; apply V; simpl; auto).
    destruct (Num.ltb c acc) eqn:Lt.
    + destruct (IH c Nc V') as (d & H & Nd & Le & All & Att).
      exists d. split; [assumption|]. split; [assumption|]. split; [|split].
      * apply (nle_number_trans d c acc); auto. apply ltb_number_nle; assumption.
      * intros e' [<-|I]; [eauto | auto].
      * right. destruct Att as [->|(e' & I & E)]; [exists e | exists e']; simpl; auto.
    + destruct (IH acc Na V') as (d & H & Nd & Le & All & Att).
      exists d. split; [assumption|]. split; [assumption|]. split; [assumption|]. split.
      * intros e' [<-|I]; [|auto]. exists c. split; [assumption|].
        apply (nle_number_trans d acc c); auto.
      * destruct Att as [->|(e' & I & E)]; [auto|]. right. exists e'. simpl; auto.
Qed.

(** X7. [calculate_path_capacity] on a path all of whose edges have a
    capacity (an int, [inf] or [-inf]): it returns a number that is at
    most the capacity of every edge of the path, and that is the capacity
    of one of them, or [inf] (as for the path without edges). *)
Theorem calculate_path_capacity_minimum :
  forall capacities path_edges,
    (forall e, In e path_edges -> exists c, eget capacities e = Some c /\ c <> NaN) ->
    exists d, calculate_path_capacity capacities path_edges = Ok d
      /\ (forall e, In e path_edges ->
            exists c, eget capacities e = Some c /\ nle d c)
      /\ (d = PosInf \/ exists e, In e path_edges /\ eget capacities e = Some d).
Proof.
  intros capacities path_edges V.
  destruct (path_capacity_from_min capacities path_edges PosInf) as (d & H & _ & _ & All & Att);
    [discriminate | assumption |].
  exists d. auto.
Qed.

Lemma calculate_path_capacity_minimum_witness :
  exists d, calculate_path_capacity fork_capacities [("s", "a"); ("a", "t")]%string = Ok d
    /\ (forall e, In e [("s", "a"); ("a", "t")]%string ->
          exists c, eget fork_capacities e = Some c /\ nle d c)
    /\ (d = PosInf \/ exists e, In e [("s", "a"); ("a", "t")]%string
                                /\ eget fork_capacities e = Some d).
Proof.
  apply (calculate_path_capacity_minimum fork_capacities [("s", "a"); ("a", "t")]%string).
  intros e [<-|[<-|[]]]; eexists; (split; [reflexivity | discriminate]).
Defined.

(** X8. [calculate_path_capacity] raises a [KeyError] as soon as one edge
    of the path has no capacity, wherever the edge is on the path. *)
Theorem calculate_path_capacity_key_error :
  forall capacities path_edges,
    (exists e, In e path_edges /\ eget capacities e = None) ->
    calculate_path_capacity capacities path_edges = Err KeyError.
Proof.
  intros capacities path_edges. unfold calculate_path_capacity. generalize PosInf.
  induction path_edges as [|e rest IH]; intros acc (e0 & I & N); [destruct I|].
  simpl. destruct (elookup capacities e) as [c|x] eqn:L; simpl.
  - apply IH. destruct I as [<-|I]; [|eauto].
    apply elookup_Ok in L. congruence.
  - apply elookup_Err in L. destruct L as [-> _]. reflexivity.
Qed.

Lemma calculate_path_capacity_key_error_witness :
  calculate_path_capacity fork_capacities [("s", "a"); ("a", "b")]%string = Err KeyError.
Proof.
  apply (calculate_path_capacity_key_error fork_capacities [("s", "a"); ("a", "b")]%string).
  exists ("a", "b")%string. split; [simpl; auto | reflexivity].
Defined.

(** X9. [get_path_edges] by position: a list of [n] nodes gives [n - 1]
    edges (none for the empty list), and the edge at position [i] joins the
    nodes at positions [i] and [i + 1]. *)
Theorem get_path_edges_by_index :
  forall path_nodes,
    List.length (get_path_edges path_nodes) = Nat.pred (List.length path_nodes)
    /\ forall i u v,
         nth_error (get_path_edges path_nodes) i = Some (u, v)
         <-> nth_error path_nodes i = Some u /\ nth_error path_nodes (S i) = Some v.
Proof.
  induction path_nodes as [|x p [IHl IHn]]; [split; [reflexivity|]|].
  - intros i u v. destruct i; simpl; split; intros H; try discriminate; destruct H; discriminate.
  - destruct p as [|y p].
    + split; [reflexivity|]. intros i u v. split; intros H.
      * destruct i; discriminate.
      * destruct H as [_ H]. destruct i as [|[|i]]; discriminate.
    + change (get_path_edges (x :: y :: p)) with ((x, y) :: get_path_edges (y :: p)).
      split; [simpl List.length in *; rewrite IHl; reflexivity|].
      intros i u v. destruct i as [|i].
      * simpl. split; intros H.
        -- inversion H; auto.
        -- destruct H as [H1 H2]. inversion H1; inversion H2; reflexivity.
      * change (nth_error ((x, y) :: get_path_edges (y :: p)) (S i))
          with (nth_error (get_path_edges (y :: p)) i).
        rewrite IHn. reflexivity.
Qed.

(** ** [ford_fulkerson] outside its conditions *)

Lemma augment_nothing delta : forall edges flow, augment edges [] delta flow = Ok flow.
Proof. induction edges as [|[u v] rest IH]; intros flow; simpl; [reflexivity | apply IH]. Qed.

Lemma search_at_source strat sfuel edges rc s :
  strat <> MinBottleneck -> (0 < sfuel)%nat ->
  search strat sfuel edges rc s s = Ok (Some [s]).
Proof.
  intros NM L. destruct sfuel as [|f]; [lia|]. destruct strat; simpl.
  - unfold find_augmenting_path_bfs. simpl. unfold last_node. simpl.
    destruct (node_eq_dec s s); [reflexivity | congruence].
  - unfold find_augmenting_path_dfs. simpl. unfold last_node. simpl.
    destruct (node_eq_dec s s); [reflexivity | congruence].
  - unfold find_augmenting_path_max. simpl. unfold last_node. simpl.
    destruct (node_eq_dec s s); [|congruence]. destruct f; reflexivity.
  - congruence.
Qed.

(** X10. With the source as the sink, [ford_fulkerson] never returns with
    the breadth-first, depth-first or maximum-bottleneck search: the search
    answers the one-node path, which is not empty, the augmentation along
    its zero edges changes nothing, and the loop goes round again; whatever
    the bound on the number of rounds, it is reached. *)
Theorem ford_fulkerson_source_is_sink :
  forall strat fuel sfuel edges capacities s,
    strat <> MinBottleneck -> (0 < sfuel)%nat ->
    defined_on edges capacities ->
    ford_fulkerson fuel edges capacities s s (search strat sfuel) None
    = Err OutOfFuel.
Proof.
  intros strat fuel sfuel edges capacities s NM L D.
  unfold ford_fulkerson, augmenting. simpl initial_flow.
  destruct (construct_with (max_flow_entries capacities (zero_flow edges)) edges)
    as (rc & R & _).
  { apply max_flow_entries_defined;
      [assumption | apply zero_flow_defined | apply convertible_zero_flow]. }
  assert (B : MaximumFlow.construct_residual_graph edges capacities (zero_flow edges)
              = Ok (ekeys rc, rc)).
  { rewrite construct_residual_graph_with. change edict with (list (edge * num)) in *.
    rewrite R. reflexivity. }
  rewrite B. simpl. rewrite (search_at_source strat sfuel _ rc s NM L). simpl.
  induction fuel as [|fuel IH]; [reflexivity|].
  cbn [augmenting_loop path_found get_path_edges]. unfold calculate_path_capacity.
  simpl path_capacity_from. simpl. rewrite augment_nothing. simpl. rewrite B. simpl.
  rewrite (search_at_source strat sfuel _ rc s NM L). simpl. exact IH.
Qed.

Lemma ford_fulkerson_source_is_sink_witness :
  ford_fulkerson 7 fork_edges fork_capacities "s"%string "s"%string
    (search MaxBottleneck 1) None
  = Err OutOfFuel.
Proof.
  apply (ford_fulkerson_source_is_sink MaxBottleneck 7 1 fork_edges fork_capacities
           "s"%string).
  - discriminate.
  - lia.
  - apply int_capacities_defined. exact fork_int_capacities.
Defined.

(** X11. [ford_fulkerson] returns nothing when an edge of the list has no
    capacity: the residual graph is built before any search, and building
    it reads the capacity of every edge. The call raises [KeyError], or
    [OverflowError] when an int beyond the double range has met a float
    before; from no flow, or from a flow that is convertible with the
    capacities, it is a [KeyError]. *)
Theorem ford_fulkerson_missing_capacity :
  forall (sm : search_method) fuel edges capacities source sink flow,
    (exists e, In e edges /\ eget capacities e = None) ->
    (exists x,
        ford_fulkerson fuel edges capacities source sink sm flow = Err x
        /\ (x = KeyError \/ x = OverflowError))
    /\ (convertible edges capacities (initial_flow edges flow) ->
        ford_fulkerson fuel edges capacities source sink sm flow = Err KeyError).
Proof.
  intros sm fuel edges capacities source sink flow (e & I & N).
  unfold ford_fulkerson, augmenting.
  destruct (residual_graph_missing edges capacities (initial_flow edges flow) e I
              (or_introl N)) as [(x & R & X) K].
  split.
  - exists x. rewrite R. split; [reflexivity | exact X].
  - intros CV. rewrite (K CV). reflexivity.
Qed.

Lemma ford_fulkerson_missing_capacity_witness :
  ford_fulkerson 3 (fork_edges ++ [("t", "u")%string]) fork_capacities
    "s"%string "u"%string (search BreadthFirst 9) None
  = Err KeyError.
Proof.
  apply (ford_fulkerson_missing_capacity (search BreadthFirst 9) 3
           (fork_edges ++ [("t", "u")%string]) fork_capacities "s"%string "u"%string None).
  - exists ("t", "u")%string. split; [simpl; auto | reflexivity].
  - apply convertible_zero_flow.
Defined.

(** ** Walks *)

Lemma nget_nset_same {V} (d : ndict V) n v : nget (nset d n v) n = Some v.
Proof. apply get_set_same. Qed.

Lemma nget_nset_other {V} (d : ndict V) n n' v :
  n <> n' -> nget (nset d n v) n' = nget d n'.
Proof. apply get_set_other. Qed.

Lemma get_path_edges_join a x r :
  get_path_edges (a ++ x :: r) = get_path_edges (a ++ [x]) ++ get_path_edges (x :: r).
Proof.
  induction a as [|y a IH]; [reflexivity|].
  destruct a as [|z a].
  - reflexivity.
  - change (get_path_edges ((y :: z :: a) ++ x :: r))
      with ((y, z) :: get_path_edges ((z :: a) ++ x :: r)).
    change (get_path_edges ((y :: z :: a) ++ [x]))
      with ((y, z) :: get_path_edges ((z :: a) ++ [x])).
    rewrite IH. reflexivity.
Qed.

Lemma walk_source edges s : walk edges s s [s].
Proof. repeat split. constructor. Qed.

Lemma walk_snoc edges s u v p :
  walk edges s u p -> In (u, v) edges -> walk edges s v (p ++ [v]).
Proof.
  intros (Hd & L & F) I. repeat split.
  - rewrite hd_error_snoc; [assumption | eapply last_node_nonempty; eauto].
  - apply last_node_snoc.
  - rewrite (get_path_edges_snoc p u v L). apply Forall_app.
    split; [assumption | constructor; [assumption | constructor]].
Qed.

Lemma walk_weight_snoc weights u v p :
  last_node p = Ok u ->
  walk_weight weights (p ++ [v]) = walk_weight weights p + weight_of weights (u, v).
Proof.
  intros L. unfold walk_weight. rewrite (get_path_edges_snoc p u v L), wsum_app.
  simpl. lia.
Qed.

(** A walk is the source alone, or a walk followed by an edge. *)
Lemma walk_inv edges s v p :
  walk edges s v p ->
  (p = [s] /\ v = s)
  \/ exists q u, p = q ++ [v] /\ walk edges s u q /\ In (u, v) edges.
Proof.
  intros (Hd & L & F).
  destruct (exists_last (last_node_nonempty p v L)) as (q & x & ->).
  rewrite last_node_snoc in L. inversion L; subst x.
  destruct q as [|y q].
  - left. simpl in Hd. inversion Hd. auto.
  - right. assert (Lq : last_node (y :: q) = Ok (last q y)) by reflexivity.
    exists (y :: q), (last q y). split; [reflexivity|].
    rewrite (get_path_edges_snoc _ _ v Lq) in F. apply Forall_app in F.
    destruct F as [F1 F2]. inversion F2; subst. repeat split; assumption.
Qed.

Lemma walk_nodes edges nodes s v p :
  (forall a b, In (a, b) edges -> In a nodes /\ In b nodes) -> In s nodes ->
  walk edges s v p -> incl p nodes.
Proof.
  intros E S (Hd & _ & F). destruct p as [|x rest]; [discriminate|].
  simpl in Hd. inversion Hd; subst x. intros y [<-|I]; [assumption|].
  rewrite <- (path_edges_targets s rest) in I. apply in_map_iff in I.
  destruct I as ([a b] & <- & I). rewrite Forall_forall in F.
  apply (E a b). apply F. assumption.
Qed.

Lemma repeated_split (p : list node) :
  ~ NoDup p -> exists a x b c, p = a ++ x :: b ++ x :: c.
Proof.
  induction p as [|y p IH]; intros N; [exfalso; apply N; constructor|].
  destruct (in_dec node_eq_dec y p) as [I|NI].
  - apply in_split in I. destruct I as (b & c & ->). exists [], y, b, c. reflexivity.
  - destruct IH as (a & x & b & c & ->).
    + intros ND. apply N. constructor; assumption.
    + exists (y :: a), x, b, c. reflexivity.
Qed.

(** Cutting a cycle out of a walk. *)
Lemma walk_cut edges weights s v a x b c :
  walk edges s v (a ++ x :: b ++ x :: c) ->
  walk edges s v (a ++ x :: c)
  /\ walk edges s x (a ++ [x])
  /\ walk edges x x (x :: b ++ [x])
  /\ walk_weight weights (a ++ x :: b ++ x :: c)
     = walk_weight weights (a ++ x :: c) + walk_weight weights (x :: b ++ [x])
  /\ (List.length (get_path_edges (a ++ x :: c))
      < List.length (get_path_edges (a ++ x :: b ++ x :: c)))%nat.
Proof.
  intros (Hd & L & F).
  assert (E1 : get_path_edges (a ++ x :: b ++ x :: c)
               = get_path_edges (a ++ [x]) ++ get_path_edges (x :: b ++ [x])
                 ++ get_path_edges (x :: c)).
  { rewrite get_path_edges_join. f_equal.
    change (x :: b ++ x :: c) with ((x :: b) ++ x :: c).
    rewrite get_path_edges_join. reflexivity. }
  assert (E2 : get_path_edges (a ++ x :: c)
               = get_path_edges (a ++ [x]) ++ get_path_edges (x :: c))
    by apply get_path_edges_join.
  rewrite E1 in F. apply Forall_app in F. destruct F as [F1 F]. apply Forall_app in F.
  destruct F as [F2 F3].
  assert (Hd' : forall r, hd_error (a ++ x :: r) = Some s).
  { intros r. destruct a as [|y a]; simpl in *; assumption. }
  split; [|split; [|split; [|split]]].
  - repeat split; [apply Hd' | | rewrite E2; apply Forall_app; auto].
    rewrite last_node_app. rewrite last_node_app in L.
    change (x :: b ++ x :: c) with ((x :: b) ++ x :: c) in L.
    rewrite last_node_app in L. assumption.
  - repeat split; [apply Hd' | apply last_node_snoc | assumption].
  - repeat split; [|assumption].
    change (x :: b ++ [x]) with ((x :: b) ++ [x]). apply last_node_snoc.
  - unfold walk_weight. rewrite E1, E2, !wsum_app. lia.
  - rewrite E1, E2, !length_app.
    assert (0 < List.length (get_path_edges (x :: b ++ [x])))%nat; [|lia].
    destruct b as [|y b]; simpl; lia.
Qed.

Lemma walk_app edges weights s u p c :
  walk edges s u p -> walk edges u u c ->
  exists q, walk edges s u q
    /\ walk_weight weights q = walk_weight weights p + walk_weight weights c.
Proof.
  intros (Hd & L & F) (Hc & Lc & Fc).
  destruct c as [|y c]; [discriminate|]. simpl in Hc. inversion Hc; subst y.
  destruct (exists_last (last_node_nonempty p u L)) as (a & x & ->).
  rewrite last_node_snoc in L. inversion L; subst x.
  exists (a ++ u :: c).
  assert (E : get_path_edges (a ++ u :: c)
              = get_path_edges (a ++ [u]) ++ get_path_edges (u :: c))
    by apply get_path_edges_join.
  split.
  - repeat split.
    + destruct a; simpl in *; assumption.
    + rewrite last_node_app. assumption.
    + rewrite E. apply Forall_app. auto.
  - unfold walk_weight. rewrite E, wsum_app. reflexivity.
Qed.

(** ** Bellman-Ford *)

Lemma initialise_fold l : forall (p0 : parents_t) (d0 : distances_t),
  let r := fold_left
             (fun pd n => (nset (fst pd) n None, nset (snd pd) n PosInf)) l (p0, d0) in
  (forall v, nget (snd r) v
             = if in_dec node_eq_dec v l then Some PosInf else nget d0 v)
  /\ (forall v, nget (fst r) v
                = if in_dec node_eq_dec v l then Some None else nget p0 v).
Proof.
  induction l as [|a l IH]; intros p0 d0; [split; reflexivity|].
  simpl fold_left. destruct (IH (nset p0 a None) (nset d0 a PosInf)) as [D P].
  split; intros v.
  - rewrite D. destruct (in_dec node_eq_dec v l) as [I|N];
      destruct (in_dec node_eq_dec v (a :: l)) as [I'|N']; try reflexivity.
    + exfalso. apply N'. simpl; auto.
    + destruct I' as [<-|I']; [apply nget_nset_same | contradiction].
    + apply nget_nset_other. intros <-. apply N'. simpl; auto.
  - rewrite P. destruct (in_dec node_eq_dec v l) as [I|N];
      destruct (in_dec node_eq_dec v (a :: l)) as [I'|N']; try reflexivity.
    + exfalso. apply N'. simpl; auto.
    + destruct I' as [<-|I']; [apply nget_nset_same | contradiction].
    + apply nget_nset_other. intros <-. apply N'. simpl; auto.
Qed.

Lemma initialise_spec nodes s p d :
  initialise nodes s [] [] = (p, d) ->
  (forall v, nget d v = if node_eq_dec v s then Some (Int 0)
                        else if in_dec node_eq_dec v nodes then Some PosInf else None)
  /\ (forall v, nget p v = if node_eq_dec v s then Some None
                           else if in_dec node_eq_dec v nodes then Some None else None).
Proof.
  unfold initialise. intros H.
  destruct (initialise_fold
              (filter (fun n => if node_eq_dec n s then false else true) nodes)
              (nset [] s None) (nset [] s (Int 0))) as [D P].
  change parents_t with (ndict (option node)) in *.
  change distances_t with (ndict num) in *.
  rewrite H in D, P. simpl in D, P.
  assert (F : forall v, v <> s ->
            (In v (filter (fun n => if node_eq_dec n s then false else true) nodes)
             <-> In v nodes)).
  { intros v N. rewrite filter_In. destruct (node_eq_dec v s); [contradiction | tauto]. }
  assert (G : ~ In s (filter (fun n => if node_eq_dec n s then false else true) nodes)).
  { intros I. apply filter_In in I. destruct I as [_ I].
    destruct (node_eq_dec s s); [discriminate | congruence]. }
  split; intros v.
  - rewrite D. destruct (node_eq_dec v s) as [->|N].
    + destruct (in_dec node_eq_dec s _) as [I|_]; [exfalso; apply (G I) | reflexivity].
    + destruct (in_dec node_eq_dec v _) as [I|NI];
        destruct (in_dec node_eq_dec v nodes) as [I'|NI']; try reflexivity.
      * exfalso. apply NI'. apply F; assumption.
      * exfalso. apply NI. apply F; assumption.
  - rewrite P. destruct (node_eq_dec v s) as [->|N].
    + destruct (in_dec node_eq_dec s _) as [I|_]; [exfalso; apply (G I) | reflexivity].
    + destruct (in_dec node_eq_dec v _) as [I|NI];
        destruct (in_dec node_eq_dec v nodes) as [I'|NI']; try reflexivity.
      * exfalso. apply NI'. apply F; assumption.
      * exfalso. apply NI. apply F; assumption.
Qed.

Section BellmanFord.
Variables (nodes : list node) (edges : list edge) (weights : edict) (s : node).
Hypothesis graph : weighted_graph nodes edges weights.

Lemma weight_at u v :
  In (u, v) edges -> eget weights (u, v) = Some (Int (weight_of weights (u, v))).
Proof.
  intros I. destruct graph as (_ & _ & W). destruct (W _ I) as (w & Hw).
  unfold weight_of, value_of. rewrite Hw. reflexivity.
Qed.

Lemma bf_inv_init p d :
  initialise nodes s [] [] = (p, d) -> bf_inv nodes edges weights s p d.
Proof.
  intros H. destruct (initialise_spec nodes s p d H) as [D P]. constructor.
  - intros v K. rewrite D, P. destruct (node_eq_dec v s); [eauto|].
    destruct (in_dec node_eq_dec v nodes); [eauto | tauto].
  - intros v x Hx. rewrite D in Hx. destruct (node_eq_dec v s) as [->|N].
    + inversion Hx; subst. right. exists [s]. split; [apply walk_source | reflexivity].
    + destruct (in_dec node_eq_dec v nodes); inversion Hx; auto.
  - exists 0. rewrite D. destruct (node_eq_dec s s); [split; [reflexivity | lia] | congruence].
  - intros v u Hp. rewrite P in Hp.
    destruct (node_eq_dec v s); [discriminate|].
    destruct (in_dec node_eq_dec v nodes); discriminate.
  - intros v Hp. rewrite D. destruct (node_eq_dec v s); [auto|]. right.
    rewrite P in Hp. destruct (node_eq_dec v s); [contradiction|].
    destruct (in_dec node_eq_dec v nodes); [reflexivity | discriminate].
  - left. rewrite P. destruct (node_eq_dec s s); [reflexivity | congruence].
Qed.

Lemma lowered_refl d : (forall v x, nget d v = Some x -> distance x) -> lowered d d.
Proof.
  intros D v x Hx. exists x. split; [assumption|].
  destruct (D v x Hx) as [->|(z & ->)]; unfold nle, Num.ltb; [reflexivity|].
  apply Z.ltb_irrefl.
Qed.

Lemma bf_distance p d v x :
  bf_inv nodes edges weights s p d -> nget d v = Some x -> distance x.
Proof.
  intros Inv Hx. destruct (bf_walk _ _ _ _ _ _ Inv v x Hx) as [->|(q & _ & ->)];
    [left; reflexivity | right; eauto].
Qed.

(** One relaxation: it is computed when the weight is within the double
    range... *)
Lemma relax_defined p d u v :
  Num.huge (weight_of weights (u, v)) = false ->
  bf_inv nodes edges weights s p d -> In (u, v) edges ->
  exists p' d', relax (u, v) weights p d = Ok (p', d').
Proof.
  intros Sm Inv I. destruct graph as (_ & Ends & _). destruct (Ends u v I) as [Iu Iv].
  destruct (bf_keys _ _ _ _ _ _ Inv u (or_introl Iu)) as [(du & Hu) _].
  destruct (bf_keys _ _ _ _ _ _ Inv v (or_introl Iv)) as [(dv & Hv) _].
  unfold relax. rewrite (proj2 (nlookup_Ok d v dv) Hv). cbn [bind].
  rewrite (proj2 (nlookup_Ok d u du) Hu). cbn [bind].
  rewrite (elookup_eget _ _ _ (weight_at u v I)). cbn [bind].
  rewrite (add_fits _ _ (overflows_small du _ Sm)). cbn [bind].
  destruct (Num.gtb dv _); eauto.
Qed.

(** ... and this is what it computes. *)
Lemma relax_spec p d u v p' d' :
  bf_inv nodes edges weights s p d -> In (u, v) edges ->
  relax (u, v) weights p d = Ok (p', d') ->
  bf_inv nodes edges weights s p' d'
  /\ lowered d d'
  /\ (forall du, nget d u = Some du ->
        exists dv', nget d' v = Some dv'
          /\ Num.gtb dv' (Num.plus du (Int (weight_of weights (u, v)))) = false).
Proof.
  intros Inv I H. destruct graph as (_ & Ends & _). destruct (Ends u v I) as [Iu Iv].
  destruct (bf_keys _ _ _ _ _ _ Inv u (or_introl Iu)) as [(du & Hu) _].
  destruct (bf_keys _ _ _ _ _ _ Inv v (or_introl Iv)) as [(dv & Hv) _].
  set (w := weight_of weights (u, v)).
  assert (Dd : forall v x, nget d v = Some x -> distance x)
    by (intros; eapply bf_distance; eauto).
  unfold relax in H. rewrite (proj2 (nlookup_Ok d v dv) Hv) in H. cbn [bind] in H.
  rewrite (proj2 (nlookup_Ok d u du) Hu) in H. cbn [bind] in H.
  rewrite (elookup_eget _ _ _ (weight_at u v I)) in H. cbn [bind] in H. fold w in H.
  inv_bind H as x Hx. apply add_Ok in Hx. subst x.
  destruct (Num.gtb dv (Num.plus du (Int w))) eqn:G; inversion H; subst p' d'; clear H.
  - (* the distance of v goes down *)
    destruct (bf_walk _ _ _ _ _ _ Inv u du Hu) as [->|(q & Wq & ->)].
    { exfalso. destruct dv; discriminate. }
    set (zu := walk_weight weights q) in *. simpl Num.plus in *.
    assert (Low : match dv with Int zv => zu + w < zv | PosInf => True | _ => False end).
    { destruct (Dd v dv Hv) as [->|(zv & ->)]; [exact Logic.I|].
      unfold Num.gtb, Num.ltb in G. apply Z.ltb_lt in G. exact G. }
    split; [|split].
    + constructor.
      * intros x K. destruct (bf_keys _ _ _ _ _ _ Inv x K) as [(a & Ha) (b & Hb)].
        destruct (node_eq_dec v x) as [<-|N].
        -- rewrite !nget_nset_same. eauto.
        -- rewrite !nget_nset_other by assumption. eauto.
      * intros x y Hy. destruct (node_eq_dec v x) as [<-|N].
        -- rewrite nget_nset_same in Hy. inversion Hy; subst y. right.
           exists (q ++ [v]). split; [eapply walk_snoc; eauto|].
           rewrite (walk_weight_snoc weights u v q (proj1 (proj2 Wq))). reflexivity.
        -- rewrite nget_nset_other in Hy by assumption.
           apply (bf_walk _ _ _ _ _ _ Inv x y Hy).
      * destruct (bf_source _ _ _ _ _ _ Inv) as (z & Hz & Lz).
        destruct (node_eq_dec v s) as [->|N].
        -- rewrite nget_nset_same. exists (zu + w). split; [reflexivity|].
           rewrite Hz in Hv. inversion Hv; subst dv. lia.
        -- rewrite nget_nset_other by assumption. eauto.
      * intros x y Hy. destruct (node_eq_dec v x) as [<-|N].
        -- rewrite nget_nset_same in Hy. inversion Hy; subst y. split; [assumption|].
           rewrite nget_nset_same. fold w.
           destruct (node_eq_dec v u) as [->|N'].
           ++ rewrite nget_nset_same. exists (zu + w), (zu + w).
              split; [reflexivity|]. split; [reflexivity|].
              rewrite Hu in Hv. inversion Hv; subst dv. lia.
           ++ rewrite nget_nset_other by assumption. exists zu, (zu + w).
              split; [assumption|]. split; [reflexivity | lia].
        -- rewrite nget_nset_other in Hy by assumption.
           destruct (bf_parent _ _ _ _ _ _ Inv x y Hy) as (Ie & zy & zx & Ey & Ex & Le).
           split; [assumption|]. rewrite (nget_nset_other d v x) by assumption.
           destruct (node_eq_dec v y) as [<-|N'].
           ++ rewrite nget_nset_same. exists (zu + w), zx.
              split; [reflexivity|]. split; [assumption|].
              rewrite Ey in Hv. inversion Hv; subst dv. lia.
           ++ rewrite nget_nset_other by assumption. exists zy, zx. auto.
      * intros x Hx. destruct (node_eq_dec v x) as [<-|N].
        -- rewrite nget_nset_same in Hx. discriminate.
        -- rewrite nget_nset_other in Hx by assumption.
           rewrite nget_nset_other by assumption.
           apply (bf_orphan _ _ _ _ _ _ Inv x Hx).
      * destruct (bf_source _ _ _ _ _ _ Inv) as (z & Hz & Lz).
        destruct (node_eq_dec v s) as [->|N].
        -- right. rewrite nget_nset_same. exists (zu + w). split; [reflexivity|].
           rewrite Hz in Hv. inversion Hv; subst dv. lia.
        -- rewrite !nget_nset_other by assumption. apply (bf_root _ _ _ _ _ _ Inv).
    + intros x y Hy. destruct (node_eq_dec v x) as [<-|N].
      * rewrite nget_nset_same. exists (Int (zu + w)). split; [reflexivity|].
        rewrite Hv in Hy. inversion Hy; subst y.
        unfold nle, Num.ltb. destruct dv; try contradiction; [|reflexivity].
        apply Z.ltb_ge. lia.
      * rewrite nget_nset_other by assumption. exists y. split; [assumption|].
        destruct (Dd x y Hy) as [->|(z & ->)]; unfold nle, Num.ltb; [reflexivity|].
        apply Z.ltb_irrefl.
    + intros du' Hu'. rewrite Hu in Hu'. inversion Hu'; subst du'.
      rewrite nget_nset_same. exists (Int (zu + w)). split; [reflexivity|].
      unfold Num.gtb, Num.ltb. simpl. apply Z.ltb_irrefl.
  - split; [assumption|].
    split; [apply lowered_refl; assumption|].
    intros du' Hu'. rewrite Hu in Hu'. inversion Hu'; subst du'.
    exists dv. auto.
Qed.

End BellmanFord.

Section BellmanFordRounds.
Variables (nodes : list node) (edges : list edge) (weights : edict) (s : node).
Hypothesis graph : weighted_graph nodes edges weights.

Lemma distance_add x w : distance x -> distance (Num.plus x (Int w)).
Proof. intros [->|(z & ->)]; [left | right; exists (z + w)]; reflexivity. Qed.

Lemma nle_distance_trans a b c :
  distance a -> distance b -> distance c -> nle a b -> nle b c -> nle a c.
Proof.
  intros Da Db Dc. apply nle_number_trans.
  - destruct Da as [->|(z & ->)]; discriminate.
  - destruct Db as [->|(z & ->)]; discriminate.
  - destruct Dc as [->|(z & ->)]; discriminate.
Qed.

Lemma nle_add a b w :
  distance a -> distance b -> nle a b -> nle (Num.plus a (Int w)) (Num.plus b (Int w)).
Proof.
  unfold nle, Num.ltb. intros [->|(x & ->)] [->|(y & ->)]; simpl; try congruence.
  rewrite !Z.ltb_ge. lia.
Qed.

Lemma lowered_trans p1 d1 p2 d2 p3 d3 :
  bf_inv nodes edges weights s p1 d1 -> bf_inv nodes edges weights s p2 d2 ->
  bf_inv nodes edges weights s p3 d3 ->
  lowered d1 d2 -> lowered d2 d3 -> lowered d1 d3.
Proof.
  intros I1 I2 I3 L12 L23 v x Hx.
  destruct (L12 v x Hx) as (y & Hy & Lyx). destruct (L23 v y Hy) as (z & Hz & Lzy).
  exists z. split; [assumption|].
  apply (nle_distance_trans z y x); try assumption.
  - apply (bf_distance nodes edges weights s p3 d3 v z I3 Hz).
  - apply (bf_distance nodes edges weights s p2 d2 v y I2 Hy).
  - apply (bf_distance nodes edges weights s p1 d1 v x I1 Hx).
Qed.

(** One round: every edge is relaxed once, in the order of the list. *)
Lemma relax_all_spec : forall es p d p' d',
  incl es edges -> bf_inv nodes edges weights s p d ->
  relax_all es weights p d = Ok (p', d') ->
  bf_inv nodes edges weights s p' d'
  /\ lowered d d'
  /\ forall u v, In (u, v) es -> forall du, nget d u = Some du ->
        exists dv', nget d' v = Some dv'
          /\ nle dv' (Num.plus du (Int (weight_of weights (u, v)))).
Proof.
  induction es as [|[a b] rest IH]; intros p d p' d' Inc Inv H.
  - simpl in H. inversion H; subst p' d'. split; [assumption|].
    split; [apply lowered_refl; intros v x Hx;
            apply (bf_distance nodes edges weights s p d v x Inv Hx)|].
    intros u v [].
  - cbn [relax_all] in H. inv_bind H as [p1 d1] R.
    destruct (relax_spec nodes edges weights s graph p d a b p1 d1 Inv)
      as (Inv1 & Low1 & After); [apply Inc; simpl; auto | exact R|].
    destruct (IH p1 d1 p' d') as (Inv' & Low' & All);
      [intros e I; apply Inc; simpl; auto | assumption | exact H|].
    split; [assumption|].
    split; [eapply (lowered_trans p d p1 d1 p' d'); eauto|].
    intros u v I du Hu.
    assert (Du : distance du)
      by apply (bf_distance nodes edges weights s p d u du Inv Hu).
    destruct I as [E|I].
    + inversion E; subst a b. destruct (After du Hu) as (dv1 & Hv1 & G).
      destruct (Low' v dv1 Hv1) as (dv' & Hv' & L).
      exists dv'. split; [assumption|].
      apply (nle_distance_trans dv' dv1 _); try assumption.
      * apply (bf_distance nodes edges weights s p' d' v dv' Inv' Hv').
      * apply (bf_distance nodes edges weights s p1 d1 v dv1 Inv1 Hv1).
      * apply distance_add; assumption.
    + destruct (Low1 u du Hu) as (du1 & Hu1 & L1).
      destruct (All u v I du1 Hu1) as (dv' & Hv' & L).
      exists dv'. split; [assumption|].
      assert (Du1 : distance du1)
        by apply (bf_distance nodes edges weights s p1 d1 u du1 Inv1 Hu1).
      apply (nle_distance_trans dv' (Num.plus du1 (Int (weight_of weights (u, v)))) _);
        try assumption.
      * apply (bf_distance nodes edges weights s p' d' v dv' Inv' Hv').
      * apply distance_add; assumption.
      * apply distance_add; assumption.
      * apply nle_add; assumption.
Qed.

Lemma relax_all_defined : forall es p d,
  small_weights edges weights ->
  incl es edges -> bf_inv nodes edges weights s p d ->
  exists p' d', relax_all es weights p d = Ok (p', d').
Proof.
  induction es as [|[a b] rest IH]; intros p d Sm Inc Inv; [simpl; eauto|].
  assert (I : In (a, b) edges) by (apply Inc; simpl; auto).
  destruct (relax_defined nodes edges weights s graph p d a b (Sm _ I) Inv I)
    as (p1 & d1 & R).
  destruct (relax_spec nodes edges weights s graph p d a b p1 d1 Inv I R)
    as (Inv1 & _).
  cbn [relax_all]. rewrite R. cbn [bind].
  apply IH; [assumption | intros e Ie; apply Inc; simpl; auto | assumption].
Qed.

Lemma walk_weight_source : walk_weight weights [s] = 0.
Proof. reflexivity. Qed.

(** If the distances are right for the walks of [k] edges and every edge
    has been relaxed since, they are right for the walks of [k + 1]. *)
Lemma within_rounds_step k p d p' d' :
  bf_inv nodes edges weights s p d -> bf_inv nodes edges weights s p' d' ->
  within_rounds edges weights s k d ->
  (forall u v, In (u, v) edges -> forall du, nget d u = Some du ->
     exists dv', nget d' v = Some dv'
       /\ nle dv' (Num.plus du (Int (weight_of weights (u, v))))) ->
  within_rounds edges weights s (S k) d'.
Proof.
  intros Inv Inv' W All v q Wq Len.
  destruct (walk_inv edges s v q Wq) as [[-> ->]|(q0 & u & -> & Wq0 & I)].
  - destruct (bf_source _ _ _ _ _ _ Inv') as (z & Hz & Lz). exists z. auto.
  - rewrite (get_path_edges_snoc q0 u v (proj1 (proj2 Wq0))), length_app in Len.
    simpl in Len.
    destruct (W u q0 Wq0) as (zu & Hu & Lu); [lia|].
    destruct (All u v I _ Hu) as (dv' & Hv' & L).
    rewrite (walk_weight_snoc weights u v q0 (proj1 (proj2 Wq0))).
    destruct (bf_distance nodes edges weights s p' d' v dv' Inv' Hv') as [->|(z & ->)].
    + discriminate.
    + exists z. split; [assumption|]. simpl in L. apply nle_int in L. lia.
Qed.

Lemma within_rounds_zero p d :
  bf_inv nodes edges weights s p d -> within_rounds edges weights s 0 d.
Proof.
  intros Inv v q Wq Len.
  destruct (walk_inv edges s v q Wq) as [[-> ->]|(q0 & u & -> & Wq0 & I)].
  - destruct (bf_source _ _ _ _ _ _ Inv) as (z & Hz & Lz). exists z. auto.
  - rewrite (get_path_edges_snoc q0 u v (proj1 (proj2 Wq0))), length_app in Len.
    simpl in Len. lia.
Qed.

Lemma relax_rounds_spec : forall r k p d p' d',
  bf_inv nodes edges weights s p d -> within_rounds edges weights s k d ->
  relax_rounds r edges weights p d = Ok (p', d') ->
  bf_inv nodes edges weights s p' d'
  /\ within_rounds edges weights s (r + k) d'.
Proof.
  induction r as [|r IH]; intros k p d p' d' Inv W H.
  - simpl in H. inversion H; subst p' d'. auto.
  - cbn [relax_rounds] in H. inv_bind H as [p1 d1] R.
    destruct (relax_all_spec edges p d p1 d1 (incl_refl _) Inv R)
      as (Inv1 & _ & All).
    destruct (IH (S k) p1 d1 p' d' Inv1) as (Inv' & W'); [|exact H|].
    { apply (within_rounds_step k p d p1 d1 Inv Inv1 W All). }
    split; [assumption|].
    replace (S r + k)%nat with (r + S k)%nat by lia. assumption.
Qed.

Lemma relax_rounds_defined : forall r p d,
  small_weights edges weights ->
  bf_inv nodes edges weights s p d ->
  exists p' d', relax_rounds r edges weights p d = Ok (p', d').
Proof.
  induction r as [|r IH]; intros p d Sm Inv; [simpl; eauto|].
  destruct (relax_all_defined edges p d Sm (incl_refl _) Inv) as (p1 & d1 & R).
  destruct (relax_all_spec edges p d p1 d1 (incl_refl _) Inv R) as (Inv1 & _).
  cbn [relax_rounds]. rewrite R. cbn [bind]. apply IH; assumption.
Qed.

(** The last loop answers whether the distances are settled. *)
Lemma has_negative_cycle_spec p d : forall es b,
  incl es edges -> bf_inv nodes edges weights s p d ->
  has_negative_cycle es weights d = Ok b ->
  (b = false <->
   forall u v, In (u, v) es ->
     exists du dv, nget d u = Some du /\ nget d v = Some dv
       /\ Num.gtb dv (Num.plus du (Int (weight_of weights (u, v)))) = false).
Proof.
  intros es b Inc Inv. revert b. induction es as [|[a b] rest IH]; intros b0 H.
  - simpl in H. inversion H; subst b0. split; [intros _ u v [] | reflexivity].
  - destruct graph as (_ & Ends & _).
    assert (I : In (a, b) edges) by (apply Inc; simpl; auto).
    destruct (Ends a b I) as [Ia Ib].
    destruct (bf_keys _ _ _ _ _ _ Inv a (or_introl Ia)) as [(da & Ha) _].
    destruct (bf_keys _ _ _ _ _ _ Inv b (or_introl Ib)) as [(db & Hb) _].
    cbn [has_negative_cycle] in H.
    rewrite (proj2 (nlookup_Ok d b db) Hb) in H. cbn [bind] in H.
    rewrite (proj2 (nlookup_Ok d a da) Ha) in H. cbn [bind] in H.
    rewrite (elookup_eget _ _ _ (weight_at nodes edges weights graph a b I)) in H.
    cbn [bind] in H. inv_bind H as x Hx. apply add_Ok in Hx. subst x.
    destruct (Num.gtb db (Num.plus da (Int (weight_of weights (a, b))))) eqn:G.
    + inversion H; subst b0. split; [discriminate|].
      intros All. destruct (All a b) as (da' & db' & Ha' & Hb' & G'); [simpl; auto|].
      congruence.
    + rewrite (IH (fun e Ie => Inc e (or_intror Ie)) b0 H). split.
      * intros All u v [E|Iuv]; [inversion E; subst; eauto | auto].
      * intros All u v Iuv. apply All. simpl; auto.
Qed.

Lemma has_negative_cycle_defined p d : forall es,
  small_weights edges weights ->
  incl es edges -> bf_inv nodes edges weights s p d ->
  exists b, has_negative_cycle es weights d = Ok b.
Proof.
  intros es Sm Inc Inv. induction es as [|[a b] rest IH]; [simpl; eauto|].
  destruct graph as (_ & Ends & _).
  assert (I : In (a, b) edges) by (apply Inc; simpl; auto).
  destruct (Ends a b I) as [Ia Ib].
  destruct (bf_keys _ _ _ _ _ _ Inv a (or_introl Ia)) as [(da & Ha) _].
  destruct (bf_keys _ _ _ _ _ _ Inv b (or_introl Ib)) as [(db & Hb) _].
  cbn [has_negative_cycle].
  rewrite (proj2 (nlookup_Ok d b db) Hb). cbn [bind].
  rewrite (proj2 (nlookup_Ok d a da) Ha). cbn [bind].
  rewrite (elookup_eget _ _ _ (weight_at nodes edges weights graph a b I)). cbn [bind].
  rewrite (add_fits _ _ (overflows_small da _ (Sm _ I))). cbn [bind].
  destruct (Num.gtb db _); [eauto|].
  apply IH. intros e Ie. apply Inc. simpl; auto.
Qed.

(** Settled distances are at most the weight of every walk. *)
Lemma settled_rounds p d :
  bf_inv nodes edges weights s p d -> settled edges weights d ->
  forall k, within_rounds edges weights s k d.
Proof.
  intros Inv St. induction k as [|k IH]; [eapply within_rounds_zero; eauto|].
  apply (within_rounds_step k p d p d Inv Inv IH).
  intros u v I du Hu. destruct (St u v I) as (du' & dv & Hu' & Hv & G).
  rewrite Hu in Hu'. inversion Hu'; subst du'. exists dv. auto.
Qed.

Lemma settled_shortest p d v x :
  bf_inv nodes edges weights s p d -> settled edges weights d ->
  nget d v = Some x -> shortest edges weights s v x.
Proof.
  intros Inv St Hx. assert (W := settled_rounds p d Inv St).
  destruct (bf_walk _ _ _ _ _ _ Inv v x Hx) as [->|(q & Wq & ->)]; simpl.
  - intros q Wq. destruct (W _ v q Wq (Nat.le_refl _)) as (z & Hz & _). congruence.
  - split; [eauto|]. intros q' Wq'.
    destruct (W _ v q' Wq' (Nat.le_refl _)) as (z & Hz & Lz). congruence.
Qed.

Lemma settled_no_negative_cycle p d :
  bf_inv nodes edges weights s p d -> settled edges weights d ->
  no_negative_cycle edges weights s.
Proof.
  intros Inv St u q c Wq Wc. assert (W := settled_rounds p d Inv St).
  destruct (W _ u q Wq (Nat.le_refl _)) as (z & Hz & _).
  destruct (bf_walk _ _ _ _ _ _ Inv u _ Hz) as [E|(q0 & Wq0 & E)]; [discriminate|].
  inversion E; subst z.
  destruct (walk_app edges weights s u q0 c Wq0 Wc) as (q1 & Wq1 & E1).
  destruct (W _ u q1 Wq1 (Nat.le_refl _)) as (z & Hz' & Lz).
  rewrite Hz in Hz'. inversion Hz'; subst z. lia.
Qed.

(** Without a negative cycle, [|nodes| - 1] rounds settle the distances:
    a walk of more edges repeats a node, and the cycle between the two
    visits can be cut out without making the walk heavier. *)
Lemma rounds_settle p d :
  In s nodes -> no_negative_cycle edges weights s ->
  bf_inv nodes edges weights s p d ->
  within_rounds edges weights s (Nat.pred (List.length nodes)) d ->
  settled edges weights d.
Proof.
  intros Is NC Inv W. destruct graph as (ND & Ends & _).
  assert (All : forall m v q, walk edges s v q ->
            (List.length (get_path_edges q) <= m)%nat ->
            exists z, nget d v = Some (Int z) /\ z <= walk_weight weights q).
  { induction m as [|m IH]; intros v q Wq Len.
    - apply (within_rounds_zero p d Inv v q Wq Len).
    - destruct (Nat.le_gt_cases (List.length (get_path_edges q))
                  (Nat.pred (List.length nodes))) as [Short|Long].
      + apply (W v q Wq Short).
      + assert (NN : ~ NoDup q).
        { intros NDq.
          assert (Lq := NoDup_incl_length NDq (walk_nodes edges nodes s v q Ends Is Wq)).
          destruct (length_path_edges q) as [E|E]; [lia|].
          subst q. destruct Wq as (Hd & _). discriminate. }
        destruct (repeated_split q NN) as (a & x & b & c & ->).
        destruct (walk_cut edges weights s v a x b c Wq) as (W1 & Wpre & Wcyc & E & Lt).
        destruct (IH v (a ++ x :: c) W1) as (z & Hz & Lz); [lia|].
        exists z. split; [assumption|].
        pose proof (NC x _ _ Wpre Wcyc). lia. }
  intros u v I. destruct (Ends u v I) as [Iu Iv].
  destruct (bf_keys _ _ _ _ _ _ Inv u (or_introl Iu)) as [(du & Hu) _].
  destruct (bf_keys _ _ _ _ _ _ Inv v (or_introl Iv)) as [(dv & Hv) _].
  exists du, dv. split; [assumption|]. split; [assumption|].
  destruct (bf_walk _ _ _ _ _ _ Inv u du Hu) as [->|(q & Wq & ->)].
  - simpl. destruct dv; reflexivity.
  - destruct (All _ v (q ++ [v]) (walk_snoc edges s u v q Wq I) (Nat.le_refl _))
      as (z & Hz & Lz).
    rewrite Hv in Hz. inversion Hz; subst dv.
    rewrite (walk_weight_snoc weights u v q (proj1 (proj2 Wq))) in Lz.
    simpl. unfold Num.gtb, Num.ltb. apply Z.ltb_ge. lia.
Qed.

End BellmanFordRounds.

(** What [bellman_ford] has computed when it returns... *)
Lemma bellman_ford_inv nodes edges weights s r :
  weighted_graph nodes edges weights ->
  bellman_ford nodes edges weights s = Ok r ->
  exists p d b,
    relax_rounds (Nat.pred (List.length nodes)) edges weights
      (fst (initialise nodes s [] [])) (snd (initialise nodes s [] [])) = Ok (p, d)
    /\ has_negative_cycle edges weights d = Ok b
    /\ bf_inv nodes edges weights s p d
    /\ within_rounds edges weights s (Nat.pred (List.length nodes)) d
    /\ (b = false <-> settled edges weights d)
    /\ r = (if b then (nodes, None, None) else (nodes, Some p, Some d)).
Proof.
  intros G H. unfold bellman_ford in H.
  destruct (initialise nodes s [] []) as [p0 d0] eqn:I0.
  assert (Inv0 := bf_inv_init nodes edges weights s p0 d0 I0).
  inv_bind H as [p d] R. inv_bind H as b Hb.
  destruct (relax_rounds_spec nodes edges weights s G (Nat.pred (List.length nodes)) 0
              p0 d0 p d Inv0 (within_rounds_zero nodes edges weights s p0 d0 Inv0) R)
    as (Inv & W).
  rewrite Nat.add_0_r in W.
  assert (Sp := has_negative_cycle_spec nodes edges weights s G p d edges b
                  (incl_refl _) Inv Hb).
  exists p, d, b. simpl fst. simpl snd.
  split; [assumption|]. split; [assumption|]. split; [assumption|].
  split; [assumption|]. split; [exact Sp|].
  destruct b; inversion H; reflexivity.
Qed.

(** ... and it returns when the weights are within the double range. *)
Lemma bellman_ford_run nodes edges weights s :
  weighted_graph nodes edges weights -> small_weights edges weights ->
  exists p d b,
    relax_rounds (Nat.pred (List.length nodes)) edges weights
      (fst (initialise nodes s [] [])) (snd (initialise nodes s [] [])) = Ok (p, d)
    /\ has_negative_cycle edges weights d = Ok b
    /\ bf_inv nodes edges weights s p d
    /\ within_rounds edges weights s (Nat.pred (List.length nodes)) d
    /\ (b = false <-> settled edges weights d)
    /\ bellman_ford nodes edges weights s
       = Ok (if b then (nodes, None, None) else (nodes, Some p, Some d)).
Proof.
  intros G Sm.
  assert (T : exists r, bellman_ford nodes edges weights s = Ok r).
  { unfold bellman_ford.
    destruct (initialise nodes s [] []) as [p0 d0] eqn:I0.
    assert (Inv0 := bf_inv_init nodes edges weights s p0 d0 I0).
    destruct (relax_rounds_defined nodes edges weights s G
                (Nat.pred (List.length nodes)) p0 d0 Sm Inv0) as (p & d & R).
    destruct (relax_rounds_spec nodes edges weights s G (Nat.pred (List.length nodes)) 0
                p0 d0 p d Inv0 (within_rounds_zero nodes edges weights s p0 d0 Inv0) R)
      as (Inv & _).
    destruct (has_negative_cycle_defined nodes edges weights s G p d edges Sm
                (incl_refl _) Inv) as (b & Hb).
    rewrite R. cbn [bind]. rewrite Hb. cbn [bind]. destruct b; eauto. }
  destruct T as (r & H).
  destruct (bellman_ford_inv nodes edges weights s r G H)
    as (p & d & b & R & Hb & Inv & W & Sp & ->).
  exists p, d, b. rewrite H. auto 7.
Qed.

(** X12. [bellman_ford] on a graph whose node list has no repetition and
    contains the source and the ends of the edges, with int weights within
    the double range (the distance [inf] is added to them). It never
    fails. Either it returns parents and distances: then no cycle of
    negative weight can be reached from the source, and the distance of
    every node is the least weight of a walk from the source to it, or
    [inf] when there is no walk. Or it returns [None] for both: then a
    cycle of negative weight can be reached from the source. *)
Theorem bellman_ford_correct :
  forall nodes edges weights s,
    weighted_graph nodes edges weights -> small_weights edges weights ->
    In s nodes ->
    (exists parents distances,
        bellman_ford nodes edges weights s = Ok (nodes, Some parents, Some distances)
        /\ no_negative_cycle edges weights s
        /\ forall v, In v nodes ->
             exists d, nget distances v = Some d /\ shortest edges weights s v d)
    \/ (bellman_ford nodes edges weights s = Ok (nodes, None, None)
        /\ ~ no_negative_cycle edges weights s).
Proof.
  intros nodes edges weights s G Sm Is.
  destruct (bellman_ford_run nodes edges weights s G Sm)
    as (p & d & b & _ & _ & Inv & W & Sp & E).
  destruct b.
  - right. split; [assumption|]. intros NC.
    assert (St := rounds_settle nodes edges weights s G p d Is NC Inv W).
    apply Sp in St. discriminate.
  - left. exists p, d. assert (St : settled edges weights d) by (apply Sp; reflexivity).
    split; [assumption|].
    split; [apply (settled_no_negative_cycle nodes edges weights s p d Inv St)|].
    intros v Iv. destruct (bf_keys _ _ _ _ _ _ Inv v (or_introl Iv)) as [(x & Hx) _].
    exists x. split; [assumption|].
    apply (settled_shortest nodes edges weights s p d v x Inv St Hx).
Qed.

Lemma fork_weighted_graph : weighted_graph fork_nodes fork_edges fork_capacities.
Proof.
  split; [|split].
  - repeat constructor; simpl; intuition discriminate.
  - intros u v I. simpl in I.
    repeat match goal with
    | H : _ \/ _ |- _ => destruct H
    | H : (_, _) = (_, _) |- _ => inversion H; clear H; subst
    | H : False |- _ => destruct H
    end; simpl; auto.
  - intros e I. destruct (fork_int_capacities e I) as (c & Hc & _). eauto.
Qed.

Lemma bellman_ford_correct_witness :
  (exists parents distances,
      bellman_ford fork_nodes fork_edges fork_capacities "s"%string
      = Ok (fork_nodes, Some parents, Some distances)
      /\ no_negative_cycle fork_edges fork_capacities "s"%string
      /\ forall v, In v fork_nodes ->
           exists d, nget distances v = Some d
                     /\ shortest fork_edges fork_capacities "s"%string v d)
  \/ (bellman_ford fork_nodes fork_edges fork_capacities "s"%string
      = Ok (fork_nodes, None, None)
      /\ ~ no_negative_cycle fork_edges fork_capacities "s"%string).
Proof.
  apply (bellman_ford_correct fork_nodes fork_edges fork_capacities "s"%string).
  - exact fork_weighted_graph.
  - intros e I. simpl in I.
    repeat match goal with
    | H : _ \/ _ |- _ => destruct H
    | H : False |- _ => destruct H
    end; subst; reflexivity.
  - simpl. auto.
Defined.

(** X13. The parents that [bellman_ford] returns form a shortest-path
    tree. The source has no parent and the distance 0. A node with a
    parent [u] is entered by the edge from [u], and its distance is the
    distance of [u] plus the weight of that edge; a node without parent is
    the source or has the distance [inf]. *)
Theorem bellman_ford_parents :
  forall nodes edges weights s parents distances,
    weighted_graph nodes edges weights ->
    bellman_ford nodes edges weights s = Ok (nodes, Some parents, Some distances) ->
    nget parents s = Some None
    /\ nget distances s = Some (Int 0)
    /\ forall v, In v nodes ->
         match nget parents v with
         | Some (Some u) =>
             In (u, v) edges
             /\ exists zu, nget distances u = Some (Int zu)
                  /\ nget distances v
                     = Some (Int (zu + weight_of weights (u, v)))
         | Some None => v = s \/ nget distances v = Some PosInf
         | None => False
         end.
Proof.
  intros nodes edges weights s parents distances G H.
  destruct (bellman_ford_inv nodes edges weights s _ G H)
    as (p & d & b & _ & _ & Inv & _ & Sp & E).
  destruct b; inversion E; subst parents distances. clear H E.
  assert (St : settled edges weights d) by (apply Sp; reflexivity).
  assert (W := settled_rounds nodes edges weights s p d Inv St).
  assert (Z : nget d s = Some (Int 0)).
  { destruct (bf_source _ _ _ _ _ _ Inv) as (z & Hz & Lz).
    destruct (bf_walk _ _ _ _ _ _ Inv s _ Hz) as [E|(q & Wq & E)]; [discriminate|].
    inversion E; subst z.
    pose proof (settled_no_negative_cycle nodes edges weights s p d Inv St
                  s [s] q (walk_source edges s) Wq).
    rewrite Hz. f_equal. f_equal. lia. }
  split; [|split; [assumption|]].
  - destruct (bf_root _ _ _ _ _ _ Inv) as [R|(z & Hz & Lz)]; [assumption|].
    rewrite Z in Hz. inversion Hz; subst z. lia.
  - intros v Iv. destruct (bf_keys _ _ _ _ _ _ Inv v (or_introl Iv)) as [_ (x & Hx)].
    rewrite Hx. destruct x as [u|].
    + destruct (bf_parent _ _ _ _ _ _ Inv v u Hx) as (Ie & zu & zv & Hu & Hv & Le).
      split; [assumption|]. exists zu. split; [assumption|].
      destruct (St u v Ie) as (du & dv & Hu' & Hv' & Gt).
      rewrite Hu in Hu'. rewrite Hv in Hv'. inversion Hu'; inversion Hv'; subst du dv.
      simpl in Gt. unfold Num.gtb, Num.ltb in Gt. apply Z.ltb_ge in Gt.
      rewrite Hv. f_equal. f_equal. lia.
    + apply (bf_orphan _ _ _ _ _ _ Inv v Hx).
Qed.

Lemma bellman_ford_parents_witness :
  nget [("s", None); ("a", Some "s"); ("t", Some "s")]%string "s"%string = Some None
  /\ nget [("s", Int 0); ("a", Int 3); ("t", Int 1)]%string "s"%string = Some (Int 0)
  /\ forall v, In v fork_nodes ->
       match nget [("s", None); ("a", Some "s"); ("t", Some "s")]%string v with
       | Some (Some u) =>
           In (u, v) fork_edges
           /\ exists zu,
                nget [("s", Int 0); ("a", Int 3); ("t", Int 1)]%string u = Some (Int zu)
                /\ nget [("s", Int 0); ("a", Int 3); ("t", Int 1)]%string v
                   = Some (Int (zu + weight_of fork_capacities (u, v)))
       | Some None =>
           v = "s"%string
           \/ nget [("s", Int 0); ("a", Int 3); ("t", Int 1)]%string v = Some PosInf
       | None => False
       end.
Proof.
  apply (bellman_ford_parents fork_nodes fork_edges fork_capacities "s"%string).
  - exact fork_weighted_graph.
  - reflexivity.
Defined.

(** ** [ford_fulkerson_min_flow] and [minimum_flow] from a feasible flow *)

(** What leaves the source of a conserved flow enters its sink. *)
Lemma conserving_value g edges source sink :
  source <> sink -> conserving g edges source sink ->
  net_out g edges sink = - net_out g edges source.
Proof.
  intros NE C.
  rewrite (cut_value edges source sink
             (fun n => if node_eq_dec n sink then false else true)).
  - unfold net_out.
    match goal with |- _ = - ?W => replace (- W) with ((-1) * W) by lia end.
    rewrite <- wsum_scale. apply wsum_ext. intros e _. unfold sgn, indicator.
    destruct (node_eq_dec (fst e) sink), (node_eq_dec (snd e) sink); lia.
  - destruct (node_eq_dec source sink); [contradiction | reflexivity].
  - destruct (node_eq_dec sink sink); [reflexivity | congruence].
  - assumption.
Qed.

Lemma conserving_sym g edges source sink :
  conserving g edges source sink -> conserving g edges sink source.
Proof. intros C n N1 N2. apply C; assumption. Qed.

Lemma flow_state_sym edges lo hi source sink flow :
  flow_state edges lo hi source sink flow -> flow_state edges lo hi sink source flow.
Proof. intros [K B C]. constructor; [assumption | assumption | apply conserving_sym; assumption]. Qed.

Lemma initial_flow_keys edges flow :
  ekeys flow = edges -> initial_flow edges (Some flow) = flow.
Proof.
  intros K. destruct flow as [|kv flow]; [|reflexivity].
  simpl in K. subst edges. reflexivity.
Qed.

Lemma ford_fulkerson_min_flow_progress strat sfuel fuel edges lower upper
    source sink feasible :
  one_way edges -> int_bounds edges lower upper -> source <> sink ->
  flow_state edges (fun e => int_of (value_of lower e)) (value_of upper)
    source sink feasible ->
  (search_fuel strat (2 * List.length edges) <= sfuel)%nat ->
  (Z.to_nat (capacity_out (value_of upper) edges source
             - net_out (flow_at feasible) edges source) <= fuel)%nat ->
  exists flow re rc,
    ford_fulkerson_min_flow fuel edges lower upper source sink (search strat sfuel)
      (Some feasible)
    = Ok (flow, Int (net_out (flow_at flow) edges source))
    /\ flow_state edges (fun e => int_of (value_of lower e)) (value_of upper)
         source sink flow
    /\ net_out (flow_at feasible) edges source <= net_out (flow_at flow) edges source
    /\ construct_residual_graph_min_flow edges lower upper flow = Ok (re, rc)
    /\ (strat <> MinBottleneck -> forall q, ~ positive_path re rc source sink q).
Proof.
  intros OW IB NE St SF Fu.
  assert (E0 := initial_flow_keys edges feasible (fs_keys _ _ _ _ _ _ St)).
  destruct (progress_augmenting edges (fun e => int_of (value_of lower e))
              (value_of upper) (min_flow_entries lower upper)
              (construct_residual_graph_min_flow edges lower upper)
              source sink strat sfuel OW
              (construct_residual_graph_min_flow_with edges lower upper)
              (fun flow e f xy => min_flow_entries_value_int edges lower upper flow e f xy IB)
              (fun flow e St =>
                 min_flow_entries_total edges lower upper _ _ flow e IB
                   (fs_bounded _ _ _ _ _ _ St)))
    with (fuel := fuel) (flow0 := Some feasible)
    as (flow & re & rc & R & St' & B & Fin & Le & _).
  - intros e I. destruct (IB e I) as (lo & up & L & _ & Rg).
    unfold value_of. rewrite L. simpl. lia.
  - intros e I _. apply (int_bounds_upper_int edges lower upper IB e I).
  - intros flow re rc p Bd H _ _.
    apply (finite_when_int edges (fun e => int_of (value_of lower e)) (value_of upper)
             (min_flow_entries lower upper)
             (construct_residual_graph_min_flow edges lower upper)
             OW (construct_residual_graph_min_flow_with edges lower upper)
             (fun flow e f xy => min_flow_entries_value_int edges lower upper flow e f xy IB)
             flow re rc p (int_bounds_upper_int edges lower upper IB) Bd H).
  - exact NE.
  - exact SF.
  - rewrite E0. exact St.
  - rewrite E0. exact Fu.
  - rewrite E0 in Le. exists flow, re, rc. auto.
Qed.

Lemma min_flow_cut edges lower upper source sink flow re rc g :
  one_way edges -> int_bounds edges lower upper ->
  flow_state edges (fun e => int_of (value_of lower e)) (value_of upper)
    source sink flow ->
  construct_residual_graph_min_flow edges lower upper flow = Ok (re, rc) ->
  (forall q, ~ positive_path re rc source sink q) ->
  (forall e, In e edges ->
     int_of (value_of lower e) <= g e /\ le_hi (g e) (value_of upper e)) ->
  conserving g edges source sink ->
  net_out g edges source <= net_out (flow_at flow) edges source.
Proof.
  intros OW IB.
  apply (residual_cut edges (fun e => int_of (value_of lower e)) (value_of upper)
           (min_flow_entries lower upper)
           (construct_residual_graph_min_flow edges lower upper) source sink OW
           (construct_residual_graph_min_flow_with edges lower upper)
           (fun flow e f xy => min_flow_entries_value_int edges lower upper flow e f xy IB)).
Qed.

(** X14. [ford_fulkerson_min_flow] from a feasible flow: the edge list has
    no repeated or antiparallel edge, the bounds are ints with
    [0 <= lower <= upper], the sink is not the source, and the flow given
    has the edges as keys, is within the bounds and is conserved at the
    inner nodes. With each of the four searches and enough iterations it
    returns; the flow returned is again within the bounds and conserved,
    sends at least as much out of the source, and the value returned is
    its net flow out of the source. With a search other than the
    minimum-bottleneck one no flow within the bounds and conserved at the
    inner nodes sends more out of the source. *)
Theorem ford_fulkerson_min_flow_maximum :
  forall strat sfuel fuel edges lower upper source sink feasible,
    one_way edges -> int_bounds edges lower upper -> source <> sink ->
    flow_state edges (fun e => int_of (value_of lower e)) (value_of upper)
      source sink feasible ->
    (search_fuel strat (2 * List.length edges) <= sfuel)%nat ->
    (Z.to_nat (capacity_out (value_of upper) edges source
               - net_out (flow_at feasible) edges source) <= fuel)%nat ->
    exists flow,
      ford_fulkerson_min_flow fuel edges lower upper source sink (search strat sfuel)
        (Some feasible)
      = Ok (flow, Int (net_out (flow_at flow) edges source))
      /\ flow_state edges (fun e => int_of (value_of lower e)) (value_of upper)
           source sink flow
      /\ net_out (flow_at feasible) edges source <= net_out (flow_at flow) edges source
      /\ (strat <> MinBottleneck ->
          forall g,
            (forall e, In e edges ->
               int_of (value_of lower e) <= g e /\ le_hi (g e) (value_of upper e)) ->
            conserving g edges source sink ->
            net_out g edges source <= net_out (flow_at flow) edges source).
Proof.
  intros strat sfuel fuel edges lower upper source sink feasible OW IB NE St SF Fu.
  destruct (ford_fulkerson_min_flow_progress strat sfuel fuel edges lower upper
              source sink feasible OW IB NE St SF Fu)
    as (flow & re & rc & R & St' & Le & B & Fin).
  exists flow. split; [exact R|]. split; [exact St'|]. split; [exact Le|].
  intros NM g Bg Cg.
  apply (min_flow_cut edges lower upper source sink flow re rc g OW IB St' B (Fin NM) Bg Cg).
Qed.

(** X15. [minimum_flow] with a feasible flow supplied (not the empty
    dict): under the conditions of X14 it returns a flow within the bounds
    and conserved at the inner nodes; the value returned is the net flow
    out of the source, which is at most that of the flow supplied; and
    with a search other than the minimum-bottleneck one it is a minimum:
    no flow within the bounds and conserved at the inner nodes sends less
    out of the source. *)
Theorem minimum_flow_from_feasible :
  forall strat sfuel fuel nodes edges lower upper source sink feasible,
    one_way edges -> int_bounds edges lower upper -> source <> sink ->
    feasible <> [] ->
    flow_state edges (fun e => int_of (value_of lower e)) (value_of upper)
      source sink feasible ->
    (search_fuel strat (2 * List.length edges) <= sfuel)%nat ->
    (Z.to_nat (capacity_out (value_of upper) edges sink
               - net_out (flow_at feasible) edges sink) <= fuel)%nat ->
    exists min_flow,
      minimum_flow fuel nodes edges lower upper source sink (search strat sfuel)
        (Some feasible)
      = Ok (min_flow, Int (net_out (flow_at min_flow) edges source))
      /\ flow_state edges (fun e => int_of (value_of lower e)) (value_of upper)
           source sink min_flow
      /\ net_out (flow_at min_flow) edges source
         <= net_out (flow_at feasible) edges source
      /\ (strat <> MinBottleneck ->
          forall g,
            (forall e, In e edges ->
               int_of (value_of lower e) <= g e /\ le_hi (g e) (value_of upper e)) ->
            conserving g edges source sink ->
            net_out (flow_at min_flow) edges source <= net_out g edges source).
Proof.
  intros strat sfuel fuel nodes edges lower upper source sink feasible
    OW IB NE NF St SF Fu.
  destruct (ford_fulkerson_min_flow_progress strat sfuel fuel edges lower upper
              sink source feasible OW IB (not_eq_sym NE) (flow_state_sym _ _ _ _ _ _ St)
              SF Fu) as (flow & re & rc & R & St0 & Le & B & Fin).
  assert (St' := flow_state_sym _ _ _ _ _ _ St0).
  assert (V : forall g, conserving g edges source sink ->
                net_out g edges sink = - net_out g edges source)
    by (intros g; apply conserving_value; assumption).
  exists flow. unfold minimum_flow.
  destruct feasible as [|kv f]; [congruence|]. cbn [bind]. rewrite R. cbn [bind].
  rewrite (V _ (fs_conserving _ _ _ _ _ _ St')). simpl Num.neg. rewrite Z.opp_involutive.
  split; [reflexivity|]. split; [assumption|]. split.
  - rewrite (V _ (fs_conserving _ _ _ _ _ _ St')),
      (V _ (fs_conserving _ _ _ _ _ _ St)) in Le. lia.
  - intros NM g Bg Cg.
    assert (Max := min_flow_cut edges lower upper sink source flow re rc g OW IB St0 B
                     (Fin NM) Bg (conserving_sym _ _ _ _ Cg)).
    rewrite (V _ (fs_conserving _ _ _ _ _ _ St')), (V g Cg) in Max. lia.
Qed.

Lemma chain_one_way : one_way Examples.chain_edges.
Proof.
  split.
  - repeat constructor; simpl; intuition discriminate.
  - intros u v I J. simpl in I, J.
    repeat match goal with
    | H : _ \/ _ |- _ => destruct H
    | H : (_, _) = (_, _) |- _ => inversion H; clear H; subst
    | H : False |- _ => destruct H
    end; discriminate.
Qed.

Lemma chain_int_bounds :
  int_bounds Examples.chain_edges Examples.chain_lower Examples.chain_upper.
Proof.
  intros e I. simpl in I.
  repeat match goal with
  | H : _ \/ _ |- _ => destruct H
  | H : False |- _ => destruct H
  end; subst; exists 1, 3; (split; [reflexivity | split; [reflexivity | lia]]).
Qed.

Lemma chain_flow_state :
  flow_state Examples.chain_edges
    (fun e => int_of (value_of Examples.chain_lower e))
    (value_of Examples.chain_upper) "s"%string "t"%string
    (Examples.ints [("s", "a", 2); ("a", "t", 2)]%string).
Proof.
  constructor.
  - reflexivity.
  - intros e I. simpl in I.
    repeat match goal with
    | H : _ \/ _ |- _ => destruct H
    | H : False |- _ => destruct H
    end; subst; exists 2; (split; [reflexivity | split; [vm_compute; discriminate | simpl; lia]]).
  - intros n N1 N2. unfold net_out.
    change Examples.chain_edges with [("s", "a"); ("a", "t")]%string.
    cbn [wsum]. unfold sgn. cbn [fst snd].
    replace (flow_at _ ("s", "a")%string) with 2 by reflexivity.
    replace (flow_at _ ("a", "t")%string) with 2 by reflexivity.
    destruct (node_eq_dec "s"%string n); [congruence|].
    destruct (node_eq_dec "t"%string n); [congruence|].
    destruct (node_eq_dec "a"%string n); lia.
Qed.

Lemma ford_fulkerson_min_flow_maximum_witness :
  exists flow,
    ford_fulkerson_min_flow 2 Examples.chain_edges Examples.chain_lower
      Examples.chain_upper "t"%string "s"%string (search DepthFirst 10)
      (Some (Examples.ints [("s", "a", 2); ("a", "t", 2)]%string))
    = Ok (flow, Int (net_out (flow_at flow) Examples.chain_edges "t"%string))
    /\ flow_state Examples.chain_edges
         (fun e => int_of (value_of Examples.chain_lower e))
         (value_of Examples.chain_upper) "t"%string "s"%string flow
    /\ net_out (flow_at (Examples.ints [("s", "a", 2); ("a", "t", 2)]%string))
         Examples.chain_edges "t"%string
       <= net_out (flow_at flow) Examples.chain_edges "t"%string
    /\ (DepthFirst <> MinBottleneck ->
        forall g,
          (forall e, In e Examples.chain_edges ->
             int_of (value_of Examples.chain_lower e) <= g e
             /\ le_hi (g e) (value_of Examples.chain_upper e)) ->
          conserving g Examples.chain_edges "t"%string "s"%string ->
          net_out g Examples.chain_edges "t"%string
          <= net_out (flow_at flow) Examples.chain_edges "t"%string).
Proof.
  apply (ford_fulkerson_min_flow_maximum DepthFirst 10 2 Examples.chain_edges
           Examples.chain_lower Examples.chain_upper "t"%string "s"%string).
  - exact chain_one_way.
  - exact chain_int_bounds.
  - discriminate.
  - apply flow_state_sym. exact chain_flow_state.
  - vm_compute. lia.
  - vm_compute. lia.
Defined.

Lemma minimum_flow_from_feasible_witness :
  exists min_flow,
    minimum_flow 2 Examples.chain_nodes Examples.chain_edges Examples.chain_lower
      Examples.chain_upper "s"%string "t"%string (search BreadthFirst 6)
      (Some (Examples.ints [("s", "a", 2); ("a", "t", 2)]%string))
    = Ok (min_flow, Int (net_out (flow_at min_flow) Examples.chain_edges "s"%string))
    /\ flow_state Examples.chain_edges
         (fun e => int_of (value_of Examples.chain_lower e))
         (value_of Examples.chain_upper) "s"%string "t"%string min_flow
    /\ net_out (flow_at min_flow) Examples.chain_edges "s"%string
       <= net_out (flow_at (Examples.ints [("s", "a", 2); ("a", "t", 2)]%string))
            Examples.chain_edges "s"%string
    /\ (BreadthFirst <> MinBottleneck ->
        forall g,
          (forall e, In e Examples.chain_edges ->
             int_of (value_of Examples.chain_lower e) <= g e
             /\ le_hi (g e) (value_of Examples.chain_upper e)) ->
          conserving g Examples.chain_edges "s"%string "t"%string ->
          net_out (flow_at min_flow) Examples.chain_edges "s"%string
          <= net_out g Examples.chain_edges "s"%string).
Proof.
  apply (minimum_flow_from_feasible BreadthFirst 6 2 Examples.chain_nodes
           Examples.chain_edges Examples.chain_lower Examples.chain_upper
           "s"%string "t"%string).
  - exact chain_one_way.
  - exact chain_int_bounds.
  - discriminate.
  - discriminate.
  - exact chain_flow_state.
  - vm_compute. lia.
  - vm_compute. lia.
Defined.

(** ** The graph that [feasible_flow] builds *)

Lemma fold_eset_get (h : edge -> num) : forall X d e,
  eget (fold_left (fun c k => eset c k (h k)) X d) e
  = if in_dec edge_eq_dec e X then Some (h e) else eget d e.
Proof.
  induction X as [|k X IH]; intros d e; [reflexivity|].
  simpl fold_left. rewrite IH.
  destruct (in_dec edge_eq_dec e X) as [I|N];
    destruct (in_dec edge_eq_dec e (k :: X)) as [I'|N']; try reflexivity.
  - exfalso. apply N'. simpl; auto.
  - destruct I' as [->|I']; [apply eget_eset_same | contradiction].
  - apply eget_eset_other. intros ->. apply N'. simpl; auto.
Qed.

Lemma supply_at_int supply n z : nget supply n = Some (Int z) -> supply_at supply n = z.
Proof. unfold supply_at. intros ->. reflexivity. Qed.

Lemma supply_capacity_source supply n :
  supply_capacity supply (s_prime, n) = supply_at supply n.
Proof.
  unfold supply_capacity. simpl. destruct (node_eq_dec s_prime s_prime); congruence.
Qed.

Lemma supply_capacity_sink supply n :
  n <> s_prime -> supply_capacity supply (n, t_prime) = - supply_at supply n.
Proof.
  intros N. unfold supply_capacity. simpl. destruct (node_eq_dec n s_prime); congruence.
Qed.

Lemma add_supply_edges_eq supply : forall nodes acc_e acc_c,
  ~ In s_prime nodes ->
  (forall n, In n nodes -> exists z, nget supply n = Some (Int z)) ->
  add_supply_edges nodes supply acc_e acc_c
  = Ok (acc_e ++ supply_edges supply nodes,
        fold_left (fun c k => eset c k (Int (supply_capacity supply k)))
          (supply_edges supply nodes) acc_c).
Proof.
  induction nodes as [|n rest IH]; intros acc_e acc_c NS S.
  - simpl. rewrite app_nil_r. reflexivity.
  - destruct (S n) as (z & Hz); [simpl; auto|].
    assert (NS' : ~ In s_prime rest) by (intros I; apply NS; simpl; auto).
    assert (S' : forall m, In m rest -> exists z, nget supply m = Some (Int z))
      by (intros m I; apply S; simpl; auto).
    assert (Nn : n <> s_prime) by (intros ->; apply NS; simpl; auto).
    cbn [add_supply_edges]. rewrite (proj2 (nlookup_Ok supply n (Int z)) Hz). cbn [bind].
    unfold supply_edges. cbn [flat_map]. fold (supply_edges supply rest).
    unfold supply_edge. rewrite (supply_at_int supply n z Hz).
    unfold Num.gtb, Num.ltb.
    destruct (0 <? z) eqn:P.
    + rewrite (IH _ _ NS' S'), <- app_assoc. simpl app. cbn [fold_left].
      rewrite supply_capacity_source, (supply_at_int supply n z Hz). reflexivity.
    + destruct (z <? 0) eqn:Q.
      * rewrite (IH _ _ NS' S'), <- app_assoc. simpl app. cbn [fold_left].
        rewrite (supply_capacity_sink supply n Nn), (supply_at_int supply n z Hz).
        reflexivity.
      * rewrite (IH _ _ NS' S'). reflexivity.
Qed.

Lemma in_supply_edges supply nodes e :
  In e (supply_edges supply nodes)
  <-> exists n, In n nodes
        /\ ((0 < supply_at supply n /\ e = (s_prime, n))
            \/ (supply_at supply n < 0 /\ e = (n, t_prime))).
Proof.
  unfold supply_edges. rewrite in_flat_map. unfold supply_edge. split.
  - intros (n & I & H). exists n. split; [assumption|].
    destruct (0 <? supply_at supply n) eqn:P.
    + apply Z.ltb_lt in P. destruct H as [<-|[]]. auto.
    + destruct (supply_at supply n <? 0) eqn:Q; [|destruct H].
      apply Z.ltb_lt in Q. destruct H as [<-|[]]. auto.
  - intros (n & I & [[P ->]|[Q ->]]); exists n; (split; [assumption|]).
    + apply Z.ltb_lt in P. rewrite P. simpl; auto.
    + destruct (0 <? supply_at supply n) eqn:P; [apply Z.ltb_lt in P; lia|].
      apply Z.ltb_lt in Q. rewrite Q. simpl; auto.
Qed.

Lemma NoDup_supply_edges supply : forall nodes,
  NoDup nodes -> ~ In s_prime nodes -> NoDup (supply_edges supply nodes).
Proof.
  induction nodes as [|n rest IH]; intros ND NS; [constructor|].
  inversion ND as [|? ? NI ND']; subst.
  assert (NS' : ~ In s_prime rest) by (intros I; apply NS; simpl; auto).
  unfold supply_edges. cbn [flat_map]. fold (supply_edges supply rest).
  assert (Out : forall e, In e (supply_edge supply n) -> ~ In e (supply_edges supply rest)).
  { intros e I J. apply in_supply_edges in J. destruct J as (m & Im & J).
    unfold supply_edge in I.
    destruct (0 <? supply_at supply n); [|destruct (supply_at supply n <? 0)];
      simpl in I; try tauto; destruct I as [<-|[]];
      destruct J as [[_ E]|[_ E]]; inversion E; subst; try contradiction.
    apply NS. simpl; auto. }
  apply NoDup_app; [|apply IH; assumption | exact Out].
  unfold supply_edge.
  destruct (0 <? supply_at supply n); [|destruct (supply_at supply n <? 0)];
    repeat constructor; simpl; tauto.
Qed.

Section SupplyGraph.
Variables (nodes : list node) (edges : list edge).
Variables (capacities : edict) (supply : ndict num).
Hypothesis instance : supply_instance nodes edges capacities supply.

Lemma edges_not_prime u v :
  In (u, v) edges ->
  u <> s_prime /\ u <> t_prime /\ v <> s_prime /\ v <> t_prime.
Proof.
  intros I. destruct instance as [_ [NS NT] Ends _ _ _].
  destruct (Ends u v I) as [Iu Iv]. repeat split; intros ->; contradiction.
Qed.

Lemma supply_edge_not_edge e :
  In e (supply_edges supply nodes) -> ~ In e edges /\ ~ In (swap e) edges.
Proof.
  intros I. apply in_supply_edges in I. destruct I as (n & In & [[_ ->]|[_ ->]]);
    split; intros J; apply edges_not_prime in J; tauto.
Qed.

Lemma one_way_supply : one_way (edges ++ supply_edges supply nodes).
Proof.
  destruct instance as [ND [NS NT] Ends [NDe OW] _ _]. split.
  - apply NoDup_app; [assumption | apply NoDup_supply_edges; assumption|].
    intros e I J. apply supply_edge_not_edge in J. tauto.
  - intros u v I J. apply in_app_iff in I. apply in_app_iff in J.
    destruct I as [I|I].
    + destruct J as [J|J]; [apply (OW u v I J)|].
      apply supply_edge_not_edge in J. unfold swap in J. simpl in J. tauto.
    + destruct J as [J|J].
      * apply supply_edge_not_edge in I. unfold swap in I. simpl in I. tauto.
      * apply in_supply_edges in I. apply in_supply_edges in J.
        destruct I as (n & In & [[_ E]|[_ E]]); destruct J as (m & Im & [[_ E']|[_ E']]);
          inversion E; inversion E'; subst; try contradiction.
        -- apply s_prime_t_prime. congruence.
        -- apply s_prime_t_prime. congruence.
Qed.

(** The capacities of the extended graph. *)
Lemma supply_capacities_get cp e :
  cp = fold_left (fun c k => eset c k (Int (supply_capacity supply k)))
         (supply_edges supply nodes) capacities ->
  In e (edges ++ supply_edges supply nodes) ->
  exists c, eget cp e = Some (Int c) /\ 0 <= c
    /\ (In e edges -> eget capacities e = Some (Int c))
    /\ (In e (supply_edges supply nodes) -> c = supply_capacity supply e).
Proof.
  intros -> I. rewrite fold_eset_get.
  destruct (in_dec edge_eq_dec e (supply_edges supply nodes)) as [J|N].
  - exists (supply_capacity supply e). split; [reflexivity|].
    split; [|split; [|reflexivity]].
    + apply in_supply_edges in J. destruct J as (n & In & [[P ->]|[Q ->]]).
      * rewrite supply_capacity_source. lia.
      * rewrite supply_capacity_sink; [lia|]. intros ->.
        apply (proj1 (si_fresh _ _ _ _ instance)). assumption.
    + intros K. apply supply_edge_not_edge in J. tauto.
  - apply in_app_iff in I. destruct I as [I|I]; [|contradiction].
    destruct (si_capacities _ _ _ _ instance e I) as (c & Hc & Pc).
    exists c. split; [assumption|]. split; [assumption|]. split; [auto | contradiction].
Qed.

End SupplyGraph.

(** ** Net flows in the extended graph *)

Lemma net_out_app h a b n : net_out h (a ++ b) n = net_out h a n + net_out h b n.
Proof. unfold net_out. apply wsum_app. Qed.

Lemma net_out_untouched h es n :
  (forall e, In e es -> fst e <> n /\ snd e <> n) -> net_out h es n = 0.
Proof.
  intros H. unfold net_out. apply wsum_zero. intros e I. destruct (H e I) as [A B].
  unfold sgn. destruct (node_eq_dec (fst e) n), (node_eq_dec (snd e) n); try contradiction.
  lia.
Qed.

Lemma wsum_flat_map {A B} (h : B -> Z) (f : A -> list B) l :
  wsum h (flat_map f l) = wsum (fun a => wsum h (f a)) l.
Proof.
  induction l as [|a l IH]; [reflexivity|]. simpl. rewrite wsum_app, IH. reflexivity.
Qed.

Lemma net_out_supply_edge h supply m n :
  net_out h (supply_edge supply m) n
  = if 0 <? supply_at supply m then sgn n (s_prime, m) * h (s_prime, m)
    else if supply_at supply m <? 0 then sgn n (m, t_prime) * h (m, t_prime)
    else 0.
Proof.
  unfold net_out, supply_edge.
  destruct (0 <? supply_at supply m); [|destruct (supply_at supply m <? 0)];
    simpl; lia.
Qed.

Section SupplyNet.
Variables (nodes : list node) (supply : ndict num) (h : edge -> Z).
Hypothesis nodes_NoDup : NoDup nodes.
Hypothesis nodes_fresh : ~ In s_prime nodes /\ ~ In t_prime nodes.

Lemma net_out_supply_node n :
  In n nodes ->
  net_out h (supply_edges supply nodes) n
  = if 0 <? supply_at supply n then - h (s_prime, n)
    else if supply_at supply n <? 0 then h (n, t_prime)
    else 0.
Proof.
  intros I. unfold net_out, supply_edges. rewrite wsum_flat_map.
  rewrite (wsum_ext _ (fun m => if node_eq_dec m n
                                then (if 0 <? supply_at supply m then - h (s_prime, m)
                                      else if supply_at supply m <? 0 then h (m, t_prime)
                                      else 0)
                                else 0)).
  - rewrite (wsum_pick node_eq_dec
               (fun m => if 0 <? supply_at supply m then - h (s_prime, m)
                         else if supply_at supply m <? 0 then h (m, t_prime) else 0)
               n nodes nodes_NoDup).
    destruct (in_dec node_eq_dec n nodes); [reflexivity | contradiction].
  - intros m Im. fold (net_out h (supply_edge supply m) n).
    rewrite net_out_supply_edge. unfold sgn. cbn [fst snd].
    assert (N1 : s_prime <> n) by (intros <-; apply (proj1 nodes_fresh); assumption).
    assert (N2 : t_prime <> n) by (intros <-; apply (proj2 nodes_fresh); assumption).
    destruct (node_eq_dec s_prime n); [contradiction|].
    destruct (node_eq_dec t_prime n); [contradiction|].
    destruct (node_eq_dec m n);
      destruct (0 <? supply_at supply m); try lia;
      destruct (supply_at supply m <? 0); lia.
Qed.

Lemma net_out_supply_source :
  net_out h (supply_edges supply nodes) s_prime
  = wsum (fun n => if 0 <? supply_at supply n then h (s_prime, n) else 0) nodes.
Proof.
  unfold net_out, supply_edges. rewrite wsum_flat_map. apply wsum_ext. intros m Im.
  fold (net_out h (supply_edge supply m) s_prime).
  rewrite net_out_supply_edge. unfold sgn. cbn [fst snd].
  assert (N1 : m <> s_prime) by (intros ->; apply (proj1 nodes_fresh); assumption).
  destruct (node_eq_dec s_prime s_prime); [|congruence].
  destruct (node_eq_dec m s_prime); [contradiction|].
  destruct (node_eq_dec t_prime s_prime) as [E|_];
    [exfalso; apply s_prime_t_prime; congruence|].
  destruct (0 <? supply_at supply m); [lia|].
  destruct (supply_at supply m <? 0); lia.
Qed.

Lemma net_out_supply_sink :
  net_out h (supply_edges supply nodes) t_prime
  = - wsum (fun n => if 0 <? supply_at supply n then 0
                     else if supply_at supply n <? 0 then h (n, t_prime) else 0) nodes.
Proof.
  unfold net_out, supply_edges. rewrite wsum_flat_map.
  match goal with |- _ = - ?W => replace (- W) with ((-1) * W) by lia end.
  rewrite <- wsum_scale. apply wsum_ext. intros m Im.
  fold (net_out h (supply_edge supply m) t_prime).
  rewrite net_out_supply_edge. unfold sgn. cbn [fst snd].
  assert (N1 : m <> t_prime) by (intros ->; apply (proj2 nodes_fresh); assumption).
  destruct (node_eq_dec t_prime t_prime); [|congruence].
  destruct (node_eq_dec m t_prime); [contradiction|].
  destruct (node_eq_dec s_prime t_prime) as [E|_];
    [exfalso; apply s_prime_t_prime; congruence|].
  destruct (0 <? supply_at supply m); [lia|].
  destruct (supply_at supply m <? 0); lia.
Qed.

Lemma net_out_supply_other n :
  ~ In n nodes -> n <> s_prime -> n <> t_prime ->
  net_out h (supply_edges supply nodes) n = 0.
Proof.
  intros NI N1 N2. apply net_out_untouched. intros e I.
  apply in_supply_edges in I. destruct I as (m & Im & [[_ ->]|[_ ->]]); simpl;
    split; congruence.
Qed.

End SupplyNet.

(** Summed over all the nodes, the net flows cancel. *)
Lemma net_out_total g nodes edges :
  NoDup nodes -> (forall u v, In (u, v) edges -> In u nodes /\ In v nodes) ->
  wsum (net_out g edges) nodes = 0.
Proof.
  intros ND Ends. unfold net_out. rewrite wsum_swap. apply wsum_zero. intros [u v] I.
  destruct (Ends u v I) as [Iu Iv].
  rewrite (wsum_ext _ (fun n => g (u, v) * ((if node_eq_dec n u then 1 else 0)
                                            + (if node_eq_dec n v then -1 else 0)))).
  - rewrite wsum_scale, wsum_plus.
    rewrite (wsum_pick node_eq_dec (fun _ => 1) u nodes ND).
    rewrite (wsum_pick node_eq_dec (fun _ => -1) v nodes ND).
    destruct (in_dec node_eq_dec u nodes); [|contradiction].
    destruct (in_dec node_eq_dec v nodes); [|contradiction]. lia.
  - intros n _. unfold sgn. cbn [fst snd].
    destruct (node_eq_dec u n), (node_eq_dec n u); try congruence;
      destruct (node_eq_dec v n), (node_eq_dec n v); try congruence; lia.
Qed.

(** ** The feasibility check *)

Lemma sum_ints l : forall a,
  Num.sum_from (Int a) (map Int l) = Ok (Int (a + wsum (fun z => z) l)).
Proof.
  induction l as [|z l IH]; intros a; simpl; [do 2 f_equal; lia|].
  rewrite IH. do 2 f_equal. lia.
Qed.

Lemma values_where_int keep flow : forall edges,
  (forall e, In e edges -> exists z, eget flow e = Some (Int z)) ->
  values_where keep flow edges
  = Ok (map Int (map (flow_at flow) (filter keep edges))).
Proof.
  induction edges as [|e rest IH]; intros D; [reflexivity|].
  cbn [values_where filter].
  rewrite IH by (intros x I; apply D; simpl; auto).
  destruct (keep e); [|reflexivity].
  destruct (D e) as (z & Hz); [simpl; auto|].
  rewrite (elookup_eget _ _ _ Hz). simpl. unfold flow_at, value_of. rewrite Hz.
  reflexivity.
Qed.

Lemma wsum_map {A} (h : A -> Z) l : wsum (fun z => z) (map h l) = wsum h l.
Proof. induction l as [|x l IH]; simpl; [reflexivity | rewrite IH; reflexivity]. Qed.

(** The net outgoing flow that the feasibility checks compute. *)
Lemma net_outgoing_flow_int flow edges n :
  (forall e, In e edges -> exists z, eget flow e = Some (Int z)) ->
  net_outgoing_flow flow edges n = Ok (Int (net_out (flow_at flow) edges n)).
Proof.
  intros D. unfold net_outgoing_flow, sum_out, sum_in.
  rewrite !values_where_int by assumption. cbn [bind]. unfold Num.sum.
  rewrite !sum_ints, !wsum_map. cbn [bind]. rewrite sub_int, net_out_filter.
  reflexivity.
Qed.

Lemma check_supply_int nodes edges flow supply :
  (forall e, In e edges -> exists z, eget flow e = Some (Int z)) ->
  (forall n, In n nodes -> exists z, nget supply n = Some (Int z)) ->
  exists b, check_supply nodes edges flow supply = Ok b
    /\ (b = true <-> supplies edges supply nodes (flow_at flow)).
Proof.
  intros D S.
  assert (T : exists b, check_supply nodes edges flow supply = Ok b).
  { clear - D S. induction nodes as [|m rest IH]; [simpl; eauto|].
    cbn [check_supply]. rewrite (net_outgoing_flow_int flow edges m D). cbn [bind].
    destruct (S m) as (z & Hz); [simpl; auto|].
    rewrite (proj2 (nlookup_Ok supply m (Int z)) Hz). cbn [bind].
    destruct (Num.neb _ _); [eauto|]. apply IH. intros n I. apply S. simpl; auto. }
  destruct T as [b C].
  - exists b. split; [assumption|]. rewrite (check_supply_spec _ _ _ _ _ C).
    split.
    + intros A n I. destruct (A n I) as (net & s & N & Hs & Q).
      rewrite (net_outgoing_flow_int flow edges n D) in N. inversion N; subst net.
      destruct (S n I) as (z & Hz). rewrite Hz in Hs. inversion Hs; subst s.
      rewrite (supply_at_int supply n z Hz). simpl in Q. apply Z.eqb_eq in Q. exact Q.
    + intros A n I. destruct (S n I) as (z & Hz).
      exists (Int (net_out (flow_at flow) edges n)), (Int z).
      split; [apply net_outgoing_flow_int; assumption|]. split; [assumption|].
      simpl. apply Z.eqb_eq. rewrite (A n I). apply supply_at_int. assumption.
Qed.

(** ** [feasible_flow] decides feasibility *)

Lemma wsum_squeeze {A} (h k : A -> Z) l :
  (forall x, In x l -> h x <= k x) -> wsum k l <= wsum h l ->
  forall x, In x l -> h x = k x.
Proof.
  induction l as [|a l IH]; intros Le S x I; [destruct I|].
  simpl in S.
  assert (La : h a <= k a) by (apply Le; simpl; auto).
  assert (Ll : wsum h l <= wsum k l) by (apply wsum_le; intros; apply Le; simpl; auto).
  destruct I as [<-|I]; [lia|].
  apply IH; [intros; apply Le; simpl; auto | lia | assumption].
Qed.

Lemma supply_edges_length supply nodes :
  (List.length (supply_edges supply nodes) <= List.length nodes)%nat.
Proof.
  induction nodes as [|n rest IH]; [simpl; lia|].
  unfold supply_edges in *. cbn [flat_map]. rewrite length_app. unfold supply_edge at 1.
  destruct (0 <? supply_at supply n); [|destruct (supply_at supply n <? 0)];
    simpl List.length in *; lia.
Qed.

Section FeasibleDecision.
Variables (nodes : list node) (edges : list edge).
Variables (capacities : edict) (supply : ndict num).
Hypothesis instance : supply_instance nodes edges capacities supply.

Lemma prime_int_capacities cp :
  cp = fold_left (fun c k => eset c k (Int (supply_capacity supply k)))
         (supply_edges supply nodes) capacities ->
  int_capacities (edges ++ supply_edges supply nodes) cp.
Proof.
  intros E e I.
  destruct (supply_capacities_get nodes edges capacities supply instance cp e E I)
    as (c & Hc & Pc & _). eauto.
Qed.

Lemma prime_capacity_out cp :
  cp = fold_left (fun c k => eset c k (Int (supply_capacity supply k)))
         (supply_edges supply nodes) capacities ->
  capacity_out (value_of cp) (edges ++ supply_edges supply nodes) s_prime
  = total_supply supply nodes.
Proof.
  intros E. unfold capacity_out, total_supply. rewrite wsum_app.
  rewrite (wsum_zero _ edges).
  2:{ intros [u v] I. destruct (edges_not_prime nodes edges capacities supply instance u v I)
        as (N & _). simpl. destruct (node_eq_dec u s_prime); [contradiction | reflexivity]. }
  unfold supply_edges. rewrite wsum_flat_map. simpl. apply wsum_ext. intros n In.
  assert (Nn : n <> s_prime)
    by (intros ->; apply (proj1 (si_fresh _ _ _ _ instance)); assumption).
  unfold supply_edge.
  destruct (0 <? supply_at supply n) eqn:P.
  - apply Z.ltb_lt in P. simpl.
    destruct (node_eq_dec s_prime s_prime); [|congruence].
    destruct (supply_capacities_get nodes edges capacities supply instance cp
                (s_prime, n) E) as (c & Hc & _ & _ & Q).
    { apply in_app_iff. right. apply in_supply_edges. exists n. auto. }
    unfold value_of. rewrite Hc. simpl. rewrite Q.
    + rewrite supply_capacity_source. lia.
    + apply in_supply_edges. exists n. auto.
  - apply Z.ltb_ge in P. destruct (supply_at supply n <? 0) eqn:Q; simpl.
    + destruct (node_eq_dec n s_prime); [contradiction | lia].
    + apply Z.ltb_ge in Q. lia.
Qed.

(** A flow that meets the supplies, extended by full synthetic edges, is a
    flow of the extended network. *)
Lemma extend_network_flow cp g :
  cp = fold_left (fun c k => eset c k (Int (supply_capacity supply k)))
         (supply_edges supply nodes) capacities ->
  (forall e, In e edges -> 0 <= g e <= int_of (value_of capacities e)) ->
  supplies edges supply nodes g ->
  exists g',
    network_flow (edges ++ supply_edges supply nodes) cp s_prime t_prime g'
    /\ net_out g' (edges ++ supply_edges supply nodes) s_prime
       = total_supply supply nodes.
Proof.
  intros E Bg Sg.
  destruct instance as [ND Fresh Ends OW IC Sup].
  set (g' := fun e => if in_dec edge_eq_dec e edges then g e
                      else supply_capacity supply e).
  assert (Ge : forall n, net_out g' edges n = net_out g edges n).
  { intros n. unfold net_out. apply wsum_ext. intros e I. unfold g'.
    destruct (in_dec edge_eq_dec e edges); [reflexivity | contradiction]. }
  assert (Gx : forall e, In e (supply_edges supply nodes) -> g' e = supply_capacity supply e).
  { intros e I. unfold g'. destruct (in_dec edge_eq_dec e edges) as [J|_]; [|reflexivity].
    apply (supply_edge_not_edge nodes edges capacities supply instance) in I. tauto. }
  exists g'. split; [split|].
  - intros e I.
    destruct (supply_capacities_get nodes edges capacities supply instance cp e E I)
      as (c & Hc & Pc & He & Hx).
    unfold value_of at 1. rewrite Hc. simpl. apply in_app_iff in I. destruct I as [I|I].
    + unfold g'. destruct (in_dec edge_eq_dec e edges); [|contradiction].
      specialize (Bg e I). unfold value_of in Bg. rewrite (He I) in Bg. exact Bg.
    + rewrite (Gx e I), <- (Hx I). lia.
  - intros n N1 N2. rewrite net_out_app, Ge.
    destruct (in_dec node_eq_dec n nodes) as [I|NI].
    + rewrite (Sg n I), (net_out_supply_node nodes supply g' ND Fresh n I).
      destruct (0 <? supply_at supply n) eqn:P.
      * rewrite Gx, supply_capacity_source; [lia|].
        apply in_supply_edges. exists n. apply Z.ltb_lt in P. auto.
      * destruct (supply_at supply n <? 0) eqn:Q.
        -- rewrite Gx, supply_capacity_sink; [lia | congruence |].
           apply in_supply_edges. exists n. apply Z.ltb_lt in Q. auto.
        -- apply Z.ltb_ge in P, Q. lia.
    + rewrite (net_out_supply_other nodes supply g' n NI N1 N2).
      rewrite net_out_untouched; [reflexivity|].
      intros [u v] J. destruct (Ends u v J). simpl. split; intros ->; contradiction.
  - rewrite net_out_app, Ge, (net_out_supply_source nodes supply g' Fresh).
    rewrite net_out_untouched.
    2:{ intros [u v] J. destruct (Ends u v J). simpl.
        split; intros ->; apply (proj1 Fresh); assumption. }
    unfold total_supply. simpl. apply wsum_ext. intros n I.
    destruct (0 <? supply_at supply n) eqn:P.
    + rewrite Gx, supply_capacity_source; [apply Z.ltb_lt in P; lia|].
      apply in_supply_edges. exists n. apply Z.ltb_lt in P. auto.
    + apply Z.ltb_ge in P. lia.
Qed.

(** A flow of the extended network that fills every synthetic edge meets
    the supplies. *)
Lemma saturated_supplies f :
  conserving f (edges ++ supply_edges supply nodes) s_prime t_prime ->
  (forall e, In e (supply_edges supply nodes) -> f e = supply_capacity supply e) ->
  supplies edges supply nodes f.
Proof.
  intros C Sat n I. destruct instance as [ND Fresh Ends OW IC Sup].
  assert (N1 : n <> s_prime) by (intros ->; apply (proj1 Fresh); assumption).
  assert (N2 : n <> t_prime) by (intros ->; apply (proj2 Fresh); assumption).
  specialize (C n N1 N2). rewrite net_out_app in C.
  rewrite (net_out_supply_node nodes supply f ND Fresh n I) in C.
  destruct (0 <? supply_at supply n) eqn:P.
  - rewrite Sat, supply_capacity_source in C; [lia|].
    apply in_supply_edges. exists n. apply Z.ltb_lt in P. auto.
  - destruct (supply_at supply n <? 0) eqn:Q.
    + rewrite Sat, supply_capacity_sink in C; [lia | assumption |].
      apply in_supply_edges. exists n. apply Z.ltb_lt in Q. auto.
    + apply Z.ltb_ge in P, Q. lia.
Qed.

(** A flow of the extended network that carries all the supply fills
    every synthetic edge, provided supply and demand balance. *)
Lemma full_value_saturates cp f :
  cp = fold_left (fun c k => eset c k (Int (supply_capacity supply k)))
         (supply_edges supply nodes) capacities ->
  network_flow (edges ++ supply_edges supply nodes) cp s_prime t_prime f ->
  wsum (supply_at supply) nodes = 0 ->
  total_supply supply nodes <= net_out f (edges ++ supply_edges supply nodes) s_prime ->
  forall e, In e (supply_edges supply nodes) -> f e = supply_capacity supply e.
Proof.
  intros E [Bf Cf] Bal Full.
  assert (Fresh := si_fresh _ _ _ _ instance).
  assert (ND := si_nodes _ _ _ _ instance).
  assert (Cap : forall e, In e (supply_edges supply nodes) ->
                  0 <= f e <= supply_capacity supply e).
  { intros e I.
    destruct (supply_capacities_get nodes edges capacities supply instance cp e E)
      as (c & Hc & _ & _ & Q); [apply in_app_iff; auto|].
    specialize (Bf e (proj2 (in_app_iff _ _ _) (or_intror I))).
    unfold value_of in Bf. rewrite Hc in Bf. simpl in Bf. rewrite <- (Q I). exact Bf. }
  assert (Edges0 : forall n, n = s_prime \/ n = t_prime -> net_out f edges n = 0).
  { intros n Hn. apply net_out_untouched. intros [u v] J.
    destruct (edges_not_prime nodes edges capacities supply instance u v J)
      as (A & B & C & D). simpl. destruct Hn as [->| ->]; auto. }
  (* the edges out of s_prime *)
  assert (Src : forall n, In n nodes -> 0 < supply_at supply n ->
                  f (s_prime, n) = supply_at supply n).
  { intros n I P.
    assert (S : (if 0 <? supply_at supply n then f (s_prime, n) else 0)
                = Z.max 0 (supply_at supply n)).
    { apply (wsum_squeeze
               (fun n => if 0 <? supply_at supply n then f (s_prime, n) else 0)
               (fun n => Z.max 0 (supply_at supply n)) nodes); [| |assumption].
      - intros m Im. destruct (0 <? supply_at supply m) eqn:Pm; [|lia].
        apply Z.ltb_lt in Pm.
        destruct (Cap (s_prime, m)) as [_ U]; [apply in_supply_edges; exists m; auto|].
        rewrite supply_capacity_source in U. lia.
      - rewrite net_out_app, (Edges0 s_prime (or_introl eq_refl)),
          (net_out_supply_source nodes supply f Fresh) in Full. exact Full. }
    rewrite (proj2 (Z.ltb_lt _ _) P) in S. lia. }
  (* the edges into t_prime *)
  assert (Value : net_out f (edges ++ supply_edges supply nodes) t_prime
                  = - net_out f (edges ++ supply_edges supply nodes) s_prime).
  { apply conserving_value; [apply s_prime_t_prime | assumption]. }
  assert (Upper : net_out f (edges ++ supply_edges supply nodes) s_prime
                  <= total_supply supply nodes).
  { rewrite net_out_app, (Edges0 s_prime (or_introl eq_refl)),
      (net_out_supply_source nodes supply f Fresh). unfold total_supply.
    apply wsum_le. intros m Im. destruct (0 <? supply_at supply m) eqn:Pm; [|lia].
    apply Z.ltb_lt in Pm.
    destruct (Cap (s_prime, m)) as [_ U]; [apply in_supply_edges; exists m; auto|].
    rewrite supply_capacity_source in U. lia. }
  assert (Demand : wsum (fun n => Z.max 0 (- supply_at supply n)) nodes
                   = total_supply supply nodes).
  { unfold total_supply.
    assert (D : wsum (fun n => Z.max 0 (supply_at supply n)
                               - Z.max 0 (- supply_at supply n)) nodes = 0).
    { rewrite <- Bal. apply wsum_ext. intros m _. lia. }
    rewrite (wsum_ext _ (fun n => Z.max 0 (supply_at supply n)
                                  + (-1) * Z.max 0 (- supply_at supply n))) in D
      by (intros; lia).
    rewrite wsum_plus, wsum_scale in D. lia. }
  assert (Snk : forall n, In n nodes -> supply_at supply n < 0 ->
                  f (n, t_prime) = - supply_at supply n).
  { intros n I Q.
    assert (S : (if 0 <? supply_at supply n then 0
                 else if supply_at supply n <? 0 then f (n, t_prime) else 0)
                = Z.max 0 (- supply_at supply n)).
    { apply (wsum_squeeze
               (fun n => if 0 <? supply_at supply n then 0
                         else if supply_at supply n <? 0 then f (n, t_prime) else 0)
               (fun n => Z.max 0 (- supply_at supply n)) nodes); [| |assumption].
      - intros m Im. destruct (0 <? supply_at supply m) eqn:Pm; [lia|].
        destruct (supply_at supply m <? 0) eqn:Qm; [|lia]. apply Z.ltb_lt in Qm.
        destruct (Cap (m, t_prime)) as [_ U]; [apply in_supply_edges; exists m; auto|].
        rewrite supply_capacity_sink in U; [lia|].
        intros ->. apply (proj1 Fresh). assumption.
      - rewrite net_out_app, (Edges0 t_prime (or_intror eq_refl)),
          (net_out_supply_sink nodes supply f Fresh) in Value. lia. }
    destruct (0 <? supply_at supply n) eqn:P; [apply Z.ltb_lt in P; lia|].
    rewrite (proj2 (Z.ltb_lt _ _) Q) in S. lia. }
  intros e I. apply in_supply_edges in I. destruct I as (n & In & [[P ->]|[Q ->]]).
  - rewrite supply_capacity_source. apply Src; assumption.
  - rewrite supply_capacity_sink; [apply Snk; assumption|].
    intros ->. apply (proj1 Fresh). assumption.
Qed.

End FeasibleDecision.

Lemma max_flow_cut edges capacities source sink flow re rc g :
  one_way edges -> int_capacities edges capacities ->
  flow_state edges (fun _ => 0) (value_of capacities) source sink flow ->
  MaximumFlow.construct_residual_graph edges capacities flow = Ok (re, rc) ->
  (forall q, ~ positive_path re rc source sink q) ->
  network_flow edges capacities source sink g ->
  net_out g edges source <= net_out (flow_at flow) edges source.
Proof.
  intros OW IC St B Fin [Bg Cg].
  apply (residual_cut edges (fun _ => 0) (value_of capacities)
           (max_flow_entries capacities)
           (MaximumFlow.construct_residual_graph edges capacities) source sink OW
           (construct_residual_graph_with edges capacities)
           (fun flow e f xy _ => max_flow_entries_value capacities flow e f xy)
           flow re rc g St B Fin); [|assumption].
  intros e I. destruct (Bg e I) as [L U]. destruct (IC e I) as (c & Hc & _).
  unfold value_of in *. rewrite Hc in *. simpl in *. lia.
Qed.

(** X16. [feasible_flow] decides whether the supplies can be met. On an
    instance (no node listed twice, [s_prime] and [t_prime] unused, edges
    between listed nodes without repetition or reverse, non-negative int
    capacities, an int supply for every node), from no flow, with each of
    the four searches and enough iterations, it returns. The flow returned
    holds an int between 0 and the capacity on every edge. The flag is
    true exactly when the flow returned meets the supply of every node;
    and, unless the search is the minimum-bottleneck one, exactly when
    some assignment of ints to the edges, between 0 and the capacities,
    meets the supply of every node. *)
Theorem feasible_flow_decides :
  forall strat sfuel fuel nodes edges capacities supply,
    supply_instance nodes edges capacities supply ->
    (search_fuel strat (2 * (List.length edges + List.length nodes)) <= sfuel)%nat ->
    (Z.to_nat (total_supply supply nodes) <= fuel)%nat ->
    exists feasible flow value,
      feasible_flow fuel nodes edges capacities supply (search strat sfuel) None
      = Ok (feasible, flow, Int value)
      /\ (forall e, In e edges ->
            exists f c, eget flow e = Some (Int f) /\ eget capacities e = Some (Int c)
                        /\ 0 <= f <= c)
      /\ (feasible = true <-> supplies edges supply nodes (flow_at flow))
      /\ (strat <> MinBottleneck ->
          (feasible = true <->
           exists g,
             (forall e, In e edges -> 0 <= g e <= int_of (value_of capacities e))
             /\ supplies edges supply nodes g)).
Proof.
  intros strat sfuel fuel nodes edges capacities supply Inst SF Fu.
  set (X := supply_edges supply nodes).
  set (cp := fold_left (fun c k => eset c k (Int (supply_capacity supply k))) X capacities).
  assert (A : add_supply_edges nodes supply edges capacities = Ok (edges ++ X, cp)).
  { apply add_supply_edges_eq; [apply (si_fresh _ _ _ _ Inst) | apply (si_supply _ _ _ _ Inst)]. }
  assert (OW' := one_way_supply nodes edges capacities supply Inst).
  assert (IC' := prime_int_capacities nodes edges capacities supply Inst cp eq_refl).
  fold X in OW', IC'.
  destruct (ford_fulkerson_progress strat sfuel fuel (edges ++ X) cp s_prime t_prime
              OW' IC' s_prime_t_prime) as (fp & re & rc & R & St & B & Fin & Sum).
  { eapply Nat.le_trans; [|exact SF]. apply search_fuel_mono.
    rewrite length_app. pose proof (supply_edges_length supply nodes). fold X in H.
    unfold edge in *. lia. }
  { unfold X. rewrite (prime_capacity_out nodes edges capacities supply Inst cp eq_refl).
    exact Fu. }
  assert (Fe : forall e, In e edges ->
             exists f c, eget fp e = Some (Int f) /\ eget capacities e = Some (Int c)
                         /\ 0 <= f <= c).
  { intros e I.
    destruct (fs_bounded _ _ _ _ _ _ St e) as (f & F & L & U); [apply in_app_iff; auto|].
    destruct (supply_capacities_get nodes edges capacities supply Inst cp e eq_refl)
      as (c & Hc & _ & He & _); [apply in_app_iff; auto|].
    unfold value_of in U. fold X in Hc. fold cp in Hc. rewrite Hc in U. simpl in U.
    exists f, c. split; [assumption|]. split; [apply He; assumption | lia]. }
  destruct (rebuild_total (fun x (_ : edge) => Ok x) fp edges) with (acc := @nil (edge * num))
    as [flow Rb].
  { intros e I. destruct (Fe e I) as (f & c & F & _). eauto. }
  assert (G : forall e, In e edges -> eget flow e = eget fp e).
  { intros e I. destruct (rebuild_get _ _ _ _ _ Rb e (or_introl I))
      as (x & y & Hx & Hy & Hf). inversion Hy; subst. congruence. }
  assert (Gat : forall e, In e edges -> flow_at flow e = flow_at fp e).
  { intros e I. unfold flow_at, value_of. rewrite (G e I). reflexivity. }
  assert (Gnet : forall n, net_out (flow_at flow) edges n = net_out (flow_at fp) edges n).
  { intros n. unfold net_out. apply wsum_ext. intros e I. rewrite (Gat e I). reflexivity. }
  destruct (check_supply_int nodes edges flow supply) as (b & C & Cb).
  { intros e I. rewrite (G e I). destruct (Fe e I) as (f & c & F & _). eauto. }
  { apply (si_supply _ _ _ _ Inst). }
  exists b, flow, (net_out (flow_at fp) (edges ++ X) s_prime).
  split; [|split; [|split]].
  - unfold feasible_flow. rewrite A. cbn [bind]. rewrite R. cbn [bind].
    change edict with (list (edge * num)) in *. rewrite Rb. cbn [bind].
    rewrite C. reflexivity.
  - intros e I. rewrite (G e I). apply Fe. assumption.
  - exact Cb.
  - intros NM. rewrite Cb. split.
    + intros S. exists (flow_at flow). split; [|assumption].
      intros e I. rewrite (Gat e I). destruct (Fe e I) as (f & c & F & Hc & Rg).
      unfold flow_at, value_of. rewrite F, Hc. simpl. exact Rg.
    + intros (g & Bg & Sg).
      destruct (extend_network_flow nodes edges capacities supply Inst cp g eq_refl Bg Sg)
        as (g' & NF & Val).
      fold X in NF, Val.
      assert (Max := max_flow_cut (edges ++ X) cp s_prime t_prime fp re rc g'
                       OW' IC' St B (Fin NM) NF).
      assert (Bal : wsum (supply_at supply) nodes = 0).
      { rewrite <- (net_out_total g nodes edges (si_nodes _ _ _ _ Inst)
                      (si_ends _ _ _ _ Inst)).
        apply wsum_ext. intros n I. symmetry. apply Sg. assumption. }
      assert (Sat := full_value_saturates nodes edges capacities supply Inst cp
                       (flow_at fp) eq_refl
                       (flow_state_network (edges ++ X) cp s_prime t_prime fp IC' St) Bal).
      fold X in Sat. rewrite <- Val in Sat. specialize (Sat Max).
      intros n I. rewrite Gnet.
      apply (saturated_supplies nodes edges capacities supply Inst (flow_at fp)
               (fs_conserving _ _ _ _ _ _ St) Sat n I).
Qed.

Lemma pair_supply_instance :
  supply_instance Examples.pair_nodes Examples.pair_edges Examples.pair_capacities
    Examples.pair_supply.
Proof.
  constructor.
  - repeat constructor; simpl; intuition discriminate.
  - split; simpl; intuition discriminate.
  - intros u v [E|[]]. inversion E; subst. simpl. auto.
  - split; [repeat constructor; simpl; tauto|].
    intros u v [E|[]] [E'|[]]. inversion E; subst. discriminate.
  - intros e [<-|[]]. exists 1. split; [reflexivity | lia].
  - intros n [<-|[<-|[]]]; eexists; reflexivity.
Qed.

Lemma feasible_flow_decides_witness :
  exists feasible flow value,
    feasible_flow 1 Examples.pair_nodes Examples.pair_edges Examples.pair_capacities
      Examples.pair_supply (search BreadthFirst 8) None
    = Ok (feasible, flow, Int value)
    /\ (forall e, In e Examples.pair_edges ->
          exists f c, eget flow e = Some (Int f)
                      /\ eget Examples.pair_capacities e = Some (Int c)
                      /\ 0 <= f <= c)
    /\ (feasible = true
        <-> supplies Examples.pair_edges Examples.pair_supply Examples.pair_nodes
              (flow_at flow))
    /\ (BreadthFirst <> MinBottleneck ->
        (feasible = true <->
         exists g,
           (forall e, In e Examples.pair_edges ->
              0 <= g e <= int_of (value_of Examples.pair_capacities e))
           /\ supplies Examples.pair_edges Examples.pair_supply Examples.pair_nodes g)).
Proof.
  apply (feasible_flow_decides BreadthFirst 8 1 Examples.pair_nodes Examples.pair_edges
           Examples.pair_capacities Examples.pair_supply).
  - exact pair_supply_instance.
  - vm_compute. lia.
  - vm_compute. lia.
Defined.

(** ** The capacities that [minimum_flow] builds, exactly *)

Lemma wsum_filter {A} (h : A -> Z) (keep : A -> bool) l :
  wsum h (filter keep l) = wsum (fun x => if keep x then h x else 0) l.
Proof.
  induction l as [|x l IH]; [reflexivity|]. simpl.
  destruct (keep x); simpl; rewrite IH; reflexivity.
Qed.

Lemma wsum_nonneg {A} (h : A -> Z) l : (forall x, In x l -> 0 <= h x) -> 0 <= wsum h l.
Proof.
  induction l as [|x l IH]; intros H; simpl; [lia|].
  assert (0 <= h x) by (apply H; simpl; auto).
  assert (0 <= wsum h l) by (apply IH; intros; apply H; simpl; auto). lia.
Qed.

Lemma sum_in_int lower edges n :
  (forall e, In e edges -> exists z, eget lower e = Some (Int z)) ->
  sum_in lower edges n = Ok (Int (lower_in lower edges n)).
Proof.
  intros D. unfold sum_in. rewrite (values_where_int _ _ _ D). cbn [bind].
  unfold Num.sum. rewrite sum_ints, wsum_map, wsum_filter. simpl.
  unfold lower_in, enters. f_equal. f_equal. apply wsum_ext. intros e _.
  destruct (node_eq_dec (snd e) n); reflexivity.
Qed.

Lemma sum_out_int lower edges n :
  (forall e, In e edges -> exists z, eget lower e = Some (Int z)) ->
  sum_out lower edges n = Ok (Int (lower_out lower edges n)).
Proof.
  intros D. unfold sum_out. rewrite (values_where_int _ _ _ D). cbn [bind].
  unfold Num.sum. rewrite sum_ints, wsum_map, wsum_filter. simpl.
  unfold lower_out, leaves. f_equal. f_equal. apply wsum_ext. intros e _.
  destruct (node_eq_dec (fst e) n); reflexivity.
Qed.

Lemma prime_capacities_eq lower edges : forall nodes acc,
  ~ In s_prime nodes ->
  (forall e, In e edges -> exists z, eget lower e = Some (Int z)) ->
  prime_capacities nodes edges lower acc
  = Ok (fold_left (fun c k => eset c k (Int (prime_capacity lower edges k)))
          (flat_map prime_edges_of nodes) acc).
Proof.
  induction nodes as [|n rest IH]; intros acc NS D; [reflexivity|].
  assert (Nn : n <> s_prime) by (intros ->; apply NS; simpl; auto).
  cbn [prime_capacities]. rewrite (sum_in_int lower edges n D). cbn [bind].
  rewrite (sum_out_int lower edges n D). cbn [bind].
  rewrite IH; [|intros I; apply NS; simpl; auto | assumption].
  cbn [flat_map prime_edges_of app fold_left].
  unfold prime_capacity at 3 4. cbn [fst snd].
  destruct (node_eq_dec s_prime s_prime); [|congruence].
  destruct (node_eq_dec n s_prime); [contradiction | reflexivity].
Qed.

Lemma window_capacities_eq lower upper : forall edges acc,
  int_bounds edges lower upper ->
  window_capacities edges lower upper acc
  = Ok (fold_left (fun c k => eset c k (Int (flow_at upper k - flow_at lower k)))
          edges acc).
Proof.
  induction edges as [|e rest IH]; intros acc IB; [reflexivity|].
  destruct (IB e) as (lo & up & L & U & _); [simpl; auto|].
  cbn [window_capacities]. rewrite (elookup_eget _ _ _ U), (elookup_eget _ _ _ L).
  cbn [bind]. rewrite sub_int. cbn [bind].
  rewrite IH by (intros x I; apply IB; simpl; auto).
  cbn [fold_left].
  assert (Eu : flow_at upper e = up) by (unfold flow_at, value_of; rewrite U; reflexivity).
  assert (El : flow_at lower e = lo) by (unfold flow_at, value_of; rewrite L; reflexivity).
  rewrite Eu, El. reflexivity.
Qed.

Lemma construct_feasible_flow_eq fuel nodes edges lower upper source sink sm :
  ~ In s_prime nodes -> int_bounds edges lower upper ->
  construct_feasible_flow fuel nodes edges lower upper source sink sm
  = (' (flow_prime, _) <-
       ford_fulkerson fuel (prime_graph nodes edges source sink)
         (prime_caps nodes edges lower upper source sink) s_prime t_prime sm None ;;
     rebuild (fun x e => lo <- elookup lower e ;; Num.add x lo)
       flow_prime edges []).
Proof.
  intros NS IB. unfold construct_feasible_flow.
  rewrite prime_capacities_eq; [|assumption|].
  - cbn [bind]. rewrite window_capacities_eq by assumption. reflexivity.
  - intros e I. destruct (IB e I) as (lo & up & L & _). eauto.
Qed.

Section MinFlowGraph.
Variables (nodes : list node) (edges : list edge).
Variables (lower upper : edict) (source sink : node).
Hypothesis instance : min_flow_instance nodes edges source sink.
Hypothesis bounds : int_bounds edges lower upper.
Hypothesis ends : forall u v, In (u, v) edges -> In u nodes /\ In v nodes.
Hypothesis source_listed : In source nodes.
Hypothesis sink_listed : In sink nodes.

Lemma bounds_at e :
  In e edges ->
  eget lower e = Some (Int (flow_at lower e))
  /\ eget upper e = Some (Int (flow_at upper e))
  /\ 0 <= flow_at lower e <= flow_at upper e.
Proof.
  intros I. destruct (bounds e I) as (lo & up & L & U & R).
  unfold flow_at, value_of. rewrite L, U. simpl. auto.
Qed.

Lemma prime_edge_fresh e :
  In e (flat_map prime_edges_of nodes) -> ~ In e edges /\ e <> (sink, source).
Proof.
  intros I. apply in_prime_edges in I. destruct I as (n & In & E).
  destruct instance as [_ _ FE [NS NT] (F1 & F2 & F3 & F4) _ _]. split.
  - intros J. destruct e as [u v]. destruct (FE u v J) as (A & B & C & D).
    destruct E as [E|E]; inversion E; subst; congruence.
  - intros ->. destruct E as [E|E]; inversion E; subst; congruence.
Qed.

Lemma back_edge_fresh : ~ In (sink, source) edges.
Proof. destruct instance as [_ _ _ _ _ _ [D1 D2]]. assumption. Qed.

(** The capacities of the graph, edge by edge. *)
Lemma prime_caps_get e :
  eget (prime_caps nodes edges lower upper source sink) e
  = if edge_eq_dec (sink, source) e then Some PosInf
    else if in_dec edge_eq_dec e edges
         then Some (Int (flow_at upper e - flow_at lower e))
         else if in_dec edge_eq_dec e (flat_map prime_edges_of nodes)
              then Some (Int (prime_capacity lower edges e))
              else None.
Proof.
  unfold prime_caps. destruct (edge_eq_dec (sink, source) e) as [<-|N].
  - apply eget_eset_same.
  - rewrite eget_eset_other by assumption. rewrite !fold_eset_get. reflexivity.
Qed.

Lemma lower_in_nonneg n : 0 <= lower_in lower edges n.
Proof.
  unfold lower_in. apply wsum_nonneg. intros e I.
  destruct (bounds_at e I) as (_ & _ & R).
  destruct (node_eq_dec (snd e) n); lia.
Qed.

Lemma lower_out_nonneg n : 0 <= lower_out lower edges n.
Proof.
  unfold lower_out. apply wsum_nonneg. intros e I.
  destruct (bounds_at e I) as (_ & _ & R).
  destruct (node_eq_dec (fst e) n); lia.
Qed.

Lemma prime_capacity_nonneg e : 0 <= prime_capacity lower edges e.
Proof.
  unfold prime_capacity. destruct (node_eq_dec (fst e) s_prime);
    [apply lower_in_nonneg | apply lower_out_nonneg].
Qed.

Lemma prime_capacity_from_source n : prime_capacity lower edges (s_prime, n) = lower_in lower edges n.
Proof.
  unfold prime_capacity. simpl. destruct (node_eq_dec s_prime s_prime); congruence.
Qed.

Lemma prime_capacity_to_sink n :
  In n nodes -> prime_capacity lower edges (n, t_prime) = lower_out lower edges n.
Proof.
  intros I. unfold prime_capacity. simpl.
  destruct (node_eq_dec n s_prime) as [->|_]; [|reflexivity].
  exfalso. apply (proj1 (mfi_fresh_nodes _ _ _ _ instance)). assumption.
Qed.

Lemma lower_total_in :
  wsum (lower_in lower edges) nodes = total_lower lower edges.
Proof.
  unfold lower_in, total_lower. rewrite wsum_swap. apply wsum_ext. intros [u v] I.
  destruct (ends u v I) as [_ Iv]. cbn [snd].
  rewrite (wsum_ext _ (fun n => if node_eq_dec n v then flow_at lower (u, v) else 0)).
  - rewrite (wsum_pick node_eq_dec (fun _ => flow_at lower (u, v)) v nodes
               (mfi_nodes _ _ _ _ instance)).
    destruct (in_dec node_eq_dec v nodes); [reflexivity | contradiction].
  - intros n _. destruct (node_eq_dec v n), (node_eq_dec n v); congruence.
Qed.

Lemma lower_total_out :
  wsum (lower_out lower edges) nodes = total_lower lower edges.
Proof.
  unfold lower_out, total_lower. rewrite wsum_swap. apply wsum_ext. intros [u v] I.
  destruct (ends u v I) as [Iu _]. cbn [fst].
  rewrite (wsum_ext _ (fun n => if node_eq_dec n u then flow_at lower (u, v) else 0)).
  - rewrite (wsum_pick node_eq_dec (fun _ => flow_at lower (u, v)) u nodes
               (mfi_nodes _ _ _ _ instance)).
    destruct (in_dec node_eq_dec u nodes); [reflexivity | contradiction].
  - intros n _. destruct (node_eq_dec u n), (node_eq_dec n u); congruence.
Qed.

Lemma net_out_lower n :
  net_out (flow_at lower) edges n = lower_out lower edges n - lower_in lower edges n.
Proof.
  unfold net_out, lower_out, lower_in.
  rewrite (wsum_ext _ (fun e => (if node_eq_dec (fst e) n then flow_at lower e else 0)
                                + (-1) * (if node_eq_dec (snd e) n
                                          then flow_at lower e else 0))).
  - rewrite wsum_plus, wsum_scale. lia.
  - intros e _. unfold sgn.
    destruct (node_eq_dec (fst e) n), (node_eq_dec (snd e) n); lia.
Qed.

(** Net flows in the graph. *)
Lemma net_out_prime_graph h n :
  net_out h (prime_graph nodes edges source sink) n
  = net_out h edges n + net_out h (flat_map prime_edges_of nodes) n
    + sgn n (sink, source) * h (sink, source).
Proof.
  unfold prime_graph. rewrite add_prime_edges_eq, !net_out_app.
  unfold net_out at 3. simpl. lia.
Qed.

Lemma net_out_prime_node h n :
  In n nodes ->
  net_out h (flat_map prime_edges_of nodes) n = h (n, t_prime) - h (s_prime, n).
Proof.
  intros I. destruct (mfi_fresh_nodes _ _ _ _ instance) as [NS NT].
  unfold net_out. rewrite wsum_flat_map.
  rewrite (wsum_ext _ (fun m => if node_eq_dec m n
                                then h (m, t_prime) - h (s_prime, m) else 0)).
  - rewrite (wsum_pick node_eq_dec (fun m => h (m, t_prime) - h (s_prime, m)) n nodes
               (mfi_nodes _ _ _ _ instance)).
    destruct (in_dec node_eq_dec n nodes); [reflexivity | contradiction].
  - intros m Im. unfold prime_edges_of. cbn [wsum]. unfold sgn. cbn [fst snd].
    assert (N1 : s_prime <> n) by (intros <-; contradiction).
    assert (N2 : t_prime <> n) by (intros <-; contradiction).
    destruct (node_eq_dec s_prime n); [contradiction|].
    destruct (node_eq_dec t_prime n); [contradiction|].
    destruct (node_eq_dec m n); lia.
Qed.

Lemma net_out_prime_source h :
  net_out h (flat_map prime_edges_of nodes) s_prime = wsum (fun n => h (s_prime, n)) nodes.
Proof.
  destruct (mfi_fresh_nodes _ _ _ _ instance) as [NS NT].
  unfold net_out. rewrite wsum_flat_map. apply wsum_ext. intros m Im.
  unfold prime_edges_of. cbn [wsum]. unfold sgn. cbn [fst snd].
  assert (N1 : m <> s_prime) by (intros ->; contradiction).
  destruct (node_eq_dec s_prime s_prime); [|congruence].
  destruct (node_eq_dec m s_prime); [contradiction|].
  destruct (node_eq_dec t_prime s_prime) as [E|_];
    [exfalso; apply s_prime_t_prime; congruence | lia].
Qed.

Lemma net_out_prime_sink h :
  net_out h (flat_map prime_edges_of nodes) t_prime
  = - wsum (fun n => h (n, t_prime)) nodes.
Proof.
  destruct (mfi_fresh_nodes _ _ _ _ instance) as [NS NT].
  unfold net_out. rewrite wsum_flat_map.
  match goal with |- _ = - ?W => replace (- W) with ((-1) * W) by lia end.
  rewrite <- wsum_scale. apply wsum_ext. intros m Im.
  unfold prime_edges_of. cbn [wsum]. unfold sgn. cbn [fst snd].
  assert (N1 : m <> t_prime) by (intros ->; contradiction).
  destruct (node_eq_dec t_prime t_prime); [|congruence].
  destruct (node_eq_dec m t_prime); [contradiction|].
  destruct (node_eq_dec s_prime t_prime) as [E|_];
    [exfalso; apply s_prime_t_prime; congruence | lia].
Qed.

Lemma net_out_edges_outside h n : ~ In n nodes -> net_out h edges n = 0.
Proof.
  intros NI. apply net_out_untouched. intros [u v] I. destruct (ends u v I).
  simpl. split; intros ->; contradiction.
Qed.

Lemma net_out_prime_outside h n :
  ~ In n nodes -> n <> s_prime -> n <> t_prime ->
  net_out h (flat_map prime_edges_of nodes) n = 0.
Proof.
  intros NI N1 N2. apply net_out_untouched. intros e I.
  apply in_prime_edges in I. destruct I as (m & Im & [->| ->]); simpl;
    split; congruence.
Qed.

End MinFlowGraph.

(** ** [minimum_flow] constructs a feasible flow and minimises it *)

Lemma rebuild_ekeys f d : forall edges acc new,
  NoDup edges -> (forall e, In e edges -> ~ In e (ekeys acc)) ->
  rebuild f d edges acc = Ok new -> ekeys new = ekeys acc ++ edges.
Proof.
  induction edges as [|e rest IH]; intros acc new ND Out H; simpl in H.
  - inversion H; subst. rewrite app_nil_r. reflexivity.
  - inv_bind H as x Hx. inv_bind H as y Hy. inversion ND as [|? ? NI ND']; subst.
    assert (K : ekeys (eset acc e y) = ekeys acc ++ [e])
      by (apply keys_set_notin; apply Out; simpl; auto).
    assert (Out' : forall e', In e' rest -> ~ In e' (ekeys (eset acc e y))).
    2:{ rewrite (IH _ _ ND' Out' H), K, <- app_assoc. reflexivity. }
    intros e' I J. rewrite K in J. apply in_app_iff in J.
    destruct J as [J|[<-|[]]]; [apply (Out e'); simpl; auto | contradiction].
Qed.

Lemma phase_two_fuel edges lower upper flow sink :
  int_bounds edges lower upper ->
  bounded edges (fun e => int_of (value_of lower e)) (value_of upper) flow ->
  capacity_out (value_of upper) edges sink - net_out (flow_at flow) edges sink
  <= total_capacity upper edges.
Proof.
  intros IB B. unfold capacity_out, net_out, total_capacity.
  rewrite <- (Z.add_opp_r (wsum _ _)).
  match goal with |- _ + - ?W <= _ => replace (- W) with ((-1) * W) by lia end.
  rewrite <- wsum_scale, <- wsum_plus. apply wsum_le. intros e I.
  destruct (B e I) as (f & F & Lf & Uf).
  destruct (IB e I) as (lo & up & L & U & Rg).
  unfold flow_at, value_of in *. rewrite F. rewrite L in Lf. rewrite U in *.
  cbn [le_hi int_of] in *. unfold sgn.
  destruct (node_eq_dec (fst e) sink), (node_eq_dec (snd e) sink); lia.
Qed.

Lemma total_lower_le edges lower upper :
  int_bounds edges lower upper -> total_lower lower edges <= total_capacity upper edges.
Proof.
  intros IB. unfold total_lower, total_capacity. apply wsum_le. intros e I.
  destruct (IB e I) as (lo & up & L & U & Rg).
  unfold flow_at, value_of. rewrite L, U. simpl. lia.
Qed.

Lemma prime_graph_length nodes edges source sink :
  List.length (prime_graph nodes edges source sink)
  = (List.length edges + 2 * List.length nodes + 1)%nat.
Proof.
  unfold prime_graph. rewrite add_prime_edges_eq, !length_app.
  assert (L : forall l, List.length (flat_map prime_edges_of l) = (2 * List.length l)%nat).
  { induction l as [|n l IH]; simpl in *; lia. }
  rewrite L. simpl. unfold edge in *. lia.
Qed.

(** ** The triple that [feasible_flow] returns *)

Section SupplyNetwork.
Variables (nodes : list node) (edges : list edge).
Variables (capacities : edict) (supply : ndict num).
Hypothesis network : supply_network nodes edges capacities supply.

(** The shape of the graph does not depend on the capacities. *)
Lemma network_instance : supply_instance nodes edges (zero_flow edges) supply.
Proof.
  destruct network as [ND F E OW _ S]. constructor; try assumption.
  intros e I. exists 0. split; [apply zero_flow_get; assumption | lia].
Qed.

Lemma extended_one_way : one_way (extended_edges supply nodes edges).
Proof. apply (one_way_supply nodes edges (zero_flow edges) supply network_instance). Qed.

Lemma supply_capacity_nonneg e :
  In e (supply_edges supply nodes) -> 0 <= supply_capacity supply e.
Proof.
  intros J. apply in_supply_edges in J. destruct J as (n & In_ & [[P ->]|[Q ->]]).
  - rewrite supply_capacity_source. lia.
  - rewrite supply_capacity_sink; [lia|]. intros ->.
    apply (proj1 (sn_fresh _ _ _ _ network)). assumption.
Qed.

Lemma extended_capacities_get e :
  eget (extended_capacities supply nodes capacities) e
  = if in_dec edge_eq_dec e (supply_edges supply nodes)
    then Some (Int (supply_capacity supply e)) else eget capacities e.
Proof.
  unfold extended_capacities.
  apply (fold_eset_get (fun k => Int (supply_capacity supply k))).
Qed.

Lemma extended_capacities_edge e :
  In e edges ->
  eget (extended_capacities supply nodes capacities) e = eget capacities e.
Proof.
  intros I. rewrite extended_capacities_get.
  destruct (in_dec edge_eq_dec e (supply_edges supply nodes)) as [J|_]; [|reflexivity].
  apply (supply_edge_not_edge nodes edges (zero_flow edges) supply network_instance) in J.
  tauto.
Qed.

Lemma extended_capacities_or_inf :
  capacities_or_inf (extended_edges supply nodes edges)
    (extended_capacities supply nodes capacities).
Proof.
  intros e I. rewrite extended_capacities_get.
  destruct (in_dec edge_eq_dec e (supply_edges supply nodes)) as [J|N].
  - eexists. split; [reflexivity|]. simpl. apply supply_capacity_nonneg. assumption.
  - apply in_app_iff in I. destruct I as [I|I]; [|contradiction].
    apply (sn_capacities _ _ _ _ network e I).
Qed.

(** A path out of [s_prime] starts with a synthetic edge, whose capacity
    is a supply. *)
Lemma extended_no_infinite_path p :
  ~ infinite_path (extended_edges supply nodes edges)
      (extended_capacities supply nodes capacities) s_prime t_prime p.
Proof.
  intros (Hd & _ & NE & F).
  destruct p as [|x [|y rest]]; simpl in NE; try congruence.
  simpl in Hd. inversion Hd; subst x.
  cbn [get_path_edges] in F. inversion F as [|? ? [I C] _]; subst.
  rewrite extended_capacities_get in C.
  destruct (in_dec edge_eq_dec (s_prime, y) (supply_edges supply nodes)) as [J|N];
    [discriminate|].
  apply in_app_iff in I. destruct I as [I|I]; [|contradiction].
  apply (edges_not_prime nodes edges (zero_flow edges) supply network_instance) in I.
  tauto.
Qed.

End SupplyNetwork.

(** A path from the source to the sink has a finite bottleneck when none
    runs along edges of infinite capacity. *)
Lemma path_finite_unless_infinite edges lo hi entries build source sink :
  one_way edges ->
  (forall flow,
     build flow = (rc <- residual_with (entries flow) edges [] ;; Ok (ekeys rc, rc))) ->
  (forall flow e f xy,
     In e edges -> eget flow e = Some (Int f) -> entries flow e = Ok xy ->
     xy = (Num.minus (value_of hi e) (Int f), Int (f - lo e))) ->
  (forall q, ~ infinite_path edges hi source sink q) ->
  forall flow re rc p,
    bounded edges lo (value_of hi) flow -> build flow = Ok (re, rc) ->
    hd_error p = Some source -> last_node p = Ok sink ->
    finite_bottleneck rc p.
Proof.
  intros OW BE EV NP flow re rc p B H Hd L.
  destruct (finite_or_unbounded edges lo (value_of hi) entries build OW BE EV
              flow re rc p B H) as [F|[NE A]]; [exact F|].
  exfalso. apply (NP p).
  split; [exact Hd|]. split; [exact L|]. split; [exact NE|].
  apply Forall_forall. intros e I. rewrite Forall_forall in A.
  destruct (A e I) as [Ie Q]. split; [exact Ie | apply value_of_inf; exact Q].
Qed.

Lemma relay_supply_network :
  supply_network Examples.relay_nodes Examples.relay_edges Examples.relay_capacities
    Examples.relay_supply.
Proof.
  constructor.
  - repeat constructor; simpl; intuition discriminate.
  - split; simpl; intuition discriminate.
  - intros u v I. simpl in I.
    repeat match goal with
    | H : _ \/ _ |- _ => destruct H
    | H : (_, _) = (_, _) |- _ => inversion H; clear H; subst
    | H : False |- _ => destruct H
    end; simpl; auto.
  - split.
    + repeat constructor; simpl; intuition discriminate.
    + intros u v I J. simpl in I, J.
      repeat match goal with
      | H : _ \/ _ |- _ => destruct H
      | H : (_, _) = (_, _) |- _ => inversion H; clear H; subst
      | H : False |- _ => destruct H
      end; discriminate.
  - intros e I. simpl in I.
    repeat match goal with
    | H : _ \/ _ |- _ => destruct H
    | H : False |- _ => destruct H
    end; subst; eexists; (split; [reflexivity | simpl; auto; lia]).
  - intros n I. simpl in I.
    repeat match goal with
    | H : _ \/ _ |- _ => destruct H
    | H : False |- _ => destruct H
    end; subst; eexists; reflexivity.
Qed.

(** C6. The triple that [feasible_flow] returns when no flow is
    supplied.

    First, on a graph whose nodes are listed once and do not use the
    names [s_prime] and [t_prime], whose edges join listed nodes without
    repetition or reverse, with capacities that are non-negative ints or
    [inf] and an int supply for every node, searched by any of the four
    searches: whenever [feasible_flow] returns [(feasible, flow,
    flow_value)], with [feasible] true or false,
    - [ford_fulkerson] from [s_prime] to [t_prime] on the graph extended
      by an edge from [s_prime] to every supply node and from every
      demand node to [t_prime], with the supply or the demand as capacity,
      has returned some [flow_prime] with that same [flow_value];
    - [flow_prime] holds an int between 0 and the capacity on every edge
      of the extended graph, and [flow_value] is what leaves [s_prime];
    - the keys of [flow] are the edges of the graph, in their order, and
      [flow] has the values of [flow_prime] on them;
    - [feasible] is true exactly when, at every listed node, what leaves
      the node minus what enters it under [flow] is the supply of the
      node;
    - when the search was given enough iterations, [flow_prime] is
      conserved at every node other than [s_prime] and [t_prime], and,
      unless the search is the minimum-bottleneck one, no assignment of
      ints to the edges of the extended graph that is within the
      capacities and conserved sends more out of [s_prime].

    Second, for every call, whatever the graph and the search method:
    a returned triple comes from a run of [ford_fulkerson] on the graph
    and capacities that [feasible_flow] built, [flow] has the edges as
    keys with the values of that run, and [feasible] is true exactly when
    at every listed node the sum over the outgoing edges minus the sum
    over the incoming edges is equal ([==]) to the supply. *)
Theorem feasible_flow_result :
  (forall strat sfuel fuel nodes edges capacities supply feasible flow flow_value,
      supply_network nodes edges capacities supply ->
      feasible_flow fuel nodes edges capacities supply (search strat sfuel) None
      = Ok (feasible, flow, flow_value) ->
      exists flow_prime,
        ford_fulkerson fuel (extended_edges supply nodes edges)
          (extended_capacities supply nodes capacities) s_prime t_prime
          (search strat sfuel) None
        = Ok (flow_prime, flow_value)
        /\ bounded (extended_edges supply nodes edges) (fun _ => 0)
             (value_of (extended_capacities supply nodes capacities)) flow_prime
        /\ flow_value
           = Int (net_out (flow_at flow_prime) (extended_edges supply nodes edges)
                    s_prime)
        /\ ekeys flow = edges
        /\ (forall e, In e edges -> eget flow e = eget flow_prime e)
        /\ (feasible = true <-> supplies edges supply nodes (flow_at flow))
        /\ ((search_fuel strat (2 * List.length (extended_edges supply nodes edges))
             <= sfuel)%nat ->
            conserving (flow_at flow_prime) (extended_edges supply nodes edges)
              s_prime t_prime
            /\ (strat <> MinBottleneck ->
                forall g,
                  (forall e, In e (extended_edges supply nodes edges) ->
                     0 <= g e
                     /\ le_hi (g e)
                          (value_of (extended_capacities supply nodes capacities) e)) ->
                  conserving g (extended_edges supply nodes edges) s_prime t_prime ->
                  net_out g (extended_edges supply nodes edges) s_prime
                  <= net_out (flow_at flow_prime) (extended_edges supply nodes edges)
                       s_prime)))
  /\
  (forall (sm : search_method) fuel nodes edges capacities supply
          feasible flow flow_value,
      feasible_flow fuel nodes edges capacities supply sm None
      = Ok (feasible, flow, flow_value) ->
      exists edges_prime capacities_prime flow_prime,
        add_supply_edges nodes supply edges capacities
        = Ok (edges_prime, capacities_prime)
        /\ ford_fulkerson fuel edges_prime capacities_prime s_prime t_prime sm None
           = Ok (flow_prime, flow_value)
        /\ (forall e, In e (ekeys flow) <-> In e edges)
        /\ (forall e, In e edges -> eget flow e = eget flow_prime e)
        /\ (feasible = true <->
            forall n, In n nodes ->
              exists net s, net_outgoing_flow flow edges n = Ok net
                            /\ nget supply n = Some s /\ Num.eqb net s = true)).
Proof.
  split.
  - intros strat sfuel fuel nodes edges capacities supply feasible flow flow_value N H.
    set (ext := extended_edges supply nodes edges).
    set (cp := extended_capacities supply nodes capacities).
    assert (A : add_supply_edges nodes supply edges capacities = Ok (ext, cp)).
    { apply add_supply_edges_eq;
        [apply (sn_fresh _ _ _ _ N) | apply (sn_supply _ _ _ _ N)]. }
    assert (OW : one_way ext) by apply (extended_one_way nodes edges capacities supply N).
    assert (CI : capacities_or_inf ext cp)
      by apply (extended_capacities_or_inf nodes edges capacities supply N).
    assert (NP : forall p, ~ infinite_path ext cp s_prime t_prime p)
      by apply (extended_no_infinite_path nodes edges capacities supply N).
    assert (Z0 : forall e, In e ext -> le_hi 0 (value_of cp e)).
    { intros e I. destruct (CI e I) as (c & Hc & Pc). unfold value_of. rewrite Hc.
      exact Pc. }
    unfold feasible_flow in H. rewrite A in H. cbn [bind] in H.
    inv_bind H as [fp v] R. inv_bind H as fl Rb. inv_bind H as b C.
    inversion H; subst b fl v. clear H.
    assert (R' := R). unfold ford_fulkerson in R'.
    assert (B : bounded ext (fun _ => 0) (value_of cp) fp).
    { apply (bounded_augmenting ext (fun _ => 0) (value_of cp) (max_flow_entries cp)
               (MaximumFlow.construct_residual_graph ext cp)
               s_prime t_prime (search strat sfuel) OW
               (construct_residual_graph_with ext cp)
               (fun flow e f xy _ => max_flow_entries_value cp flow e f xy)
               (search_finite strat sfuel ext (fun _ => 0) cp (max_flow_entries cp)
                  (MaximumFlow.construct_residual_graph ext cp)
                  s_prime t_prime OW (construct_residual_graph_with ext cp)
                  (fun flow e f xy _ => max_flow_entries_value cp flow e f xy) NP)
               fuel None fp flow_value); [|exact R'].
      simpl. apply zero_flow_bounded. exact Z0. }
    destruct (augmenting_final _ _ _ _ _ _ _ _ _ R') as (K & V & _).
    simpl in K. rewrite (zero_flow_ekeys ext (proj1 OW)) in K.
    assert (IV : int_valued fp).
    { intros e I. rewrite K in I. destruct (B e I) as (f & F & _). eauto. }
    rewrite (calculate_flow_value_int fp s_prime IV), K in V. inversion V as [V'].
    subst flow_value.
    assert (In_ext : forall e, In e edges -> In e ext)
      by (intros e I; apply in_app_iff; auto).
    assert (G : forall e, In e edges -> eget flow e = eget fp e).
    { intros e I. destruct (rebuild_get _ _ _ _ _ Rb e (or_introl I))
        as (x & y & Hx & Hy & Hf). inversion Hy; subst. congruence. }
    destruct (check_supply_int nodes edges flow supply) as (b & C' & Cb).
    { intros e I. rewrite (G e I). destruct (B e (In_ext e I)) as (f & F & _). eauto. }
    { apply (sn_supply _ _ _ _ N). }
    rewrite C in C'. inversion C'; subst b.
    exists fp. split; [exact R|]. split; [exact B|]. split; [reflexivity|].
    split; [|split; [exact G|split; [exact Cb|]]].
    { apply (rebuild_ekeys _ _ edges [] flow (proj1 (sn_edges _ _ _ _ N))
               (fun _ _ J => J) Rb). }
    intros SF.
    destruct (state_augmenting ext (fun _ => 0) (value_of cp) (max_flow_entries cp)
                (MaximumFlow.construct_residual_graph ext cp) s_prime t_prime
                strat sfuel OW (construct_residual_graph_with ext cp)
                (fun flow e f xy _ => max_flow_entries_value cp flow e f xy)
                (path_finite_unless_infinite ext (fun _ => 0) cp (max_flow_entries cp)
                   (MaximumFlow.construct_residual_graph ext cp) s_prime t_prime OW
                   (construct_residual_graph_with ext cp)
                   (fun flow e f xy _ => max_flow_entries_value cp flow e f xy) NP)
                s_prime_t_prime SF fuel None fp
                (Int (net_out (flow_at fp) ext s_prime)))
      as (St & _ & re & rc & Hb & Fin).
    { simpl. apply zero_flow_state; [apply OW | exact Z0]. }
    { exact R'. }
    split; [apply (fs_conserving _ _ _ _ _ _ St)|].
    intros NM g Bg Cg.
    apply (residual_cut ext (fun _ => 0) (value_of cp) (max_flow_entries cp)
             (MaximumFlow.construct_residual_graph ext cp) s_prime t_prime OW
             (construct_residual_graph_with ext cp)
             (fun flow e f xy _ => max_flow_entries_value cp flow e f xy)
             fp re rc g St Hb (Fin NM) Bg Cg).
  - intros sm fuel nodes edges capacities supply feasible flow flow_value H.
    unfold feasible_flow in H. inv_bind H as [ep cp] A.
    inv_bind H as [fp v] R. inv_bind H as fl Rb. inv_bind H as b C.
    inversion H; subst b fl v. clear H.
    exists ep, cp, fp. split; [exact A|]. split; [exact R|].
    split; [|split; [|apply check_supply_spec; exact C]].
    + intros e. rewrite (rebuild_keys _ _ _ _ _ Rb e). simpl. tauto.
    + intros e I. destruct (rebuild_get _ _ _ _ _ Rb e (or_introl I))
        as (x & y & Hx & Hy & Hf). inversion Hy; subst. congruence.
Qed.

(** On the relay the supplies cannot be met: the flow of value 1 is
    returned with the flag false. *)
Lemma feasible_flow_result_witness :
  (exists flow_prime,
      ford_fulkerson 1
        (extended_edges Examples.relay_supply Examples.relay_nodes Examples.relay_edges)
        (extended_capacities Examples.relay_supply Examples.relay_nodes
           Examples.relay_capacities)
        s_prime t_prime (search BreadthFirst 10) None
      = Ok (flow_prime, Int 1)
      /\ bounded
           (extended_edges Examples.relay_supply Examples.relay_nodes
              Examples.relay_edges)
           (fun _ => 0)
           (value_of (extended_capacities Examples.relay_supply Examples.relay_nodes
                        Examples.relay_capacities))
           flow_prime
      /\ Int 1
         = Int (net_out (flow_at flow_prime)
                  (extended_edges Examples.relay_supply Examples.relay_nodes
                     Examples.relay_edges) s_prime)
      /\ ekeys (Examples.ints [("a", "b", 1); ("b", "c", 1)]%string)
         = Examples.relay_edges
      /\ (forall e, In e Examples.relay_edges ->
            eget (Examples.ints [("a", "b", 1); ("b", "c", 1)]%string) e
            = eget flow_prime e)
      /\ (false = true
          <-> supplies Examples.relay_edges Examples.relay_supply Examples.relay_nodes
                (flow_at (Examples.ints [("a", "b", 1); ("b", "c", 1)]%string)))
      /\ ((search_fuel BreadthFirst
             (2 * List.length (extended_edges Examples.relay_supply
                                 Examples.relay_nodes Examples.relay_edges))
           <= 10)%nat ->
          conserving (flow_at flow_prime)
            (extended_edges Examples.relay_supply Examples.relay_nodes
               Examples.relay_edges)
            s_prime t_prime
          /\ (BreadthFirst <> MinBottleneck ->
              forall g,
                (forall e,
                   In e (extended_edges Examples.relay_supply Examples.relay_nodes
                           Examples.relay_edges) ->
                   0 <= g e
                   /\ le_hi (g e)
                        (value_of (extended_capacities Examples.relay_supply
                                     Examples.relay_nodes Examples.relay_capacities)
                           e)) ->
                conserving g
                  (extended_edges Examples.relay_supply Examples.relay_nodes
                     Examples.relay_edges) s_prime t_prime ->
                net_out g
                  (extended_edges Examples.relay_supply Examples.relay_nodes
                     Examples.relay_edges) s_prime
                <= net_out (flow_at flow_prime)
                     (extended_edges Examples.relay_supply Examples.relay_nodes
                        Examples.relay_edges) s_prime)))
  /\
  (exists edges_prime capacities_prime flow_prime,
      add_supply_edges Examples.pair_nodes Examples.pair_big_supply Examples.pair_edges
        Examples.pair_capacities
      = Ok (edges_prime, capacities_prime)
      /\ ford_fulkerson 5 edges_prime capacities_prime s_prime t_prime
           (search BreadthFirst 9) None
         = Ok (flow_prime, Int 1)
      /\ (forall e, In e (ekeys (Examples.ints [("a", "b", 1)]%string))
                    <-> In e Examples.pair_edges)
      /\ (forall e, In e Examples.pair_edges ->
            eget (Examples.ints [("a", "b", 1)]%string) e = eget flow_prime e)
      /\ (false = true <->
          forall n, In n Examples.pair_nodes ->
            exists net s,
              net_outgoing_flow (Examples.ints [("a", "b", 1)]%string)
                Examples.pair_edges n = Ok net
              /\ nget Examples.pair_big_supply n = Some s
              /\ Num.eqb net s = true)).
Proof.
  split.
  - apply (proj1 feasible_flow_result BreadthFirst 10%nat 1%nat Examples.relay_nodes
             Examples.relay_edges Examples.relay_capacities Examples.relay_supply
             false (Examples.ints [("a", "b", 1); ("b", "c", 1)]%string) (Int 1)).
    + exact relay_supply_network.
    + reflexivity.
  - apply (proj2 feasible_flow_result (search BreadthFirst 9) 5%nat Examples.pair_nodes
             Examples.pair_edges Examples.pair_capacities Examples.pair_big_supply
             false (Examples.ints [("a", "b", 1)]%string) (Int 1)).
    reflexivity.
Defined.

Section MinFlowConstruct.
Variables (nodes : list node) (edges : list edge).
Variables (lower upper : edict) (source sink : node).
Hypothesis instance : min_flow_instance nodes edges source sink.
Hypothesis bounds : int_bounds edges lower upper.
Hypothesis ends : forall u v, In (u, v) edges -> In u nodes /\ In v nodes.
Hypothesis source_listed : In source nodes.
Hypothesis sink_listed : In sink nodes.

Lemma prime_graph_in e :
  In e (prime_graph nodes edges source sink)
  <-> In e edges \/ In e (flat_map prime_edges_of nodes) \/ e = (sink, source).
Proof.
  unfold prime_graph. rewrite add_prime_edges_eq, !in_app_iff. simpl.
  intuition (subst; auto).
Qed.

(** The capacity of an edge of the graph. *)
Lemma prime_caps_value e :
  In e (prime_graph nodes edges source sink) ->
  value_of (prime_caps nodes edges lower upper source sink) e
  = if edge_eq_dec (sink, source) e then PosInf
    else if in_dec edge_eq_dec e edges
         then Int (flow_at upper e - flow_at lower e)
         else Int (prime_capacity lower edges e).
Proof.
  intros I. unfold value_of.
  rewrite (prime_caps_get nodes edges lower upper source sink).
  destruct (edge_eq_dec (sink, source) e); [reflexivity|].
  destruct (in_dec edge_eq_dec e edges); [reflexivity|].
  destruct (in_dec edge_eq_dec e (flat_map prime_edges_of nodes)); [reflexivity|].
  apply prime_graph_in in I. exfalso. destruct I as [I|[I|I]]; auto.
Qed.

Lemma prime_caps_defined :
  defined_on (prime_graph nodes edges source sink)
    (prime_caps nodes edges lower upper source sink).
Proof.
  intros e I. assert (V := prime_caps_value e I). unfold value_of in V.
  destruct (eget (prime_caps nodes edges lower upper source sink) e) as [x|]; [eauto|].
  exfalso. destruct (edge_eq_dec (sink, source) e); [discriminate|].
  destruct (in_dec edge_eq_dec e edges); discriminate.
Qed.

Lemma prime_caps_le_hi e :
  In e (prime_graph nodes edges source sink) ->
  le_hi 0 (value_of (prime_caps nodes edges lower upper source sink) e).
Proof.
  intros I. rewrite (prime_caps_value e I).
  destruct (edge_eq_dec (sink, source) e); [exact Logic.I|].
  destruct (in_dec edge_eq_dec e edges) as [J|_]; simpl.
  - destruct (bounds_at edges lower upper bounds e J) as (_ & _ & R). lia.
  - apply (prime_capacity_nonneg edges lower upper bounds).
Qed.

Lemma prime_capacity_total :
  capacity_out (value_of (prime_caps nodes edges lower upper source sink))
    (prime_graph nodes edges source sink) s_prime
  = total_lower lower edges.
Proof.
  destruct instance as [OW ND FE [NS NT] (F1 & F2 & F3 & F4) NE [D1 D2]].
  unfold capacity_out, prime_graph. rewrite add_prime_edges_eq, !wsum_app.
  rewrite (wsum_zero _ edges).
  2:{ intros [u v] I. destruct (FE u v I) as (A & _). simpl.
      destruct (node_eq_dec u s_prime); [contradiction | reflexivity]. }
  cbn [wsum fst]. destruct (node_eq_dec sink s_prime) as [?|_]; [congruence|].
  rewrite wsum_flat_map.
  rewrite <- (lower_total_in nodes edges lower source sink instance ends).
  rewrite !Z.add_0_r. simpl. apply wsum_ext. intros n In. unfold prime_edges_of.
  cbn [wsum fst].
  destruct (node_eq_dec s_prime s_prime); [|congruence].
  destruct (node_eq_dec n s_prime) as [->|_]; [contradiction|].
  rewrite prime_caps_value
    by (apply prime_graph_in; right; left; apply in_prime_edges; eauto).
  destruct (edge_eq_dec (sink, source) (s_prime, n)) as [E|_]; [inversion E; congruence|].
  destruct (in_dec edge_eq_dec (s_prime, n) edges) as [J|_];
    [destruct (FE _ _ J); tauto|].
  simpl. rewrite prime_capacity_from_source. lia.
Qed.

(** A feasible flow of non-negative value, less the lower bounds and
    with full synthetic edges, is a flow of the graph that carries all
    the lower bounds. *)
Lemma extend_feasible g :
  feasible_for edges lower upper source sink g -> 0 <= net_out g edges source ->
  exists g',
    (forall e, In e (prime_graph nodes edges source sink) ->
       0 <= g' e
       /\ le_hi (g' e) (value_of (prime_caps nodes edges lower upper source sink) e))
    /\ conserving g' (prime_graph nodes edges source sink) s_prime t_prime
    /\ net_out g' (prime_graph nodes edges source sink) s_prime
       = total_lower lower edges.
Proof.
  intros [Bg Cg] V.
  assert (NE := mfi_ends _ _ _ _ instance).
  destruct (mfi_fresh_ends _ _ _ _ instance) as (F1 & F2 & F3 & F4).
  destruct (mfi_fresh_nodes _ _ _ _ instance) as [NS NT].
  set (g' := fun e => if edge_eq_dec (sink, source) e then net_out g edges source
                      else if in_dec edge_eq_dec e edges then g e - flow_at lower e
                           else prime_capacity lower edges e).
  assert (Gb : g' (sink, source) = net_out g edges source).
  { unfold g'. destruct (edge_eq_dec (sink, source) (sink, source)); congruence. }
  assert (Ge : forall e, In e edges -> g' e = g e - flow_at lower e).
  { intros e I. unfold g'. destruct (edge_eq_dec (sink, source) e) as [<-|_].
    - exfalso. apply (back_edge_fresh nodes edges source sink instance). assumption.
    - destruct (in_dec edge_eq_dec e edges); [reflexivity | contradiction]. }
  assert (Gp : forall e, In e (flat_map prime_edges_of nodes) ->
                 g' e = prime_capacity lower edges e).
  { intros e I. destruct (prime_edge_fresh nodes edges source sink instance source_listed sink_listed e I) as [A B].
    unfold g'. destruct (edge_eq_dec (sink, source) e) as [?|_]; [congruence|].
    destruct (in_dec edge_eq_dec e edges); [contradiction | reflexivity]. }
  assert (Net : forall n, net_out g' edges n
                  = net_out g edges n - (lower_out lower edges n - lower_in lower edges n)).
  { intros n. rewrite <- (net_out_lower edges lower n). unfold net_out.
    rewrite (wsum_ext _ (fun e => sgn n e * g e + (-1) * (sgn n e * flow_at lower e)))
      by (intros e I; rewrite (Ge e I); lia).
    rewrite wsum_plus, wsum_scale. lia. }
  exists g'. split; [|split].
  - intros e I. rewrite (prime_caps_value e I). apply prime_graph_in in I.
    destruct (edge_eq_dec (sink, source) e) as [<-|N].
    + rewrite Gb. split; [assumption | exact Logic.I].
    + destruct (in_dec edge_eq_dec e edges) as [J|NJ].
      * rewrite (Ge e J). specialize (Bg e J). simpl. lia.
      * destruct I as [I|[I|I]]; [contradiction | | congruence].
        rewrite (Gp e I). simpl.
        pose proof (prime_capacity_nonneg edges lower upper bounds e). lia.
  - intros n N1 N2. rewrite (net_out_prime_graph nodes edges source sink g' n), Net, Gb.
    destruct (in_dec node_eq_dec n nodes) as [I|NI].
    + rewrite (net_out_prime_node nodes edges source sink instance g' n I).
      rewrite !Gp by (apply in_prime_edges; eauto).
      rewrite prime_capacity_from_source, (prime_capacity_to_sink nodes edges lower source sink instance n I).
      unfold sgn. cbn [fst snd].
      destruct (node_eq_dec sink n) as [E1|Nt]; destruct (node_eq_dec source n) as [E2|Ns].
      * congruence.
      * subst n. rewrite (conserving_value g edges source sink NE Cg). lia.
      * subst n. lia.
      * rewrite (Cg n) by congruence. lia.
    + rewrite (net_out_prime_outside nodes g' n NI N1 N2).
      rewrite (net_out_edges_outside nodes edges ends g n NI).
      unfold lower_out, lower_in.
      rewrite (wsum_zero _ edges), (wsum_zero _ edges).
      * unfold sgn. cbn [fst snd].
        destruct (node_eq_dec sink n) as [<-|_]; [contradiction|].
        destruct (node_eq_dec source n) as [<-|_]; [contradiction|]. lia.
      * intros [u v] J. destruct (ends u v J). cbn [snd].
        destruct (node_eq_dec v n) as [<-|_]; [contradiction | reflexivity].
      * intros [u v] J. destruct (ends u v J). cbn [fst].
        destruct (node_eq_dec u n) as [<-|_]; [contradiction | reflexivity].
  - rewrite (net_out_prime_graph nodes edges source sink g' s_prime).
    rewrite (net_out_edges_outside nodes edges ends g' s_prime NS).
    rewrite (net_out_prime_source nodes edges source sink instance g').
    unfold sgn. cbn [fst snd].
    destruct (node_eq_dec sink s_prime) as [?|_]; [congruence|].
    destruct (node_eq_dec source s_prime) as [?|_]; [congruence|].
    rewrite <- (lower_total_in nodes edges lower source sink instance ends).
    rewrite (wsum_ext (fun n => g' (s_prime, n)) (lower_in lower edges)); [lia|].
    intros n I. rewrite Gp by (apply in_prime_edges; eauto). apply prime_capacity_from_source.
Qed.

(** A flow of the graph that carries all the lower bounds fills every
    synthetic edge; with the lower bounds added it is conserved at the
    inner nodes of the original graph. *)
Lemma full_prime_conserving f :
  (forall e, In e (prime_graph nodes edges source sink) ->
     0 <= f e
     /\ le_hi (f e) (value_of (prime_caps nodes edges lower upper source sink) e)) ->
  conserving f (prime_graph nodes edges source sink) s_prime t_prime ->
  total_lower lower edges <= net_out f (prime_graph nodes edges source sink) s_prime ->
  conserving (fun e => f e + flow_at lower e) edges source sink.
Proof.
  intros Bf Cf Full.
  assert (NE := mfi_ends _ _ _ _ instance).
  destruct (mfi_fresh_ends _ _ _ _ instance) as (F1 & F2 & F3 & F4).
  destruct (mfi_fresh_nodes _ _ _ _ instance) as [NS NT].
  assert (Cap : forall n, In n nodes ->
                  f (s_prime, n) <= lower_in lower edges n
                  /\ f (n, t_prime) <= lower_out lower edges n).
  { intros n I. split.
    - destruct (Bf (s_prime, n)) as [_ U];
        [apply prime_graph_in; right; left; apply in_prime_edges; eauto|].
      rewrite prime_caps_value in U
        by (apply prime_graph_in; right; left; apply in_prime_edges; eauto).
      destruct (prime_edge_fresh nodes edges source sink instance source_listed sink_listed (s_prime, n)) as [A B];
        [apply in_prime_edges; eauto|].
      destruct (edge_eq_dec (sink, source) (s_prime, n)) as [?|_]; [congruence|].
      destruct (in_dec edge_eq_dec (s_prime, n) edges) as [?|_]; [contradiction|].
      simpl in U. rewrite prime_capacity_from_source in U. exact U.
    - destruct (Bf (n, t_prime)) as [_ U];
        [apply prime_graph_in; right; left; apply in_prime_edges; eauto|].
      rewrite prime_caps_value in U
        by (apply prime_graph_in; right; left; apply in_prime_edges; eauto).
      destruct (prime_edge_fresh nodes edges source sink instance source_listed sink_listed (n, t_prime)) as [A B];
        [apply in_prime_edges; eauto|].
      destruct (edge_eq_dec (sink, source) (n, t_prime)) as [?|_]; [congruence|].
      destruct (in_dec edge_eq_dec (n, t_prime) edges) as [?|_]; [contradiction|].
      simpl in U.
      rewrite (prime_capacity_to_sink nodes edges lower source sink instance n I) in U.
      exact U. }
  assert (Vs : net_out f (prime_graph nodes edges source sink) s_prime
               = wsum (fun n => f (s_prime, n)) nodes).
  { rewrite (net_out_prime_graph nodes edges source sink f s_prime).
    rewrite (net_out_edges_outside nodes edges ends f s_prime NS).
    rewrite (net_out_prime_source nodes edges source sink instance f).
    unfold sgn. cbn [fst snd].
    destruct (node_eq_dec sink s_prime) as [?|_]; [congruence|].
    destruct (node_eq_dec source s_prime) as [?|_]; [congruence|]. lia. }
  assert (Vt : net_out f (prime_graph nodes edges source sink) t_prime
               = - wsum (fun n => f (n, t_prime)) nodes).
  { rewrite (net_out_prime_graph nodes edges source sink f t_prime).
    rewrite (net_out_edges_outside nodes edges ends f t_prime NT).
    rewrite (net_out_prime_sink nodes edges source sink instance f).
    unfold sgn. cbn [fst snd].
    destruct (node_eq_dec sink t_prime) as [?|_]; [congruence|].
    destruct (node_eq_dec source t_prime) as [?|_]; [congruence|]. lia. }
  assert (Vst := conserving_value f _ s_prime t_prime s_prime_t_prime Cf).
  assert (Upper : wsum (fun n => f (s_prime, n)) nodes <= total_lower lower edges).
  { rewrite <- (lower_total_in nodes edges lower source sink instance ends).
    apply wsum_le. intros n I. apply (Cap n I). }
  assert (Src : forall n, In n nodes -> f (s_prime, n) = lower_in lower edges n).
  { apply wsum_squeeze; [intros n I; apply (Cap n I)|].
    rewrite (lower_total_in nodes edges lower source sink instance ends). lia. }
  assert (Snk : forall n, In n nodes -> f (n, t_prime) = lower_out lower edges n).
  { apply wsum_squeeze; [intros n I; apply (Cap n I)|].
    rewrite (lower_total_out nodes edges lower source sink instance ends). lia. }
  intros n N1 N2.
  assert (Split : net_out (fun e => f e + flow_at lower e) edges n
                  = net_out f edges n + net_out (flow_at lower) edges n).
  { unfold net_out. rewrite <- wsum_plus. apply wsum_ext. intros; lia. }
  rewrite Split, (net_out_lower edges lower n).
  destruct (in_dec node_eq_dec n nodes) as [I|NI].
  - assert (N3 : n <> s_prime) by (intros ->; contradiction).
    assert (N4 : n <> t_prime) by (intros ->; contradiction).
    specialize (Cf n N3 N4).
    rewrite (net_out_prime_graph nodes edges source sink f n) in Cf.
    rewrite (net_out_prime_node nodes edges source sink instance f n I) in Cf.
    rewrite (Src n I), (Snk n I) in Cf. unfold sgn in Cf. cbn [fst snd] in Cf.
    destruct (node_eq_dec sink n) as [?|_]; [congruence|].
    destruct (node_eq_dec source n) as [?|_]; [congruence|]. lia.
  - rewrite (net_out_edges_outside nodes edges ends f n NI).
    unfold lower_out, lower_in.
    rewrite (wsum_zero _ edges), (wsum_zero _ edges); [lia | |].
    + intros [u v] J. destruct (ends u v J). cbn [snd].
      destruct (node_eq_dec v n) as [<-|_]; [contradiction | reflexivity].
    + intros [u v] J. destruct (ends u v J). cbn [fst].
      destruct (node_eq_dec u n) as [<-|_]; [contradiction | reflexivity].
Qed.


(** The flow on the edge of infinite capacity from the sink back to the
    source is no more than the edges into the sink can carry. *)
Lemma back_flow_bound g :
  (forall e, In e (prime_graph nodes edges source sink) ->
     0 <= g e
     /\ le_hi (g e) (value_of (prime_caps nodes edges lower upper source sink) e)) ->
  net_out g (prime_graph nodes edges source sink) sink = 0 ->
  0 <= g (sink, source) <= total_capacity upper edges.
Proof.
  intros B C.
  assert (NE := mfi_ends _ _ _ _ instance).
  destruct (mfi_fresh_ends _ _ _ _ instance) as (F1 & F2 & F3 & F4).
  rewrite (net_out_prime_graph nodes edges source sink),
    (net_out_prime_node nodes edges source sink instance g sink sink_listed) in C.
  unfold sgn in C at 1. cbn [fst snd] in C.
  destruct (node_eq_dec sink sink) as [_|?]; [|congruence].
  destruct (node_eq_dec source sink) as [?|_]; [congruence|].
  assert (Ip : forall e, In e (flat_map prime_edges_of nodes) ->
                 In e (prime_graph nodes edges source sink))
    by (intros e I; apply prime_graph_in; auto).
  assert (S0 : 0 <= g (sink, source)).
  { apply B. apply prime_graph_in. auto. }
  assert (S1 : g (s_prime, sink) <= lower_in lower edges sink).
  { assert (I : In (s_prime, sink) (flat_map prime_edges_of nodes))
      by (apply in_prime_edges; exists sink; auto).
    destruct (B _ (Ip _ I)) as [_ U]. rewrite (prime_caps_value _ (Ip _ I)) in U.
    destruct (edge_eq_dec (sink, source) (s_prime, sink)) as [E|_]; [congruence|].
    destruct (in_dec edge_eq_dec (s_prime, sink) edges) as [J|_].
    - exfalso. destruct (mfi_fresh_edges _ _ _ _ instance _ _ J). congruence.
    - rewrite prime_capacity_from_source in U. exact U. }
  assert (S2 : 0 <= g (sink, t_prime)).
  { apply B. apply Ip. apply in_prime_edges. exists sink. auto. }
  assert (S3 : (-1) * net_out g edges sink + lower_in lower edges sink
               <= total_capacity upper edges).
  { unfold net_out, lower_in, total_capacity.
    rewrite <- wsum_scale, <- wsum_plus. apply wsum_le. intros e I.
    destruct (B e) as [L U]; [apply prime_graph_in; auto|].
    rewrite (prime_caps_value e) in U by (apply prime_graph_in; auto).
    destruct (edge_eq_dec (sink, source) e) as [<-|_].
    { exfalso. apply (back_edge_fresh nodes edges source sink instance). exact I. }
    destruct (in_dec edge_eq_dec e edges); [|contradiction].
    destruct (bounds_at edges lower upper bounds e I) as (_ & Eu & R).
    unfold value_of. rewrite Eu. cbn [le_hi int_of] in *. unfold sgn.
    destruct (node_eq_dec (fst e) sink), (node_eq_dec (snd e) sink); lia. }
  lia.
Qed.

(** So the residual graph of a flow in the graph is built when the upper
    bounds together are within the double range. *)
Lemma prime_entries_total flow e :
  Num.huge (total_capacity upper edges) = false ->
  flow_state (prime_graph nodes edges source sink) (fun _ => 0)
    (value_of (prime_caps nodes edges lower upper source sink)) s_prime t_prime flow ->
  In e (prime_graph nodes edges source sink) ->
  exists xy,
    max_flow_entries (prime_caps nodes edges lower upper source sink) flow e = Ok xy.
Proof.
  intros Sm St I.
  destruct (mfi_fresh_ends _ _ _ _ instance) as (F1 & F2 & F3 & F4).
  assert (At : forall e, In e (prime_graph nodes edges source sink) ->
                 eget flow e = Some (Int (flow_at flow e))
                 /\ 0 <= flow_at flow e
                 /\ le_hi (flow_at flow e)
                      (value_of (prime_caps nodes edges lower upper source sink) e)).
  { intros k Ik. destruct (fs_bounded _ _ _ _ _ _ St k Ik) as (f & F & L & U).
    assert (E : flow_at flow k = f) by (unfold flow_at, value_of; rewrite F; reflexivity).
    rewrite E. auto. }
  destruct (At e I) as (F & _).
  destruct (prime_caps_defined e I) as [c Hc].
  rewrite (max_flow_entries_fits _ _ _ _ _ Hc F); [eauto|].
  rewrite (prime_caps_get nodes edges lower upper source sink) in Hc.
  destruct (edge_eq_dec (sink, source) e) as [<-|_].
  - apply overflows_small.
    destruct (back_flow_bound (flow_at flow) (fun k Ik => proj2 (At k Ik))
                (fs_conserving _ _ _ _ _ _ St sink F3 F4)) as [L U].
    apply (huge_between 0 (total_capacity upper edges)); [reflexivity | exact Sm | lia].
  - destruct (in_dec edge_eq_dec e edges); [inversion Hc; reflexivity|].
    destruct (in_dec edge_eq_dec e (flat_map prime_edges_of nodes));
      inversion Hc; reflexivity.
Qed.

(** The first phase: when a feasible flow of non-negative value exists,
    the maximum flow of the graph carries all the lower bounds, and
    with the lower bounds added it is a feasible flow. *)
Lemma construct_feasible_flow_state strat sfuel fuel :
  Num.huge (total_capacity upper edges) = false ->
  strat <> MinBottleneck ->
  (search_fuel strat (2 * List.length (prime_graph nodes edges source sink)) <= sfuel)%nat ->
  (Z.to_nat (total_lower lower edges) <= fuel)%nat ->
  (exists g, feasible_for edges lower upper source sink g /\ 0 <= net_out g edges source) ->
  exists feasible,
    construct_feasible_flow fuel nodes edges lower upper source sink (search strat sfuel)
    = Ok feasible
    /\ flow_state edges (fun e => int_of (value_of lower e)) (value_of upper)
         source sink feasible.
Proof.
  intros Sm NM SF Fu (g & Fg & Vg).
  assert (OWp := one_way_prime nodes edges source sink instance).
  destruct (mfi_fresh_nodes _ _ _ _ instance) as [NS NT].
  destruct (mfi_fresh_ends _ _ _ _ instance) as (F1 & F2 & F3 & F4).
  assert (Lo : forall e, In e edges -> exists z, eget lower e = Some (Int z)).
  { intros e I. destruct (bounds e I) as (lo & up & L & _). eauto. }
  assert (PF := prime_path_finite nodes edges lower upper source sink instance
                  (int_bounds_or_inf _ _ _ bounds)
                  _ _ (prime_capacities_eq lower edges nodes [] NS Lo)
                  (window_capacities_eq lower upper edges _ bounds)).
  change (add_prime_edges nodes edges ++ [(sink, source)])
    with (prime_graph nodes edges source sink) in OWp, PF.
  change (eset _ (sink, source) PosInf)
    with (prime_caps nodes edges lower upper source sink) in PF.
  set (ep := prime_graph nodes edges source sink) in *.
  set (caps := prime_caps nodes edges lower upper source sink) in *.
  assert (Dp : defined_on ep caps) by apply prime_caps_defined.
  assert (In_ep : forall e, In e edges -> In e ep)
    by (intros e I; apply prime_graph_in; auto).
  assert (SrcInt : forall e, In e ep -> fst e = s_prime ->
                     exists h, value_of caps e = Int h).
  { intros e I E. unfold caps. rewrite (prime_caps_value e I).
    destruct (edge_eq_dec (sink, source) e) as [<-|_]; [simpl in E; congruence|].
    destruct (in_dec edge_eq_dec e edges); eauto. }
  destruct (progress_augmenting ep (fun _ => 0) (value_of caps) (max_flow_entries caps)
              (MaximumFlow.construct_residual_graph ep caps) s_prime t_prime
              strat sfuel OWp
              (construct_residual_graph_with ep caps)
              (fun flow e f xy _ => max_flow_entries_value caps flow e f xy)
              (fun flow e => prime_entries_total flow e Sm)
              (fun _ _ => Z.le_refl 0) SrcInt PF s_prime_t_prime SF)
    with (fuel := fuel) (flow0 := @None edict)
    as (fp & re & rc & R & St & B & Fin & _ & _).
  - simpl. apply zero_flow_state; [apply OWp|]. intros e I.
    apply prime_caps_le_hi. assumption.
  - simpl initial_flow. rewrite net_out_zero, Z.sub_0_r. unfold ep, caps.
    rewrite prime_capacity_total. assumption.
  - destruct (extend_feasible g Fg Vg) as (g' & Bg' & Cg' & Vg').
    assert (Max := residual_cut ep (fun _ => 0) (value_of caps) (max_flow_entries caps)
                     (MaximumFlow.construct_residual_graph ep caps) s_prime t_prime OWp
                     (construct_residual_graph_with ep caps)
                     (fun flow e f xy _ => max_flow_entries_value caps flow e f xy)
                     fp re rc g' St B (Fin NM) Bg' Cg').
    unfold ep in Max. rewrite Vg' in Max.
    assert (At : forall e, In e ep ->
                   eget fp e = Some (Int (flow_at fp e))
                   /\ 0 <= flow_at fp e /\ le_hi (flow_at fp e) (value_of caps e)).
    { intros e I. destruct (fs_bounded _ _ _ _ _ _ St e I) as (f & F & L & U).
      assert (E : flow_at fp e = f) by (unfold flow_at, value_of; rewrite F; reflexivity).
      rewrite E. auto. }
    assert (Cons := full_prime_conserving (flow_at fp) (fun e I => proj2 (At e I))
                      (fs_conserving _ _ _ _ _ _ St) Max).
    destruct (rebuild_total (fun x e => lo <- elookup lower e ;; Num.add x lo)
                fp edges) with (acc := @nil (edge * num)) as [F Rb].
    { intros e I. destruct (At e (In_ep e I)) as (Ef & _).
      destruct (bounds_at edges lower upper bounds e I) as (El & _).
      exists (Int (flow_at fp e)), (Int (flow_at fp e + flow_at lower e)).
      split; [assumption|]. rewrite (elookup_eget _ _ _ El). reflexivity. }
    assert (GF : forall e, In e edges ->
                   eget F e = Some (Int (flow_at fp e + flow_at lower e))).
    { intros e I.
      destruct (rebuild_get _ _ _ _ _ Rb e (or_introl I)) as (x & y & Hx & Hy & Hf).
      destruct (At e (In_ep e I)) as (Ef & _).
      destruct (bounds_at edges lower upper bounds e I) as (El & _).
      rewrite Ef in Hx. injection Hx as <-.
      rewrite (elookup_eget _ _ _ El) in Hy. cbn [bind] in Hy. simpl in Hy.
      injection Hy as <-. exact Hf. }
    assert (C : construct_feasible_flow fuel nodes edges lower upper source sink
                  (search strat sfuel) = Ok F).
    { rewrite construct_feasible_flow_eq by assumption. unfold ford_fulkerson.
      fold ep caps. rewrite R. cbn [bind]. exact Rb. }
    exists F. split; [exact C|]. constructor.
    + apply (rebuild_ekeys _ _ edges [] F (proj1 (mfi_edges _ _ _ _ instance))
               (fun _ _ H => H) Rb).
    + apply (construct_feasible_flow_within strat sfuel fuel nodes edges lower upper
               source sink F instance (int_bounds_or_inf _ _ _ bounds) C).
    + intros n N1 N2. rewrite <- (Cons n N1 N2). unfold net_out. apply wsum_ext.
      intros e I. f_equal. unfold flow_at, value_of. rewrite (GF e I). reflexivity.
Qed.

End MinFlowConstruct.

(** X17.  [minimum_flow] without a feasible flow: on a graph whose edge
    list has no repeated edge, no edge with its reverse and no edge
    between source and sink, whose nodes exclude the two reserved names and
    include all end points, with int bounds [0 <= lower <= upper] whose
    upper bounds together are within the double range (the flow that
    meets the infinite capacity of the added edge is no more), when
    some flow within the bounds and conserved at the inner nodes has a
    non-negative value, and with enough fuel for both loops, the function
    returns a flow with its value; the flow is within the bounds and
    conserved at the inner nodes, and no such flow has a smaller value. *)
Theorem minimum_flow_minimum :
  forall strat sfuel fuel nodes edges lower upper source sink,
    min_flow_instance nodes edges source sink -> int_bounds edges lower upper ->
    Num.huge (total_capacity upper edges) = false ->
    (forall u v, In (u, v) edges -> In u nodes /\ In v nodes) ->
    In source nodes -> In sink nodes -> strat <> MinBottleneck ->
    (search_fuel strat (2 * (List.length edges + 2 * List.length nodes + 1)) <= sfuel)%nat ->
    (Z.to_nat (total_capacity upper edges) <= fuel)%nat ->
    (exists g, feasible_for edges lower upper source sink g
               /\ 0 <= net_out g edges source) ->
    exists min_flow,
      minimum_flow fuel nodes edges lower upper source sink (search strat sfuel) None
      = Ok (min_flow, Int (net_out (flow_at min_flow) edges source))
      /\ flow_state edges (fun e => int_of (value_of lower e)) (value_of upper)
           source sink min_flow
      /\ forall g, feasible_for edges lower upper source sink g ->
           net_out (flow_at min_flow) edges source <= net_out g edges source.
Proof.
  intros strat sfuel fuel nodes edges lower upper source sink MI IB Sm Ends Is It NM SF
    Fu Ex.
  assert (OW := mfi_edges _ _ _ _ MI). assert (NE := mfi_ends _ _ _ _ MI).
  assert (T1 := total_lower_le edges lower upper IB).
  destruct (construct_feasible_flow_state nodes edges lower upper source sink MI IB Ends
              Is It strat sfuel fuel Sm NM) as (F & C & St); [| lia | assumption |].
  { rewrite prime_graph_length. assumption. }
  assert (T2 := phase_two_fuel edges lower upper F sink IB (fs_bounded _ _ _ _ _ _ St)).
  destruct (ford_fulkerson_min_flow_progress strat sfuel fuel edges lower upper
              sink source F OW IB (not_eq_sym NE) (flow_state_sym _ _ _ _ _ _ St))
    as (flow & re & rc & R & St0 & _ & B & Fin); [| lia |].
  { apply (Nat.le_trans _ (search_fuel strat (2 * (List.length edges
                             + 2 * List.length nodes + 1)))); [|assumption].
    apply search_fuel_mono. unfold edge in *. lia. }
  assert (St' := flow_state_sym _ _ _ _ _ _ St0).
  assert (V : forall g, conserving g edges source sink ->
                net_out g edges sink = - net_out g edges source)
    by (intros g; apply conserving_value; assumption).
  exists flow. unfold minimum_flow. rewrite C. cbn [bind]. rewrite R. cbn [bind].
  rewrite (V _ (fs_conserving _ _ _ _ _ _ St')). simpl Num.neg. rewrite Z.opp_involutive.
  split; [reflexivity|]. split; [assumption|].
  intros g [Bg Cg].
  assert (Max := min_flow_cut edges lower upper sink source flow re rc g OW IB St0 B
                   (Fin NM)).
  rewrite (V _ (fs_conserving _ _ _ _ _ _ St')), (V g Cg) in Max.
  assert (M : - net_out g edges source <= - net_out (flow_at flow) edges source); [|lia].
  apply Max; [|apply conserving_sym; assumption].
  intros e I. specialize (Bg e I).
  destruct (bounds_at edges lower upper IB e I) as (_ & Eu & _).
  unfold value_of at 2. rewrite Eu. simpl. exact Bg.
Qed.

Lemma chain_min_flow_instance :
  min_flow_instance Examples.chain_nodes Examples.chain_edges "s"%string "t"%string.
Proof.
  constructor.
  - exact chain_one_way.
  - repeat constructor; simpl; intuition discriminate.
  - intros u v I. simpl in I.
    repeat match goal with
    | H : _ \/ _ |- _ => destruct H
    | H : (_, _) = (_, _) |- _ => inversion H; clear H; subst
    | H : False |- _ => destruct H
    end; repeat split; discriminate.
  - split; simpl; intuition discriminate.
  - repeat split; discriminate.
  - discriminate.
  - split; simpl; intuition discriminate.
Qed.

Lemma chain_feasible :
  feasible_for Examples.chain_edges Examples.chain_lower Examples.chain_upper
    "s"%string "t"%string (fun _ => 2).
Proof.
  split.
  - intros e I. simpl in I.
    repeat match goal with
    | H : _ \/ _ |- _ => destruct H
    | H : False |- _ => destruct H
    end; subst; vm_compute; split; discriminate.
  - intros n N1 N2. unfold net_out.
    change Examples.chain_edges with [("s", "a"); ("a", "t")]%string.
    cbn [wsum]. unfold sgn. cbn [fst snd].
    destruct (node_eq_dec "s"%string n); [congruence|].
    destruct (node_eq_dec "t"%string n); [congruence|].
    destruct (node_eq_dec "a"%string n); lia.
Qed.

Lemma minimum_flow_minimum_witness :
  exists min_flow,
    minimum_flow 6 Examples.chain_nodes Examples.chain_edges Examples.chain_lower
      Examples.chain_upper "s"%string "t"%string (search BreadthFirst 20) None
    = Ok (min_flow, Int (net_out (flow_at min_flow) Examples.chain_edges "s"%string))
    /\ flow_state Examples.chain_edges
         (fun e => int_of (value_of Examples.chain_lower e))
         (value_of Examples.chain_upper) "s"%string "t"%string min_flow
    /\ forall g,
         feasible_for Examples.chain_edges Examples.chain_lower Examples.chain_upper
           "s"%string "t"%string g ->
         net_out (flow_at min_flow) Examples.chain_edges "s"%string
         <= net_out g Examples.chain_edges "s"%string.
Proof.
  apply (minimum_flow_minimum BreadthFirst 20 6 Examples.chain_nodes
           Examples.chain_edges Examples.chain_lower Examples.chain_upper
           "s"%string "t"%string).
  - exact chain_min_flow_instance.
  - exact chain_int_bounds.
  - reflexivity.
  - intros u v I. simpl in I.
    repeat match goal with
    | H : _ \/ _ |- _ => destruct H
    | H : (_, _) = (_, _) |- _ => inversion H; clear H; subst
    | H : False |- _ => destruct H
    end; simpl; auto.
  - simpl. auto.
  - simpl. auto.
  - discriminate.
  - vm_compute. lia.
  - vm_compute. lia.
  - exists (fun _ => 2). split; [exact chain_feasible|]. vm_compute. discriminate.
Defined.

(** ** The parents of [bellman_ford] form a tree *)

Lemma ancestor_trans parents a b c :
  ancestor parents a b -> ancestor parents b c -> ancestor parents a c.
Proof.
  intros Hab Hbc. induction Hbc as [b c L|b c c' Hbc IH L].
  - apply (ancestor_step parents a b c Hab L).
  - apply (ancestor_step parents a c c' (IH Hab) L).
Qed.

(** Where a new link from [u] to [v] can take an ancestry. *)
Lemma ancestor_new_link parents u v a b :
  ~ (v = u \/ ancestor parents v u) ->
  ancestor (nset parents v (Some u)) a b ->
  ancestor parents a b
  \/ ((a = u \/ ancestor parents a u) /\ (b = v \/ ancestor parents v b)).
Proof.
  intros NB H. induction H as [a b L|a b c H IH L].
  - destruct (node_eq_dec v b) as [<-|N].
    + rewrite nget_nset_same in L. inversion L; subst a. right. auto.
    + rewrite nget_nset_other in L by assumption. left. constructor. assumption.
  - destruct (node_eq_dec v c) as [<-|N].
    + rewrite nget_nset_same in L. inversion L; subst b. right.
      destruct IH as [IH|[IH1 IH2]]; [auto|].
      exfalso. apply NB. destruct IH2 as [->|IH2]; auto.
    + rewrite nget_nset_other in L by assumption.
      destruct IH as [IH|[IH1 [->|IH2]]].
      * left. apply (ancestor_step parents a b c IH L).
      * right. split; [assumption|]. right. constructor. assumption.
      * right. split; [assumption|]. right. apply (ancestor_step parents v b c IH2 L).
Qed.

Lemma acyclic_new_link parents u v :
  acyclic parents -> ~ (v = u \/ ancestor parents v u) ->
  acyclic (nset parents v (Some u)).
Proof.
  intros A NB a H. destruct (ancestor_new_link parents u v a a NB H) as [H'|[H1 H2]].
  - apply (A a H').
  - apply NB. destruct H1 as [->|H1]; destruct H2 as [E|H2]; auto.
    + subst a. auto.
    + right. apply (ancestor_trans parents v a u); assumption.
Qed.

Section ParentTree.
Variables (nodes : list node) (edges : list edge) (weights : edict) (s : node).
Hypothesis graph : weighted_graph nodes edges weights.
Hypothesis no_cycle : no_negative_cycle edges weights s.

(** Along the parents the distances grow by at least the weights. *)
Lemma ancestor_walk p d a b :
  bf_inv nodes edges weights s p d -> ancestor p a b ->
  exists q za zb,
    walk edges a b q /\ nget d a = Some (Int za) /\ nget d b = Some (Int zb)
    /\ za + walk_weight weights q <= zb.
Proof.
  intros Inv H. induction H as [a b L|a b c H IH L].
  - destruct (bf_parent _ _ _ _ _ _ Inv b a L) as (Ie & za & zb & Ha & Hb & Le).
    exists [a; b], za, zb. split; [|split; [assumption|split; [assumption|]]].
    + split; [reflexivity|]. split; [reflexivity|]. constructor; [assumption|constructor].
    + unfold walk_weight. simpl. lia.
  - destruct IH as (q & za & zb & Wq & Ha & Hb & Le).
    destruct (bf_parent _ _ _ _ _ _ Inv c b L) as (Ie & zb' & zc & Hb' & Hc & Le').
    rewrite Hb in Hb'. inversion Hb'; subst zb'.
    exists (q ++ [c]), za, zc. split; [|split; [assumption|split; [assumption|]]].
    + apply (walk_snoc edges a b c q Wq Ie).
    + rewrite (walk_weight_snoc weights b c q (proj1 (proj2 Wq))). lia.
Qed.

(** One relaxation keeps the parents free of cycles: a cycle through
    the new link would have negative weight. *)
Lemma relax_acyclic p d u v p' d' :
  bf_inv nodes edges weights s p d -> In (u, v) edges -> acyclic p ->
  relax (u, v) weights p d = Ok (p', d') -> acyclic p'.
Proof.
  intros Inv I A H. destruct graph as (_ & Ends & _). destruct (Ends u v I) as [Iu Iv].
  destruct (bf_keys _ _ _ _ _ _ Inv u (or_introl Iu)) as [(du & Hu) _].
  destruct (bf_keys _ _ _ _ _ _ Inv v (or_introl Iv)) as [(dv & Hv) _].
  set (w := weight_of weights (u, v)) in *.
  unfold relax in H. rewrite (proj2 (nlookup_Ok d v dv) Hv) in H. cbn [bind] in H.
  rewrite (proj2 (nlookup_Ok d u du) Hu) in H. cbn [bind] in H.
  rewrite (elookup_eget _ _ _ (weight_at nodes edges weights graph u v I)) in H.
  cbn [bind] in H. fold w in H. inv_bind H as x Hx. apply add_Ok in Hx. subst x.
  destruct (Num.gtb dv (Num.plus du (Int w))) eqn:G; inversion H; subst p' d'; clear H;
    [|assumption].
  apply acyclic_new_link; [assumption|].
  destruct (bf_walk _ _ _ _ _ _ Inv u du Hu) as [->|(q & Wq & ->)].
  { exfalso. destruct dv; discriminate. }
  set (zu := walk_weight weights q) in *. simpl Num.plus in G.
  intros [E|An].
  - subst v. rewrite Hu in Hv. inversion Hv; subst dv.
    unfold Num.gtb, Num.ltb in G. apply Z.ltb_lt in G.
    assert (C : walk edges u u [u; u]).
    { split; [reflexivity|]. split; [reflexivity|]. constructor; [assumption|constructor]. }
    pose proof (no_cycle u q [u; u] Wq C) as P. unfold walk_weight in P. simpl in P.
    fold w in P. lia.
  - destruct (ancestor_walk p d v u Inv An) as (c & zv & zu' & Wc & Hv' & Hu' & Le).
    rewrite Hu in Hu'. inversion Hu'; subst zu'.
    rewrite Hv in Hv'. inversion Hv'; subst dv.
    unfold Num.gtb, Num.ltb in G. apply Z.ltb_lt in G.
    destruct (bf_walk _ _ _ _ _ _ Inv v _ Hv) as [E|(qv & Wv & _)]; [discriminate|].
    pose proof (no_cycle v qv (c ++ [v]) Wv (walk_snoc edges v u v c Wc I)) as P.
    rewrite (walk_weight_snoc weights u v c (proj1 (proj2 Wc))) in P. fold w in P. lia.
Qed.

Lemma relax_all_acyclic : forall es p d p' d',
  incl es edges -> bf_inv nodes edges weights s p d -> acyclic p ->
  relax_all es weights p d = Ok (p', d') -> acyclic p'.
Proof.
  induction es as [|[u v] rest IH]; intros p d p' d' Inc Inv A H.
  - simpl in H. inversion H; subst. assumption.
  - assert (I : In (u, v) edges) by (apply Inc; simpl; auto).
    cbn [relax_all] in H. inv_bind H as [p1 d1] R.
    destruct (relax_spec nodes edges weights s graph p d u v p1 d1 Inv I R)
      as (Inv1 & _).
    apply (IH p1 d1 p' d'); try assumption.
    + intros e Ie. apply Inc. simpl; auto.
    + apply (relax_acyclic p d u v p1 d1 Inv I A R).
Qed.

Lemma relax_rounds_acyclic : forall r p d p' d',
  bf_inv nodes edges weights s p d -> acyclic p ->
  relax_rounds r edges weights p d = Ok (p', d') -> acyclic p'.
Proof.
  induction r as [|r IH]; intros p d p' d' Inv A H.
  - simpl in H. inversion H; subst. assumption.
  - cbn [relax_rounds] in H. inv_bind H as [p1 d1] R.
    destruct (relax_all_spec nodes edges weights s graph edges p d p1 d1
                (incl_refl _) Inv R) as (Inv1 & _).
    apply (IH p1 d1 p' d' Inv1); [|assumption].
    apply (relax_all_acyclic edges p d p1 d1 (incl_refl _) Inv A R).
Qed.

End ParentTree.

Lemma initialise_acyclic nodes s p d :
  initialise nodes s [] [] = (p, d) -> acyclic p.
Proof.
  intros H. destruct (initialise_spec nodes s p d H) as [_ P].
  assert (L : forall a b, nget p b <> Some (Some a)).
  { intros a b E. rewrite P in E. destruct (node_eq_dec b s); [discriminate|].
    destruct (in_dec node_eq_dec b nodes); discriminate. }
  intros a An. inversion An as [a' b' E|a' b' c' _ E]; apply (L _ _ E).
Qed.

(** What [bellman_ford] has when it returns parents and distances. *)
Lemma bellman_ford_tree nodes edges weights s parents distances :
  weighted_graph nodes edges weights ->
  bellman_ford nodes edges weights s = Ok (nodes, Some parents, Some distances) ->
  bf_inv nodes edges weights s parents distances
  /\ settled edges weights distances
  /\ acyclic parents
  /\ nget distances s = Some (Int 0)
  /\ nget parents s = Some None.
Proof.
  intros G H.
  destruct (bellman_ford_inv nodes edges weights s _ G H)
    as (p & d & b & R & _ & Inv & _ & Sp & E).
  destruct b; inversion E; subst parents distances. clear H E.
  assert (St : settled edges weights d) by (apply Sp; reflexivity).
  assert (NC := settled_no_negative_cycle nodes edges weights s p d Inv St).
  assert (Z : nget d s = Some (Int 0)).
  { destruct (bf_source _ _ _ _ _ _ Inv) as (z & Hz & Lz).
    destruct (bf_walk _ _ _ _ _ _ Inv s _ Hz) as [E|(q & Wq & E)]; [discriminate|].
    inversion E; subst z.
    pose proof (NC s [s] q (walk_source edges s) Wq). rewrite Hz. f_equal. f_equal. lia. }
  split; [assumption|]. split; [assumption|]. split; [|split; [assumption|]].
  - destruct (initialise nodes s [] []) as [p0 d0] eqn:I0.
    apply (relax_rounds_acyclic nodes edges weights s G NC
             (Nat.pred (List.length nodes)) p0 d0 p d
             (bf_inv_init nodes edges weights s p0 d0 I0)
             (initialise_acyclic nodes s p0 d0 I0) R).
  - destruct (bf_root _ _ _ _ _ _ Inv) as [Rt|(z & Hz & Lz)]; [assumption|].
    rewrite Z in Hz. inversion Hz; subst z. lia.
Qed.

(** A parent link of the final tree is an edge over which the distance
    is exact. *)
Lemma parent_link_exact nodes edges weights s p d u v :
  bf_inv nodes edges weights s p d -> settled edges weights d ->
  nget p v = Some (Some u) ->
  In (u, v) edges
  /\ exists zu, nget d u = Some (Int zu)
       /\ nget d v = Some (Int (zu + weight_of weights (u, v))).
Proof.
  intros Inv St L.
  destruct (bf_parent _ _ _ _ _ _ Inv v u L) as (Ie & zu & zv & Hu & Hv & Le).
  split; [assumption|]. exists zu. split; [assumption|].
  destruct (St u v Ie) as (du & dv & Hu' & Hv' & Gt).
  rewrite Hu in Hu'. rewrite Hv in Hv'. inversion Hu'; inversion Hv'; subst du dv.
  simpl in Gt. unfold Num.gtb, Num.ltb in Gt. apply Z.ltb_ge in Gt.
  rewrite Hv. f_equal. f_equal. lia.
Qed.

Section PathToRoot.
Variables (nodes : list node) (edges : list edge) (weights : edict) (s : node).
Variables (p : ndict (option node)) (d : ndict num).
Hypothesis graph : weighted_graph nodes edges weights.
Hypothesis named : ~ In EmptyString nodes.
Hypothesis inv : bf_inv nodes edges weights s p d.
Hypothesis exact : settled edges weights d.
Hypothesis tree : acyclic p.
Hypothesis source_zero : nget d s = Some (Int 0).

Lemma parent_truthy v u : nget p v = Some (Some u) -> parent_of (Some u) = Some u.
Proof.
  intros L. destruct (bf_parent _ _ _ _ _ _ inv v u L) as (Ie & _).
  destruct graph as (_ & Ends & _). destruct (Ends u v Ie) as [Iu _].
  destruct u; [contradiction | reflexivity].
Qed.

(** The walk up the tree from [cur], with the part of the path below
    [cur] already collected. *)
Lemma path_to_root_from t : forall fuel cur par rest acc zc,
  nget p cur = Some par ->
  nget d cur = Some (Int zc) ->
  NoDup (cur :: rest) -> incl (cur :: rest) nodes ->
  (forall x, In x rest -> ancestor p cur x) ->
  parent_chain p (cur :: rest) ->
  last_node (cur :: rest) = Ok t ->
  acc = rev (get_path_edges (cur :: rest)) ->
  (List.length nodes <= fuel + List.length (cur :: rest))%nat ->
  exists q,
    path_to_root fuel p cur par acc = Ok (rev (get_path_edges q))
    /\ hd_error q = Some s /\ last_node q = Ok t
    /\ NoDup q /\ parent_chain p q
    /\ walk_weight weights q = walk_weight weights (cur :: rest) + zc.
Proof.
  induction fuel as [|fuel IH]; intros cur par rest acc zc Hp Hd ND Inc Anc Ch L Ea Fu.
  - destruct par as [u|].
    + exfalso. destruct (bf_parent _ _ _ _ _ _ inv cur u Hp) as (Ie & _).
      destruct graph as (_ & Ends & _). destruct (Ends u cur Ie) as [Iu _].
      assert (NDu : NoDup (u :: cur :: rest)).
      { constructor; [|assumption]. intros [E|I].
        - subst u. apply (tree cur). constructor. assumption.
        - apply (tree u). apply (ancestor_trans p u cur u); [|apply Anc; assumption].
          constructor. assumption. }
      assert (Len := NoDup_incl_length NDu (l' := nodes)).
      assert (Inc' : incl (u :: cur :: rest) nodes).
      { intros x [<-|I]; [assumption | apply Inc; assumption]. }
      specialize (Len Inc'). simpl in Len, Fu. lia.
    + destruct (bf_orphan _ _ _ _ _ _ inv cur Hp) as [->|E]; [|congruence].
      exists (s :: rest). simpl path_to_root. rewrite Ea.
      rewrite source_zero in Hd. inversion Hd; subst zc.
      split; [reflexivity|]. split; [reflexivity|]. split; [assumption|].
      split; [assumption|]. split; [assumption|]. lia.
  - destruct par as [u|].
    + destruct (parent_link_exact nodes edges weights s p d u cur inv exact Hp)
        as (Ie & zu & Hu & Hc).
      destruct graph as (_ & Ends & _). destruct (Ends u cur Ie) as [Iu _].
      destruct (bf_keys _ _ _ _ _ _ inv u (or_introl Iu)) as [_ (pu & Hpu)].
      assert (NDu : NoDup (u :: cur :: rest)).
      { constructor; [|assumption]. intros [E|I].
        - subst u. apply (tree cur). constructor. assumption.
        - apply (tree u). apply (ancestor_trans p u cur u); [|apply Anc; assumption].
          constructor. assumption. }
      assert (Inc' : incl (u :: cur :: rest) nodes).
      { intros x [<-|I]; [assumption | apply Inc; assumption]. }
      cbn [path_to_root]. rewrite (parent_truthy cur u Hp).
      rewrite (proj2 (nlookup_Ok p u pu) Hpu). cbn [bind].
      destruct (IH u pu (cur :: rest) (acc ++ [(u, cur)]) zu Hpu Hu NDu Inc')
        as (q & R & Hq & Lq & NDq & Chq & Wq).
      * intros x [<-|I]; [constructor; assumption|].
        apply (ancestor_trans p u cur x); [constructor; assumption | apply Anc; assumption].
      * constructor; [exact Hp | exact Ch].
      * rewrite last_node_cons. exact L.
      * rewrite Ea. reflexivity.
      * simpl in *. lia.
      * exists q. split; [assumption|]. split; [assumption|]. split; [assumption|].
        split; [assumption|]. split; [assumption|].
        rewrite Wq. rewrite Hd in Hc. inversion Hc; subst zc.
        unfold walk_weight. simpl. lia.
    + destruct (bf_orphan _ _ _ _ _ _ inv cur Hp) as [->|E]; [|congruence].
      exists (s :: rest). simpl path_to_root. rewrite Ea.
      rewrite source_zero in Hd. inversion Hd; subst zc.
      split; [reflexivity|]. split; [reflexivity|]. split; [assumption|].
      split; [assumption|]. split; [assumption|]. lia.
Qed.

End PathToRoot.

(** X18.  The walk up the tree in [minimum_cost_flow], on the parents
    that [bellman_ford] returns for a graph whose node list has no
    repetition, does not hold the empty name and contains the ends of the
    int-weighted edges: from a node [t] with a parent, and with as many
    iterations as there are nodes, the walk ends at the source; the edges
    it collects are, in reverse, those of a path from the source to [t]
    that visits no node twice, whose weight is the distance of [t], and
    no walk from the source to [t] weighs less. *)
Theorem path_to_root_shortest :
  forall nodes edges weights s parents distances t u fuel,
    weighted_graph nodes edges weights -> ~ In EmptyString nodes ->
    bellman_ford nodes edges weights s = Ok (nodes, Some parents, Some distances) ->
    nget parents t = Some (Some u) ->
    (List.length nodes <= fuel)%nat ->
    exists q,
      path_to_root fuel parents t (Some u) [] = Ok (rev (get_path_edges q))
      /\ walk edges s t q /\ NoDup q
      /\ nget distances t = Some (Int (walk_weight weights q))
      /\ forall q', walk edges s t q' -> walk_weight weights q <= walk_weight weights q'.
Proof.
  intros nodes edges weights s parents distances t u fuel G NE H L Fu.
  destruct (bellman_ford_tree nodes edges weights s parents distances G H)
    as (Inv & St & Ac & Z & _).
  destruct (bf_parent _ _ _ _ _ _ Inv t u L) as (Ie & zu & zt & _ & Ht & _).
  assert (It : In t nodes) by (destruct G as (_ & Ends & _); apply (Ends u t Ie)).
  destruct (path_to_root_from nodes edges weights s parents distances G NE Inv St Ac Z t
              fuel t (Some u) [] [] zt L Ht) as (q & R & Hq & Lq & NDq & Ch & W).
  - constructor; [intros []|constructor].
  - intros x [<-|[]]. assumption.
  - intros x [].
  - constructor.
  - reflexivity.
  - reflexivity.
  - simpl. lia.
  - exists q. split; [assumption|].
    assert (Wq : walk edges s t q).
    { split; [assumption|]. split; [assumption|].
      unfold parent_chain in Ch. rewrite Forall_forall in Ch. apply Forall_forall.
      intros [a b] I. apply (bf_parent _ _ _ _ _ _ Inv b a (Ch (a, b) I)). }
    split; [assumption|]. split; [assumption|].
    unfold walk_weight in W at 2. simpl in W. rewrite W.
    split; [assumption|].
    apply (settled_shortest nodes edges weights s parents distances t (Int zt) Inv St Ht).
Qed.

Lemma path_to_root_shortest_witness :
  exists q,
    path_to_root 3 [("s", None); ("a", Some "s"); ("t", Some "s")]%string "a"%string
      (Some "s"%string) []
    = Ok (rev (get_path_edges q))
    /\ walk fork_edges "s"%string "a"%string q /\ NoDup q
    /\ nget [("s", Int 0); ("a", Int 3); ("t", Int 1)]%string "a"%string
       = Some (Int (walk_weight fork_capacities q))
    /\ forall q', walk fork_edges "s"%string "a"%string q' ->
         walk_weight fork_capacities q <= walk_weight fork_capacities q'.
Proof.
  apply (path_to_root_shortest fork_nodes fork_edges fork_capacities "s"%string).
  - exact fork_weighted_graph.
  - simpl. intuition discriminate.
  - reflexivity.
  - reflexivity.
  - simpl. lia.
Defined.

(** ** The residual graph of [minimum_cost_flow] *)

Lemma cost_residual_loop_with capacities costs flow : forall edges rc0 rk0,
  (forall e, In e edges -> exists c, eget capacities e = Some c) ->
  (forall e, In e edges -> exists f, eget flow e = Some f) ->
  (forall e, In e edges -> exists k, eget costs e = Some k) ->
  MinimumCostFlow.residual_loop edges capacities costs flow rc0 rk0
  = (rc <- residual_with (max_flow_entries capacities flow) edges rc0 ;;
     rk <- residual_with (cost_entries costs) edges rk0 ;;
     Ok (rc, rk)).
Proof.
  induction edges as [|[u v] rest IH]; intros rc0 rk0 Dc Df Dk; [reflexivity|].
  destruct (Dc (u, v)) as (c & Hc); [simpl; auto|].
  destruct (Df (u, v)) as (f & Hf); [simpl; auto|].
  destruct (Dk (u, v)) as (k & Hk); [simpl; auto|].
  cbn [MinimumCostFlow.residual_loop residual_with].
  unfold max_flow_entries at 1. unfold cost_entries at 1.
  rewrite (elookup_eget _ _ _ Hc), (elookup_eget _ _ _ Hf), (elookup_eget _ _ _ Hk).
  cbn [bind]. destruct (Num.sub c f) as [r|err]; cbn [bind]; [|reflexivity].
  rewrite IH; [reflexivity | | |]; intros e I; [apply Dc|apply Df|apply Dk];
    simpl; auto.
Qed.

Lemma positive_edges_filter rc : forall keys,
  (forall k, In k keys -> exists z, eget rc k = Some (Int z)) ->
  positive_edges keys rc = Ok (filter (fun k => 0 <? flow_at rc k) keys).
Proof.
  induction keys as [|k rest IH]; intros D; [reflexivity|].
  destruct (D k) as (z & Hz); [simpl; auto|].
  cbn [positive_edges filter]. rewrite (elookup_eget _ _ _ Hz). cbn [bind].
  rewrite IH by (intros x I; apply D; simpl; auto). cbn [bind].
  assert (E : flow_at rc k = z) by (unfold flow_at, value_of; rewrite Hz; reflexivity).
  rewrite E. reflexivity.
Qed.

Lemma residual_supply_loop_get edges supply flow : forall nodes acc,
  (forall e, In e edges -> exists z, eget flow e = Some (Int z)) ->
  (forall n, In n nodes -> exists z, nget supply n = Some (Int z)) ->
  exists rs,
    residual_supply_loop nodes edges supply flow acc = Ok rs
    /\ forall n, nget rs n
         = if in_dec node_eq_dec n nodes
           then Some (Int (residual_supply_at supply edges (flow_at flow) n))
           else nget acc n.
Proof.
  induction nodes as [|a rest IH]; intros acc Df Ds.
  - exists acc. split; reflexivity.
  - destruct (Ds a) as (z & Hz); [simpl; auto|].
    cbn [residual_supply_loop]. rewrite (proj2 (nlookup_Ok supply a (Int z)) Hz).
    cbn [bind]. rewrite (sum_in_int flow edges a Df). cbn [bind].
    rewrite add_int. cbn [bind].
    rewrite (sum_out_int flow edges a Df). cbn [bind]. rewrite sub_int. cbn [bind].
    destruct (IH (nset acc a (Int (z + lower_in flow edges a - lower_out flow edges a)))
                Df)
      as (rs & R & G); [intros n I; apply Ds; simpl; auto|].
    exists rs. split; [exact R|]. intros n. rewrite G.
    destruct (in_dec node_eq_dec n rest) as [I|NI];
      destruct (in_dec node_eq_dec n (a :: rest)) as [I'|NI']; try reflexivity.
    + exfalso. apply NI'. simpl; auto.
    + destruct I' as [<-|I']; [|contradiction]. rewrite nget_nset_same.
      unfold residual_supply_at, supply_at. rewrite Hz, net_out_lower. simpl.
      f_equal. f_equal. lia.
    + rewrite nget_nset_other; [reflexivity|]. intros <-. apply NI'. simpl; auto.
Qed.

Section CostGraph.
Variables (nodes : list node) (edges : list edge).
Variables (capacities costs : edict) (supply : ndict num).
Hypothesis instance : cost_instance nodes edges capacities costs supply.

Lemma capacity_at e :
  In e edges ->
  eget capacities e = Some (Int (flow_at capacities e)) /\ 0 <= flow_at capacities e.
Proof.
  intros I. destruct (ci_capacities _ _ _ _ _ instance e I) as (c & Hc & Pc).
  unfold flow_at, value_of. rewrite Hc. auto.
Qed.

Lemma cost_at e : In e edges -> eget costs e = Some (Int (flow_at costs e)).
Proof.
  intros I. destruct (ci_costs _ _ _ _ _ instance e I) as (k & Hk).
  unfold flow_at, value_of. rewrite Hk. reflexivity.
Qed.

Lemma supply_int n : In n nodes -> nget supply n = Some (Int (supply_at supply n)).
Proof.
  intros I. destruct (ci_supply _ _ _ _ _ instance n I) as (z & Hz).
  unfold supply_at. rewrite Hz. reflexivity.
Qed.

Lemma flow_in_capacity flow e :
  bounded edges (fun _ => 0) (value_of capacities) flow -> In e edges ->
  eget flow e = Some (Int (flow_at flow e))
  /\ 0 <= flow_at flow e <= flow_at capacities e.
Proof.
  intros B I. destruct (B e I) as (f & F & L & U).
  destruct (capacity_at e I) as (Hc & _).
  unfold value_of in U. rewrite Hc in U. simpl in U.
  assert (E : flow_at flow e = f) by (unfold flow_at, value_of; rewrite F; reflexivity).
  rewrite E. auto.
Qed.

(** The residual graph of a flow within the capacities. *)
Lemma cost_residual_graph flow :
  bounded edges (fun _ => 0) (value_of capacities) flow ->
  exists rc rk rs,
    construct_residual_graph nodes edges capacities costs supply flow
    = Ok (filter (fun k => 0 <? flow_at rc k) (ekeys rc), rc, rk, rs)
    /\ (forall k, In k (ekeys rc) <-> In k edges \/ In (swap k) edges)
    /\ (forall e, In e edges ->
          eget rc e = Some (Int (flow_at capacities e - flow_at flow e))
          /\ eget rc (swap e) = Some (Int (flow_at flow e)))
    /\ (forall e, In e edges ->
          eget rk e = Some (Int (flow_at costs e))
          /\ eget rk (swap e) = Some (Int (- flow_at costs e)))
    /\ (forall n, In n nodes ->
          nget rs n = Some (Int (residual_supply_at supply edges (flow_at flow) n))).
Proof.
  intros B. destruct (ci_edges _ _ _ _ _ instance) as [ND OW].
  assert (Df : forall e, In e edges -> exists z, eget flow e = Some (Int z)).
  { intros e I. destruct (flow_in_capacity flow e B I) as (F & _). eauto. }
  assert (En : forall e, In e edges ->
             max_flow_entries capacities flow e
             = Ok (Int (flow_at capacities e - flow_at flow e), Int (flow_at flow e))).
  { intros e I. destruct (flow_in_capacity flow e B I) as (F & _).
    destruct (capacity_at e I) as (Hc & _). unfold max_flow_entries.
    rewrite (elookup_eget _ _ _ Hc), (elookup_eget _ _ _ F). reflexivity. }
  assert (Ek : forall e, In e edges ->
             cost_entries costs e = Ok (Int (flow_at costs e), Int (- flow_at costs e))).
  { intros e I. unfold cost_entries. rewrite (elookup_eget _ _ _ (cost_at e I)).
    reflexivity. }
  destruct (construct_with (max_flow_entries capacities flow) edges)
    as (rc & Rc & NDc & Kc & Gc); [intros e I; rewrite (En e I); eauto|].
  destruct (construct_with (cost_entries costs) edges)
    as (rk & Rk & NDk & Kk & Gk); [intros e I; rewrite (Ek e I); eauto|].
  destruct (residual_supply_loop_get edges supply flow nodes [] Df
              (ci_supply _ _ _ _ _ instance)) as (rs & Rs & Gs).
  assert (Pc : forall e, In e edges ->
             eget rc e = Some (Int (flow_at capacities e - flow_at flow e))
             /\ eget rc (swap e) = Some (Int (flow_at flow e))).
  { intros [u v] I. apply (Gc u v _ _ I (OW u v I) (En (u, v) I)). }
  exists rc, rk, rs. split; [|split; [exact Kc|split; [exact Pc|split]]].
  - unfold construct_residual_graph.
    rewrite cost_residual_loop_with.
    + change edict with (list (edge * num)) in *. rewrite Rc. cbn [bind]. rewrite Rk.
      cbn [bind]. rewrite positive_edges_filter.
      * cbn [bind]. rewrite Rs. reflexivity.
      * intros k I. apply Kc in I. destruct I as [I|I].
        -- destruct (Pc k I) as [P _]. eauto.
        -- destruct (Pc _ I) as [_ P]. rewrite swap_swap in P. eauto.
    + intros e I. destruct (capacity_at e I) as (Hc & _). eauto.
    + intros e I. destruct (Df e I) as (z & Hz). eauto.
    + intros e I. rewrite (cost_at e I). eauto.
  - intros [u v] I. apply (Gk u v _ _ I (OW u v I) (Ek (u, v) I)).
  - intros n I. rewrite Gs. destruct (in_dec node_eq_dec n nodes); [reflexivity|contradiction].
Qed.

End CostGraph.

(** ** Prices and negative cycles *)

Lemma walk_prices edges weights (pi : node -> Z) :
  (forall u v, In (u, v) edges -> pi v <= pi u + weight_of weights (u, v)) ->
  forall q a b, walk edges a b q -> pi b <= pi a + walk_weight weights q.
Proof.
  intros P. induction q as [|x q IH]; intros a b (Hd & L & F); [discriminate|].
  simpl in Hd. inversion Hd; subst x. destruct q as [|y q].
  - unfold last_node in L. simpl in L. inversion L; subst b.
    unfold walk_weight. simpl. lia.
  - rewrite last_node_cons in L. simpl in F. inversion F as [|? ? Fe Fr]; subst.
    assert (W : walk edges y b (y :: q)) by (split; [reflexivity|split; assumption]).
    specialize (IH y b W). specialize (P a y Fe).
    unfold walk_weight in *. simpl. simpl in IH. lia.
Qed.

Lemma prices_no_negative_cycle edges weights (pi : node -> Z) s :
  (forall u v, In (u, v) edges -> pi v <= pi u + weight_of weights (u, v)) ->
  no_negative_cycle edges weights s.
Proof.
  intros P u q c _ Wc. pose proof (walk_prices edges weights pi P c u u Wc). lia.
Qed.

(** Without a negative cycle [bellman_ford] returns parents and
    distances. *)
Lemma bellman_ford_total nodes edges weights s :
  weighted_graph nodes edges weights -> small_weights edges weights ->
  In s nodes ->
  no_negative_cycle edges weights s ->
  exists p d, bellman_ford nodes edges weights s = Ok (nodes, Some p, Some d).
Proof.
  intros G Sm Is NC.
  destruct (bellman_ford_run nodes edges weights s G Sm)
    as (p & d & b & _ & _ & Inv & W & Sp & E).
  assert (St := rounds_settle nodes edges weights s G p d Is NC Inv W).
  apply Sp in St. subst b. eauto.
Qed.

(** With a negative cycle it returns [None] twice. *)
Lemma bellman_ford_cycle nodes edges weights s :
  weighted_graph nodes edges weights -> small_weights edges weights ->
  ~ no_negative_cycle edges weights s ->
  bellman_ford nodes edges weights s = Ok (nodes, None, None).
Proof.
  intros G Sm NC.
  destruct (bellman_ford_run nodes edges weights s G Sm)
    as (p & d & b & _ & _ & Inv & W & Sp & E).
  destruct b; [assumption|]. exfalso. apply NC.
  apply (settled_no_negative_cycle nodes edges weights s p d Inv).
  apply Sp. reflexivity.
Qed.

(** ** The residual edges and their costs *)

Section ResidualEdges.
Variables (edges : list edge) (capacities costs : edict).
Hypothesis edges_one_way : one_way edges.

Lemma residual_cost_forward k :
  In k edges -> residual_cost edges costs k = flow_at costs k.
Proof.
  intros I. unfold residual_cost.
  destruct (in_dec edge_eq_dec k edges); [reflexivity | contradiction].
Qed.

Lemma residual_cost_backward k :
  In (swap k) edges -> residual_cost edges costs k = - flow_at costs (swap k).
Proof.
  intros I. unfold residual_cost.
  destruct (in_dec edge_eq_dec k edges) as [J|_]; [|reflexivity].
  exfalso. destruct k as [u v]. apply (proj2 edges_one_way v u I). exact J.
Qed.

(** Prices are optimal exactly when no residual edge has a negative
    reduced cost. *)
Lemma optimal_prices_residual g pi :
  optimal_prices edges capacities costs g pi
  <-> forall k, residual_edge edges capacities g k ->
        pi (snd k) <= pi (fst k) + residual_cost edges costs k.
Proof.
  split.
  - intros O [u v] [[I R]|[I R]].
    + rewrite residual_cost_forward by assumption. apply (O u v I). assumption.
    + rewrite residual_cost_backward by assumption. unfold swap in *. simpl in *.
      destruct (O v u I) as [_ O2]. specialize (O2 R). lia.
  - intros P u v I. split; intros R.
    + specialize (P (u, v) (or_introl (conj I R))).
      rewrite residual_cost_forward in P by assumption. exact P.
    + assert (I' : In (swap (v, u)) edges) by exact I.
      specialize (P (v, u) (or_intror (conj I' R))).
      rewrite residual_cost_backward in P by assumption. simpl in P.
      unfold swap in P. simpl in P. lia.
Qed.

End ResidualEdges.

Section CostResidual.
Variables (nodes : list node) (edges : list edge).
Variables (capacities costs : edict) (supply : ndict num).
Hypothesis instance : cost_instance nodes edges capacities costs supply.

(** The residual graph, in terms of the flow. *)
Lemma cost_residual_state flow :
  bounded edges (fun _ => 0) (value_of capacities) flow ->
  exists re rc rk rs,
    construct_residual_graph nodes edges capacities costs supply flow
    = Ok (re, rc, rk, rs)
    /\ (forall k, In k re <-> residual_edge edges capacities (flow_at flow) k)
    /\ (forall e, In e edges ->
          eget rc e = Some (Int (flow_at capacities e - flow_at flow e))
          /\ eget rc (swap e) = Some (Int (flow_at flow e)))
    /\ (forall k, In k re -> eget rk k = Some (Int (residual_cost edges costs k)))
    /\ weighted_graph nodes re rk
    /\ (forall n, In n nodes ->
          nget rs n = Some (Int (residual_supply_at supply edges (flow_at flow) n))).
Proof.
  intros B. assert (OW := ci_edges _ _ _ _ _ instance).
  destruct (cost_residual_graph nodes edges capacities costs supply instance flow B)
    as (rc & rk & rs & H & Kc & Pc & Pk & Ps).
  set (re := filter (fun k => 0 <? flow_at rc k) (ekeys rc)) in *.
  assert (Re : forall k, In k re <-> residual_edge edges capacities (flow_at flow) k).
  { intros k. unfold re. rewrite filter_In, Kc, Z.ltb_lt. unfold residual_edge. split.
    - intros [[I|I] P]; [left | right]; (split; [assumption|]).
      + destruct (Pc k I) as [E _]. unfold flow_at at 1, value_of in P. rewrite E in P.
        simpl in P. lia.
      + destruct (Pc _ I) as [_ E]. rewrite swap_swap in E.
        unfold flow_at at 1, value_of in P. rewrite E in P. exact P.
    - intros [[I P]|[I P]]; (split; [auto|]).
      + destruct (Pc k I) as [E _]. unfold flow_at at 1, value_of. rewrite E. simpl. lia.
      + destruct (Pc _ I) as [_ E]. rewrite swap_swap in E.
        unfold flow_at at 1, value_of. rewrite E. exact P. }
  assert (Rk : forall k, In k re -> eget rk k = Some (Int (residual_cost edges costs k))).
  { intros k I. apply Re in I. destruct I as [[I _]|[I _]].
    - rewrite (residual_cost_forward edges costs k I). apply (Pk k I).
    - rewrite (residual_cost_backward edges costs OW k I).
      destruct (Pk _ I) as [_ E]. rewrite swap_swap in E. exact E. }
  exists re, rc, rk, rs. split; [exact H|]. split; [exact Re|]. split; [exact Pc|].
  split; [exact Rk|]. split; [|exact Ps].
  split; [apply (ci_nodes _ _ _ _ _ instance)|]. split.
  - intros u v I. apply Re in I. destruct I as [[I _]|[I _]].
    + apply (ci_ends _ _ _ _ _ instance u v I).
    + destruct (ci_ends _ _ _ _ _ instance v u I). auto.
  - intros e I. rewrite (Rk e I). eauto.
Qed.

(** The residual costs are within the double range, as the costs are. *)
Lemma residual_small_weights flow re rk :
  (forall k, In k re <-> residual_edge edges capacities (flow_at flow) k) ->
  (forall k, In k re -> eget rk k = Some (Int (residual_cost edges costs k))) ->
  small_weights re rk.
Proof.
  intros Re Rk k I. assert (OW := ci_edges _ _ _ _ _ instance).
  unfold weight_of, value_of. rewrite (Rk k I). cbn [int_of].
  apply Re in I. destruct I as [[I _]|[I _]].
  - rewrite (residual_cost_forward edges costs k I).
    apply (ci_small _ _ _ _ _ instance k I).
  - rewrite (residual_cost_backward edges costs OW k I), huge_opp.
    apply (ci_small _ _ _ _ _ instance _ I).
Qed.

End CostResidual.

(** ** The pieces of one iteration *)

Lemma demand_nodes_spec (ps : parents_t) rs (r : node -> Z) : forall nodes,
  (forall n, In n nodes -> nget rs n = Some (Int (r n))) ->
  (forall n, In n nodes -> exists x, nget ps n = Some x) ->
  exists l,
    demand_nodes nodes rs (Some ps) = Ok l
    /\ forall t, In t l <-> In t nodes /\ r t < 0
                            /\ exists u, nget ps t = Some (Some u) /\ u <> EmptyString.
Proof.
  induction nodes as [|a rest IH]; intros R P.
  - exists []. split; [reflexivity|]. intros t. simpl. tauto.
  - destruct IH as (l & H & Sp); [intros n I; apply R; simpl; auto
                                 |intros n I; apply P; simpl; auto|].
    destruct (P a) as (x & Hx); [simpl; auto|].
    cbn [demand_nodes]. rewrite (proj2 (nlookup_Ok rs a _) (R a (or_introl eq_refl))).
    cbn [bind]. unfold Num.ltb at 1.
    destruct (r a <? 0) eqn:Neg.
    + rewrite (proj2 (nlookup_Ok ps a x) Hx). cbn [bind]. rewrite H. cbn [bind].
      apply Z.ltb_lt in Neg.
      destruct x as [[|c u]|]; simpl parent_of; cbv iota.
      * exists l. split; [reflexivity|]. intros t. rewrite Sp. simpl. split.
        -- intros (I & N & E). auto.
        -- intros ([<-|I] & N & u & E & NE); [|eauto].
           rewrite Hx in E. inversion E; subst u. congruence.
      * exists (a :: l). split; [reflexivity|]. intros t. simpl. rewrite Sp. split.
        -- intros [<-|(I & N & E)]; [|auto]. split; [auto|]. split; [assumption|].
           exists (String c u). split; [assumption | discriminate].
        -- intros ([<-|I] & N & E); auto.
      * exists l. split; [reflexivity|]. intros t. rewrite Sp. simpl. split.
        -- intros (I & N & E). auto.
        -- intros ([<-|I] & N & u & E & NE); [|eauto]. congruence.
    + cbn [bind]. rewrite H. cbn [bind]. apply Z.ltb_ge in Neg.
      exists l. split; [reflexivity|]. intros t. rewrite Sp. simpl. split.
      * intros (I & N & E). auto.
      * intros ([<-|I] & N & E); [lia | auto].
Qed.

(** Without parents the first demand node raises the error. *)
Lemma demand_nodes_no_parents rs (r : node -> Z) : forall nodes,
  (forall n, In n nodes -> nget rs n = Some (Int (r n))) ->
  (exists n, In n nodes /\ r n < 0) ->
  demand_nodes nodes rs None = Err TypeError.
Proof.
  induction nodes as [|a rest IH]; intros R (n & I & N); [destruct I|].
  cbn [demand_nodes]. rewrite (proj2 (nlookup_Ok rs a _) (R a (or_introl eq_refl))).
  cbn [bind]. unfold Num.ltb at 1. destruct (r a <? 0) eqn:Neg; [reflexivity|].
  cbn [bind]. apply Z.ltb_ge in Neg. rewrite IH; [reflexivity | |].
  - intros x Ix. apply R. simpl; auto.
  - exists n. split; [|assumption]. destruct I as [<-|I]; [lia | assumption].
Qed.

Lemma min3_int a b c : Num.min3 (Int a) (Int b) (Int c) = Int (Z.min (Z.min a b) c).
Proof.
  unfold Num.min3, Num.ltb.
  destruct (b <? a) eqn:E1.
  - apply Z.ltb_lt in E1. rewrite (Z.min_r a b) by lia.
    destruct (c <? b) eqn:E2; [apply Z.ltb_lt in E2 | apply Z.ltb_ge in E2]; f_equal; lia.
  - apply Z.ltb_ge in E1. rewrite (Z.min_l a b) by lia.
    destruct (c <? a) eqn:E2; [apply Z.ltb_lt in E2 | apply Z.ltb_ge in E2]; f_equal; lia.
Qed.

Lemma path_capacity_int rc pe :
  pe <> [] ->
  (forall k, In k pe -> exists z, eget rc k = Some (Int z) /\ 0 < z) ->
  exists m,
    calculate_path_capacity rc pe = Ok (Int m) /\ 0 < m
    /\ forall k, In k pe -> m <= flow_at rc k.
Proof.
  intros NE P.
  destruct (calculate_path_capacity_minimum rc pe) as (d & H & Le & Min).
  { intros e I. destruct (P e I) as (z & Hz & _). exists (Int z). split; [assumption|].
    discriminate. }
  assert (Dm : exists m, d = Int m /\ 0 < m).
  { destruct Min as [->|(e & I & E)].
    - exfalso. destruct pe as [|k pe]; [congruence|].
      destruct (Le k (or_introl eq_refl)) as (c & Hc & L).
      destruct (P k (or_introl eq_refl)) as (z & Hz & _). rewrite Hz in Hc.
      inversion Hc; subst c. unfold nle, Num.ltb in L. discriminate.
    - destruct (P e I) as (z & Hz & Pz). rewrite Hz in E. inversion E. eauto. }
  destruct Dm as (m & -> & Pm). exists m. split; [assumption|]. split; [assumption|].
  intros k I. destruct (Le k I) as (c & Hc & L). destruct (P k I) as (z & Hz & _).
  rewrite Hz in Hc. inversion Hc; subst c. apply nle_int in L.
  unfold flow_at, value_of. rewrite Hz. exact L.
Qed.

Section CostAugment.
Variables (nodes : list node) (edges : list edge).
Variables (capacities costs : edict) (supply : ndict num).
Hypothesis instance : cost_instance nodes edges capacities costs supply.

(** Sending [delta] along a path of residual edges that visits no node
    twice. *)
Lemma augment_residual_path flow q s t delta :
  ekeys flow = edges ->
  bounded edges (fun _ => 0) (value_of capacities) flow ->
  hd_error q = Some s -> last_node q = Ok t -> NoDup q ->
  (forall k, In k (get_path_edges q) ->
     residual_edge edges capacities (flow_at flow) k) ->
  0 <= delta ->
  (forall k, In k (get_path_edges q) ->
     (In k edges -> delta <= flow_at capacities k - flow_at flow k)
     /\ (In (swap k) edges -> delta <= flow_at flow (swap k))) ->
  exists flow1,
    augment edges (get_path_edges q) (Int delta) flow = Ok flow1
    /\ ekeys flow1 = edges
    /\ bounded edges (fun _ => 0) (value_of capacities) flow1
    /\ (forall e, In e edges ->
          flow_at flow1 e
          = flow_at flow e
            + delta * ((if mem_edge e (get_path_edges q) then 1 else 0)
                       - (if mem_edge (swap e) (get_path_edges q) then 1 else 0)))
    /\ forall n, net_out (flow_at flow1) edges n
         = net_out (flow_at flow) edges n
           + delta * ((if node_eq_dec s n then 1 else 0)
                      - (if node_eq_dec t n then 1 else 0)).
Proof.
  intros Keys B Hd L ND Res Pd Cap.
  destruct (ci_edges _ _ _ _ _ instance) as [NDe OW].
  set (pe := get_path_edges q) in *.
  destruct (augment_total pe delta edges flow) as [flow1 Au].
  { intros e I.
    destruct (flow_in_capacity nodes edges capacities costs supply instance flow e B I)
      as (F & _). eauto. }
  destruct (augment_spec _ _ _ _ _ NDe Au) as [_ Upd].
  assert (At : forall e, In e edges ->
            eget flow1 e
            = Some (Int (flow_at flow e
                         + delta * ((if mem_edge e pe then 1 else 0)
                                    - (if mem_edge (swap e) pe then 1 else 0))))).
  { intros e I.
    destruct (flow_in_capacity nodes edges capacities costs supply instance flow e B I)
      as (F & _).
    rewrite (Upd e _ I F), bump_int. reflexivity. }
  assert (At' : forall e, In e edges ->
            flow_at flow1 e
            = flow_at flow e
              + delta * ((if mem_edge e pe then 1 else 0)
                         - (if mem_edge (swap e) pe then 1 else 0))).
  { intros e I. unfold flow_at at 1. unfold value_of. rewrite (At e I). reflexivity. }
  exists flow1. split; [exact Au|]. split; [|split; [|split; [exact At'|]]].
  - rewrite (augment_keys _ _ _ _ _ Au). exact Keys.
  - intros e I. unfold within. rewrite (At e I).
    destruct (flow_in_capacity nodes edges capacities costs supply instance flow e B I)
      as (_ & Lo & Hi).
    destruct (capacity_at nodes edges capacities costs supply instance e I) as (Hc & _).
    eexists. split; [reflexivity|]. unfold value_of. rewrite Hc. simpl.
    destruct (mem_edge e pe) eqn:M1; destruct (mem_edge (swap e) pe) eqn:M2.
    + lia.
    + apply mem_edge_true in M1. destruct (Cap e M1) as [C1 _]. specialize (C1 I). lia.
    + apply mem_edge_true in M2. destruct (Cap _ M2) as [_ C2].
      rewrite swap_swap in C2. specialize (C2 I). lia.
    + lia.
  - intros n. unfold net_out.
    rewrite (wsum_ext _ (fun e => sgn n e * flow_at flow e
               + delta * (sgn n e * ((if mem_edge e pe then 1 else 0)
                       - (if mem_edge (swap e) pe then 1 else 0)))))
      by (intros e I; rewrite (At' e I); lia).
    rewrite wsum_plus, wsum_scale. f_equal. f_equal.
    rewrite (path_sum edges NDe n pe).
    + unfold pe. destruct q as [|x rest]; [discriminate|]. rewrite path_sgn.
      simpl in Hd. inversion Hd; subst x.
      unfold last_node in L. inversion L as [L']. rewrite L'. reflexivity.
    + apply path_edges_NoDup. assumption.
    + intros [u v] I. destruct (Res _ I) as [[J _]|[J _]].
      * left. split; [assumption|]. apply (OW u v J).
      * right. split; [|assumption]. intros J'. apply (OW v u J). exact J'.
Qed.

End CostAugment.

(** ** Sums over nodes and edges *)

(** Net flows weighted by node prices are the flows weighted by the
    price differences. *)
Lemma priced_net_out (w : node -> Z) g nodes edges :
  NoDup nodes -> (forall u v, In (u, v) edges -> In u nodes /\ In v nodes) ->
  wsum (fun n => w n * net_out g edges n) nodes
  = wsum (fun e => g e * (w (fst e) - w (snd e))) edges.
Proof.
  intros ND Ends. unfold net_out.
  rewrite (wsum_ext _ (fun n => wsum (fun e => w n * (sgn n e * g e)) edges))
    by (intros n _; rewrite wsum_scale; reflexivity).
  rewrite wsum_swap. apply wsum_ext. intros [u v] I.
  destruct (Ends u v I) as [Iu Iv].
  rewrite (wsum_ext _ (fun n => g (u, v) * ((if node_eq_dec n u then w n else 0)
                                            + (if node_eq_dec n v then - w n else 0)))).
  - rewrite wsum_scale, wsum_plus.
    rewrite (wsum_pick node_eq_dec w u nodes ND).
    rewrite (wsum_pick node_eq_dec (fun n => - w n) v nodes ND).
    destruct (in_dec node_eq_dec u nodes); [|contradiction].
    destruct (in_dec node_eq_dec v nodes); [|contradiction]. simpl. lia.
  - intros n _. unfold sgn. cbn [fst snd].
    destruct (node_eq_dec u n), (node_eq_dec n u); try congruence;
      destruct (node_eq_dec v n), (node_eq_dec n v); try congruence; lia.
Qed.

Lemma wsum_term {A} (h : A -> Z) l x :
  (forall y, In y l -> 0 <= h y) -> In x l -> h x <= wsum h l.
Proof.
  induction l as [|a l IH]; intros P I; [destruct I|]. simpl.
  assert (Pa : 0 <= h a) by (apply P; simpl; auto).
  assert (Pl : 0 <= wsum h l) by (apply wsum_nonneg; intros; apply P; simpl; auto).
  destruct I as [<-|I]; [lia|].
  assert (h x <= wsum h l) by (apply IH; [intros; apply P; simpl; auto | assumption]).
  lia.
Qed.

(** ** Optimal prices bound the cost *)

Section Optimality.
Variables (nodes : list node) (edges : list edge).
Variables (capacities costs : edict) (supply : ndict num).
Hypothesis instance : cost_instance nodes edges capacities costs supply.

(** Under optimal prices no flow with the same net flows is cheaper. *)
Lemma optimal_prices_least_cost f g pi :
  within_capacities edges capacities f -> within_capacities edges capacities g ->
  optimal_prices edges capacities costs f pi ->
  (forall n, In n nodes -> net_out g edges n = net_out f edges n) ->
  flow_cost costs edges f <= flow_cost costs edges g.
Proof.
  intros Wf Wg O Same.
  assert (P : forall h, flow_cost costs edges h
                = wsum (fun e => h e * (flow_at costs e + pi (fst e) - pi (snd e))) edges
                  - wsum (fun n => pi n * net_out h edges n) nodes).
  { intros h. rewrite (priced_net_out pi h nodes edges (ci_nodes _ _ _ _ _ instance)
                         (ci_ends _ _ _ _ _ instance)).
    unfold flow_cost. rewrite <- (Z.add_opp_r (wsum _ _)).
    match goal with |- _ = _ + - ?W => replace (- W) with ((-1) * W) by lia end.
    rewrite <- wsum_scale, <- wsum_plus. apply wsum_ext. intros e _. lia. }
  rewrite (P f), (P g).
  rewrite (wsum_ext (fun n => pi n * net_out g edges n)
             (fun n => pi n * net_out f edges n))
    by (intros n I; rewrite (Same n I); reflexivity).
  assert (L : wsum (fun e => f e * (flow_at costs e + pi (fst e) - pi (snd e))) edges
              <= wsum (fun e => g e * (flow_at costs e + pi (fst e) - pi (snd e))) edges);
    [|lia].
  apply wsum_le. intros [u v] I. cbn [fst snd].
  destruct (O u v I) as [O1 O2]. specialize (Wf _ I). specialize (Wg _ I).
  destruct (Z.lt_trichotomy (f (u, v)) (g (u, v))) as [Lt|[E|Gt]].
  - assert (0 <= flow_at costs (u, v) + pi u - pi v) by (assert (H := O1 ltac:(lia)); lia).
    nia.
  - rewrite E. lia.
  - assert (flow_at costs (u, v) + pi u - pi v <= 0) by (assert (H := O2 ltac:(lia)); lia).
    nia.
Qed.

End Optimality.

(** ** New prices after an augmentation *)

Section NewPrices.
Variables (nodes : list node) (edges : list edge).
Variables (capacities costs : edict) (supply : ndict num).
Hypothesis instance : cost_instance nodes edges capacities costs supply.

Lemma residual_cost_swap k :
  In k edges \/ In (swap k) edges ->
  residual_cost edges costs (swap k) = - residual_cost edges costs k.
Proof.
  assert (OW := ci_edges _ _ _ _ _ instance). intros [I|I].
  - rewrite (residual_cost_forward edges costs k I).
    rewrite (residual_cost_backward edges costs OW (swap k)); rewrite swap_swap; auto.
  - rewrite (residual_cost_backward edges costs OW k I).
    rewrite (residual_cost_forward edges costs (swap k) I). lia.
Qed.

Lemma residual_edge_ends g k :
  residual_edge edges capacities g k -> In (fst k) nodes /\ In (snd k) nodes.
Proof.
  destruct k as [a b]. intros [[I _]|[I _]].
  - apply (ci_ends _ _ _ _ _ instance a b I).
  - destruct (ci_ends _ _ _ _ _ instance b a I). simpl. auto.
Qed.

(** The distances from the supply node, capped by the old prices, are
    optimal prices for the new flow. *)
Lemma prices_after_augment (f f1 : edge -> Z) pe delta pi (d : ndict num) :
  optimal_prices edges capacities costs f pi ->
  (forall k, residual_edge edges capacities f k ->
     forall za, nget d (fst k) = Some (Int za) ->
       exists zb, nget d (snd k) = Some (Int zb)
                  /\ zb <= za + residual_cost edges costs k) ->
  (forall k, In k pe ->
     residual_edge edges capacities f k
     /\ exists za, nget d (fst k) = Some (Int za)
          /\ nget d (snd k) = Some (Int (za + residual_cost edges costs k))) ->
  0 <= delta ->
  (forall e, In e edges ->
     f1 e = f e + delta * ((if mem_edge e pe then 1 else 0)
                           - (if mem_edge (swap e) pe then 1 else 0))) ->
  exists pi', optimal_prices edges capacities costs f1 pi'.
Proof.
  intros O Settled Links Pd At.
  assert (OW := ci_edges _ _ _ _ _ instance).
  set (dz := fun n => match nget d n with Some (Int z) => z | _ => 0 end).
  set (K := wsum (fun n => Z.abs (dz n - pi n)) nodes).
  set (pi' := fun n => match nget d n with
                       | Some (Int z) => Z.min z (pi n + K)
                       | _ => pi n + K
                       end).
  assert (Near : forall n z, In n nodes -> nget d n = Some (Int z) -> pi' n = z).
  { intros n z I E. unfold pi'. rewrite E.
    assert (T := wsum_term (fun n => Z.abs (dz n - pi n)) nodes n
                   (fun y _ => Z.abs_nonneg _) I).
    fold K in T. simpl in T. unfold dz in T. rewrite E in T. lia. }
  assert (Old : forall k, residual_edge edges capacities f k ->
                  pi' (snd k) <= pi' (fst k) + residual_cost edges costs k).
  { intros k R.
    assert (P := proj1 (optimal_prices_residual edges capacities costs OW f pi) O k R).
    specialize (Settled k R). unfold pi'.
    destruct (nget d (fst k)) as [[za| | |]|] eqn:Ea.
    - destruct (Settled za eq_refl) as (zb & -> & Le). lia.
    - destruct (nget d (snd k)) as [[zb| | |]|]; lia.
    - destruct (nget d (snd k)) as [[zb| | |]|]; lia.
    - destruct (nget d (snd k)) as [[zb| | |]|]; lia.
    - destruct (nget d (snd k)) as [[zb| | |]|]; lia. }
  assert (New : forall k, In (swap k) pe ->
                  pi' (snd k) <= pi' (fst k) + residual_cost edges costs k).
  { intros k I. destruct (Links _ I) as (R & za & Ea & Eb).
    destruct (residual_edge_ends f _ R) as [Na Nb].
    destruct k as [a b]. unfold swap in *. cbn [fst snd] in *.
    rewrite (Near b za Na Ea), (Near a _ Nb Eb).
    assert (E := residual_cost_swap (b, a)). unfold swap in E. cbn [fst snd] in E.
    rewrite E; [lia|]. destruct R as [[J _]|[J _]]; auto. }
  exists pi'. apply (optimal_prices_residual edges capacities costs OW).
  intros k [[I R]|[I R]].
  - rewrite (At k I) in R.
    destruct (mem_edge (swap k) pe) eqn:M.
    + apply New. apply mem_edge_true. assumption.
    + apply Old. left. split; [assumption|].
      destruct (mem_edge k pe); lia.
  - rewrite (At _ I) in R. rewrite swap_swap in R.
    destruct (mem_edge (swap k) pe) eqn:M.
    + apply New. apply mem_edge_true. assumption.
    + apply Old. right. split; [assumption|].
      destruct (mem_edge k pe); lia.
Qed.

(** When the supply node reaches no node with a demand, the nodes it
    reaches hold more supply than can leave them: no flow within the
    capacities meets the supplies. *)
Lemma stuck_infeasible (f : edge -> Z) (d : ndict num) s :
  within_capacities edges capacities f ->
  (forall k, residual_edge edges capacities f k ->
     forall za, nget d (fst k) = Some (Int za) ->
       exists zb, nget d (snd k) = Some (Int zb)) ->
  In s nodes -> (exists z, nget d s = Some (Int z)) ->
  0 < residual_supply_at supply edges f s ->
  (forall n z, In n nodes -> nget d n = Some (Int z) ->
     0 <= residual_supply_at supply edges f n) ->
  forall g, within_capacities edges capacities g ->
    ~ supplies edges supply nodes g.
Proof.
  intros Wf Closed Is (zs & Es) Ps Pn g Wg Sup.
  set (ind := fun n => match nget d n with Some (Int _) => 1 | _ => 0 end).
  assert (I01 : forall n, ind n = 0 \/ ind n = 1).
  { intros n. unfold ind. destruct (nget d n) as [[z| | |]|]; auto. }
  assert (Fin : forall n, ind n = 1 -> exists z, nget d n = Some (Int z)).
  { intros n. unfold ind. destruct (nget d n) as [[z| | |]|]; try discriminate. eauto. }
  assert (Inf : forall n z, nget d n = Some (Int z) -> ind n = 1).
  { intros n z E. unfold ind. rewrite E. reflexivity. }
  assert (Cut : wsum (fun n => ind n * net_out g edges n) nodes
                <= wsum (fun n => ind n * net_out f edges n) nodes).
  { rewrite !(priced_net_out ind _ nodes edges (ci_nodes _ _ _ _ _ instance)
                (ci_ends _ _ _ _ _ instance)).
    apply wsum_le. intros [u v] I. cbn [fst snd].
    specialize (Wf _ I). specialize (Wg _ I).
    destruct (I01 u) as [Eu|Eu]; destruct (I01 v) as [Ev|Ev]; rewrite Eu, Ev; try lia.
    - (* the edge enters the set: it carries no flow *)
      assert (f (u, v) <= 0); [|lia].
      destruct (Z.le_gt_cases (f (u, v)) 0) as [Le|Gt]; [assumption|]. exfalso.
      destruct (Fin v Ev) as (zv & Hv).
      destruct (Closed (v, u) (or_intror (conj I Gt)) zv Hv) as (zu & Hu).
      rewrite (Inf u zu Hu) in Eu. discriminate.
    - (* the edge leaves the set: it is full *)
      assert (flow_at capacities (u, v) <= f (u, v)); [|lia].
      destruct (Z.le_gt_cases (flow_at capacities (u, v)) (f (u, v))) as [Le|Gt];
        [assumption|]. exfalso.
      destruct (Fin u Eu) as (zu & Hu).
      destruct (Closed (u, v) (or_introl (conj I Gt)) zu Hu) as (zv & Hv).
      rewrite (Inf v zv Hv) in Ev. discriminate. }
  rewrite (wsum_ext (fun n => ind n * net_out g edges n)
             (fun n => ind n * supply_at supply n)) in Cut
    by (intros n I; rewrite (Sup n I); reflexivity).
  assert (T := wsum_term (fun n => ind n * residual_supply_at supply edges f n) nodes s).
  simpl in T. rewrite (Inf s zs Es) in T.
  assert (Sum : wsum (fun n => ind n * residual_supply_at supply edges f n) nodes
                = wsum (fun n => ind n * supply_at supply n) nodes
                  - wsum (fun n => ind n * net_out f edges n) nodes).
  { rewrite <- (Z.add_opp_r (wsum _ _)).
    match goal with |- _ = _ + - ?W => replace (- W) with ((-1) * W) by lia end.
    rewrite <- wsum_scale, <- wsum_plus. apply wsum_ext. intros n _.
    unfold residual_supply_at. lia. }
  assert (0 < wsum (fun n => ind n * residual_supply_at supply edges f n) nodes); [|lia].
  eapply Z.lt_le_trans; [|apply T; [|assumption]].
  - lia.
  - intros n I. destruct (I01 n) as [E|E]; rewrite E; [lia|].
    destruct (Fin n E) as (z & Hz). specialize (Pn n z I Hz). lia.
Qed.

End NewPrices.

(** ** The loop of [minimum_cost_flow] *)

Lemma settled_finite nodes edges weights s p d a b za :
  bf_inv nodes edges weights s p d -> settled edges weights d ->
  In (a, b) edges -> nget d a = Some (Int za) ->
  exists zb, nget d b = Some (Int zb) /\ zb <= za + weight_of weights (a, b).
Proof.
  intros Inv St I Ha. destruct (St a b I) as (du & dv & Hu & Hv & G).
  rewrite Ha in Hu. inversion Hu; subst du.
  destruct (bf_distance nodes edges weights s p d b dv Inv Hv) as [->|(zb & ->)].
  - discriminate.
  - exists zb. split; [assumption|]. simpl in G. unfold Num.gtb, Num.ltb in G.
    apply Z.ltb_ge in G. exact G.
Qed.

Lemma remove_first_head s rest : remove_first s (s :: rest) = rest.
Proof. simpl. destruct (node_eq_dec s s); [reflexivity | congruence]. Qed.

(** Sending [delta] from [s] to [t] lowers the open supply by [delta]. *)
Lemma open_supply_step (r r1 : node -> Z) nodes s t delta :
  NoDup nodes -> In s nodes -> s <> t ->
  0 <= delta <= r s -> delta <= - r t ->
  (forall n, r1 n = r n - delta * ((if node_eq_dec s n then 1 else 0)
                                   - (if node_eq_dec t n then 1 else 0))) ->
  wsum (fun n => Z.max 0 (r1 n)) nodes = wsum (fun n => Z.max 0 (r n)) nodes - delta.
Proof.
  intros ND Is NE D1 D2 R.
  rewrite (wsum_ext _ (fun n => Z.max 0 (r n)
                                + (if node_eq_dec n s then - delta else 0))).
  - rewrite wsum_plus. rewrite (wsum_pick node_eq_dec (fun _ => - delta) s nodes ND).
    destruct (in_dec node_eq_dec s nodes); [lia | contradiction].
  - intros n _. rewrite R.
    destruct (node_eq_dec s n) as [E1|N1]; destruct (node_eq_dec t n) as [E2|N2];
      destruct (node_eq_dec n s) as [E3|N3]; try congruence; subst; lia.
Qed.

Lemma supply_nodes_filter sd (r : node -> Z) : forall nodes,
  (forall n, In n nodes -> nget sd n = Some (Int (r n))) ->
  supply_nodes nodes sd = Ok (filter (fun n => 0 <? r n) nodes).
Proof.
  induction nodes as [|a rest IH]; intros R; [reflexivity|].
  cbn [supply_nodes filter].
  rewrite (proj2 (nlookup_Ok sd a _) (R a (or_introl eq_refl))). cbn [bind].
  rewrite IH by (intros n I; apply R; simpl; auto). reflexivity.
Qed.

Lemma all_supplied_spec edges flow supply : forall nodes b,
  (forall e, In e edges -> exists z, eget flow e = Some (Int z)) ->
  (forall n, In n nodes -> exists z, nget supply n = Some (Int z)) ->
  exists b', all_supplied nodes edges flow supply b = Ok b'
    /\ (b' = true <-> b = true /\ supplies edges supply nodes (flow_at flow)).
Proof.
  induction nodes as [|a rest IH]; intros b Df Ds.
  - exists b. split; [reflexivity|]. unfold supplies. simpl. tauto.
  - destruct (Ds a) as (z & Hz); [simpl; auto|].
    cbn [all_supplied]. rewrite (net_outgoing_flow_int flow edges a Df). cbn [bind].
    rewrite (proj2 (nlookup_Ok supply a (Int z)) Hz). cbn [bind].
    destruct (IH (if Num.neb (Int (net_out (flow_at flow) edges a)) (Int z)
                  then false else b) Df) as (b' & H & Sp);
      [intros n I; apply Ds; simpl; auto|].
    exists b'. split; [exact H|]. rewrite Sp. unfold supplies.
    assert (Ea : supply_at supply a = z) by (unfold supply_at; rewrite Hz; reflexivity).
    unfold Num.neb, Num.eqb.
    destruct (net_out (flow_at flow) edges a =? z) eqn:E; simpl.
    + apply Z.eqb_eq in E. split.
      * intros [Hb Hr]. split; [assumption|]. intros n [<-|I]; [congruence | auto].
      * intros [Hb Hr]. split; [assumption|]. intros n I. apply Hr. simpl; auto.
    + apply Z.eqb_neq in E. split.
      * intros [Hb _]. discriminate.
      * intros [_ Hr]. exfalso. apply E. rewrite <- Ea. apply Hr. simpl; auto.
Qed.

Lemma total_outflow_spec edges flow : forall l a,
  (forall e, In e edges -> exists z, eget flow e = Some (Int z)) ->
  total_outflow l edges flow (Int a)
  = Ok (Int (a + wsum (net_out (flow_at flow) edges) l)).
Proof.
  induction l as [|n rest IH]; intros a Df; simpl; [f_equal; f_equal; lia|].
  rewrite (net_outgoing_flow_int flow edges n Df). cbn [bind].
  rewrite add_int. cbn [bind].
  rewrite IH by assumption. f_equal. f_equal. lia.
Qed.

Lemma total_cost_spec flow costs : forall es a,
  (forall e, In e es -> exists z, eget flow e = Some (Int z)) ->
  (forall e, In e es -> exists k, eget costs e = Some (Int k)) ->
  total_cost es flow costs (Int a) = Ok (Int (a + flow_cost costs es (flow_at flow))).
Proof.
  induction es as [|e rest IH]; intros a Df Dk; [simpl; f_equal; f_equal; unfold flow_cost; simpl; lia|].
  destruct (Df e) as (z & Hz); [simpl; auto|].
  destruct (Dk e) as (k & Hk); [simpl; auto|].
  cbn [total_cost]. rewrite (elookup_eget _ _ _ Hz), (elookup_eget _ _ _ Hk).
  cbn [bind]. rewrite mul_int. cbn [bind]. rewrite add_int. cbn [bind].
  rewrite IH; [|intros x I; apply Df; simpl; auto|intros x I; apply Dk; simpl; auto].
  f_equal. f_equal. unfold flow_cost. cbn [wsum].
  assert (E1 : flow_at flow e = z) by (unfold flow_at, value_of; rewrite Hz; reflexivity).
  assert (E2 : flow_at costs e = k) by (unfold flow_at, value_of; rewrite Hk; reflexivity).
  rewrite E1, E2. lia.
Qed.

Section CostLoop.
Variables (nodes : list node) (edges : list edge).
Variables (capacities costs : edict) (supply : ndict num).
Hypothesis instance : cost_instance nodes edges capacities costs supply.

Lemma within_of_bounded flow :
  bounded edges (fun _ => 0) (value_of capacities) flow ->
  within_capacities edges capacities (flow_at flow).
Proof.
  intros B e I.
  apply (flow_in_capacity nodes edges capacities costs supply instance flow e B I).
Qed.

Lemma open_supply_nonneg g : 0 <= open_supply supply edges g nodes.
Proof. unfold open_supply. apply wsum_nonneg. intros; lia. Qed.

(** The loop ends; it keeps the flow within the capacities and
    optimally priced, and leaves supply behind only on an infeasible
    instance. *)
Lemma supply_loop_spec : forall fuel flow re rc rk rs rsn,
  cost_state nodes edges capacities costs supply flow rsn ->
  construct_residual_graph nodes edges capacities costs supply flow
  = Ok (re, rc, rk, rs) ->
  (Z.to_nat (open_supply supply edges (flow_at flow) nodes)
   + List.length rsn + List.length nodes <= fuel)%nat ->
  exists flow',
    supply_loop fuel nodes edges capacities costs supply flow re rc rk rs rsn = Ok flow'
    /\ cost_state nodes edges capacities costs supply flow' [].
Proof.
  assert (OW := ci_edges _ _ _ _ _ instance).
  induction fuel as [|fuel IH]; intros flow re rc rk rs rsn St H Fu.
  { destruct rsn as [|s rest]; [exists flow; split; [reflexivity | assumption]|].
    simpl in Fu. lia. }
  destruct rsn as [|s rest]; [exists flow; split; [reflexivity | assumption]|].
  destruct St as [Keys B (pi & O) (NDr & Lst) Left].
  destruct (cost_residual_state nodes edges capacities costs supply instance flow B)
    as (re' & rc' & rk' & rs' & H' & Re & Pc & Rk & WG & Ps).
  rewrite H in H'. inversion H'; subst re' rc' rk' rs'. clear H'.
  destruct (Lst s (or_introl eq_refl)) as [Is Pos].
  assert (Wt : forall k, In k re -> weight_of rk k = residual_cost edges costs k).
  { intros k I. unfold weight_of, value_of. rewrite (Rk k I). reflexivity. }
  assert (Pr : forall u v, In (u, v) re -> pi v <= pi u + weight_of rk (u, v)).
  { intros u v I. rewrite (Wt _ I).
    apply (proj1 (optimal_prices_residual edges capacities costs OW (flow_at flow) pi)
             O (u, v)).
    apply Re. assumption. }
  destruct (bellman_ford_total nodes re rk s WG
              (residual_small_weights nodes edges capacities costs supply instance
                 flow re rk Re Rk)
              Is (prices_no_negative_cycle re rk pi s Pr)) as (p & d & BF).
  destruct (bellman_ford_tree nodes re rk s p d WG BF) as (Inv & Stl & Ac & Zs & Ps0).
  destruct (demand_nodes_spec p rs (residual_supply_at supply edges (flow_at flow))
              nodes Ps) as (l & DN & Sp).
  { intros n I. apply (bf_keys _ _ _ _ _ _ Inv n (or_introl I)). }
  cbn [supply_loop]. rewrite BF. cbn [bind]. rewrite DN. cbn [bind].
  assert (Closed : forall k, residual_edge edges capacities (flow_at flow) k ->
            forall za, nget d (fst k) = Some (Int za) ->
              exists zb, nget d (snd k) = Some (Int zb)
                         /\ zb <= za + residual_cost edges costs k).
  { intros [a b] R za Ha. apply Re in R. rewrite <- (Wt _ R).
    apply (settled_finite nodes re rk s p d a b za Inv Stl R Ha). }
  destruct l as [|t l'].
  - (* no node with a demand is in the tree *)
    rewrite remove_first_head.
    apply (IH flow re rc rk rs rest); [|assumption|simpl in Fu; lia].
    constructor; [assumption | assumption | eauto | |].
    + split; [inversion NDr; assumption|]. intros n I. apply Lst. simpl; auto.
    + left. unfold infeasible.
      apply (stuck_infeasible nodes edges capacities costs supply instance
               (flow_at flow) d s).
      * apply within_of_bounded. assumption.
      * intros k R za Ha. destruct (Closed k R za Ha) as (zb & Hb & _). eauto.
      * assumption.
      * eauto.
      * assumption.
      * intros n z I Hz.
        destruct (Z.le_gt_cases 0 (residual_supply_at supply edges (flow_at flow) n))
          as [Le|Gt]; [assumption|]. exfalso.
        destruct (bf_keys _ _ _ _ _ _ Inv n (or_introl I)) as [_ (x & Hx)].
        destruct x as [u|].
        -- apply (proj2 (Sp n)). split; [assumption|]. split; [assumption|].
           exists u. split; [assumption|]. intros ->.
           destruct (bf_parent _ _ _ _ _ _ Inv n EmptyString Hx) as (Ie & _).
           destruct WG as (_ & Ends & _). destruct (Ends _ _ Ie) as [Iu _].
           apply (ci_named _ _ _ _ _ instance Iu).
        -- destruct (bf_orphan _ _ _ _ _ _ Inv n Hx) as [->|E]; [lia | congruence].
  - (* a node with a demand: send flow along the path of the tree *)
    destruct (proj1 (Sp t) (or_introl eq_refl)) as (It & Neg & u & Hu & NEu).
    rewrite (proj2 (nlookup_Ok p t (Some u)) Hu). cbn [bind].
    destruct (bf_parent _ _ _ _ _ _ Inv t u Hu) as (Ie & zu & zt & _ & Ht & _).
    destruct (path_to_root_from nodes re rk s p d WG (ci_named _ _ _ _ _ instance)
                Inv Stl Ac Zs t (S fuel) t (Some u) [] [] zt Hu Ht)
      as (q & R & Hq & Lq & NDq & Ch & _).
    { constructor; [intros []|constructor]. }
    { intros x [<-|[]]. assumption. }
    { intros x []. }
    { constructor. }
    { reflexivity. }
    { reflexivity. }
    { simpl. simpl in Fu. lia. }
    rewrite R. cbn [bind]. rewrite rev_involutive.
    rewrite (proj2 (nlookup_Ok rs s _) (Ps s Is)). cbn [bind].
    rewrite (proj2 (nlookup_Ok rs t _) (Ps t It)). cbn [bind].
    set (pe := get_path_edges q) in *.
    set (rsa := residual_supply_at supply edges (flow_at flow)) in *.
    assert (Lk : forall k, In k pe ->
              In k re
              /\ exists za, nget d (fst k) = Some (Int za)
                   /\ nget d (snd k) = Some (Int (za + residual_cost edges costs k))).
    { intros [a b] I. unfold parent_chain in Ch. rewrite Forall_forall in Ch.
      specialize (Ch _ I). simpl in Ch.
      destruct (parent_link_exact nodes re rk s p d a b Inv Stl Ch) as (J & za & Ha & Hb).
      split; [assumption|]. exists za. rewrite <- (Wt _ J). auto. }
    assert (Rc : forall k, In k pe ->
              exists z, eget rc k = Some (Int z) /\ 0 < z
                /\ (In k edges -> z = flow_at capacities k - flow_at flow k)
                /\ (In (swap k) edges -> z = flow_at flow (swap k))).
    { intros k I. destruct (Lk k I) as (J & _). apply Re in J.
      destruct J as [[J P]|[J P]].
      - destruct (Pc k J) as [E _]. eexists. split; [exact E|]. split; [lia|].
        split; [reflexivity|]. intros J'. exfalso. destruct k as [a b].
        apply (proj2 OW a b J J').
      - destruct (Pc _ J) as [_ E]. rewrite swap_swap in E. eexists.
        split; [exact E|]. split; [assumption|]. split; [|reflexivity].
        intros J'. exfalso. destruct k as [a b]. apply (proj2 OW b a J J'). }
    assert (NEst : s <> t) by (intros ->; lia).
    assert (NEp : pe <> []).
    { unfold pe. destruct q as [|x [|y q']]; [discriminate| |discriminate].
      exfalso. simpl in Hq. unfold last_node in Lq. simpl in Lq.
      inversion Hq; inversion Lq; subst. congruence. }
    destruct (path_capacity_int rc pe NEp) as (m & PC & Pm & Lm).
    { intros k I. destruct (Rc k I) as (z & E & P & _). eauto. }
    rewrite PC. cbn [bind]. simpl Num.neg. rewrite min3_int.
    set (delta := Z.min (Z.min (rsa s) (- rsa t)) m).
    assert (Pd : 0 < delta) by (unfold delta; lia).
    destruct (augment_residual_path nodes edges capacities costs supply instance
                flow q s t delta Keys B Hq Lq NDq) as (flow1 & Au & Keys1 & B1 & At & Net).
    { intros k I. apply Re. apply (Lk k I). }
    { lia. }
    { intros k I. destruct (Rc k I) as (z & E & P & C1 & C2). specialize (Lm k I).
      assert (Ez : flow_at rc k = z) by (unfold flow_at, value_of; rewrite E; reflexivity).
      rewrite Ez in Lm.
      split; intros J; [rewrite <- (C1 J) | rewrite <- (C2 J)]; unfold delta; lia. }
    fold pe in Au, At. rewrite Au. cbn [bind].
    destruct (cost_residual_state nodes edges capacities costs supply instance flow1 B1)
      as (re1 & rc1 & rk1 & rs1 & H1 & _ & _ & _ & _ & Ps1).
    rewrite H1. cbn [bind].
    rewrite (proj2 (nlookup_Ok rs1 s _) (Ps1 s Is)). cbn [bind].
    set (rsa1 := residual_supply_at supply edges (flow_at flow1)) in *.
    assert (R1 : forall n, rsa1 n = rsa n - delta * ((if node_eq_dec s n then 1 else 0)
                                                    - (if node_eq_dec t n then 1 else 0))).
    { intros n. unfold rsa1, rsa, residual_supply_at. rewrite (Net n). lia. }
    assert (R1s : rsa1 s = rsa s - delta).
    { rewrite R1. destruct (node_eq_dec s s); [|congruence].
      destruct (node_eq_dec t s); [congruence | lia]. }
    assert (R1t : rsa1 t = rsa t + delta).
    { rewrite R1. destruct (node_eq_dec t t); [|congruence].
      destruct (node_eq_dec s t); [congruence | lia]. }
    assert (R1o : forall n, n <> s -> n <> t -> rsa1 n = rsa n).
    { intros n N1 N2. rewrite R1. destruct (node_eq_dec s n); [congruence|].
      destruct (node_eq_dec t n); [congruence | lia]. }
    assert (Op : open_supply supply edges (flow_at flow1) nodes
                 = open_supply supply edges (flow_at flow) nodes - delta).
    { unfold open_supply. fold rsa rsa1.
      apply (open_supply_step rsa rsa1 nodes s t delta (ci_nodes _ _ _ _ _ instance) Is
               NEst); [unfold delta; lia | unfold delta; lia | exact R1]. }
    assert (Op1 := open_supply_nonneg (flow_at flow1)).
    assert (Rest : forall n, In n rest -> In n nodes /\ 0 < rsa1 n).
    { intros n I. destruct (Lst n (or_intror I)) as [In_ Pn]. split; [assumption|].
      rewrite R1o; [assumption | |].
      - intros ->. inversion NDr; contradiction.
      - intros ->. fold rsa in Pn. lia. }
    apply (IH flow1 re1 rc1 rk1 rs1); [|exact H1|].
    + constructor; [assumption | assumption | | |].
      * apply (prices_after_augment nodes edges capacities costs supply instance
                 (flow_at flow) (flow_at flow1) pe delta pi d O Closed).
        -- intros k I. destruct (Lk k I) as (J & E). split; [apply Re; assumption | exact E].
        -- lia.
        -- exact At.
      * unfold Num.eqb. destruct (rsa1 s =? 0) eqn:E.
        -- rewrite remove_first_head. split; [inversion NDr; assumption | exact Rest].
        -- apply Z.eqb_neq in E. split; [assumption|].
           intros n [<-|I]; [split; [assumption|]; fold rsa1; unfold delta in *; lia | auto].
      * destruct Left as [Inf|All]; [left; assumption | right].
        intros n I Pn. fold rsa1 in Pn.
        assert (Nt : n <> t) by (intros ->; unfold delta in *; lia).
        unfold Num.eqb. destruct (rsa1 s =? 0) eqn:E.
        -- apply Z.eqb_eq in E. rewrite remove_first_head.
           assert (Ns : n <> s) by (intros ->; lia).
           rewrite (R1o n Ns Nt) in Pn.
           destruct (All n I Pn) as [->|J]; [congruence | assumption].
        -- destruct (node_eq_dec n s) as [->|Ns]; [simpl; auto|].
           rewrite (R1o n Ns Nt) in Pn. apply (All n I Pn).
    + unfold Num.eqb. simpl in Fu.
      destruct (rsa1 s =? 0); [rewrite remove_first_head|]; simpl; lia.
Qed.

End CostLoop.

(** ** [minimum_cost_flow] as a whole *)

Section CostRun.
Variables (nodes : list node) (edges : list edge).
Variables (capacities costs : edict) (supply : ndict num).
Hypothesis instance : cost_instance nodes edges capacities costs supply.
Hypothesis prices : priced edges capacities costs.

Lemma zero_cost_state :
  cost_state nodes edges capacities costs supply (zero_flow edges)
    (filter (fun n => 0 <? residual_supply_at supply edges
                             (flow_at (zero_flow edges)) n) nodes).
Proof.
  destruct (ci_edges _ _ _ _ _ instance) as [ND OW]. constructor.
  - apply zero_flow_ekeys. assumption.
  - apply zero_flow_bounded. intros e I.
    destruct (capacity_at nodes edges capacities costs supply instance e I) as (Hc & Pc).
    unfold value_of. rewrite Hc. exact Pc.
  - destruct prices as (pi & P). exists pi. intros u v I.
    rewrite (flow_at_zero edges (u, v) I). split; [apply (P u v I) | lia].
  - split; [apply NoDup_filter; apply (ci_nodes _ _ _ _ _ instance)|].
    intros n I. apply filter_In in I. destruct I as [I P]. apply Z.ltb_lt in P. auto.
  - right. intros n I P. apply filter_In. split; [assumption|]. apply Z.ltb_lt. exact P.
Qed.

Lemma open_supply_zero :
  open_supply supply edges (flow_at (zero_flow edges)) nodes = total_supply supply nodes.
Proof.
  unfold open_supply, total_supply. apply wsum_ext. intros n _.
  unfold residual_supply_at. rewrite net_out_zero. f_equal. lia.
Qed.

(** The run: the loop ends, and the three results are computed from
    its flow. *)
Lemma minimum_cost_flow_run fuel :
  (Z.to_nat (total_supply supply nodes) + 2 * List.length nodes <= fuel)%nat ->
  exists flow feasible,
    minimum_cost_flow fuel nodes edges capacities costs supply
    = Ok (feasible, flow,
          Int (wsum (net_out (flow_at flow) edges)
                 (filter (fun n => 0 <? supply_at supply n) nodes)),
          Int (flow_cost costs edges (flow_at flow)))
    /\ cost_state nodes edges capacities costs supply flow []
    /\ (feasible = true <-> supplies edges supply nodes (flow_at flow)).
Proof.
  intros Fu. assert (St0 := zero_cost_state).
  destruct (cost_residual_state nodes edges capacities costs supply instance
              (zero_flow edges) (cs_bounded _ _ _ _ _ _ _ St0))
    as (re & rc & rk & rs & H & _ & _ & _ & _ & Ps).
  destruct (supply_loop_spec nodes edges capacities costs supply instance fuel
              (zero_flow edges) re rc rk rs _ St0 H) as (flow & L & St).
  { rewrite open_supply_zero.
    pose proof (filter_length_le
                  (fun n => 0 <? residual_supply_at supply edges
                                   (flow_at (zero_flow edges)) n) nodes). lia. }
  assert (Df : forall e, In e edges -> exists z, eget flow e = Some (Int z)).
  { intros e I.
    destruct (flow_in_capacity nodes edges capacities costs supply instance flow e
                (cs_bounded _ _ _ _ _ _ _ St) I) as (F & _). eauto. }
  destruct (all_supplied_spec edges flow supply nodes true Df
              (ci_supply _ _ _ _ _ instance)) as (b & A & Sp).
  exists flow, b. split; [|split; [assumption|]].
  - unfold minimum_cost_flow. rewrite H. cbn [bind].
    rewrite (supply_nodes_filter rs
               (residual_supply_at supply edges (flow_at (zero_flow edges))) nodes Ps).
    cbn [bind]. rewrite L. cbn [bind]. rewrite A. cbn [bind].
    rewrite (supply_nodes_filter supply (supply_at supply) nodes
               (supply_int nodes edges capacities costs supply instance)).
    cbn [bind]. rewrite (total_outflow_spec edges flow _ 0 Df). cbn [bind].
    rewrite (total_cost_spec flow costs edges 0 Df (ci_costs _ _ _ _ _ instance)).
    reflexivity.
  - rewrite Sp. tauto.
Qed.

End CostRun.

(** X19.  [minimum_cost_flow] ends and reports what it found.  On an
    instance where no node is listed twice or has the empty name, the
    edges join listed nodes, no edge is repeated or comes with its
    reverse, the capacities are non-negative ints, the costs are ints
    within the double range ([bellman_ford] adds them to the distance
    [inf]) under which the edges with capacity have node prices (as when
    no cost is negative), and every node has an int supply: with enough
    iterations the function returns; the flow has the edges as keys and
    an int between 0 and the capacity on every edge; [feasible] is true
    exactly when the net flow out of every node is its supply; the value
    is the net flow out of the nodes with a supply, which is the whole
    supply when [feasible] is true; the cost is the sum of flow times
    cost over the edges. *)
Theorem minimum_cost_flow_returns :
  forall fuel nodes edges capacities costs supply,
    cost_instance nodes edges capacities costs supply ->
    priced edges capacities costs ->
    (Z.to_nat (total_supply supply nodes) + 2 * List.length nodes <= fuel)%nat ->
    exists feasible flow value cost,
      minimum_cost_flow fuel nodes edges capacities costs supply
      = Ok (feasible, flow, Int value, Int cost)
      /\ ekeys flow = edges
      /\ (forall e, In e edges ->
            exists f c, eget flow e = Some (Int f) /\ eget capacities e = Some (Int c)
                        /\ 0 <= f <= c)
      /\ (feasible = true <-> supplies edges supply nodes (flow_at flow))
      /\ value = wsum (net_out (flow_at flow) edges)
                   (filter (fun n => 0 <? supply_at supply n) nodes)
      /\ (feasible = true -> value = total_supply supply nodes)
      /\ cost = flow_cost costs edges (flow_at flow).
Proof.
  intros fuel nodes edges capacities costs supply Inst Pr Fu.
  destruct (minimum_cost_flow_run nodes edges capacities costs supply Inst Pr fuel Fu)
    as (flow & feasible & R & St & Flag).
  exists feasible, flow. eexists. eexists. split; [exact R|].
  split; [apply (cs_keys _ _ _ _ _ _ _ St)|]. split; [|split; [exact Flag|]].
  - intros e I.
    destruct (flow_in_capacity nodes edges capacities costs supply Inst flow e
                (cs_bounded _ _ _ _ _ _ _ St) I) as (F & Rg).
    destruct (capacity_at nodes edges capacities costs supply Inst e I) as (Hc & _).
    eauto.
  - split; [reflexivity|]. split; [|reflexivity].
    intros T. apply Flag in T. rewrite wsum_filter. unfold total_supply.
    apply wsum_ext. intros n I. rewrite (T n I).
    destruct (0 <? supply_at supply n) eqn:E;
      [apply Z.ltb_lt in E | apply Z.ltb_ge in E]; lia.
Qed.

(** X20.  [minimum_cost_flow] decides feasibility and minimises the
    cost.  On such an instance and with enough iterations, [feasible] is
    true exactly when some assignment of ints between 0 and the
    capacities gives every node its supply; the returned flow costs no
    more than any such assignment with the same net flow at every node;
    so when [feasible] is true, it is a feasible flow of least cost. *)
Theorem minimum_cost_flow_optimal :
  forall fuel nodes edges capacities costs supply,
    cost_instance nodes edges capacities costs supply ->
    priced edges capacities costs ->
    (Z.to_nat (total_supply supply nodes) + 2 * List.length nodes <= fuel)%nat ->
    exists feasible flow value cost,
      minimum_cost_flow fuel nodes edges capacities costs supply
      = Ok (feasible, flow, Int value, Int cost)
      /\ (feasible = true
          <-> exists g, within_capacities edges capacities g
                        /\ supplies edges supply nodes g)
      /\ (forall g, within_capacities edges capacities g ->
            (forall n, In n nodes ->
               net_out g edges n = net_out (flow_at flow) edges n) ->
            cost <= flow_cost costs edges g)
      /\ (feasible = true ->
          forall g, within_capacities edges capacities g ->
            supplies edges supply nodes g -> cost <= flow_cost costs edges g).
Proof.
  intros fuel nodes edges capacities costs supply Inst Pr Fu.
  destruct (minimum_cost_flow_run nodes edges capacities costs supply Inst Pr fuel Fu)
    as (flow & feasible & R & St & Flag).
  destruct St as [Keys B (pi & O) _ Left].
  assert (W := within_of_bounded nodes edges capacities costs supply Inst flow B).
  assert (Least : forall g, within_capacities edges capacities g ->
            (forall n, In n nodes ->
               net_out g edges n = net_out (flow_at flow) edges n) ->
            flow_cost costs edges (flow_at flow) <= flow_cost costs edges g).
  { intros g Wg Same.
    apply (optimal_prices_least_cost nodes edges capacities costs supply Inst
             (flow_at flow) g pi W Wg O Same). }
  exists feasible, flow. eexists. eexists. split; [exact R|].
  split; [|split; [exact Least|]].
  - rewrite Flag. split; [intros S; exists (flow_at flow); auto|].
    intros (g & Wg & Sg). destruct Left as [Inf|All]; [exfalso; apply (Inf g Wg Sg)|].
    assert (Z0 : wsum (residual_supply_at supply edges (flow_at flow)) nodes = 0).
    { unfold residual_supply_at.
      rewrite (wsum_ext _ (fun n => net_out g edges n
                                    + (-1) * net_out (flow_at flow) edges n))
        by (intros n I; rewrite (Sg n I); lia).
      rewrite wsum_plus, wsum_scale.
      rewrite !(net_out_total _ nodes edges (ci_nodes _ _ _ _ _ Inst)
                  (ci_ends _ _ _ _ _ Inst)). reflexivity. }
    assert (E : forall n, In n nodes ->
              residual_supply_at supply edges (flow_at flow) n = 0).
    { apply wsum_squeeze.
      - intros n I. destruct (Z.le_gt_cases
                                (residual_supply_at supply edges (flow_at flow) n) 0)
          as [Le|Gt]; [assumption|]. destruct (All n I Gt).
      - rewrite Z0. rewrite wsum_zero; [lia | reflexivity]. }
    intros n I. specialize (E n I). unfold residual_supply_at in E. lia.
  - intros T g Wg Sg. apply (Least g Wg). intros n I.
    apply Flag in T. rewrite (T n I), (Sg n I). reflexivity.
Qed.

Lemma slide9_instance :
  cost_instance Examples.slide9_nodes Examples.slide9_edges
    Examples.slide9_capacities Examples.slide9_costs Examples.slide9_supply.
Proof.
  constructor.
  - repeat constructor; simpl; intuition discriminate.
  - simpl. intuition discriminate.
  - intros u v I. simpl in I.
    repeat match goal with
    | H : _ \/ _ |- _ => destruct H
    | H : (_, _) = (_, _) |- _ => inversion H; clear H; subst
    | H : False |- _ => destruct H
    end; simpl; auto 10.
  - split.
    + repeat constructor; simpl; intuition discriminate.
    + intros u v I J. simpl in I, J.
      repeat match goal with
      | H : _ \/ _ |- _ => destruct H
      | H : (_, _) = (_, _) |- _ => inversion H; clear H; subst
      | H : False |- _ => destruct H
      end; discriminate.
  - intros e I. simpl in I.
    repeat match goal with
    | H : _ \/ _ |- _ => destruct H
    | H : False |- _ => destruct H
    end; subst; eexists; (split; [reflexivity | lia]).
  - intros e I. simpl in I.
    repeat match goal with
    | H : _ \/ _ |- _ => destruct H
    | H : False |- _ => destruct H
    end; subst; eexists; reflexivity.
  - intros e I. simpl in I.
    repeat match goal with
    | H : _ \/ _ |- _ => destruct H
    | H : False |- _ => destruct H
    end; subst; reflexivity.
  - intros n I. simpl in I.
    repeat match goal with
    | H : _ \/ _ |- _ => destruct H
    | H : False |- _ => destruct H
    end; subst; eexists; reflexivity.
Qed.

Lemma slide9_priced : priced Examples.slide9_edges Examples.slide9_capacities
                        Examples.slide9_costs.
Proof.
  exists (fun _ => 0). intros u v I _. simpl in I.
  repeat match goal with
  | H : _ \/ _ |- _ => destruct H
  | H : (_, _) = (_, _) |- _ => inversion H; clear H; subst
  | H : False |- _ => destruct H
  end; vm_compute; discriminate.
Qed.

Lemma minimum_cost_flow_returns_witness :
  exists feasible flow value cost,
    minimum_cost_flow 22 Examples.slide9_nodes Examples.slide9_edges
      Examples.slide9_capacities Examples.slide9_costs Examples.slide9_supply
    = Ok (feasible, flow, Int value, Int cost)
    /\ ekeys flow = Examples.slide9_edges
    /\ (forall e, In e Examples.slide9_edges ->
          exists f c, eget flow e = Some (Int f)
                      /\ eget Examples.slide9_capacities e = Some (Int c)
                      /\ 0 <= f <= c)
    /\ (feasible = true
        <-> supplies Examples.slide9_edges Examples.slide9_supply
              Examples.slide9_nodes (flow_at flow))
    /\ value = wsum (net_out (flow_at flow) Examples.slide9_edges)
                 (filter (fun n => 0 <? supply_at Examples.slide9_supply n)
                    Examples.slide9_nodes)
    /\ (feasible = true -> value = total_supply Examples.slide9_supply
                                     Examples.slide9_nodes)
    /\ cost = flow_cost Examples.slide9_costs Examples.slide9_edges (flow_at flow).
Proof.
  apply (minimum_cost_flow_returns 22 Examples.slide9_nodes Examples.slide9_edges
           Examples.slide9_capacities Examples.slide9_costs Examples.slide9_supply).
  - exact slide9_instance.
  - exact slide9_priced.
  - vm_compute. lia.
Defined.

Lemma minimum_cost_flow_optimal_witness :
  exists feasible flow value cost,
    minimum_cost_flow 22 Examples.slide9_nodes Examples.slide9_edges
      Examples.slide9_capacities Examples.slide9_costs Examples.slide9_supply
    = Ok (feasible, flow, Int value, Int cost)
    /\ (feasible = true
        <-> exists g, within_capacities Examples.slide9_edges
                        Examples.slide9_capacities g
                      /\ supplies Examples.slide9_edges Examples.slide9_supply
                           Examples.slide9_nodes g)
    /\ (forall g, within_capacities Examples.slide9_edges Examples.slide9_capacities g ->
          (forall n, In n Examples.slide9_nodes ->
             net_out g Examples.slide9_edges n
             = net_out (flow_at flow) Examples.slide9_edges n) ->
          cost <= flow_cost Examples.slide9_costs Examples.slide9_edges g)
    /\ (feasible = true ->
        forall g, within_capacities Examples.slide9_edges Examples.slide9_capacities g ->
          supplies Examples.slide9_edges Examples.slide9_supply
            Examples.slide9_nodes g ->
          cost <= flow_cost Examples.slide9_costs Examples.slide9_edges g).
Proof.
  apply (minimum_cost_flow_optimal 22 Examples.slide9_nodes Examples.slide9_edges
           Examples.slide9_capacities Examples.slide9_costs Examples.slide9_supply).
  - exact slide9_instance.
  - exact slide9_priced.
  - vm_compute. lia.
Defined.

(** ** [minimum_cost_flow] on a cycle of negative cost *)

Lemma walk_incl edges edges' u v p :
  (forall e, In e edges -> In e edges') -> walk edges u v p -> walk edges' u v p.
Proof.
  intros Inc (Hd & L & F). split; [assumption|]. split; [assumption|].
  rewrite Forall_forall in *. auto.
Qed.

(** X21.  A cycle of negative cost makes [minimum_cost_flow] fail.  On an
    instance of the minimum-cost problem (the costs being ints within the
    double range, so that no relaxation overflows), when the first node
    with a supply reaches, over edges of positive capacity, a cycle of
    such edges whose costs sum to less than 0, and some node has a
    demand, the first iteration raises a [TypeError]: [bellman_ford]
    returns [None] for the parents, and the search for a demand node
    subscripts them. *)
Theorem minimum_cost_flow_negative_cycle :
  forall fuel nodes edges capacities costs supply s,
    cost_instance nodes edges capacities costs supply ->
    hd_error (filter (fun n => 0 <? supply_at supply n) nodes) = Some s ->
    (exists n, In n nodes /\ supply_at supply n < 0) ->
    ~ no_negative_cycle (filter (fun e => 0 <? flow_at capacities e) edges) costs s ->
    (0 < fuel)%nat ->
    minimum_cost_flow fuel nodes edges capacities costs supply = Err TypeError.
Proof.
  intros fuel nodes edges capacities costs supply s Inst Hs (n & In_ & Neg) Cyc Fu.
  destruct (ci_edges _ _ _ _ _ Inst) as [ND OW].
  assert (B : bounded edges (fun _ => 0) (value_of capacities) (zero_flow edges)).
  { apply zero_flow_bounded. intros e I.
    destruct (capacity_at nodes edges capacities costs supply Inst e I) as (Hc & Pc).
    unfold value_of. rewrite Hc. exact Pc. }
  destruct (cost_residual_state nodes edges capacities costs supply Inst
              (zero_flow edges) B) as (re & rc & rk & rs & H & Re & _ & Rk & WG & Ps).
  assert (R0 : forall x, residual_supply_at supply edges (flow_at (zero_flow edges)) x
                         = supply_at supply x).
  { intros x. unfold residual_supply_at. rewrite net_out_zero. lia. }
  assert (NC : ~ no_negative_cycle re rk s).
  { intros NC. apply Cyc. intros u p c Wp Wc.
    assert (Inc : forall e, In e (filter (fun e => 0 <? flow_at capacities e) edges) ->
                    In e re).
    { intros e I. apply filter_In in I. destruct I as [I P]. apply Z.ltb_lt in P.
      apply Re. left. split; [assumption|]. rewrite (flow_at_zero edges e I). exact P. }
    specialize (NC u p c (walk_incl _ _ _ _ _ Inc Wp) (walk_incl _ _ _ _ _ Inc Wc)).
    replace (walk_weight costs c) with (walk_weight rk c); [exact NC|].
    unfold walk_weight. apply wsum_ext. intros e I.
    destruct Wc as (_ & _ & F). rewrite Forall_forall in F. specialize (F e I).
    assert (J := Inc e F). apply filter_In in F. destruct F as [F _].
    unfold weight_of, value_of at 1. rewrite (Rk e J).
    rewrite (residual_cost_forward edges costs e F). reflexivity. }
  destruct fuel as [|fuel]; [lia|].
  unfold minimum_cost_flow. rewrite H. cbn [bind].
  rewrite (supply_nodes_filter rs
             (residual_supply_at supply edges (flow_at (zero_flow edges))) nodes Ps).
  cbn [bind].
  rewrite (filter_ext _ (fun n => 0 <? supply_at supply n))
    by (intros x; rewrite R0; reflexivity).
  destruct (filter (fun n => 0 <? supply_at supply n) nodes) as [|s' rest];
    [discriminate|]. simpl in Hs. inversion Hs; subst s'.
  cbn [supply_loop].
  rewrite (bellman_ford_cycle nodes re rk s WG
             (residual_small_weights nodes edges capacities costs supply Inst
                (zero_flow edges) re rk Re Rk) NC).
  cbn [bind].
  rewrite (demand_nodes_no_parents rs
             (residual_supply_at supply edges (flow_at (zero_flow edges))) nodes Ps).
  - reflexivity.
  - exists n. split; [assumption|]. rewrite R0. exact Neg.
Qed.

Lemma cycle_instance :
  cost_instance cycle_nodes cycle_edges cycle_capacities cycle_costs cycle_supply.
Proof.
  constructor.
  - repeat constructor; simpl; intuition discriminate.
  - simpl. intuition discriminate.
  - intros u v I. simpl in I.
    repeat match goal with
    | H : _ \/ _ |- _ => destruct H
    | H : (_, _) = (_, _) |- _ => inversion H; clear H; subst
    | H : False |- _ => destruct H
    end; simpl; auto 10.
  - split.
    + repeat constructor; simpl; intuition discriminate.
    + intros u v I J. simpl in I, J.
      repeat match goal with
      | H : _ \/ _ |- _ => destruct H
      | H : (_, _) = (_, _) |- _ => inversion H; clear H; subst
      | H : False |- _ => destruct H
      end; discriminate.
  - intros e I. simpl in I.
    repeat match goal with
    | H : _ \/ _ |- _ => destruct H
    | H : False |- _ => destruct H
    end; subst; eexists; (split; [reflexivity | lia]).
  - intros e I. simpl in I.
    repeat match goal with
    | H : _ \/ _ |- _ => destruct H
    | H : False |- _ => destruct H
    end; subst; eexists; reflexivity.
  - intros e I. simpl in I.
    repeat match goal with
    | H : _ \/ _ |- _ => destruct H
    | H : False |- _ => destruct H
    end; subst; reflexivity.
  - intros n I. simpl in I.
    repeat match goal with
    | H : _ \/ _ |- _ => destruct H
    | H : False |- _ => destruct H
    end; subst; eexists; reflexivity.
Qed.

Lemma cycle_negative :
  ~ no_negative_cycle (filter (fun e => 0 <? flow_at cycle_capacities e) cycle_edges)
      cycle_costs "a"%string.
Proof.
  intros NC.
  assert (W : walk (filter (fun e => 0 <? flow_at cycle_capacities e) cycle_edges)
                "a"%string "a"%string ["a"; "b"; "c"; "a"]%string).
  { split; [reflexivity|]. split; [reflexivity|].
    apply Forall_forall. intros e I. apply filter_In. simpl in I.
    destruct I as [<-|[<-|[<-|[]]]]; (split; [simpl; auto | reflexivity]). }
  specialize (NC "a"%string ["a"%string] ["a"; "b"; "c"; "a"]%string
                (walk_source _ _) W).
  vm_compute in NC. apply NC. reflexivity.
Qed.

Lemma minimum_cost_flow_negative_cycle_witness :
  minimum_cost_flow 1 cycle_nodes cycle_edges cycle_capacities cycle_costs cycle_supply
  = Err TypeError.
Proof.
  apply (minimum_cost_flow_negative_cycle 1 cycle_nodes cycle_edges cycle_capacities
           cycle_costs cycle_supply "a"%string).
  - exact cycle_instance.
  - reflexivity.
  - exists "c"%string. split; [simpl; auto | vm_compute; reflexivity].
  - exact cycle_negative.
  - lia.
Defined.

(** ** [ford_fulkerson] from a flow of the network *)

(** X22.  [ford_fulkerson] started from a flow.  On an edge list without
    repeated edges and without an edge together with its reverse, with
    non-negative int capacities and a source different from the sink,
    when the starting flow has the edges as keys, an int between 0 and
    the capacity on every edge and is conserved at the inner nodes: the
    function returns a flow of the same kind with its value, which is at
    least the value of the starting flow, and with the breadth-first, the
    depth-first or the maximum-bottleneck search no flow of the network
    has a larger value. *)
Theorem ford_fulkerson_warm_start :
  forall strat sfuel fuel edges capacities source sink start,
    one_way edges -> int_capacities edges capacities -> source <> sink ->
    flow_state edges (fun _ => 0) (value_of capacities) source sink start ->
    (search_fuel strat (2 * List.length edges) <= sfuel)%nat ->
    (Z.to_nat (capacity_out (value_of capacities) edges source
               - net_out (flow_at start) edges source) <= fuel)%nat ->
    exists flow,
      ford_fulkerson fuel edges capacities source sink (search strat sfuel) (Some start)
      = Ok (flow, Int (net_out (flow_at flow) edges source))
      /\ flow_state edges (fun _ => 0) (value_of capacities) source sink flow
      /\ net_out (flow_at start) edges source <= net_out (flow_at flow) edges source
      /\ (strat <> MinBottleneck ->
          forall g, network_flow edges capacities source sink g ->
            net_out g edges source <= net_out (flow_at flow) edges source).
Proof.
  intros strat sfuel fuel edges capacities source sink start OW IC NE St SF Fu.
  assert (E0 := initial_flow_keys edges start (fs_keys _ _ _ _ _ _ St)).
  destruct (progress_augmenting edges (fun _ => 0) (value_of capacities)
              (max_flow_entries capacities)
              (MaximumFlow.construct_residual_graph edges capacities)
              source sink strat sfuel OW
              (construct_residual_graph_with edges capacities)
              (fun flow e f xy _ => max_flow_entries_value capacities flow e f xy)
              (fun flow e St =>
                 max_flow_entries_total edges capacities _ _ flow e IC
                   (fs_bounded _ _ _ _ _ _ St))
              (fun _ _ => Z.le_refl 0)) with (fuel := fuel) (flow0 := Some start)
    as (flow & re & rc & R & St' & B & Fin & Le & _).
  - intros e I _. destruct (IC e I) as (c & Hc & _). unfold value_of. rewrite Hc. eauto.
  - intros flow re rc p B H _ _.
    apply (int_capacities_finite edges capacities flow re rc p OW IC B H).
  - exact NE.
  - exact SF.
  - rewrite E0. exact St.
  - rewrite E0. exact Fu.
  - rewrite E0 in Le. exists flow. split; [exact R|]. split; [exact St'|].
    split; [exact Le|]. intros NM g Ng.
    apply (max_flow_cut edges capacities source sink flow re rc g OW IC St' B (Fin NM) Ng).
Qed.

Lemma chain_int_capacities : int_capacities Examples.chain_edges Examples.chain_upper.
Proof.
  intros e I. simpl in I.
  repeat match goal with
  | H : _ \/ _ |- _ => destruct H
  | H : False |- _ => destruct H
  end; subst; eexists; (split; [reflexivity | lia]).
Qed.

Lemma chain_network_state :
  flow_state Examples.chain_edges (fun _ => 0) (value_of Examples.chain_upper)
    "s"%string "t"%string (Examples.ints [("s", "a", 2); ("a", "t", 2)]%string).
Proof.
  destruct chain_flow_state as [K B C]. constructor; [assumption| |assumption].
  intros e I. destruct (B e I) as (f & F & L & U). exists f. split; [assumption|].
  split; [|assumption]. destruct (chain_int_bounds e I) as (lo & up & Hl & _ & Rg).
  unfold value_of in L. rewrite Hl in L. simpl in L. lia.
Qed.

Lemma ford_fulkerson_warm_start_witness :
  exists flow,
    ford_fulkerson 1 Examples.chain_edges Examples.chain_upper "s"%string "t"%string
      (search BreadthFirst 6) (Some (Examples.ints [("s", "a", 2); ("a", "t", 2)]%string))
    = Ok (flow, Int (net_out (flow_at flow) Examples.chain_edges "s"%string))
    /\ flow_state Examples.chain_edges (fun _ => 0) (value_of Examples.chain_upper)
         "s"%string "t"%string flow
    /\ net_out (flow_at (Examples.ints [("s", "a", 2); ("a", "t", 2)]%string))
         Examples.chain_edges "s"%string
       <= net_out (flow_at flow) Examples.chain_edges "s"%string
    /\ (BreadthFirst <> MinBottleneck ->
        forall g, network_flow Examples.chain_edges Examples.chain_upper
                    "s"%string "t"%string g ->
          net_out g Examples.chain_edges "s"%string
          <= net_out (flow_at flow) Examples.chain_edges "s"%string).
Proof.
  apply (ford_fulkerson_warm_start BreadthFirst 6 1 Examples.chain_edges
           Examples.chain_upper "s"%string "t"%string).
  - exact chain_one_way.
  - exact chain_int_capacities.
  - discriminate.
  - exact chain_network_state.
  - vm_compute. lia.
  - vm_compute. lia.
Defined.

(** ** The augmenting loop ends without conservation *)

Section Termination.
Variable edges : list edge.
Variable lo : edge -> Z.
Variable hi : edge -> num.
Variable entries : edict -> edge -> result (num * num).
Variable build : edict -> result (list edge * edict).
Variables source sink : node.
Variable strat : strategy.
Variable sfuel : nat.

Hypothesis edges_one_way : one_way edges.
Hypothesis build_eq : forall flow,
  build flow = (rc <- residual_with (entries flow) edges [] ;; Ok (ekeys rc, rc)).
Hypothesis entries_value : forall flow e f xy,
  In e edges -> eget flow e = Some (Int f) ->
  entries flow e = Ok xy ->
  xy = (Num.minus (hi e) (Int f), Int (f - lo e)).
Hypothesis entries_total : forall flow e,
  bounded edges lo hi flow -> In e edges ->
  exists xy, entries flow e = Ok xy.
Hypothesis lo_nonneg : forall e, In e edges -> 0 <= lo e.
Hypothesis source_int : forall e, In e edges -> fst e = source -> exists h, hi e = Int h.
Hypothesis path_finite : forall flow re rc p,
  bounded edges lo hi flow -> build flow = Ok (re, rc) ->
  hd_error p = Some source -> last_node p = Ok sink -> finite_bottleneck rc p.
Hypothesis ends_differ : source <> sink.
Hypothesis enough : (search_fuel strat (2 * List.length edges) <= sfuel)%nat.

Lemma bounded_build_total flow :
  bounded edges lo hi flow -> exists re rc, build flow = Ok (re, rc).
Proof.
  intros B.
  destruct (residual_with_total (entries flow) edges) with (rc0 := @nil (edge * num))
    as [rc H].
  - intros e I. apply entries_total; assumption.
  - exists (ekeys rc), rc. rewrite build_eq. change edict with (list (edge * num)).
    rewrite H. reflexivity.
Qed.

(** One augmentation of a flow within its bounds, conserved or not. *)
Lemma bounded_progress_step flow re rc p :
  ekeys flow = edges -> bounded edges lo hi flow -> build flow = Ok (re, rc) ->
  augmenting_path re rc source sink p ->
  exists d flow1,
    0 < d
    /\ calculate_path_capacity rc (get_path_edges p) = Ok (Int d)
    /\ augment edges (get_path_edges p) (Int d) flow = Ok flow1
    /\ ekeys flow1 = edges
    /\ bounded edges lo hi flow1
    /\ net_out (flow_at flow1) edges source = net_out (flow_at flow) edges source + d.
Proof.
  intros Keys B H A.
  destruct (residual_graph edges lo hi entries build edges_one_way build_eq entries_value
              flow re rc B H) as (Ere & Len & D & P & X).
  destruct (bounded_residual edges lo hi entries build edges_one_way build_eq entries_value
              flow re rc B H) as (_ & G & _).
  destruct (augmenting_bottleneck _ _ _ _ _ A) as (delta & Bn & Pos).
  destruct A as [(Hd & L & F) ND].
  assert (FB := path_finite flow re rc p B H Hd L).
  destruct (calculate_path_capacity_spec rc _ delta Bn) as [Gd Le];
    [intros e c _; apply G|].
  assert (exists d, delta = Int d /\ 0 < d) as (d & -> & Hd0).
  { destruct FB as [E|(e0 & I0 & V0)].
    - exfalso. destruct p as [|x [|y p]]; try discriminate.
      simpl in Hd. unfold last_node in L. simpl in L. congruence.
    - destruct (Le e0 I0) as (c0 & Hc0 & Le0).
      destruct V0 as [V0|[z V0]]; [congruence|].
      rewrite V0 in Hc0. inversion Hc0; subst c0.
      destruct (nle_finite delta z Gd Le0) as (d & -> & _).
      exists d. split; [reflexivity|].
      destruct Pos as [?|(z' & E & ?)]; [discriminate | inversion E; subst; assumption]. }
  destruct (augment_total (get_path_edges p) d edges flow) as [flow1 Au].
  { intros e I. destruct (bounded_at edges lo hi flow e B I) as (Fe & _). eauto. }
  assert (B1 : bounded edges lo hi flow1)
    by (apply (bounded_step edges lo hi entries build edges_one_way build_eq entries_value
                 flow re rc p (Int d) flow1); assumption).
  destruct (augment_spec _ _ _ _ _ (proj1 edges_one_way) Au) as [_ Upd].
  assert (At : forall e, In e edges ->
            flow_at flow1 e
            = flow_at flow e
              + d * ((if mem_edge e (get_path_edges p) then 1 else 0)
                     - (if mem_edge (swap e) (get_path_edges p) then 1 else 0))).
  { intros e I. destruct (bounded_at edges lo hi flow e B I) as (Fe & _).
    unfold flow_at at 1. unfold value_of. rewrite (Upd e _ I Fe), bump_int. reflexivity. }
  exists d, flow1. split; [assumption|]. split; [assumption|]. split; [assumption|].
  split; [rewrite (augment_keys _ _ _ _ _ Au); assumption|]. split; [assumption|].
  unfold net_out.
  rewrite (wsum_ext _ (fun e => sgn source e * flow_at flow e
             + d * (sgn source e * ((if mem_edge e (get_path_edges p) then 1 else 0)
                     - (if mem_edge (swap e) (get_path_edges p) then 1 else 0)))))
    by (intros e I; rewrite (At e I); lia).
  rewrite wsum_plus, wsum_scale. f_equal.
  rewrite (path_sum edges (proj1 edges_one_way) source (get_path_edges p)).
  - destruct p as [|x rest]; [discriminate|]. rewrite path_sgn.
    simpl in Hd. inversion Hd; subst x.
    unfold last_node in L. inversion L as [L']. rewrite L'.
    destruct (node_eq_dec source source); [|congruence].
    destruct (node_eq_dec sink source); [congruence | lia].
  - apply path_edges_NoDup. assumption.
  - intros k I. apply X. rewrite Forall_forall in F. apply (F k I).
Qed.

Lemma bounded_flow_value flow :
  ekeys flow = edges -> bounded edges lo hi flow ->
  calculate_flow_value flow source = Ok (Int (net_out (flow_at flow) edges source)).
Proof.
  intros Keys B. rewrite calculate_flow_value_int; [rewrite Keys; reflexivity|].
  intros e I. rewrite Keys in I.
  destruct (bounded_at edges lo hi flow e B I) as (F & _). eauto.
Qed.

Lemma bounded_progress_loop fuel : forall flow re rc p,
  ekeys flow = edges -> bounded edges lo hi flow -> build flow = Ok (re, rc) ->
  search strat sfuel re rc source sink = Ok p ->
  (Z.to_nat (capacity_out hi edges source - net_out (flow_at flow) edges source)
   <= fuel)%nat ->
  exists flow',
    augmenting_loop fuel build edges source sink (search strat sfuel) flow rc p
    = Ok (flow', Int (net_out (flow_at flow') edges source))
    /\ ekeys flow' = edges /\ bounded edges lo hi flow'.
Proof.
  induction fuel as [|fuel IH]; intros flow re rc p Keys B H S Fu.
  - destruct (search_result edges lo hi entries build source sink strat sfuel
                edges_one_way build_eq entries_value enough re rc flow B H)
      as (p' & S' & R).
    rewrite S in S'. inversion S'; subst p'. destruct p as [p|].
    + exfalso.
      destruct (bounded_progress_step flow re rc p Keys B H R)
        as (d & flow1 & Hd & _ & _ & _ & B1 & V).
      pose proof (value_le edges lo hi source strat sfuel lo_nonneg source_int enough
                    flow1 B1). lia.
    + simpl. rewrite (bounded_flow_value flow Keys B). simpl. eauto.
  - destruct (search_result edges lo hi entries build source sink strat sfuel
                edges_one_way build_eq entries_value enough re rc flow B H)
      as (p' & S' & R).
    rewrite S in S'. inversion S'; subst p'. destruct p as [p|].
    + destruct (bounded_progress_step flow re rc p Keys B H R)
        as (d & flow1 & Hd & C & Au & Keys1 & B1 & V).
      cbn [augmenting_loop]. rewrite (path_found_augmenting _ _ _ _ _ R).
      rewrite C. simpl. rewrite Au. simpl.
      destruct (bounded_build_total flow1 B1) as (re1 & rc1 & H1).
      rewrite H1. simpl.
      destruct (search_result edges lo hi entries build source sink strat sfuel
                  edges_one_way build_eq entries_value enough re1 rc1 flow1 B1 H1)
        as (p1 & S1 & _).
      rewrite S1. simpl.
      apply (IH flow1 re1 rc1 p1 Keys1 B1 H1 S1).
      pose proof (value_le edges lo hi source strat sfuel lo_nonneg source_int enough
                    flow1 B1). lia.
    + simpl. rewrite (bounded_flow_value flow Keys B). simpl. eauto.
Qed.

Lemma bounded_progress_augmenting fuel start :
  ekeys start = edges -> bounded edges lo hi start ->
  (Z.to_nat (capacity_out hi edges source - net_out (flow_at start) edges source)
   <= fuel)%nat ->
  exists flow,
    augmenting fuel build edges source sink (search strat sfuel) (Some start)
    = Ok (flow, Int (net_out (flow_at flow) edges source))
    /\ ekeys flow = edges /\ bounded edges lo hi flow.
Proof.
  intros Keys B Fu. unfold augmenting. rewrite (initial_flow_keys edges start Keys).
  destruct (bounded_build_total start B) as (re & rc & H).
  rewrite H. simpl.
  destruct (search_result edges lo hi entries build source sink strat sfuel
              edges_one_way build_eq entries_value enough re rc start B H) as (p & S & _).
  rewrite S. simpl. apply (bounded_progress_loop fuel start re rc p); assumption.
Qed.

End Termination.

(** ** [minimum_flow] always returns *)

(** The first phase ends on every instance: the maximum flow of the
    graph exists, and with the lower bounds added it is within the
    bounds, whether or not it is conserved. *)
Lemma construct_feasible_flow_total strat sfuel fuel nodes edges lower upper
    source sink :
  min_flow_instance nodes edges source sink -> int_bounds edges lower upper ->
  Num.huge (total_capacity upper edges) = false ->
  (forall u v, In (u, v) edges -> In u nodes /\ In v nodes) -> In sink nodes ->
  (search_fuel strat (2 * List.length (prime_graph nodes edges source sink)) <= sfuel)%nat ->
  (Z.to_nat (total_lower lower edges) <= fuel)%nat ->
  exists start,
    construct_feasible_flow fuel nodes edges lower upper source sink (search strat sfuel)
    = Ok start
    /\ ekeys start = edges
    /\ bounded edges (fun e => int_of (value_of lower e)) (value_of upper) start.
Proof.
  intros MI IB Sm Ends It SF Fu.
  assert (OWp := one_way_prime nodes edges source sink MI).
  destruct (mfi_fresh_nodes _ _ _ _ MI) as [NS NT].
  destruct (mfi_fresh_ends _ _ _ _ MI) as (F1 & F2 & F3 & F4).
  assert (Lo : forall e, In e edges -> exists z, eget lower e = Some (Int z)).
  { intros e I. destruct (IB e I) as (lo & up & L & _). eauto. }
  assert (PF := prime_path_finite nodes edges lower upper source sink MI
                  (int_bounds_or_inf _ _ _ IB)
                  _ _ (prime_capacities_eq lower edges nodes [] NS Lo)
                  (window_capacities_eq lower upper edges _ IB)).
  change (add_prime_edges nodes edges ++ [(sink, source)])
    with (prime_graph nodes edges source sink) in OWp, PF.
  change (eset _ (sink, source) PosInf)
    with (prime_caps nodes edges lower upper source sink) in PF.
  set (ep := prime_graph nodes edges source sink) in *.
  set (caps := prime_caps nodes edges lower upper source sink) in *.
  assert (Dp : defined_on ep caps) by apply prime_caps_defined.
  assert (In_ep : forall e, In e edges -> In e ep)
    by (intros e I; apply prime_graph_in; auto).
  assert (SrcInt : forall e, In e ep -> fst e = s_prime ->
                     exists h, value_of caps e = Int h).
  { intros e I E. unfold caps.
    rewrite (prime_caps_value nodes edges lower upper source sink e I).
    destruct (edge_eq_dec (sink, source) e) as [<-|_]; [simpl in E; congruence|].
    destruct (in_dec edge_eq_dec e edges); eauto. }
  destruct (progress_augmenting ep (fun _ => 0) (value_of caps) (max_flow_entries caps)
              (MaximumFlow.construct_residual_graph ep caps) s_prime t_prime
              strat sfuel OWp
              (construct_residual_graph_with ep caps)
              (fun flow e f xy _ => max_flow_entries_value caps flow e f xy)
              (fun flow e =>
                 prime_entries_total nodes edges lower upper source sink MI IB It
                   flow e Sm)
              (fun _ _ => Z.le_refl 0) SrcInt PF s_prime_t_prime SF)
    with (fuel := fuel) (flow0 := @None edict)
    as (fp & re & rc & R & St & _).
  - simpl. apply zero_flow_state; [apply OWp|]. intros e I.
    apply prime_caps_le_hi; assumption.
  - simpl initial_flow. rewrite net_out_zero, Z.sub_0_r. unfold ep, caps.
    rewrite (prime_capacity_total nodes edges lower upper source sink MI Ends It).
    assumption.
  - destruct (rebuild_total (fun x e => lo <- elookup lower e ;; Num.add x lo)
                fp edges) with (acc := @nil (edge * num)) as [F Rb].
    { intros e I. destruct (fs_bounded _ _ _ _ _ _ St e (In_ep e I)) as (f & Ef & _).
      destruct (Lo e I) as (z & El).
      exists (Int f), (Int (f + z)). split; [assumption|].
      rewrite (elookup_eget _ _ _ El). reflexivity. }
    assert (C : construct_feasible_flow fuel nodes edges lower upper source sink
                  (search strat sfuel) = Ok F).
    { rewrite construct_feasible_flow_eq by assumption. unfold ford_fulkerson.
      fold ep caps. rewrite R. cbn [bind]. exact Rb. }
    exists F. split; [exact C|]. split.
    + apply (rebuild_ekeys _ _ edges [] F (proj1 (mfi_edges _ _ _ _ MI))
               (fun _ _ H => H) Rb).
    + apply (construct_feasible_flow_within strat sfuel fuel nodes edges lower upper
               source sink F MI (int_bounds_or_inf _ _ _ IB) C).
Qed.

(** X23.  [minimum_flow] never reports that no feasible flow exists.  On
    an instance of the minimum-flow problem (no node listed twice, the two
    reserved names unused, source and sink different listed nodes, the
    edges joining listed nodes, no edge repeated, with its reverse, or
    between source and sink, int bounds [0 <= lower <= upper] whose upper
    bounds together are within the double range, as the flow on the edge
    of capacity [inf] from the sink back to the source is subtracted from
    [inf]), called without a feasible flow, with any of the four searches
    and enough iterations, it returns a flow and a value: the flow has
    the edges as keys and is within the bounds, and the value is the net
    flow into the sink.  When no flow within the bounds is conserved at
    the inner nodes, the flow returned is not conserved either. *)
Theorem minimum_flow_always_returns :
  forall strat sfuel fuel nodes edges lower upper source sink,
    min_flow_instance nodes edges source sink -> int_bounds edges lower upper ->
    Num.huge (total_capacity upper edges) = false ->
    (forall u v, In (u, v) edges -> In u nodes /\ In v nodes) ->
    In source nodes -> In sink nodes ->
    (search_fuel strat (2 * (List.length edges + 2 * List.length nodes + 1)) <= sfuel)%nat ->
    (Z.to_nat (total_capacity upper edges) <= fuel)%nat ->
    exists flow value,
      minimum_flow fuel nodes edges lower upper source sink (search strat sfuel) None
      = Ok (flow, Int value)
      /\ ekeys flow = edges
      /\ bounded edges (fun e => int_of (value_of lower e)) (value_of upper) flow
      /\ value = - net_out (flow_at flow) edges sink
      /\ ((forall g, ~ feasible_for edges lower upper source sink g) ->
          ~ conserving (flow_at flow) edges source sink).
Proof.
  intros strat sfuel fuel nodes edges lower upper source sink MI IB Sm Ends Is It SF Fu.
  assert (OW := mfi_edges _ _ _ _ MI). assert (NE := mfi_ends _ _ _ _ MI).
  assert (T1 := total_lower_le edges lower upper IB).
  destruct (construct_feasible_flow_total strat sfuel fuel nodes edges lower upper
              source sink MI IB Sm Ends It) as (F & C & KeysF & BF); [|lia|].
  { rewrite prime_graph_length. assumption. }
  assert (T2 := phase_two_fuel edges lower upper F sink IB BF).
  destruct (bounded_progress_augmenting edges (fun e => int_of (value_of lower e))
              (value_of upper) (min_flow_entries lower upper)
              (construct_residual_graph_min_flow edges lower upper)
              sink source strat sfuel OW
              (construct_residual_graph_min_flow_with edges lower upper)
              (fun flow e f xy => min_flow_entries_value_int edges lower upper flow e f xy IB)
              (fun flow e B => min_flow_entries_total edges lower upper _ _ flow e IB B))
    with (fuel := fuel) (start := F) as (flow & R & Keys & B).
  - intros e I. destruct (IB e I) as (lo & up & L & _ & Rg).
    unfold value_of. rewrite L. simpl. lia.
  - intros e I _. apply (int_bounds_upper_int edges lower upper IB e I).
  - intros fl re rc p Bd H _ _.
    apply (finite_when_int edges (fun e => int_of (value_of lower e)) (value_of upper)
             (min_flow_entries lower upper)
             (construct_residual_graph_min_flow edges lower upper)
             OW (construct_residual_graph_min_flow_with edges lower upper)
             (fun flow e f xy => min_flow_entries_value_int edges lower upper flow e f xy IB)
             fl re rc p (int_bounds_upper_int edges lower upper IB) Bd H).
  - apply not_eq_sym. exact NE.
  - apply (Nat.le_trans _ (search_fuel strat (2 * (List.length edges
                             + 2 * List.length nodes + 1)))); [|assumption].
    apply search_fuel_mono. unfold edge in *. lia.
  - exact KeysF.
  - exact BF.
  - lia.
  - exists flow, (- net_out (flow_at flow) edges sink).
    split; [|split; [exact Keys|split; [exact B|split; [reflexivity|]]]].
    + unfold minimum_flow. rewrite C. cbn [bind]. unfold ford_fulkerson_min_flow.
      rewrite R. reflexivity.
    + intros NoFlow Cons. apply (NoFlow (flow_at flow)). split; [|exact Cons].
      intros e I. destruct (B e I) as (f & Ef & L & U).
      destruct (IB e I) as (lo & up & Hl & Hu & _).
      unfold flow_at, value_of in *. rewrite Ef, Hl. rewrite Hl in L. rewrite Hu in *.
      simpl in *. lia.
Qed.

Lemma tight_chain_int_bounds :
  int_bounds Examples.chain_edges Examples.tight_chain_lower Examples.tight_chain_upper.
Proof.
  intros e I. simpl in I.
  repeat match goal with
  | H : _ \/ _ |- _ => destruct H
  | H : False |- _ => destruct H
  end; subst; eexists; eexists;
    (split; [reflexivity | split; [reflexivity | lia]]).
Qed.

(** No flow within the tight bounds is conserved at the inner node. *)
Lemma tight_chain_infeasible :
  forall g, ~ feasible_for Examples.chain_edges Examples.tight_chain_lower
                Examples.tight_chain_upper "s"%string "t"%string g.
Proof.
  intros g [B C].
  assert (B1 := proj1 (B ("s", "a")%string ltac:(simpl; auto))).
  assert (B2 := proj2 (B ("a", "t")%string ltac:(simpl; auto))).
  specialize (C "a"%string ltac:(discriminate) ltac:(discriminate)).
  change (flow_at Examples.tight_chain_lower ("s", "a")%string) with 2 in B1.
  change (flow_at Examples.tight_chain_upper ("a", "t")%string) with 1 in B2.
  unfold net_out in C.
  change Examples.chain_edges with [("s", "a"); ("a", "t")]%string in C.
  cbn [wsum] in C. unfold sgn in C. cbn [fst snd] in C.
  repeat match type of C with
    | context [node_eq_dec ?a ?b] =>
        destruct (node_eq_dec a b); try discriminate; try congruence
    end.
  lia.
Qed.

Lemma minimum_flow_always_returns_witness :
  exists flow value,
    minimum_flow 6 Examples.chain_nodes Examples.chain_edges Examples.tight_chain_lower
      Examples.tight_chain_upper "s"%string "t"%string (search DepthFirst 38) None
    = Ok (flow, Int value)
    /\ ekeys flow = Examples.chain_edges
    /\ bounded Examples.chain_edges
         (fun e => int_of (value_of Examples.tight_chain_lower e))
         (value_of Examples.tight_chain_upper) flow
    /\ value = - net_out (flow_at flow) Examples.chain_edges "t"%string
    /\ ~ conserving (flow_at flow) Examples.chain_edges "s"%string "t"%string.
Proof.
  destruct (minimum_flow_always_returns DepthFirst 38 6 Examples.chain_nodes
              Examples.chain_edges Examples.tight_chain_lower
              Examples.tight_chain_upper "s"%string "t"%string)
    as (flow & value & R & K & B & V & N).
  - exact chain_min_flow_instance.
  - exact tight_chain_int_bounds.
  - reflexivity.
  - intros u v I. simpl in I.
    repeat match goal with
    | H : _ \/ _ |- _ => destruct H
    | H : (_, _) = (_, _) |- _ => inversion H; clear H; subst
    | H : False |- _ => destruct H
    end; simpl; auto.
  - simpl. auto.
  - simpl. auto.
  - vm_compute. lia.
  - vm_compute. lia.
  - exists flow, value. repeat split; try assumption.
    apply N. exact tight_chain_infeasible.
Defined.

(** ** Ints beyond the double range

    Where an int meets [inf], Python converts the int to a float, and
    raises [OverflowError] when it is [2**1024 - 2**970] or more in
    magnitude. These runs end there; the conditions on the size of the
    ints in the statements above keep them out. *)

Example construct_residual_graph_overflow :
  MaximumFlow.construct_residual_graph [("s", "t")%string]
    [(("s", "t")%string, PosInf)]
    [(("s", "t")%string, Int Examples.beyond_double)]
  = Err OverflowError.
Proof. vm_compute. reflexivity. Qed.

Example feasible_flow_overflow :
  feasible_flow 5 Examples.pair_nodes Examples.pair_edges
    [(("a", "b")%string, PosInf)] Examples.pair_supply (search BreadthFirst 9)
    (Some [(("a", "b")%string, Int Examples.beyond_double)])
  = Err OverflowError.
Proof. vm_compute. reflexivity. Qed.

Example ford_fulkerson_overflow :
  ford_fulkerson 5 [("a", "b"); ("b", "c")]%string [(("a", "b")%string, PosInf)]
    "a"%string "c"%string (search BreadthFirst 9)
    (Some [(("a", "b")%string, Int Examples.beyond_double); (("b", "c")%string, Int 0)])
  = Err OverflowError.
Proof. vm_compute. reflexivity. Qed.

Example bellman_ford_overflow :
  bellman_ford ["s"; "a"; "b"]%string [("a", "b")%string]
    [(("a", "b")%string, Int Examples.beyond_double)] "s"%string
  = Err OverflowError.
Proof. vm_compute. reflexivity. Qed.

Example minimum_flow_overflow :
  minimum_flow 6 Examples.chain_nodes Examples.chain_edges
    [(("s", "a")%string, Int Examples.beyond_double);
     (("a", "t")%string, Int Examples.beyond_double)]
    [(("s", "a")%string, Int (Examples.beyond_double + 5));
     (("a", "t")%string, Int (Examples.beyond_double + 5))]
    "s"%string "t"%string (search BreadthFirst 40) None
  = Err OverflowError.
Proof. vm_compute. reflexivity. Qed.

Example minimum_cost_flow_overflow :
  minimum_cost_flow 10 ["a"; "b"; "c"]%string [("b", "c"); ("a", "b")]%string
    (Examples.ints [("b", "c", 1); ("a", "b", 1)]%string)
    (Examples.ints [("b", "c", Examples.beyond_double); ("a", "b", 0)]%string)
    [("a", Int 1); ("b", Int 0); ("c", Int (-1))]%string
  = Err OverflowError.
Proof. vm_compute. reflexivity. Qed.
